(** * AnimatedVisualPlayer: the playback controller

    A shallow embedding of [dev/AnimatedVisualPlayer/AnimatedVisualPlayer.cpp]:
    the [AnimationPlay] object (one per play request) and the owner-level
    operations [PlayAsync], [Pause], [Resume], [SetProgress] and [Stop].

    Modelling conventions.
    - C++ [float] and [double] are IEEE 754 binary32 and binary64 numbers
      as the Standard Library specifies them ([SpecFloat]): signed zeros,
      infinities, a NaN, and every operation rounded to nearest, ties to
      even. Narrowing and promotion are the roundings between the formats.
    - [winrt::TimeSpan] is a signed count of 100ns ticks ([Z]).
    - [std::shared_ptr<AnimationPlay>] is an index into a heap of play
      objects held by the player state, so that [m_nowPlaying], the
      coroutine's [thisPlay] and [this] may alias the same object.
    - The [IsPlaying] dependency property notifies user code, which may
      call back into the player; the operations are parameterised by that
      notification handler.
    - The player state carries a trace of what has happened, which the
      code does not have, to state what an execution never does. *)

From stdpp Require Import base option list.
From Stdlib Require Import ZArith QArith Qabs Qpower Bool Lia Lqa.
From Stdlib Require Import Floats.SpecFloat.
Close Scope Q_scope.

(** ** Numbers *)

(** A [float] is a binary32 number and a [double] a binary64 number. Both
    are values of [spec_float]; what differs is the format an operation
    rounds to. *)
Definition float := spec_float.
Definition double := spec_float.

(** The arithmetic of [float]: 24 bits of precision, exponents below 128. *)
Module F32.
Definition prec : Z := 24.
Definition emax : Z := 128.
Definition add : float -> float -> float := SFadd prec emax.
Definition sub : float -> float -> float := SFsub prec emax.
Definition mul : float -> float -> float := SFmul prec emax.
Definition div : float -> float -> float := SFdiv prec emax.
Definition opp : float -> float := SFopp.
(** The [float] nearest to an integer: an integer literal or an integer
    value converted to [float]. *)
Definition of_Z (n : Z) : float := binary_normalize prec emax n 0 false.
Definition zero : float := S754_zero false.
Definition one : float := of_Z 1.
Definition two : float := of_Z 2.
(** What is a binary32 number: infinities, NaN, zeros, and the finite
    numbers with a canonical mantissa and exponent. *)
Definition valid (x : float) : bool := valid_binary prec emax x.
End F32.

(** The arithmetic of [double]: 53 bits of precision, exponents below
    1024. *)
Module F64.
Definition prec : Z := 53.
Definition emax : Z := 1024.
Definition div : double -> double -> double := SFdiv prec emax.
Definition opp : double -> double := SFopp.
Definition of_Z (n : Z) : double := binary_normalize prec emax n 0 false.
Definition zero : double := S754_zero false.
Definition one : double := of_Z 1.
(** The decimal literal with the value [a/b], for integers that are
    themselves [double]s: the [double] nearest to the quotient. *)
Definition ratio (a b : Z) : double := div (of_Z a) (of_Z b).
Definition valid (x : double) : bool := valid_binary prec emax x.
End F64.

(** [std::numeric_limits<T>::quiet_NaN()], in either format. *)
Definition NaN : spec_float := S754_nan.

(** [static_cast<float>(double)]: rounding to binary32. *)
Definition static_cast_float (x : double) : float :=
  match x with
  | S754_finite s m e => binary_round F32.prec F32.emax s m e
  | _ => x
  end.

(** The implicit promotion of a [float] to [double], which is exact: the
    same number in the binary64 format. *)
Definition promote_double (x : float) : double :=
  match x with
  | S754_finite s m e => binary_round F64.prec F64.emax s m e
  | _ => x
  end.

(** [std::clamp(v, lo, hi)]: [(v < lo) ? lo : (hi < v) ? hi : v]. *)
Definition clamp (v lo hi : float) : float :=
  if SFltb v lo then lo else if SFltb hi v then hi else v.

(** [0 <= v <= 1] on [float]s; it fails for a NaN. *)
Definition in_unit_range (v : float) : bool :=
  SFleb F32.zero v && SFleb v F32.one.

(** [FLT_EPSILON] is 2^-23. *)
Definition FLT_EPSILON : float :=
  binary_normalize F32.prec F32.emax 1 (-23) false.

(** [winrt::TimeSpan]: ticks of 100 nanoseconds, a 64-bit count. *)
Definition TimeSpan := Z.

(** [20ms] as a [TimeSpan]. *)
Definition ms20 : TimeSpan := 200000%Z.

(** What the conversion of a [float] to a 64-bit integer gives when the
    value is a NaN, an infinity or beyond the 64-bit range. C++ leaves
    that conversion undefined; the conversion instruction of x64 gives the
    most negative integer, which is the value taken here. *)
Definition integer_indefinite : Z := (- 2 ^ 63)%Z.

(** [std::chrono::duration_cast<winrt::TimeSpan>] of a tick count held in
    a [float]: the conversion to a 64-bit integer, truncating toward
    zero. *)
Definition duration_cast (ticks : float) : TimeSpan :=
  match ticks with
  | S754_zero _ => 0%Z
  | S754_finite s m e =>
      let n := cond_Zopp s (Z.shiftl (Zpos m) e) in
      if ((- 2 ^ 63 <=? n) && (n <? 2 ^ 63))%Z then n else integer_indefinite
  | _ => integer_indefinite
  end.

(** [TimeSpan * float]: the tick count converted to [float] and
    multiplied in [float]. *)
Definition TimeSpan_mul (d : TimeSpan) (x : float) : float :=
  F32.mul (F32.of_Z d) x.

(** ** The composition layer, at its interface *)

(** The [AnimationController] of the animation bound to [Progress]. *)
Record AnimationController := mkController {
  ac_IsPaused : bool;
  ac_PlaybackRate : float;
  ac_Progress : float
}.

Definition new_controller : AnimationController :=
  mkController false F32.one F32.zero.

Definition ac_Pause (c : AnimationController) : AnimationController :=
  mkController true (ac_PlaybackRate c) (ac_Progress c).
Definition ac_Resume (c : AnimationController) : AnimationController :=
  mkController false (ac_PlaybackRate c) (ac_Progress c).
Definition ac_set_PlaybackRate (r : float) (c : AnimationController) :=
  mkController (ac_IsPaused c) r (ac_Progress c).
Definition ac_set_Progress (p : float) (c : AnimationController) :=
  mkController (ac_IsPaused c) (ac_PlaybackRate c) p.

Inductive AnimationIterationBehavior :=
| Forever
| Count (n : nat).

(** A [ScalarKeyFrameAnimation]: duration, key frames (normalized time,
    value) in insertion order, and iteration behavior. *)
Record ScalarKeyFrameAnimation := mkAnimation {
  anim_Duration : TimeSpan;
  anim_KeyFrames : list (float * float);
  anim_IterationBehavior : AnimationIterationBehavior
}.

(** The [Progress] scalar of [m_progressPropertySet]: the last value
    inserted and the animation currently driving it, if any. *)
Record CompositionPropertySet := mkPropertySet {
  ps_Progress : float;
  ps_Animation : option ScalarKeyFrameAnimation
}.

(** [InsertScalar(L"Progress", v)] replaces the value and stops any
    animation on the property. *)
Definition InsertScalar (v : float) (_ : CompositionPropertySet) :=
  mkPropertySet v None.

(** [StartAnimation(L"Progress", a)]. *)
Definition StartAnimation (a : ScalarKeyFrameAnimation)
    (ps : CompositionPropertySet) :=
  mkPropertySet (ps_Progress ps) (Some a).

(** A smart pointer or composition object tested as a condition. *)
Definition non_null {A : Type} (o : option A) : bool :=
  match o with Some _ => true | None => false end.

(** ** AnimationPlay *)

Record AnimationPlay := mkPlay {
  m_fromProgress : float;
  m_toProgress : float;
  m_looped : bool;
  m_playDuration : TimeSpan;
  m_isPaused : bool;
  m_isPausedBecauseHidden : bool;
  m_controller : option AnimationController;
  (** [m_batch] is non-null *)
  m_batch : bool;
  (** [m_batchCompletedToken] is registered *)
  m_batchCompletedToken : bool;
  (** the awaitable base: [CompleteAwaits] has been called *)
  awaits_completed : bool
}.

Definition set_m_isPaused (v : bool) (p : AnimationPlay) :=
  mkPlay (m_fromProgress p) (m_toProgress p) (m_looped p) (m_playDuration p)
    v (m_isPausedBecauseHidden p) (m_controller p) (m_batch p)
    (m_batchCompletedToken p) (awaits_completed p).
Definition set_m_isPausedBecauseHidden (v : bool) (p : AnimationPlay) :=
  mkPlay (m_fromProgress p) (m_toProgress p) (m_looped p) (m_playDuration p)
    (m_isPaused p) v (m_controller p) (m_batch p)
    (m_batchCompletedToken p) (awaits_completed p).
Definition set_m_controller (v : option AnimationController)
    (p : AnimationPlay) :=
  mkPlay (m_fromProgress p) (m_toProgress p) (m_looped p) (m_playDuration p)
    (m_isPaused p) (m_isPausedBecauseHidden p) v (m_batch p)
    (m_batchCompletedToken p) (awaits_completed p).
Definition set_m_batch (v : bool) (p : AnimationPlay) :=
  mkPlay (m_fromProgress p) (m_toProgress p) (m_looped p) (m_playDuration p)
    (m_isPaused p) (m_isPausedBecauseHidden p) (m_controller p) v
    (m_batchCompletedToken p) (awaits_completed p).
Definition set_m_batchCompletedToken (v : bool) (p : AnimationPlay) :=
  mkPlay (m_fromProgress p) (m_toProgress p) (m_looped p) (m_playDuration p)
    (m_isPaused p) (m_isPausedBecauseHidden p) (m_controller p) (m_batch p)
    v (awaits_completed p).
Definition set_awaits_completed (v : bool) (p : AnimationPlay) :=
  mkPlay (m_fromProgress p) (m_toProgress p) (m_looped p) (m_playDuration p)
    (m_isPaused p) (m_isPausedBecauseHidden p) (m_controller p) (m_batch p)
    (m_batchCompletedToken p) v.

(** The progress span of a play: [fromProgress..end + start..toProgress]
    when it wraps, [toProgress - fromProgress] otherwise. *)
Definition durationAsProgress (fromProgress toProgress : float) : float :=
  if SFltb toProgress fromProgress
  then F32.add (F32.sub F32.one fromProgress) toProgress
  else F32.sub toProgress fromProgress.

(** The constructor; [ownerDuration] is [m_owner.Duration()]. *)
Definition AnimationPlay_new (ownerDuration : TimeSpan)
    (fromProgress toProgress : float) (looped : bool) : AnimationPlay :=
  mkPlay fromProgress toProgress looped
    (duration_cast
       (TimeSpan_mul ownerDuration
          (durationAsProgress fromProgress toProgress)))
    false false None false false false.

Definition FromProgress (p : AnimationPlay) : float := m_fromProgress p.

(** [m_controller.Pause()] / [m_controller.Resume()] on the play's
    controller. *)
Definition controller_Pause (p : AnimationPlay) : AnimationPlay :=
  set_m_controller (ac_Pause <$> m_controller p) p.
Definition controller_Resume (p : AnimationPlay) : AnimationPlay :=
  set_m_controller (ac_Resume <$> m_controller p) p.

(** [m_controller.PlaybackRate(r)] / [m_controller.Progress(v)]. *)
Definition controller_PlaybackRate (r : float) (p : AnimationPlay) :=
  set_m_controller (ac_set_PlaybackRate r <$> m_controller p) p.
Definition controller_Progress (v : float) (p : AnimationPlay) :=
  set_m_controller (ac_set_Progress v <$> m_controller p) p.

Module Play.

(** [AnimationPlay::SetPlaybackRate]. *)
Definition SetPlaybackRate (value : float) (p : AnimationPlay) :=
  if non_null (m_controller p) then controller_PlaybackRate value p else p.

(** [AnimationPlay::OnHiding]. *)
Definition OnHiding (p : AnimationPlay) : AnimationPlay :=
  if negb (m_isPausedBecauseHidden p) then
    let p := set_m_isPausedBecauseHidden true p in
    if non_null (m_controller p) then
      if negb (m_isPaused p) then controller_Pause p else p
    else p
  else p.

(** [AnimationPlay::OnUnhiding]. *)
Definition OnUnhiding (p : AnimationPlay) : AnimationPlay :=
  if m_isPausedBecauseHidden p then
    let p := set_m_isPausedBecauseHidden false p in
    if non_null (m_controller p) then
      if negb (m_isPaused p) then controller_Resume p else p
    else p
  else p.

(** [AnimationPlay::Pause]. *)
Definition Pause (p : AnimationPlay) : AnimationPlay :=
  let p := set_m_isPaused true p in
  if non_null (m_controller p) then
    if negb (m_isPausedBecauseHidden p) then controller_Pause p else p
  else p.

(** [AnimationPlay::Resume]. *)
Definition Resume (p : AnimationPlay) : AnimationPlay :=
  let p := set_m_isPaused false p in
  if non_null (m_controller p) then
    if negb (m_isPausedBecauseHidden p) then controller_Resume p else p
  else p.

End Play.

(** ** AnimatedVisualPlayer *)

(** What an execution leaves behind, most recent first. *)
Inductive Event :=
| EvIsPlaying (value : bool)          (* the IsPlaying(value) setter ran *)
| EvInsertScalar (value : float)      (* Progress was written directly *)
| EvStartAnimation (play : nat)       (* a play started its animation *)
| EvCompleteAwaits (play : nat)       (* a play released its awaiters *)
| EvNowPlaying (play : nat)           (* m_nowPlaying was assigned a new play *)
| EvAssertFailed.                     (* a MUX_ASSERT did not hold *)

Record AnimatedVisualPlayer := mkPlayer {
  (** [SharedHelpers::IsRS5OrHigher()]: a fact about the OS release *)
  IsRS5OrHigher : bool;
  (** incremented once per [PlayAsync] call; taken unbounded *)
  m_playAsyncVersion : nat;
  m_nowPlaying : option nat;
  m_currentPlayFromProgress : double;
  m_progressPropertySet : CompositionPropertySet;
  (** dependency properties *)
  IsPlaying : bool;
  Duration : TimeSpan;
  PlaybackRate : double;
  IsAnimatedVisualLoaded : bool;
  (** the [AnimationPlay] objects allocated so far *)
  plays : list AnimationPlay;
  trace : list Event
}.

Definition set_m_playAsyncVersion (v : nat) (s : AnimatedVisualPlayer) :=
  mkPlayer (IsRS5OrHigher s) v (m_nowPlaying s) (m_currentPlayFromProgress s)
    (m_progressPropertySet s) (IsPlaying s) (Duration s) (PlaybackRate s)
    (IsAnimatedVisualLoaded s) (plays s) (trace s).
Definition set_m_nowPlaying (v : option nat) (s : AnimatedVisualPlayer) :=
  mkPlayer (IsRS5OrHigher s) (m_playAsyncVersion s) v
    (m_currentPlayFromProgress s)
    (m_progressPropertySet s) (IsPlaying s) (Duration s) (PlaybackRate s)
    (IsAnimatedVisualLoaded s) (plays s) (trace s).
Definition set_m_progressPropertySet (v : CompositionPropertySet)
    (s : AnimatedVisualPlayer) :=
  mkPlayer (IsRS5OrHigher s) (m_playAsyncVersion s) (m_nowPlaying s)
    (m_currentPlayFromProgress s)
    v (IsPlaying s) (Duration s) (PlaybackRate s)
    (IsAnimatedVisualLoaded s) (plays s) (trace s).
Definition set_IsPlaying (v : bool) (s : AnimatedVisualPlayer) :=
  mkPlayer (IsRS5OrHigher s) (m_playAsyncVersion s) (m_nowPlaying s)
    (m_currentPlayFromProgress s)
    (m_progressPropertySet s) v (Duration s) (PlaybackRate s)
    (IsAnimatedVisualLoaded s) (plays s) (trace s).
Definition set_PlaybackRate (v : double) (s : AnimatedVisualPlayer) :=
  mkPlayer (IsRS5OrHigher s) (m_playAsyncVersion s) (m_nowPlaying s)
    (m_currentPlayFromProgress s)
    (m_progressPropertySet s) (IsPlaying s) (Duration s) v
    (IsAnimatedVisualLoaded s) (plays s) (trace s).
Definition set_plays (v : list AnimationPlay) (s : AnimatedVisualPlayer) :=
  mkPlayer (IsRS5OrHigher s) (m_playAsyncVersion s) (m_nowPlaying s)
    (m_currentPlayFromProgress s)
    (m_progressPropertySet s) (IsPlaying s) (Duration s) (PlaybackRate s)
    (IsAnimatedVisualLoaded s) v (trace s).
Definition emit (e : Event) (s : AnimatedVisualPlayer) :=
  mkPlayer (IsRS5OrHigher s) (m_playAsyncVersion s) (m_nowPlaying s)
    (m_currentPlayFromProgress s)
    (m_progressPropertySet s) (IsPlaying s) (Duration s) (PlaybackRate s)
    (IsAnimatedVisualLoaded s) (plays s) (e :: trace s).

(** Apply a member function to the play object [this] points to. *)
Definition on_play (this : nat) (f : AnimationPlay -> AnimationPlay)
    (s : AnimatedVisualPlayer) : AnimatedVisualPlayer :=
  set_plays (alter f this (plays s)) s.

(** [MUX_ASSERT(cond)]. *)
Definition MUX_ASSERT (cond : bool) (s : AnimatedVisualPlayer) :=
  if cond then s else emit EvAssertFailed s.

(** The progress value an external reader observes. *)
Definition Progress (s : AnimatedVisualPlayer) : float :=
  ps_Progress (m_progressPropertySet s).

(** What the coroutine [PlayAsync] has done when it hands control back:
    it ran to [co_return], or it is suspended in [co_await *thisPlay],
    to be resumed when that play releases its awaiters. *)
Inductive IAsyncAction :=
| Returned
| AwaitingPlay (thisPlay : nat).

(** The key frames [Start] inserts for a play. *)
Definition key_frames (p : AnimationPlay) : list (float * float) :=
  [(F32.zero, m_fromProgress p)]
  ++ (if SFltb (m_toProgress p) (m_fromProgress p) then
        let timeToEnd :=
          F32.div (F32.sub F32.one (m_fromProgress p))
            (F32.add (F32.sub F32.one (m_fromProgress p)) (m_toProgress p)) in
        [(timeToEnd, F32.one); (F32.add timeToEnd FLT_EPSILON, F32.zero)]
      else [])
  ++ [(F32.one, m_toProgress p)].

Section Operations.

(** User code subscribed to changes of the [IsPlaying] property: called
    by the property setter with the previous and the new value. *)
Variable OnIsPlayingChanged :
  bool -> bool -> AnimatedVisualPlayer -> AnimatedVisualPlayer.

(** Modelled from the spec: the generated property setter
    [IsPlaying(value)], which is not part of this file. It stores the
    externally observable flag and runs the property-changed callbacks of
    user code, through which the player can be re-entered. The subscriber
    is told the previous value, so it may ignore a write that changes
    nothing. *)
Definition put_IsPlaying (value : bool) (s : AnimatedVisualPlayer) :=
  let old := IsPlaying s in
  OnIsPlayingChanged old value
    (emit (EvIsPlaying value) (set_IsPlaying value s)).

(** [AnimationPlay::IsCurrentPlay]. *)
Definition IsCurrentPlay (this : nat) (s : AnimatedVisualPlayer) : bool :=
  match m_nowPlaying s with
  | Some cur => Nat.eqb cur this
  | None => false
  end.

(** Modelled from the spec: [CompleteAwaits] of the awaitable base class,
    which is declared in the header: it releases any waiters on the
    asynchronous handle of the play. *)
Definition CompleteAwaits (this : nat) (s : AnimatedVisualPlayer) :=
  emit (EvCompleteAwaits this) (on_play this (set_awaits_completed true) s).

(** [AnimationPlay::Complete]. *)
Definition Complete (this : nat) (s : AnimatedVisualPlayer) :=
  (* Unsubscribe from batch.Completed. *)
  let s := on_play this
             (fun p => if m_batch p
                       then set_m_batchCompletedToken false p else p)
             s in
  let s :=
    if IsCurrentPlay this s then
      (* Disconnect from the player, then update IsPlaying. *)
      put_IsPlaying false (set_m_nowPlaying None s)
    else s in
  CompleteAwaits this s.

(** [AnimatedVisualPlayer::SetProgress]. *)
Definition SetProgress (progress : double) (s : AnimatedVisualPlayer) :=
  if negb (IsRS5OrHigher s) then s else
  let clampedProgress :=
    clamp (static_cast_float progress) F32.zero F32.one in
  let s := emit (EvInsertScalar clampedProgress)
             (set_m_progressPropertySet
                (InsertScalar clampedProgress (m_progressPropertySet s)) s) in
  match m_nowPlaying s with
  | Some cur => Complete cur s
  | None => s
  end.

(** [AnimationPlay::Start]. *)
Definition Start (this : nat) (s : AnimatedVisualPlayer) :=
  match plays s !! this with
  | None => s
  | Some p =>
    let s := MUX_ASSERT (negb (non_null (m_controller p))) s in
    if (m_playDuration p <? ms20)%Z then
      (* Nothing to play. Jump to the from position. *)
      SetProgress (promote_double (m_fromProgress p)) s
    else
      let animation :=
        mkAnimation (m_playDuration p) (key_frames p)
          (if m_looped p then Forever else Count 1) in
      let s := on_play this (set_m_batch (negb (m_looped p))) s in
      let s := emit (EvStartAnimation this)
                 (set_m_progressPropertySet
                    (StartAnimation animation (m_progressPropertySet s)) s) in
      let s := on_play this (set_m_controller (Some new_controller)) s in
      let s := if m_isPaused p || m_isPausedBecauseHidden p
               then on_play this controller_Pause s else s in
      let playbackRate := static_cast_float (PlaybackRate s) in
      let s := on_play this (controller_PlaybackRate playbackRate) s in
      let s := if SFltb playbackRate F32.zero
               then on_play this (controller_Progress F32.one) s
               else s in
      let s := if negb (m_looped p)
               then on_play this (set_m_batchCompletedToken true) s else s in
      put_IsPlaying true s
  end.

(** [AnimatedVisualPlayer::Stop]. *)
Definition Stop (s : AnimatedVisualPlayer) :=
  if negb (IsRS5OrHigher s) then s else
  if non_null (m_nowPlaying s)
  then SetProgress (m_currentPlayFromProgress s) s
  else s.

(** [AnimatedVisualPlayer::CompleteCurrentPlay]. *)
Definition CompleteCurrentPlay (s : AnimatedVisualPlayer) :=
  let s := match m_nowPlaying s with
           | Some cur => Complete cur s
           | None => s
           end in
  MUX_ASSERT (negb (non_null (m_nowPlaying s))) s.

(** The two boundary adjustments of [PlayAsync], on its [double]
    arguments: the pair (fromProgress, toProgress) afterwards. *)
Definition adjust_range (fromProgress toProgress : double) : double * double :=
  let toProgress :=
    if SFeqb toProgress F64.zero && SFltb F64.zero fromProgress
    then F64.one else toProgress in
  let fromProgress :=
    if SFltb F64.zero toProgress && SFeqb fromProgress F64.one
    then F64.zero else fromProgress in
  (fromProgress, toProgress).

(** [AnimatedVisualPlayer::PlayAsync], up to its first suspension. *)
Definition PlayAsync (fromProgress toProgress : double) (looped : bool)
    (s : AnimatedVisualPlayer) : AnimatedVisualPlayer * IAsyncAction :=
  if negb (IsRS5OrHigher s) then (s, Returned) else
  (* Used to detect reentrance. *)
  let version := S (m_playAsyncVersion s) in
  let s := set_m_playAsyncVersion version s in
  let s := Stop s in
  if negb (Nat.eqb version (m_playAsyncVersion s)) then (s, Returned) else
  let s := CompleteCurrentPlay s in
  let '(fromProgress, toProgress) := adjust_range fromProgress toProgress in
  let thisPlay := length (plays s) in
  let s := set_plays
             (plays s ++
              [AnimationPlay_new (Duration s)
                 (clamp (static_cast_float fromProgress) F32.zero F32.one)
                 (clamp (static_cast_float toProgress) F32.zero F32.one)
                 looped]) s in
  let s := emit (EvNowPlaying thisPlay) (set_m_nowPlaying (Some thisPlay) s) in
  let s := if IsAnimatedVisualLoaded s then Start thisPlay s else s in
  (s, AwaitingPlay thisPlay).

(** [AnimatedVisualPlayer::Pause]. *)
Definition Pause (s : AnimatedVisualPlayer) :=
  if negb (IsRS5OrHigher s) then s else
  match m_nowPlaying s with
  | Some cur => on_play cur Play.Pause s
  | None => s
  end.

(** [AnimatedVisualPlayer::Resume]. *)
Definition Resume (s : AnimatedVisualPlayer) :=
  if negb (IsRS5OrHigher s) then s else
  match m_nowPlaying s with
  | Some cur => on_play cur Play.Resume s
  | None => s
  end.

(** [AnimatedVisualPlayer::OnHiding]. *)
Definition OnHiding (s : AnimatedVisualPlayer) :=
  match m_nowPlaying s with
  | Some cur => on_play cur Play.OnHiding s
  | None => s
  end.

(** [AnimatedVisualPlayer::OnUnhiding]. *)
Definition OnUnhiding (s : AnimatedVisualPlayer) :=
  match m_nowPlaying s with
  | Some cur => on_play cur Play.OnUnhiding s
  | None => s
  end.

(** [AnimatedVisualPlayer::OnPlaybackRatePropertyChanged], with the new
    value of the property. *)
Definition OnPlaybackRatePropertyChanged (newValue : double)
    (s : AnimatedVisualPlayer) :=
  match m_nowPlaying s with
  | Some cur =>
      on_play cur (Play.SetPlaybackRate (static_cast_float newValue)) s
  | None => s
  end.

(** A write of the [PlaybackRate] property: the value is stored and the
    change callback runs. *)
Definition put_PlaybackRate (value : double) (s : AnimatedVisualPlayer) :=
  OnPlaybackRatePropertyChanged value (set_PlaybackRate value s).

(** The lambda [Start] subscribes to [m_batch.Completed]: the compositor
    raises it for a play whose token is still registered. *)
Definition BatchCompleted (play : nat) (s : AnimatedVisualPlayer) :=
  match plays s !! play with
  | Some p => if m_batchCompletedToken p then Complete play s else s
  | None => s
  end.

End Operations.

(** ** Callers *)

(** The entry points a caller, the host or the compositor can reach. *)
Inductive Call :=
| CallPlayAsync (fromProgress toProgress : double) (looped : bool)
| CallPause
| CallResume
| CallSetProgress (progress : double)
| CallStop
| CallOnHiding
| CallOnUnhiding
| CallPlaybackRate (value : double)
| CallBatchCompleted (play : nat).

Definition Handler :=
  bool -> bool -> AnimatedVisualPlayer -> AnimatedVisualPlayer.

Definition invoke (h : Handler) (c : Call) (s : AnimatedVisualPlayer) :=
  match c with
  | CallPlayAsync f t l => fst (PlayAsync h f t l s)
  | CallPause => Pause s
  | CallResume => Resume s
  | CallSetProgress p => SetProgress h p s
  | CallStop => Stop h s
  | CallOnHiding => OnHiding s
  | CallOnUnhiding => OnUnhiding s
  | CallPlaybackRate value => put_PlaybackRate value s
  | CallBatchCompleted play => BatchCompleted h play s
  end.

(** A caller as a program: it is done, or makes a call and goes on
    according to the player it then observes. *)
Inductive Script :=
| Done
| Then (c : Call) (next : AnimatedVisualPlayer -> Script).

Fixpoint run (h : Handler) (caller : Script) (s : AnimatedVisualPlayer)
    : AnimatedVisualPlayer :=
  match caller with
  | Done => s
  | Then c next => let s' := invoke h c s in run h (next s') s'
  end.

(** The caller that makes the given calls one after the other. *)
Fixpoint calls (cs : list Call) : Script :=
  match cs with
  | [] => Done
  | c :: cs => Then c (fun _ => calls cs)
  end.

(** Nobody is subscribed to [IsPlaying] changes. *)
Definition no_subscriber : Handler := fun _ _ s => s.

(** User code reacting to an [IsPlaying] change: from the nesting depth
    left, the old and new value and the player as it observes it (its
    trace included), what it goes on to do. *)
Definition Reaction :=
  nat -> bool -> bool -> AnimatedVisualPlayer -> Script.

(** The subscriber running [react], whose own calls notify it again, to
    the given nesting depth. *)
Fixpoint reentrant (react : Reaction) (depth : nat) : Handler :=
  match depth with
  | O => no_subscriber
  | S d => fun old new s => run (reentrant react d) (react d old new s) s
  end.

(** A player just constructed, on a supported OS, with content of the
    given duration loaded; [fromProgress0] is the declared initial value
    of [m_currentPlayFromProgress]. *)
Definition loaded_player (duration : TimeSpan) (fromProgress0 : double) :=
  mkPlayer true 0 None fromProgress0 (mkPropertySet F32.zero None)
    false duration F64.one true [] [].

(** One second, in ticks. *)
Definition second : TimeSpan := 10000000%Z.

(** ** Pause sources of a play *)

(** The four pause-related member functions of [AnimationPlay]. *)
Inductive PauseCall := DoPause | DoResume | DoOnHiding | DoOnUnhiding.

Definition pause_call (c : PauseCall) : AnimationPlay -> AnimationPlay :=
  match c with
  | DoPause => Play.Pause
  | DoResume => Play.Resume
  | DoOnHiding => Play.OnHiding
  | DoOnUnhiding => Play.OnUnhiding
  end.

Definition pause_calls (cs : list PauseCall) (p : AnimationPlay) :=
  foldl (fun p c => pause_call c p) p cs.

(** Whether the user holds the play paused after the calls: what the
    last [Pause] or [Resume] asked for. *)
Definition user_pause_after (cs : list PauseCall) (before : bool) : bool :=
  foldl (fun b c => match c with
                    | DoPause => true
                    | DoResume => false
                    | _ => b
                    end) before cs.

(** Whether visibility holds the play paused after the calls: what the
    last [OnHiding] or [OnUnhiding] asked for. *)
Definition hidden_after (cs : list PauseCall) (before : bool) : bool :=
  foldl (fun b c => match c with
                    | DoOnHiding => true
                    | DoOnUnhiding => false
                    | _ => b
                    end) before cs.

(** The time driver of a started play is suspended exactly when one of
    the two pause sources is set. *)
Definition pause_rule (p : AnimationPlay) : Prop :=
  forall c, m_controller p = Some c ->
    ac_IsPaused c = m_isPaused p || m_isPausedBecauseHidden p.

(** Every play the player has allocated obeys the rule. *)
Definition ruled (s : AnimatedVisualPlayer) : Prop :=
  forall id p, plays s !! id = Some p -> pause_rule p.

(** ** How the player state evolves *)

(** What a play was requested with, which no member function changes. *)
Definition same_request (p p' : AnimationPlay) : Prop :=
  m_fromProgress p' = m_fromProgress p /\
  m_toProgress p' = m_toProgress p /\
  m_looped p' = m_looped p /\
  m_playDuration p' = m_playDuration p.

(** [s'] comes after [s]: the environment is the same, the version
    counter has not gone back, and every play of [s] is still there with
    its request, completed if it was. *)
Record extends (s s' : AnimatedVisualPlayer) : Prop := {
  ext_rs5 : IsRS5OrHigher s' = IsRS5OrHigher s;
  ext_from0 : m_currentPlayFromProgress s' = m_currentPlayFromProgress s;
  ext_version : (m_playAsyncVersion s <= m_playAsyncVersion s')%nat;
  ext_plays : forall id p, plays s !! id = Some p ->
    exists p', plays s' !! id = Some p' /\ same_request p p' /\
               (awaits_completed p = true -> awaits_completed p' = true)
}.

(** ... and, unless the version counter moved, no play was installed. *)
Definition evolves (s s' : AnimatedVisualPlayer) : Prop :=
  extends s s' /\
  (m_playAsyncVersion s' = m_playAsyncVersion s ->
   m_nowPlaying s' = None \/ m_nowPlaying s' = m_nowPlaying s).

(** A member function that leaves the request alone and never takes a
    completion back. *)
Definition steady (f : AnimationPlay -> AnimationPlay) : Prop :=
  forall p, same_request p (f p) /\
            (awaits_completed p = true -> awaits_completed (f p) = true).

(** A member function that leaves the completion signal alone. *)
Definition quiet (f : AnimationPlay -> AnimationPlay) : Prop :=
  forall p, awaits_completed (f p) = awaits_completed p.

Definition frames (h : Handler) : Prop :=
  forall old new s, evolves s (h old new s).

(** ** The single-play invariant *)

(** [pending] holds of the plays that are in the middle of [Complete]:
    disconnected from the player, awaiters not yet released. *)
Record invariant (pending : nat -> Prop) (s : AnimatedVisualPlayer) : Prop := {
  (** the current play is allocated and has not completed *)
  inv_current : forall cur, m_nowPlaying s = Some cur ->
    ~ pending cur /\
    exists p, plays s !! cur = Some p /\ awaits_completed p = false;
  (** a play that has not completed is the current one, or is completing *)
  inv_single : forall id p, plays s !! id = Some p ->
    awaits_completed p = false -> m_nowPlaying s = Some id \/ pending id;
  inv_pending : forall id, pending id -> (id < length (plays s))%nat;
  (** [IsPlaying] is only set while a play is current *)
  inv_playing : IsPlaying s = true -> m_nowPlaying s <> None;
  (** no assertion has failed *)
  inv_asserts : EvAssertFailed ∉ trace s
}.

Definition keeps (h : Handler) : Prop :=
  forall old new pending s,
    invariant pending s -> invariant pending (h old new s).

Definition nothing_pending : nat -> Prop := fun _ => False.

(** ** The order of clamping and adjusting, as specified *)

(** The two boundary adjustments as the specification words them, on
    values already clamped and narrowed to [float]. *)
Definition adjust_clamped (fromProgress toProgress : float) : float * float :=
  let toProgress :=
    if SFeqb toProgress F32.zero && SFltb F32.zero fromProgress
    then F32.one else toProgress in
  let fromProgress :=
    if SFltb F32.zero toProgress && SFeqb fromProgress F32.one
    then F32.zero else fromProgress in
  (fromProgress, toProgress).

(** The arguments of the play as the specification words them: both
    inputs are clamped to [0,1] first, and the two boundary adjustments
    are applied to the clamped values. *)
Definition clamp_then_adjust (fromProgress toProgress : double)
    : float * float :=
  adjust_clamped (clamp (static_cast_float fromProgress) F32.zero F32.one)
                 (clamp (static_cast_float toProgress) F32.zero F32.one).

(** The arguments of the play as [PlayAsync] computes them. *)
Definition adjust_then_clamp (fromProgress toProgress : double)
    : float * float :=
  let '(f, t) := adjust_range fromProgress toProgress in
  (clamp (static_cast_float f) F32.zero F32.one,
   clamp (static_cast_float t) F32.zero F32.one).

(** ** Reentrancy of [PlayAsync] *)

(** The player as a call of [PlayAsync] finds it when its [Stop]
    returns, having tagged itself with the next version. *)
Definition after_Stop (h : Handler) (s : AnimatedVisualPlayer) :=
  Stop h (set_m_playAsyncVersion (S (m_playAsyncVersion s)) s).

(** A nested request was issued while this call was in [Stop]. *)
Definition overtaken (h : Handler) (s : AnimatedVisualPlayer) : Prop :=
  m_playAsyncVersion (after_Stop h s) <> S (m_playAsyncVersion s).

(** The player at the point where [PlayAsync] assigns [m_nowPlaying]. *)
Definition before_install (h : Handler) (s : AnimatedVisualPlayer) :=
  CompleteCurrentPlay h (after_Stop h s).

(** User code that answers every end of a play by requesting a looping
    play of the whole range. *)
Definition restart_when_stopped : Reaction :=
  fun _ _ new _ =>
    if new then Done else calls [CallPlayAsync F64.zero F64.one true].

(** ** Concrete players *)

(** A looping play over the whole range is in progress. *)
Definition looping_player : AnimatedVisualPlayer :=
  fst (PlayAsync no_subscriber F64.zero F64.one true
         (loaded_player second F64.zero)).

(** A play requested with [fromProgress = 0.2] is in progress. *)
Definition playing_from_fifth : AnimatedVisualPlayer :=
  fst (PlayAsync no_subscriber (F64.ratio 2 10) (F64.ratio 8 10) false
         (loaded_player second F64.zero)).

(** A play in progress, neither source holding it paused. *)
Definition running_play : AnimationPlay :=
  mkPlay F32.zero F32.one false second false false (Some new_controller)
    true true false.

(** A player on an OS release below RS5. *)
Definition unsupported_player : AnimatedVisualPlayer :=
  mkPlayer false 0 None F64.zero
    (mkPropertySet (static_cast_float (F64.ratio 1 2)) None)
    false second F64.one true [] [].

(** A play over a thousandth of a one-second visual (1ms) has just been
    installed and is about to be started. *)
Definition short_play : AnimationPlay :=
  AnimationPlay_new second (static_cast_float (F64.ratio 1 2))
    (static_cast_float (F64.ratio 501 1000)) false.
Definition short_play_player : AnimatedVisualPlayer :=
  emit (EvNowPlaying 0)
    (set_m_nowPlaying (Some 0%nat)
       (set_plays [short_play] (loaded_player second F64.zero))).

(** A [double] between 0 and 1 that is too small for a [float]: 2^-200. *)
Definition tiny_double : double :=
  binary_normalize F64.prec F64.emax 1 (-200) false.

(** A request whose [toProgress] lies below the range. *)
Definition request_below_range (h : Handler) (looped : bool) :=
  PlayAsync h (F64.ratio 4 10) (F64.opp (F64.ratio 1 2)) looped
    (loaded_player second F64.zero).

(** ** Rounding, and the number a [float] stands for *)

(** What a record holds after [k] shifts of the mantissa [M]: the
    quotient, and where the remainder [low] lies in its interval. *)
Definition shifted (k M : Z) (r : shr_record) (low : Z) : Prop :=
  (0 <= shr_m r /\ M = shr_m r * 2 ^ k + low /\ 0 <= low < 2 ^ k /\
   match shr_r r, shr_s r with
   | false, false => low = 0
   | false, true => 0 < 2 * low < 2 ^ k
   | true, false => 2 * low = 2 ^ k
   | true, true => 2 ^ k < 2 * low
   end)%Z.

(** The number with mantissa [m] and exponent [e] after the overflow
    test of the rounding. *)
Definition pack (prec emax : Z) (s : bool) (m e : Z) : spec_float :=
  match m with
  | Z0 => S754_zero s
  | Zpos p =>
      if (e <=? emax - prec)%Z then S754_finite s p e else S754_infinity s
  | Zneg _ => S754_nan
  end.

(** The rational a number stands for; an infinity and a NaN stand for
    none, and are given 0. *)
Definition F2Q (x : spec_float) : Q :=
  match x with
  | S754_finite s m e => (inject_Z (cond_Zopp s (Zpos m)) * 2 ^ e)%Q
  | _ => 0%Q
  end.

(** Zero, or a positive finite number. *)
Definition nonneg_finite (x : spec_float) : bool :=
  match x with
  | S754_zero _ => true
  | S754_finite s _ _ => negb s
  | _ => false
  end.

(** [a] is [x] up to the relative error [eps]. *)
Definition near (eps a x : Q) : Prop :=
  (x * (1 - eps) <= a /\ a <= x * (1 + eps))%Q.

(** The relative error of one rounding to [float]: [2^-24]. *)
Definition float_eps : Q := 1 # 16777216.

(** * The rest of the player *)

(** ** What a started play looks like *)

(** The animation [Start] binds to [Progress] for a play. *)
Definition animation_of (p : AnimationPlay) : ScalarKeyFrameAnimation :=
  mkAnimation (m_playDuration p) (key_frames p)
    (if m_looped p then Forever else Count 1).

(** The current play has an animation controller: it was started and is
    animating. *)
Definition current_started (s : AnimatedVisualPlayer) : bool :=
  match m_nowPlaying s with
  | Some cur =>
      match plays s !! cur with
      | Some p => non_null (m_controller p)
      | None => false
      end
  | None => false
  end.

(** The flags of the plays agree with one another and with [IsPlaying];
    [pending] as in [invariant]. *)
Record coherent (pending : nat -> Prop) (s : AnimatedVisualPlayer) : Prop := {
  (** [IsPlaying] tells whether the current play is animating *)
  co_playing : IsPlaying s = current_started s;
  (** only a play with a batch that has not completed is subscribed *)
  co_token : forall id p, plays s !! id = Some p ->
    m_batchCompletedToken p = true ->
    m_batch p = true /\ awaits_completed p = false /\ ~ pending id;
  (** only a started play that does not loop has a batch *)
  co_batch : forall id p, plays s !! id = Some p ->
    m_batch p = true ->
    m_looped p = false /\ non_null (m_controller p) = true
}.

(** While the current play is animating, the animation on [Progress] is
    the one made for it. *)
Definition animated (s : AnimatedVisualPlayer) : Prop :=
  forall cur p, m_nowPlaying s = Some cur -> plays s !! cur = Some p ->
    non_null (m_controller p) = true ->
    ps_Animation (m_progressPropertySet s) = Some (animation_of p).

Definition sound (pending : nat -> Prop) (s : AnimatedVisualPlayer) : Prop :=
  invariant pending s /\ coherent pending s /\ animated s.

Definition keeps_sound (h : Handler) : Prop :=
  forall old new pending s, sound pending s -> sound pending (h old new s).

(** A member function that changes neither the request, nor the
    completion signal, nor whether the play has a controller, a batch or a
    registered token. *)
Definition neutral (f : AnimationPlay -> AnimationPlay) : Prop :=
  forall p,
    same_request p (f p) /\
    awaits_completed (f p) = awaits_completed p /\
    non_null (m_controller (f p)) = non_null (m_controller p) /\
    m_batch (f p) = m_batch p /\
    m_batchCompletedToken (f p) = m_batchCompletedToken p.

(** The player [Start] hands to the [IsPlaying] setter when the play [p]
    at [this] is long enough to animate. *)
Definition started (this : nat) (p : AnimationPlay)
    (s : AnimatedVisualPlayer) : AnimatedVisualPlayer :=
  let s := on_play this (set_m_batch (negb (m_looped p))) s in
  let s := emit (EvStartAnimation this)
             (set_m_progressPropertySet
                (StartAnimation (animation_of p) (m_progressPropertySet s))
                s) in
  let s := on_play this (set_m_controller (Some new_controller)) s in
  let s := if m_isPaused p || m_isPausedBecauseHidden p
           then on_play this controller_Pause s else s in
  let playbackRate := static_cast_float (PlaybackRate s) in
  let s := on_play this (controller_PlaybackRate playbackRate) s in
  let s := if SFltb playbackRate F32.zero
           then on_play this (controller_Progress F32.one) s
           else s in
  if negb (m_looped p)
  then on_play this (set_m_batchCompletedToken true) s else s.

(** The play object [Start] leaves at [this]. *)
Definition started_play (rate : double) (p : AnimationPlay) : AnimationPlay :=
  let paused := m_isPaused p || m_isPausedBecauseHidden p in
  let r := static_cast_float rate in
  mkPlay (m_fromProgress p) (m_toProgress p) (m_looped p) (m_playDuration p)
    (m_isPaused p) (m_isPausedBecauseHidden p)
    (Some (mkController paused r
             (if SFltb r F32.zero then F32.one else F32.zero)))
    (negb (m_looped p)) (negb (m_looped p) || m_batchCompletedToken p)
    (awaits_completed p).

(** [Progress] holds a value in [0,1], or the NaN that [std::clamp] lets
    through. *)
Definition ranged (s : AnimatedVisualPlayer) : Prop :=
  Progress s = NaN \/ in_unit_range (Progress s) = true.

(** The controller of the current play runs at the [PlaybackRate] of the
    player, and [Progress] holds a clamped value. *)
Definition tuned (s : AnimatedVisualPlayer) : Prop :=
  (forall cur p c, m_nowPlaying s = Some cur -> plays s !! cur = Some p ->
     m_controller p = Some c ->
     ac_PlaybackRate c = static_cast_float (PlaybackRate s)) /\
  ranged s.

(** A member function that leaves the playback rate of the controller
    alone and creates no controller. *)
Definition same_rate (f : AnimationPlay -> AnimationPlay) : Prop :=
  forall p, ac_PlaybackRate <$> m_controller (f p)
            = ac_PlaybackRate <$> m_controller p.

(** A subscriber that requests a looping play when a play ends, and does
    not react to what its own request causes. *)
Definition restart_when_stopped_once : Handler :=
  reentrant restart_when_stopped 1.

(** [m_nowPlaying = std::make_shared<AnimationPlay>(...)] for the play
    object [p]. *)
Definition install (p : AnimationPlay) (s : AnimatedVisualPlayer) :=
  emit (EvNowPlaying (length (plays s)))
    (set_m_nowPlaying (Some (length (plays s)))
       (set_plays (plays s ++ [p]) s)).

(** The play object [PlayAsync] constructs for a request, the owner's
    [Duration()] being [d]. *)
Definition requested_play (d : TimeSpan) (fromProgress toProgress : double)
    (looped : bool) : AnimationPlay :=
  AnimationPlay_new d (fst (adjust_then_clamp fromProgress toProgress))
    (snd (adjust_then_clamp fromProgress toProgress)) looped.

(** The user has paused the play in progress and the window is hidden. *)
Definition paused_and_hidden : AnimatedVisualPlayer :=
  OnHiding (Pause playing_from_fifth).

(** A player on a supported OS with no visual loaded. *)
Definition empty_player : AnimatedVisualPlayer :=
  mkPlayer true 0 None F64.zero (mkPropertySet F32.zero None) false 0%Z
    F64.one false [] [].

(** ** The element around the playback state *)

(** [winrt::float2]; its operators work on each component. *)
Record float2 := mkFloat2 { f2_x : float; f2_y : float }.

Definition float2_zero : float2 := mkFloat2 F32.zero F32.zero.

(** [a == b] on [float2]: both components equal. *)
Definition float2_eqb (a b : float2) : bool :=
  SFeqb (f2_x a) (f2_x b) && SFeqb (f2_y a) (f2_y b).

(** [winrt::Size]: two [float]s. *)
Record Size := mkSize { Width : float; Height : float }.

Definition Infinity : float := S754_infinity false.

(** [a == std::numeric_limits<double>::infinity()] for a [float] [a],
    which the comparison promotes. *)
Definition is_infinity (a : float) : bool :=
  SFeqb (promote_double a) (S754_infinity false).

(** [a != std::numeric_limits<double>::infinity()]. *)
Definition is_finite (a : float) : bool := negb (is_infinity a).

(** [FLT_MAX] is (2^24 - 1) * 2^104. *)
Definition FLT_MAX : float := S754_finite false (2 ^ 24 - 1) 104.

(** [std::min(a, b)]: [(b < a) ? b : a]. *)
Definition min_float (a b : float) : float := if SFltb b a then b else a.

(** [winrt::Stretch]. *)
Inductive StretchMode :=
| Stretch_None
| Stretch_Fill
| Stretch_Uniform
| Stretch_UniformToFill.

(** A composition visual, by identity. *)
Definition Visual := nat.

(** An [IAnimatedVisual] as its source hands it over. *)
Record IAnimatedVisual := mkAnimatedVisual {
  av_RootVisual : option Visual;
  av_Size : float2;
  av_Duration : TimeSpan
}.

(** A diagnostics object, by identity. *)
Definition IInspectable := nat.

(** An [IAnimatedVisualSource]: what [TryCreateAnimatedVisual] returns,
    with the diagnostics it reports, and whether the source is an
    [IDynamicAnimatedVisualSource]. *)
Record IAnimatedVisualSource := mkSource {
  TryCreateAnimatedVisual : option IAnimatedVisual * option IInspectable;
  is_dynamic : bool
}.

(** A [UIElement] of the fallback content: the size it desires when
    measured with an available size. *)
Record UIElement := mkElement {
  ui_id : nat;
  DesiredSize : Size -> Size
}.

(** A [DataTemplate]: the element [LoadContent] produces. *)
Record DataTemplate := mkTemplate { LoadContent : UIElement }.

(** [m_rootVisual]: its children, and what [ArrangeOverride] sets. *)
Record SpriteVisual := mkSpriteVisual {
  sv_Children : list Visual;
  sv_Offset : float2;
  sv_ClipOffset : float2;
  sv_Size : float2;
  sv_Scale : float2
}.

Record Control := mkControl {
  (** the playback state: the members and properties modelled above *)
  core : AnimatedVisualPlayer;
  m_isUnloaded : bool;
  m_isFallenBack : bool;
  m_animatedVisual : option IAnimatedVisual;
  m_animatedVisualRoot : option Visual;
  m_animatedVisualSize : float2;
  m_rootVisual : SpriteVisual;
  (** the token is registered with a dynamic source *)
  m_dynamicAnimatedVisualInvalidatedToken : bool;
  (** dependency properties *)
  Source : option IAnimatedVisualSource;
  AutoPlay : bool;
  FallbackContent : option DataTemplate;
  Stretch : StretchMode;
  Diagnostics : option IInspectable;
  (** the children of the element: the fallback content *)
  Children : list UIElement;
  (** [SetElementChildVisual] and [Background] have been called *)
  ElementChildVisual : bool;
  Background : bool;
  (** the visuals whose [Progress] is tied to the player's *)
  bound : list Visual;
  (** the animated visuals that have been closed, latest first *)
  closed : list IAnimatedVisual;
  (** how often [InvalidateMeasure] was called *)
  measure_invalidations : nat
}.

Definition with_core (v : AnimatedVisualPlayer) (c : Control) : Control :=
  mkControl v (m_isUnloaded c) (m_isFallenBack c) (m_animatedVisual c)
    (m_animatedVisualRoot c) (m_animatedVisualSize c) (m_rootVisual c)
    (m_dynamicAnimatedVisualInvalidatedToken c) (Source c) (AutoPlay c)
    (FallbackContent c) (Stretch c) (Diagnostics c) (Children c)
    (ElementChildVisual c) (Background c) (bound c) (closed c)
    (measure_invalidations c).
Definition with_m_isUnloaded (v : bool) (c : Control) : Control :=
  mkControl (core c) v (m_isFallenBack c) (m_animatedVisual c)
    (m_animatedVisualRoot c) (m_animatedVisualSize c) (m_rootVisual c)
    (m_dynamicAnimatedVisualInvalidatedToken c) (Source c) (AutoPlay c)
    (FallbackContent c) (Stretch c) (Diagnostics c) (Children c)
    (ElementChildVisual c) (Background c) (bound c) (closed c)
    (measure_invalidations c).
Definition with_m_isFallenBack (v : bool) (c : Control) : Control :=
  mkControl (core c) (m_isUnloaded c) v (m_animatedVisual c)
    (m_animatedVisualRoot c) (m_animatedVisualSize c) (m_rootVisual c)
    (m_dynamicAnimatedVisualInvalidatedToken c) (Source c) (AutoPlay c)
    (FallbackContent c) (Stretch c) (Diagnostics c) (Children c)
    (ElementChildVisual c) (Background c) (bound c) (closed c)
    (measure_invalidations c).
Definition with_m_animatedVisual (v : option IAnimatedVisual) (c : Control) : Control :=
  mkControl (core c) (m_isUnloaded c) (m_isFallenBack c) v
    (m_animatedVisualRoot c) (m_animatedVisualSize c) (m_rootVisual c)
    (m_dynamicAnimatedVisualInvalidatedToken c) (Source c) (AutoPlay c)
    (FallbackContent c) (Stretch c) (Diagnostics c) (Children c)
    (ElementChildVisual c) (Background c) (bound c) (closed c)
    (measure_invalidations c).
Definition with_m_animatedVisualRoot (v : option Visual) (c : Control) : Control :=
  mkControl (core c) (m_isUnloaded c) (m_isFallenBack c)
    (m_animatedVisual c) v (m_animatedVisualSize c) (m_rootVisual c)
    (m_dynamicAnimatedVisualInvalidatedToken c) (Source c) (AutoPlay c)
    (FallbackContent c) (Stretch c) (Diagnostics c) (Children c)
    (ElementChildVisual c) (Background c) (bound c) (closed c)
    (measure_invalidations c).
Definition with_m_animatedVisualSize (v : float2) (c : Control) : Control :=
  mkControl (core c) (m_isUnloaded c) (m_isFallenBack c)
    (m_animatedVisual c) (m_animatedVisualRoot c) v (m_rootVisual c)
    (m_dynamicAnimatedVisualInvalidatedToken c) (Source c) (AutoPlay c)
    (FallbackContent c) (Stretch c) (Diagnostics c) (Children c)
    (ElementChildVisual c) (Background c) (bound c) (closed c)
    (measure_invalidations c).
Definition with_m_rootVisual (v : SpriteVisual) (c : Control) : Control :=
  mkControl (core c) (m_isUnloaded c) (m_isFallenBack c)
    (m_animatedVisual c) (m_animatedVisualRoot c) (m_animatedVisualSize c) v
    (m_dynamicAnimatedVisualInvalidatedToken c) (Source c) (AutoPlay c)
    (FallbackContent c) (Stretch c) (Diagnostics c) (Children c)
    (ElementChildVisual c) (Background c) (bound c) (closed c)
    (measure_invalidations c).
Definition with_m_dynamicAnimatedVisualInvalidatedToken (v : bool) (c : Control) : Control :=
  mkControl (core c) (m_isUnloaded c) (m_isFallenBack c)
    (m_animatedVisual c) (m_animatedVisualRoot c) (m_animatedVisualSize c)
    (m_rootVisual c) v (Source c) (AutoPlay c) (FallbackContent c)
    (Stretch c) (Diagnostics c) (Children c) (ElementChildVisual c)
    (Background c) (bound c) (closed c) (measure_invalidations c).
Definition with_Source (v : option IAnimatedVisualSource) (c : Control) : Control :=
  mkControl (core c) (m_isUnloaded c) (m_isFallenBack c)
    (m_animatedVisual c) (m_animatedVisualRoot c) (m_animatedVisualSize c)
    (m_rootVisual c) (m_dynamicAnimatedVisualInvalidatedToken c) v
    (AutoPlay c) (FallbackContent c) (Stretch c) (Diagnostics c)
    (Children c) (ElementChildVisual c) (Background c) (bound c) (closed c)
    (measure_invalidations c).
Definition with_AutoPlay (v : bool) (c : Control) : Control :=
  mkControl (core c) (m_isUnloaded c) (m_isFallenBack c)
    (m_animatedVisual c) (m_animatedVisualRoot c) (m_animatedVisualSize c)
    (m_rootVisual c) (m_dynamicAnimatedVisualInvalidatedToken c) (Source c)
    v (FallbackContent c) (Stretch c) (Diagnostics c) (Children c)
    (ElementChildVisual c) (Background c) (bound c) (closed c)
    (measure_invalidations c).
Definition with_FallbackContent (v : option DataTemplate) (c : Control) : Control :=
  mkControl (core c) (m_isUnloaded c) (m_isFallenBack c)
    (m_animatedVisual c) (m_animatedVisualRoot c) (m_animatedVisualSize c)
    (m_rootVisual c) (m_dynamicAnimatedVisualInvalidatedToken c) (Source c)
    (AutoPlay c) v (Stretch c) (Diagnostics c) (Children c)
    (ElementChildVisual c) (Background c) (bound c) (closed c)
    (measure_invalidations c).
Definition with_Stretch (v : StretchMode) (c : Control) : Control :=
  mkControl (core c) (m_isUnloaded c) (m_isFallenBack c)
    (m_animatedVisual c) (m_animatedVisualRoot c) (m_animatedVisualSize c)
    (m_rootVisual c) (m_dynamicAnimatedVisualInvalidatedToken c) (Source c)
    (AutoPlay c) (FallbackContent c) v (Diagnostics c) (Children c)
    (ElementChildVisual c) (Background c) (bound c) (closed c)
    (measure_invalidations c).
Definition with_Diagnostics (v : option IInspectable) (c : Control) : Control :=
  mkControl (core c) (m_isUnloaded c) (m_isFallenBack c)
    (m_animatedVisual c) (m_animatedVisualRoot c) (m_animatedVisualSize c)
    (m_rootVisual c) (m_dynamicAnimatedVisualInvalidatedToken c) (Source c)
    (AutoPlay c) (FallbackContent c) (Stretch c) v (Children c)
    (ElementChildVisual c) (Background c) (bound c) (closed c)
    (measure_invalidations c).
Definition with_Children (v : list UIElement) (c : Control) : Control :=
  mkControl (core c) (m_isUnloaded c) (m_isFallenBack c)
    (m_animatedVisual c) (m_animatedVisualRoot c) (m_animatedVisualSize c)
    (m_rootVisual c) (m_dynamicAnimatedVisualInvalidatedToken c) (Source c)
    (AutoPlay c) (FallbackContent c) (Stretch c) (Diagnostics c) v
    (ElementChildVisual c) (Background c) (bound c) (closed c)
    (measure_invalidations c).
Definition with_ElementChildVisual (v : bool) (c : Control) : Control :=
  mkControl (core c) (m_isUnloaded c) (m_isFallenBack c)
    (m_animatedVisual c) (m_animatedVisualRoot c) (m_animatedVisualSize c)
    (m_rootVisual c) (m_dynamicAnimatedVisualInvalidatedToken c) (Source c)
    (AutoPlay c) (FallbackContent c) (Stretch c) (Diagnostics c)
    (Children c) v (Background c) (bound c) (closed c)
    (measure_invalidations c).
Definition with_Background (v : bool) (c : Control) : Control :=
  mkControl (core c) (m_isUnloaded c) (m_isFallenBack c)
    (m_animatedVisual c) (m_animatedVisualRoot c) (m_animatedVisualSize c)
    (m_rootVisual c) (m_dynamicAnimatedVisualInvalidatedToken c) (Source c)
    (AutoPlay c) (FallbackContent c) (Stretch c) (Diagnostics c)
    (Children c) (ElementChildVisual c) v (bound c) (closed c)
    (measure_invalidations c).
Definition with_bound (v : list Visual) (c : Control) : Control :=
  mkControl (core c) (m_isUnloaded c) (m_isFallenBack c)
    (m_animatedVisual c) (m_animatedVisualRoot c) (m_animatedVisualSize c)
    (m_rootVisual c) (m_dynamicAnimatedVisualInvalidatedToken c) (Source c)
    (AutoPlay c) (FallbackContent c) (Stretch c) (Diagnostics c)
    (Children c) (ElementChildVisual c) (Background c) v (closed c)
    (measure_invalidations c).
Definition with_closed (v : list IAnimatedVisual) (c : Control) : Control :=
  mkControl (core c) (m_isUnloaded c) (m_isFallenBack c)
    (m_animatedVisual c) (m_animatedVisualRoot c) (m_animatedVisualSize c)
    (m_rootVisual c) (m_dynamicAnimatedVisualInvalidatedToken c) (Source c)
    (AutoPlay c) (FallbackContent c) (Stretch c) (Diagnostics c)
    (Children c) (ElementChildVisual c) (Background c) (bound c) v
    (measure_invalidations c).
Definition with_measure_invalidations (v : nat) (c : Control) : Control :=
  mkControl (core c) (m_isUnloaded c) (m_isFallenBack c)
    (m_animatedVisual c) (m_animatedVisualRoot c) (m_animatedVisualSize c)
    (m_rootVisual c) (m_dynamicAnimatedVisualInvalidatedToken c) (Source c)
    (AutoPlay c) (FallbackContent c) (Stretch c) (Diagnostics c)
    (Children c) (ElementChildVisual c) (Background c) (bound c) (closed c)
    v.

Definition set_Duration (v : TimeSpan) (s : AnimatedVisualPlayer) :=
  mkPlayer (IsRS5OrHigher s) (m_playAsyncVersion s) (m_nowPlaying s)
    (m_currentPlayFromProgress s)
    (m_progressPropertySet s) (IsPlaying s) v (PlaybackRate s)
    (IsAnimatedVisualLoaded s) (plays s) (trace s).
Definition set_IsAnimatedVisualLoaded (v : bool) (s : AnimatedVisualPlayer) :=
  mkPlayer (IsRS5OrHigher s) (m_playAsyncVersion s) (m_nowPlaying s)
    (m_currentPlayFromProgress s)
    (m_progressPropertySet s) (IsPlaying s) (Duration s) (PlaybackRate s)
    v (plays s) (trace s).

Definition with_sv_Children (v : list Visual) (r : SpriteVisual) :=
  mkSpriteVisual v (sv_Offset r) (sv_ClipOffset r) (sv_Size r) (sv_Scale r).
Definition with_sv_Offset (v : float2) (r : SpriteVisual) :=
  mkSpriteVisual (sv_Children r) v (sv_ClipOffset r) (sv_Size r) (sv_Scale r).
Definition with_sv_ClipOffset (v : float2) (r : SpriteVisual) :=
  mkSpriteVisual (sv_Children r) (sv_Offset r) v (sv_Size r) (sv_Scale r).
Definition with_sv_Size (v : float2) (r : SpriteVisual) :=
  mkSpriteVisual (sv_Children r) (sv_Offset r) (sv_ClipOffset r) v (sv_Scale r).
Definition with_sv_Scale (v : float2) (r : SpriteVisual) :=
  mkSpriteVisual (sv_Children r) (sv_Offset r) (sv_ClipOffset r) (sv_Size r) v.

(** Run a member function of the playback state. *)
Definition on_core (f : AnimatedVisualPlayer -> AnimatedVisualPlayer)
    (c : Control) : Control :=
  with_core (f (core c)) c.

(** [InvalidateMeasure()]. *)
Definition InvalidateMeasure (c : Control) : Control :=
  with_measure_invalidations (S (measure_invalidations c)) c.

(** Modelled from the spec: the generated setters [Duration(value)],
    [IsAnimatedVisualLoaded(value)] and [Diagnostics(value)], which are
    not part of this file. They store the observable value; subscribers
    to changes of these three properties are not followed. *)
Definition put_Duration (value : TimeSpan) (c : Control) : Control :=
  on_core (set_Duration value) c.
Definition put_IsAnimatedVisualLoaded (value : bool) (c : Control) : Control :=
  on_core (set_IsAnimatedVisualLoaded value) c.
Definition put_Diagnostics (value : option IInspectable) (c : Control)
    : Control :=
  with_Diagnostics value c.

(** ** Layout *)

(** The uniform scaling [MeasureOverride] ends in, for
    [Stretch::Uniform] and when a dimension to fill is infinite. *)
Definition measure_uniform (size : float2) (availableSize : Size) : Size :=
  let widthScale :=
    F32.div (if is_infinity (Width availableSize)
             then FLT_MAX else Width availableSize)
            (f2_x size) in
  let heightScale :=
    F32.div (if is_infinity (Height availableSize)
             then FLT_MAX else Height availableSize)
            (f2_y size) in
  if SFltb widthScale heightScale
  then mkSize (Width availableSize) (F32.mul (f2_y size) widthScale)
  else mkSize (F32.mul (f2_x size) heightScale) (Height availableSize).

(** [AnimatedVisualPlayer::MeasureOverride]. *)
Definition MeasureOverride (c : Control) (availableSize : Size) : Size :=
  match (if m_isFallenBack c then Children c else []) with
  | child :: _ =>
      (* Showing the fallback content: our size is whatever it desires. *)
      DesiredSize child availableSize
  | [] =>
    if negb (non_null (m_animatedVisualRoot c))
       || float2_eqb (m_animatedVisualSize c) float2_zero
    then mkSize F32.zero F32.zero
    else
      let size := m_animatedVisualSize c in
      match Stretch c with
      | Stretch_None =>
          mkSize (min_float (f2_x size) (Width availableSize))
                 (min_float (f2_y size) (Height availableSize))
      | Stretch_Fill =>
          if is_finite (Width availableSize)
             && is_finite (Height availableSize)
          then availableSize
          else measure_uniform size availableSize
      | Stretch_UniformToFill =>
          if is_finite (Width availableSize)
             && is_finite (Height availableSize)
          then
            let widthScale := F32.div (Width availableSize) (f2_x size) in
            let heightScale := F32.div (Height availableSize) (f2_y size) in
            let measuredSize :=
              if SFltb heightScale widthScale
              then mkSize (Width availableSize)
                          (F32.mul (f2_y size) widthScale)
              else mkSize (F32.mul (f2_x size) heightScale)
                          (Height availableSize) in
            (* Clip the size to the available size. *)
            mkSize (min_float (Width measuredSize) (Width availableSize))
                   (min_float (Height measuredSize) (Height availableSize))
          else measure_uniform size availableSize
      | Stretch_Uniform => measure_uniform size availableSize
      end
  end.

(** The scale [ArrangeOverride] applies for a stretch other than
    [None], from the ratio of the final size to the size of the visual. *)
Definition arrange_scale (stretch : StretchMode) (ratio : float2) : float2 :=
  match stretch with
  | Stretch_Uniform =>
      if SFltb (f2_x ratio) (f2_y ratio)
      then mkFloat2 (f2_x ratio) (f2_x ratio)
      else mkFloat2 (f2_y ratio) (f2_y ratio)
  | Stretch_UniformToFill =>
      if SFltb (f2_y ratio) (f2_x ratio)
      then mkFloat2 (f2_x ratio) (f2_x ratio)
      else mkFloat2 (f2_y ratio) (f2_y ratio)
  | _ => ratio
  end.

(** [AnimatedVisualPlayer::ArrangeOverride]: the element afterwards and
    the size returned. The arrangement of the fallback child is state of
    that child. *)
Definition ArrangeOverride (c : Control) (finalSize : Size)
    : Control * Size :=
  match (if m_isFallenBack c then Children c else []) with
  | _ :: _ => (c, finalSize)
  | [] =>
    let size := m_animatedVisualSize c in
    let '(scale, arrangedSize, c) :=
      if negb (non_null (m_animatedVisualRoot c)) then
        (* No content. 0 size. *)
        (mkFloat2 F32.one F32.one, mkFloat2 F32.zero F32.zero, c)
      else
        match Stretch c with
        | Stretch_None =>
            (* Do not scale, do not center. *)
            (mkFloat2 F32.one F32.one,
             mkFloat2 (min_float (Width finalSize) (f2_x size))
                      (min_float (Height finalSize) (f2_y size)),
             c)
        | stretch =>
            let scale :=
              arrange_scale stretch
                (mkFloat2 (F32.div (Width finalSize) (f2_x size))
                          (F32.div (Height finalSize) (f2_y size))) in
            let arrangedSize :=
              mkFloat2
                (min_float (F32.div (Width finalSize) (f2_x scale))
                           (f2_x size))
                (min_float (F32.div (Height finalSize) (f2_y scale))
                           (f2_y size)) in
            (* Center the animation within the available space. *)
            let offset :=
              mkFloat2
                (F32.div (F32.sub (Width finalSize)
                            (F32.mul (f2_x size) (f2_x scale))) F32.two)
                (F32.div (F32.sub (Height finalSize)
                            (F32.mul (f2_y size) (f2_y scale))) F32.two) in
            let c := with_m_rootVisual
                       (with_sv_Offset offset (m_rootVisual c)) c in
            (* Adjust the position of the clip. *)
            let c := with_m_rootVisual
                       (with_sv_ClipOffset
                          (match stretch with
                           | Stretch_UniformToFill =>
                               mkFloat2
                                 (F32.opp (F32.div (f2_x offset) (f2_x scale)))
                                 (F32.opp (F32.div (f2_y offset) (f2_y scale)))
                           | _ => float2_zero
                           end)
                          (m_rootVisual c)) c in
            (scale, arrangedSize, c)
        end in
    (with_m_rootVisual
       (with_sv_Scale scale (with_sv_Size arrangedSize (m_rootVisual c))) c,
     finalSize)
  end.

(** The element lays out an animated visual: it does not show fallback
    content, a visual is hooked up, and its size is not zero. *)
Definition shows_visual (c : Control) : Prop :=
  (if m_isFallenBack c then Children c else []) = [] /\
  non_null (m_animatedVisualRoot c) = true /\
  float2_eqb (m_animatedVisualSize c) float2_zero = false.

(** An element showing a visual of the given size with the given
    stretch, and nothing else set. *)
Definition showing (stretch : StretchMode) (size : float2) : Control :=
  mkControl (loaded_player second F64.zero) false false
    (Some (mkAnimatedVisual (Some 7%nat) size second)) (Some 7%nat) size
    (mkSpriteVisual [7%nat] float2_zero float2_zero float2_zero
       (mkFloat2 F32.one F32.one))
    false None false None stretch None [] true true [7%nat] [] 0.

(** [AnimatedVisualPlayer::OnStretchPropertyChanged]. *)
Definition OnStretchPropertyChanged (c : Control) : Control :=
  InvalidateMeasure c.

(** Modelled from the spec: the generated setter [Stretch(value)], which
    is not part of this file: it stores the value and runs the
    property-changed callback. *)
Definition put_Stretch (value : StretchMode) (c : Control) : Control :=
  OnStretchPropertyChanged (with_Stretch value c).

(** ** Suspending, resuming and window visibility *)

(** The three handlers the constructor subscribes. *)
Definition Suspending (s : AnimatedVisualPlayer) : AnimatedVisualPlayer :=
  OnHiding s.

Definition Resuming (windowVisible : bool) (s : AnimatedVisualPlayer) :=
  if windowVisible then OnUnhiding s else s.

Definition VisibilityChanged (visible : bool) (s : AnimatedVisualPlayer) :=
  if visible
  then (* Transition from invisible to visible. *) OnUnhiding s
  else (* Transition from visible to invisible. *) OnHiding s.

(** ** Content *)

Section Element.

Variable OnIsPlayingChanged : Handler.

(** [AnimatedVisualPlayer::SetFallbackContent]. *)
Definition SetFallbackContent (uiElement : option UIElement) (c : Control)
    : Control :=
  (* Clear out the existing content. *)
  let c := with_Children [] c in
  (* Place the content in the tree. *)
  let c := match uiElement with
           | Some e => with_Children (Children c ++ [e]) c
           | None => c
           end in
  InvalidateMeasure c.

(** [AnimatedVisualPlayer::LoadFallbackContent]. *)
Definition LoadFallbackContent (c : Control) : Control :=
  let c := on_core (MUX_ASSERT (m_isFallenBack c)) c in
  let fallbackContentElement :=
    match FallbackContent c with
    | Some fallbackContentTemplate => Some (LoadContent fallbackContentTemplate)
    | None => None
    end in
  SetFallbackContent fallbackContentElement c.

(** [AnimatedVisualPlayer::UnloadFallbackContent]. *)
Definition UnloadFallbackContent (c : Control) : Control :=
  let c := on_core (MUX_ASSERT (negb (m_isFallenBack c))) c in
  SetFallbackContent None c.

(** [AnimatedVisualPlayer::UnloadContent]. *)
Definition UnloadContent (c : Control) : Control :=
  if negb (IsRS5OrHigher (core c)) then c else
  if non_null (m_animatedVisualRoot c) then
    (* This will complete any current play. *)
    let c := on_core (Stop OnIsPlayingChanged) c in
    (* Remove the old animated visual (if any). *)
    let c :=
      match m_animatedVisual c with
      | Some animatedVisual =>
          let c := with_m_rootVisual
                     (with_sv_Children [] (m_rootVisual c)) c in
          let c := with_m_animatedVisualRoot None c in
          let c := with_closed (animatedVisual :: closed c) c in
          with_m_animatedVisual None c
      | None => c
      end in
    let c := InvalidateMeasure c in
    let c := put_Duration 0%Z c in
    let c := put_Diagnostics None c in
    put_IsAnimatedVisualLoaded false c
  else c.

(** The automatic play: [PlayAsync(0, 1, true)], its action dropped. *)
Definition play_all_looped (c : Control) : Control :=
  on_core
    (fun s => fst (PlayAsync OnIsPlayingChanged F64.zero F64.one true s)) c.

(** [AnimatedVisualPlayer::UpdateContent]. *)
Definition UpdateContent (c : Control) : Control :=
  (* Unload the existing content, if any. *)
  let c := UnloadContent c in
  (* Try to create a new animated visual. *)
  match Source c with
  | None => c
  | Some source =>
    let '(animatedVisual, diagnostics) := TryCreateAnimatedVisual source in
    let c := with_m_animatedVisual animatedVisual c in
    let c := put_Diagnostics diagnostics c in
    match animatedVisual with
    | None =>
        (* Create failed. Show the fallback content, if any. *)
        let c := if negb (m_isFallenBack c)
                 then LoadFallbackContent (with_m_isFallenBack true c)
                 else c in
        (* Complete any play that was started during loading. *)
        on_core (CompleteCurrentPlay OnIsPlayingChanged) c
    | Some animatedVisual =>
        if negb (non_null (av_RootVisual animatedVisual))
           || float2_eqb (av_Size animatedVisual) float2_zero
        then (* Empty content: nothing to show yet. *) c
        else
          (* If we were in fallback, clear that fallback content. *)
          let c := if m_isFallenBack c
                   then UnloadFallbackContent (with_m_isFallenBack false c)
                   else c in
          (* Hook up the new animated visual. *)
          let c := with_m_animatedVisualRoot
                     (av_RootVisual animatedVisual) c in
          let c := with_m_animatedVisualSize (av_Size animatedVisual) c in
          let c := with_m_rootVisual
                     (with_sv_Children
                        (match av_RootVisual animatedVisual with
                         | Some root => [root]
                         | None => []
                         end ++ sv_Children (m_rootVisual c))
                        (m_rootVisual c)) c in
          let c := put_Duration (av_Duration animatedVisual) c in
          let c := put_IsAnimatedVisualLoaded true c in
          let c := InvalidateMeasure c in
          (* Tie the Progress of the animated visual to the player's. *)
          let c := with_bound
                     (match av_RootVisual animatedVisual with
                      | Some root => [root]
                      | None => []
                      end ++ bound c) c in
          match m_nowPlaying (core c) with
          | Some nowPlaying => on_core (Start OnIsPlayingChanged nowPlaying) c
          | None => if AutoPlay c then play_all_looped c else c
          end
    end
  end.

(** [AnimatedVisualPlayer::OnLoaded]. *)
Definition OnLoaded (c : Control) : Control :=
  let c := with_ElementChildVisual true c in
  let c := with_Background true c in
  if m_isUnloaded c then
    (* Reload the content. *)
    with_m_isUnloaded false (UpdateContent c)
  else c.

(** [AnimatedVisualPlayer::OnUnloaded]. *)
Definition OnUnloaded (c : Control) : Control :=
  UnloadContent (with_m_isUnloaded true c).

(** [AnimatedVisualPlayer::~AnimatedVisualPlayer]: whether the destructor
    reaches its [MUX_FAIL_FAST_MSG], which it does when a play is still
    current. *)
Definition destructor_fails_fast (c : Control) : bool :=
  non_null (m_nowPlaying (core c)).

(** [AnimatedVisualPlayer::OnAutoPlayPropertyChanged]. *)
Definition OnAutoPlayPropertyChanged (newValue : bool) (c : Control)
    : Control :=
  if newValue && IsAnimatedVisualLoaded (core c)
     && negb (non_null (m_nowPlaying (core c)))
  then play_all_looped c
  else c.

(** [AnimatedVisualPlayer::OnFallbackContentPropertyChanged]. *)
Definition OnFallbackContentPropertyChanged (c : Control) : Control :=
  if m_isFallenBack c then LoadFallbackContent c else c.

(** [AnimatedVisualPlayer::OnSourcePropertyChanged]. *)
Definition OnSourcePropertyChanged
    (oldSource newSource : option IAnimatedVisualSource) (c : Control)
    : Control :=
  let c := on_core (CompleteCurrentPlay OnIsPlayingChanged) c in
  (* Disconnect from the update notifications of the old source. *)
  let c := if match oldSource with
              | Some source => is_dynamic source
              | None => false
              end
           then with_m_dynamicAnimatedVisualInvalidatedToken false c
           else c in
  (* Connect to the update notifications of the new source. *)
  let c := if match newSource with
              | Some source => is_dynamic source
              | None => false
              end
           then with_m_dynamicAnimatedVisualInvalidatedToken true c
           else c in
  UpdateContent c.

(** The lambda subscribed to [AnimatedVisualInvalidated] of a dynamic
    source: the source, which now creates [content], raises the event
    while the token is registered. *)
Definition AnimatedVisualInvalidated
    (content : option IAnimatedVisual * option IInspectable) (c : Control)
    : Control :=
  match Source c with
  | Some source =>
      if is_dynamic source && m_dynamicAnimatedVisualInvalidatedToken c
      then UpdateContent (with_Source (Some (mkSource content true)) c)
      else c
  | None => c
  end.

(** Modelled from the spec: the generated setters [Source(value)],
    [AutoPlay(value)] and [FallbackContent(value)], which are not part of
    this file. A write that changes the property stores the value and
    runs the property-changed callback. *)
Definition put_Source (value : option IAnimatedVisualSource) (c : Control)
    : Control :=
  OnSourcePropertyChanged (Source c) value (with_Source value c).

Definition put_AutoPlay (value : bool) (c : Control) : Control :=
  if Bool.eqb (AutoPlay c) value then c
  else OnAutoPlayPropertyChanged value (with_AutoPlay value c).

Definition put_FallbackContent (value : option DataTemplate) (c : Control)
    : Control :=
  OnFallbackContentPropertyChanged (with_FallbackContent value c).

End Element.

(** ** The host *)

(** What the host of the element, the sources and the layout pass can
    do to it, besides calling the player. *)
Inductive HostCall :=
| HostSource (value : option IAnimatedVisualSource)
| HostAutoPlay (value : bool)
| HostFallbackContent (value : option DataTemplate)
| HostStretch (value : StretchMode)
| HostLoaded
| HostUnloaded
| HostInvalidated (content : option IAnimatedVisual * option IInspectable)
| HostArrange (finalSize : Size)
| HostPlayer (call : Call).

Definition host_invoke (h : Handler) (call : HostCall) (c : Control)
    : Control :=
  match call with
  | HostSource value => put_Source h value c
  | HostAutoPlay value => put_AutoPlay h value c
  | HostFallbackContent value => put_FallbackContent value c
  | HostStretch value => put_Stretch value c
  | HostLoaded => OnLoaded h c
  | HostUnloaded => OnUnloaded h c
  | HostInvalidated content => AnimatedVisualInvalidated h content c
  | HostArrange finalSize => fst (ArrangeOverride c finalSize)
  | HostPlayer call => on_core (invoke h call) c
  end.

Definition host_run (h : Handler) (calls : list HostCall) (c : Control)
    : Control :=
  foldl (fun c call => host_invoke h call c) c calls.

(** The element as its constructor leaves it, given whether the OS is
    RS5 or higher and the default values of its dependency properties. *)
Definition constructed (rs5 : bool) (autoPlay : bool) (stretch : StretchMode)
    (playbackRate : double) (fromProgress0 : double) : Control :=
  mkControl
    (mkPlayer rs5 0 None fromProgress0
       (InsertScalar F32.zero (mkPropertySet F32.zero None)) false 0%Z
       playbackRate false
       [] [])
    false false None None float2_zero
    (mkSpriteVisual [] float2_zero float2_zero float2_zero
       (mkFloat2 F32.one F32.one))
    false None autoPlay None stretch None [] false false [] [] 0.

(** The fallback content the element shows. *)
Definition fallback_children (c : Control) : list UIElement :=
  if m_isFallenBack c then
    match FallbackContent c with
    | Some template => [LoadContent template]
    | None => []
    end
  else [].

(** The element between two calls of its host. *)
Record settled (c : Control) : Prop := {
  st_rs5 : IsRS5OrHigher (core c) = true;
  st_core : sound nothing_pending (core c);
  st_loaded :
    IsAnimatedVisualLoaded (core c) = non_null (m_animatedVisualRoot c);
  (** a hooked-up visual is the root of the animated visual held, the
      only child of the root visual, and follows the player's progress *)
  st_content : forall root, m_animatedVisualRoot c = Some root ->
    exists animatedVisual,
      m_animatedVisual c = Some animatedVisual /\
      av_RootVisual animatedVisual = Some root /\
      m_animatedVisualSize c = av_Size animatedVisual /\
      float2_eqb (av_Size animatedVisual) float2_zero = false /\
      Duration (core c) = av_Duration animatedVisual /\
      sv_Children (m_rootVisual c) = [root] /\
      root ∈ bound c;
  (** without one there is nothing to play *)
  st_empty : m_animatedVisualRoot c = None ->
    Duration (core c) = 0%Z /\
    sv_Children (m_rootVisual c) = [] /\
    IsPlaying (core c) = false;
  (** fallback content is shown instead of a visual, never beside one *)
  st_fallback : m_isFallenBack c = true -> m_animatedVisualRoot c = None;
  st_children : Children c = fallback_children c;
  (** the element listens to its source exactly if that is dynamic *)
  st_token :
    m_dynamicAnimatedVisualInvalidatedToken c =
    match Source c with
    | Some source => is_dynamic source
    | None => false
    end
}.

(** [s'] has the environment of [s], and [IsPlaying] was not raised
    unless a visual is loaded. *)
Definition calm (s s' : AnimatedVisualPlayer) : Prop :=
  IsRS5OrHigher s' = IsRS5OrHigher s /\
  Duration s' = Duration s /\
  IsAnimatedVisualLoaded s' = IsAnimatedVisualLoaded s /\
  (IsPlaying s' = true ->
   IsPlaying s = true \/ IsAnimatedVisualLoaded s = true).

(** The element when [UpdateContent] has hooked up the non-empty
    [animatedVisual], before it turns to the plays. *)
Definition hooked_up (animatedVisual : IAnimatedVisual) (c : Control)
    : Control :=
  let c := if m_isFallenBack c
           then UnloadFallbackContent (with_m_isFallenBack false c)
           else c in
  let c := with_m_animatedVisualRoot (av_RootVisual animatedVisual) c in
  let c := with_m_animatedVisualSize (av_Size animatedVisual) c in
  let c := with_m_rootVisual
             (with_sv_Children
                (match av_RootVisual animatedVisual with
                 | Some root => [root]
                 | None => []
                 end ++ sv_Children (m_rootVisual c))
                (m_rootVisual c)) c in
  let c := put_Duration (av_Duration animatedVisual) c in
  let c := put_IsAnimatedVisualLoaded true c in
  let c := InvalidateMeasure c in
  with_bound
    (match av_RootVisual animatedVisual with
     | Some root => [root]
     | None => []
     end ++ bound c) c.

(** A source that creates the non-empty [animatedVisual]. *)
Definition creates (source : IAnimatedVisualSource)
    (animatedVisual : IAnimatedVisual) (root : Visual) : Prop :=
  fst (TryCreateAnimatedVisual source) = Some animatedVisual /\
  av_RootVisual animatedVisual = Some root /\
  float2_eqb (av_Size animatedVisual) float2_zero = false.

(** A visual of one second, and a source that creates it. *)
Definition one_second_visual : IAnimatedVisual :=
  mkAnimatedVisual (Some 7%nat) (mkFloat2 (F32.of_Z 200) (F32.of_Z 100))
    second.

Definition static_source : IAnimatedVisualSource :=
  mkSource (Some one_second_visual, Some 3%nat) false.

(** A source that fails to create a visual. *)
Definition failing_source : IAnimatedVisualSource :=
  mkSource (None, Some 4%nat) false.

(** The element with the defaults of its properties: it plays
    automatically, stretches uniformly and plays at rate 1. *)
Definition fresh_element : Control :=
  constructed true true Stretch_Uniform F64.one F64.zero.

(** The element once the host has set the source: the visual is hooked
    up and plays automatically. *)
Definition playing_element : Control :=
  host_run no_subscriber [HostSource (Some static_source)] fresh_element.

(** ... and once it has then been unloaded. *)
Definition unloaded_element : Control :=
  host_run no_subscriber [HostSource (Some static_source); HostUnloaded]
    fresh_element.

(** The play that [AutoPlay] starts on content of duration [d]. *)
Definition whole_animation_looped (d : TimeSpan) : AnimationPlay :=
  AnimationPlay_new d F32.zero F32.one true.

(** The element on an OS below RS5, its source stored. *)
Definition old_OS_element : Control :=
  with_Source (Some static_source)
    (constructed false true Stretch_Uniform F64.one F64.zero).

(** A template of fallback content that desires 40 by 30. *)
Definition fallback_template : DataTemplate :=
  mkTemplate (mkElement 1 (fun _ => mkSize (F32.of_Z 40) (F32.of_Z 30))).

(** The element with fallback content, given a source that fails. *)
Definition failing_element : Control :=
  with_Source (Some failing_source)
    (host_run no_subscriber [HostFallbackContent (Some fallback_template)]
       fresh_element).
(** * Floating point *)

(** ** Comparisons *)

Lemma SFcompare_antisym (x y : spec_float) :
  SFcompare y x = option_map CompOpp (SFcompare x y).
Proof.
  destruct x as [sx | sx | | sx mx ex], y as [sy | sy | | sy my ey];
    try reflexivity;
    try (destruct sx; reflexivity); try (destruct sy; reflexivity);
    try (destruct sx, sy; reflexivity).
  pose proof (Pos.compare_cont_antisym mx my Eq) as Hm. cbn in Hm.
  cbn. destruct sx, sy; cbn; try reflexivity;
    rewrite (Z.compare_antisym ex ey);
    destruct (ex ?= ey)%Z; cbn; try reflexivity;
    rewrite <- Hm; now destruct (Pos.compare_cont Eq mx my).
Qed.

Lemma SFcompare_refl (x : spec_float) :
  SFcompare x x = match x with S754_nan => None | _ => Some Eq end.
Proof.
  destruct x as [s | s | | s m e]; cbn; try reflexivity;
    try (destruct s; reflexivity).
  destruct s; rewrite Z.compare_refl;
    fold (Pos.compare m m); now rewrite Pos.compare_refl.
Qed.

Lemma SFltb_irrefl (x : spec_float) : SFltb x x = false.
Proof. unfold SFltb. rewrite SFcompare_refl. now destruct x. Qed.

Lemma SFltb_asym (x y : spec_float) : SFltb x y = true -> SFltb y x = false.
Proof.
  unfold SFltb. rewrite (SFcompare_antisym x y).
  now destruct (SFcompare x y) as [[] |].
Qed.

Lemma SFltb_not_eqb (x y : spec_float) :
  SFltb x y = true -> SFeqb x y = false /\ SFeqb y x = false.
Proof.
  unfold SFltb, SFeqb. rewrite (SFcompare_antisym x y).
  now destruct (SFcompare x y) as [[] |].
Qed.

Lemma SFcompare_total (x y : spec_float) :
  x <> NaN -> y <> NaN -> exists c, SFcompare x y = Some c.
Proof.
  intros Hx Hy. destruct x, y; try contradiction; cbn; eauto.
Qed.

(** [x <= y] is [!(y < x)] unless one of them is a NaN. *)
Lemma SFleb_not_ltb (x y : spec_float) :
  x <> NaN -> y <> NaN -> SFleb x y = negb (SFltb y x).
Proof.
  intros Hx Hy. unfold SFleb, SFltb. rewrite (SFcompare_antisym x y).
  destruct (SFcompare_total x y Hx Hy) as [c ->]. now destruct c.
Qed.

Lemma SFleb_not_nan (x y : spec_float) :
  SFleb x y = true -> x <> NaN /\ y <> NaN.
Proof. destruct x, y; cbn; intros H; split; discriminate. Qed.

(** ** Clamping to [0,1] *)

Lemma clamp_cases (v : float) :
  (SFltb v F32.zero = true /\ clamp v F32.zero F32.one = F32.zero) \/
  (SFltb v F32.zero = false /\ SFltb F32.one v = true /\
   clamp v F32.zero F32.one = F32.one) \/
  (SFltb v F32.zero = false /\ SFltb F32.one v = false /\
   clamp v F32.zero F32.one = v).
Proof.
  unfold clamp. destruct (SFltb v F32.zero); [now left | right].
  destruct (SFltb F32.one v); [now left | now right].
Qed.

(** [std::clamp] lets a NaN through. *)
Lemma clamp_NaN : clamp NaN F32.zero F32.one = NaN.
Proof. reflexivity. Qed.

(** Every other value ends up in [0,1]. *)
Lemma clamp_range (v : float) :
  v <> NaN -> in_unit_range (clamp v F32.zero F32.one) = true.
Proof.
  intros Hv. destruct (clamp_cases v) as [[_ ->] | [(_ & _ & ->) | (H0 & H1 & ->)]];
    try reflexivity.
  unfold in_unit_range.
  rewrite !SFleb_not_ltb by (assumption || discriminate).
  now rewrite H0, H1.
Qed.

Lemma clamp_range_or_NaN (v : float) :
  clamp v F32.zero F32.one = NaN \/
  in_unit_range (clamp v F32.zero F32.one) = true.
Proof.
  destruct v as [s | s | | s m e] eqn:E; [right | right | left | right];
    try reflexivity; apply clamp_range; discriminate.
Qed.

Lemma clamp_in_range (v : float) :
  in_unit_range v = true -> clamp v F32.zero F32.one = v.
Proof.
  unfold in_unit_range. intros H. apply andb_true_iff in H as [H0 H1].
  destruct (SFleb_not_nan _ _ H0) as [_ Hv].
  rewrite SFleb_not_ltb in H0, H1 by (assumption || discriminate).
  apply negb_true_iff in H0, H1. unfold clamp. now rewrite H0, H1.
Qed.

Lemma clamp_idempotent (v : float) :
  clamp (clamp v F32.zero F32.one) F32.zero F32.one
  = clamp v F32.zero F32.one.
Proof.
  destruct (clamp_cases v) as [[_ ->] | [(_ & _ & ->) | (H0 & H1 & E)]];
    try reflexivity.
  rewrite E. exact E.
Qed.

Lemma clamp_valid (v : float) :
  F32.valid v = true -> F32.valid (clamp v F32.zero F32.one) = true.
Proof.
  intros Hv.
  destruct (clamp_cases v) as [[_ ->] | [(_ & _ & ->) | (_ & _ & ->)]];
    [reflexivity | reflexivity | exact Hv].
Qed.

(** ** Promotion and narrowing *)

Lemma iter_pos_iter {A : Type} (f : A -> A) (n : positive) (x : A) :
  iter_pos f n x = Pos.iter f x n.
Proof.
  revert x. induction n as [n IH | n IH |]; intros x; cbn.
  - rewrite !IH, !Pos.iter_swap. reflexivity.
  - rewrite !IH. reflexivity.
  - reflexivity.
Qed.

Lemma digits2_pos_shift (m k : positive) :
  digits2_pos (Pos.iter xO m k) = (digits2_pos m + k)%positive.
Proof.
  induction k as [| k IH] using Pos.peano_ind.
  - cbn. now rewrite Pos.add_1_r.
  - rewrite Pos.iter_succ. cbn. rewrite IH. lia.
Qed.

(** Shifting back what was shifted in loses nothing. *)
Lemma shr_shift_exact (m k : positive) :
  iter_pos shr_1 k
    {| shr_m := Zpos (Pos.iter xO m k); shr_r := false; shr_s := false |}
  = {| shr_m := Zpos m; shr_r := false; shr_s := false |}.
Proof.
  rewrite iter_pos_iter.
  induction k as [| k IH] using Pos.peano_ind.
  - reflexivity.
  - rewrite Pos.iter_succ, <- Pos.iter_swap. cbn.
    rewrite Pos.iter_succ. cbn. exact IH.
Qed.

(** A binary32 number: the bounds on its mantissa and exponent. *)
Lemma F32_valid_finite (s : bool) (m : positive) (e : Z) :
  F32.valid (S754_finite s m e) = true ->
  (Zpos (digits2_pos m) <= 24 /\ -149 <= e <= 104 /\
   fexp 24 128 (Zpos (digits2_pos m) + e) = e)%Z.
Proof.
  unfold F32.valid, valid_binary, bounded, canonical_mantissa.
  intros H. apply andb_true_iff in H as [H1 H2].
  apply Z.eqb_eq in H1. apply Z.leb_le in H2.
  unfold fexp, emin, F32.prec, F32.emax in *. lia.
Qed.

(** Promotion to [double] and narrowing back give the [float] again. *)
Lemma static_cast_float_promote (x : float) :
  F32.valid x = true -> static_cast_float (promote_double x) = x.
Proof.
  destruct x as [s | s | | s m e]; try reflexivity.
  intros Hv. apply F32_valid_finite in Hv as (Hd & He & Hc).
  set (d := digits2_pos m) in *.
  assert (Hk : exists k, (Zpos k = 53 - Zpos d)%Z).
  { exists (Z.to_pos (53 - Zpos d)). lia. }
  destruct Hk as [k Hk].
  (* the promotion shifts the mantissa to 53 bits *)
  assert (Hp : promote_double (S754_finite s m e)
               = S754_finite s (Pos.iter xO m k) (e - Zpos k)).
  { unfold promote_double, binary_round, F64.prec, F64.emax.
    fold d.
    assert (Hf : fexp 53 1024 (Zpos d + e) = (e - Zpos k)%Z)
      by (unfold fexp, emin; lia).
    rewrite Hf.
    unfold shl_align.
    replace (e - Zpos k - e)%Z with (Zneg k) by lia.
    unfold binary_round_aux, shr_fexp.
    cbn [Zdigits2 shr_record_of_loc]. rewrite digits2_pos_shift. fold d.
    assert (Hf' : fexp 53 1024 (Zpos (d + k) + (e - Zpos k)) = (e - Zpos k)%Z)
      by (unfold fexp, emin; lia).
    rewrite Hf', Z.sub_diag. cbn [shr shr_m loc_of_shr_record shr_r shr_s
                                  round_nearest_even].
    cbn [Zdigits2 shr_record_of_loc]. rewrite digits2_pos_shift. fold d.
    rewrite Hf', Z.sub_diag. cbn [shr shr_m].
    replace (e - Zpos k <=? 1024 - 53)%Z with true
      by (symmetry; apply Z.leb_le; lia).
    reflexivity. }
  rewrite Hp.
  unfold static_cast_float, binary_round, F32.prec, F32.emax.
  rewrite digits2_pos_shift. fold d.
  assert (Hf : fexp 24 128 (Zpos (d + k) + (e - Zpos k)) = e).
  { rewrite <- Hc at 2. f_equal. lia. }
  rewrite Hf. unfold shl_align.
  replace (e - (e - Zpos k))%Z with (Zpos k) by lia.
  unfold binary_round_aux, shr_fexp.
  cbn [Zdigits2 shr_record_of_loc]. rewrite digits2_pos_shift. fold d.
  rewrite Hf.
  replace (e - (e - Zpos k))%Z with (Zpos k) by lia.
  cbn [shr]. rewrite shr_shift_exact.
  cbn [shr_m loc_of_shr_record shr_r shr_s round_nearest_even Zdigits2
       shr_record_of_loc].
  fold d. replace (e - Zpos k + Zpos k)%Z with e by lia.
  rewrite Hc, Z.sub_diag. cbn [shr shr_m].
  replace (e <=? 128 - 24)%Z with true by (symmetry; apply Z.leb_le; lia).
  reflexivity.
Qed.

(** ** Rounding never makes a NaN *)

Lemma shr_1_nonneg (r : shr_record) :
  (0 <= shr_m r)%Z -> (0 <= shr_m (shr_1 r))%Z.
Proof.
  destruct r as [[| [p | p |] | p] r s]; cbn; intros H; try lia.
Qed.

Lemma shr_nonneg (mrs : shr_record) (e n : Z) :
  (0 <= shr_m mrs)%Z -> (0 <= shr_m (fst (shr mrs e n)))%Z.
Proof.
  intros H. destruct n as [| k | k]; cbn; try exact H.
  rewrite iter_pos_iter.
  induction k as [| k IH] using Pos.peano_ind.
  - now apply shr_1_nonneg.
  - rewrite Pos.iter_succ. now apply shr_1_nonneg.
Qed.

Lemma shr_record_of_loc_m (m : Z) (l : location) :
  shr_m (shr_record_of_loc m l) = m.
Proof. destruct l as [| []]; reflexivity. Qed.

Lemma round_nearest_even_nonneg (m : Z) (l : location) :
  (0 <= m)%Z -> (0 <= round_nearest_even m l)%Z.
Proof.
  intros H. destruct l as [| []]; cbn; try lia.
  destruct (Z.even m); lia.
Qed.

Lemma binary_round_aux_not_NaN (prec emax : Z) (s : bool) (mx ex : Z)
    (l : location) :
  (0 <= mx)%Z -> binary_round_aux prec emax s mx ex l <> NaN.
Proof.
  intros H. unfold binary_round_aux, shr_fexp.
  destruct (shr (shr_record_of_loc mx l) ex _) as [mrs' e'] eqn:E1.
  destruct (shr (shr_record_of_loc (round_nearest_even _ _) loc_Exact) e' _)
    as [mrs'' e''] eqn:E2.
  assert (H1 : (0 <= shr_m mrs')%Z).
  { change mrs' with (fst (mrs', e')). rewrite <- E1.
    apply shr_nonneg. now rewrite shr_record_of_loc_m. }
  assert (H2 : (0 <= shr_m mrs'')%Z).
  { change mrs'' with (fst (mrs'', e'')). rewrite <- E2.
    apply shr_nonneg. rewrite shr_record_of_loc_m.
    now apply round_nearest_even_nonneg. }
  destruct (shr_m mrs'') as [| m | m]; try discriminate; [| lia].
  destruct (_ <=? _)%Z; discriminate.
Qed.

Lemma binary_round_not_NaN (prec emax : Z) (s : bool) (m : positive) (e : Z) :
  binary_round prec emax s m e <> NaN.
Proof.
  unfold binary_round. destruct (shl_align m e _) as [mz ez].
  apply binary_round_aux_not_NaN. lia.
Qed.

(** Only a NaN narrows to a NaN. *)
Lemma static_cast_float_NaN (x : double) :
  static_cast_float x = NaN -> x = NaN.
Proof.
  destruct x as [s | s | | s m e]; cbn; try discriminate; try reflexivity.
  intros H. now apply binary_round_not_NaN in H.
Qed.
(** ** Rounding to nearest *)

Section Rounding.
Local Open Scope Z_scope.

(** The number of bits of a mantissa. *)
Lemma digits2_pos_bounds (m : positive) :
  2 ^ (Zpos (digits2_pos m) - 1) <= Zpos m < 2 ^ Zpos (digits2_pos m).
Proof.
  induction m as [m IH | m IH |]; cbn [digits2_pos].
  - rewrite Pos2Z.inj_succ.
    replace (Z.succ (Zpos (digits2_pos m)) - 1)
      with (Z.succ (Zpos (digits2_pos m) - 1)) by lia.
    rewrite !Z.pow_succ_r by lia. lia.
  - rewrite Pos2Z.inj_succ.
    replace (Z.succ (Zpos (digits2_pos m)) - 1)
      with (Z.succ (Zpos (digits2_pos m) - 1)) by lia.
    rewrite !Z.pow_succ_r by lia. lia.
  - cbn. lia.
Qed.

Lemma digits2_pos_unique (m : positive) (k : Z) :
  2 ^ (k - 1) <= Zpos m < 2 ^ k -> Zpos (digits2_pos m) = k.
Proof.
  intros [H1 H2]. pose proof (digits2_pos_bounds m) as [H3 H4].
  set (d := Zpos (digits2_pos m)) in *.
  assert (Hk : 0 < k).
  { destruct (Z.lt_ge_cases 0 k) as [Hk | Hk]; [exact Hk |].
    destruct (Z.eq_dec k 0) as [-> | Hne]; [cbn in H2; lia |].
    rewrite Z.pow_neg_r in H2 by lia. lia. }
  destruct (Z.lt_total d k) as [Hlt | [Heq | Hgt]]; [| exact Heq |].
  - assert (2 ^ d <= 2 ^ (k - 1)) by (apply Z.pow_le_mono_r; lia). lia.
  - assert (2 ^ k <= 2 ^ (d - 1)) by (apply Z.pow_le_mono_r; lia). lia.
Qed.

Lemma shifted_start (M : Z) :
  0 <= M -> shifted 0 M (Build_shr_record M false false) 0.
Proof. intros H. unfold shifted. cbn. lia. Qed.

Lemma shr_1_shifted (k M : Z) (r : shr_record) (low : Z) :
  0 <= k -> shifted k M r low ->
  exists low', shifted (k + 1) M (shr_1 r) low'.
Proof.
  intros Hk (Hm & HM & Hlow & Hloc).
  rewrite Z.add_1_r. unfold shifted. rewrite Z.pow_succ_r by exact Hk.
  assert (HP : 0 < 2 ^ k) by (apply Z.pow_pos_nonneg; lia).
  set (P := 2 ^ k) in *. clearbody P.
  destruct r as [m r s]. cbn [shr_m shr_r shr_s] in *.
  destruct m as [| [p | p |] | p]; cbn [shr_1 shr_m shr_r shr_s orb];
    try lia.
  - exists low. destruct r, s; cbn [orb]; nia.
  - exists (P + low). destruct r, s; cbn [orb]; nia.
  - exists low. destruct r, s; cbn [orb]; nia.
  - exists (P + low). destruct r, s; cbn [orb]; nia.
Qed.

Lemma iter_shr_1_shifted (k : positive) (M : Z) :
  0 <= M ->
  exists low,
    shifted (Zpos k) M
      (iter_pos shr_1 k (Build_shr_record M false false)) low.
Proof.
  intros HM. rewrite iter_pos_iter.
  induction k as [| k IH] using Pos.peano_ind.
  - cbn [Pos.iter]. apply (shr_1_shifted 0 M _ 0); [lia |].
    now apply shifted_start.
  - rewrite Pos.iter_succ, Pos2Z.inj_succ, <- Z.add_1_r.
    destruct IH as [low IH]. apply (shr_1_shifted _ M _ low); [lia | exact IH].
Qed.

(** Rounding the shifted mantissa to nearest, ties to even, is off by
    at most half of the last place. *)
Lemma round_nearest_even_shifted (k M : Z) (r : shr_record) (low : Z) :
  0 <= k -> shifted k M r low ->
  let m1 := round_nearest_even (shr_m r) (loc_of_shr_record r) in
  shr_m r <= m1 <= shr_m r + 1 /\
  2 * Z.abs (m1 * 2 ^ k - M) <= 2 ^ k /\
  (low = 0 -> m1 = shr_m r).
Proof.
  intros Hk (Hm & HM & Hlow & Hloc). cbv zeta.
  assert (HP : 0 < 2 ^ k) by (apply Z.pow_pos_nonneg; lia).
  set (P := 2 ^ k) in *. clearbody P.
  destruct r as [m r s]. cbn [shr_m shr_r shr_s] in *.
  destruct r, s; cbn [loc_of_shr_record round_nearest_even];
    try destruct (Z.even m); nia.
Qed.

(** ** What a rounding returns *)

Section Spec.
Variables prec emax : Z.
Hypothesis prec_pos : 0 < prec.
Hypothesis prec_lt_emax : prec < emax.

Lemma shr_no_shift (r : shr_record) (e n : Z) :
  n <= 0 -> shr r e n = (r, e).
Proof. intros H. destruct n; [reflexivity | lia | reflexivity]. Qed.

Lemma fexp_ge_emin (x : Z) : emin prec emax <= fexp prec emax x.
Proof. unfold fexp. lia. Qed.

(** [binary_round_aux] on an exact mantissa: the number returned, the
    distance to the exact value in units of [2^e], and that its mantissa
    is canonical. *)
Lemma binary_round_aux_spec (s : bool) (m : positive) (e : Z) :
  let d := Zpos (digits2_pos m) in
  let e1 := fexp prec emax (d + e) in
  exists m2 e2,
    binary_round_aux prec emax s (Zpos m) e loc_Exact
    = pack prec emax s m2 e2 /\
    0 <= m2 /\
    (e1 <= e -> m2 = Zpos m /\ e2 = e) /\
    (e < e1 ->
     e1 <= e2 <= e1 + 1 /\
     2 * Z.abs (m2 * 2 ^ (e2 - e) - Zpos m) <= 2 ^ (e1 - e) /\
     (m2 = 0 \/
      Zdigits2 m2 <= prec /\ fexp prec emax (Zdigits2 m2 + e2) = e2)).
Proof.
  intros d e1. unfold binary_round_aux, shr_fexp.
  cbn [Zdigits2 shr_record_of_loc]. fold d. fold e1.
  pose proof (fexp_ge_emin (d + e)) as Hemin. fold e1 in Hemin.
  destruct (Z.le_gt_cases e1 e) as [Hle | Hgt].
  - (* the mantissa is short enough *)
    rewrite shr_no_shift by lia.
    cbn [shr_m loc_of_shr_record shr_r shr_s round_nearest_even Zdigits2
         shr_record_of_loc].
    fold d. fold e1. rewrite shr_no_shift by lia. cbn [shr_m].
    exists (Zpos m), e. split; [reflexivity |]. split; [lia |].
    split; [tauto | lia].
  - (* shift by [e1 - e] and round *)
    destruct (e1 - e) as [| k | k] eqn:Hk; try lia. cbn [shr].
    destruct (iter_shr_1_shifted k (Zpos m)) as [low Hsh]; [lia |].
    set (r1 := iter_pos shr_1 k _) in *.
    destruct (round_nearest_even_shifted (Zpos k) (Zpos m) r1 low)
      as (Hm1 & Herr & _); [lia | exact Hsh |].
    set (m1 := round_nearest_even (shr_m r1) (loc_of_shr_record r1)) in *.
    replace (e + Zpos k) with e1 by lia.
    destruct Hsh as (Hq & HM & Hlow & _).
    set (q := shr_m r1) in *. clearbody m1 q. clear r1.
    pose proof (digits2_pos_bounds m) as [Hd1 Hd2]. fold d in Hd1, Hd2.
    assert (Hdpos : 0 < d) by (unfold d; lia).
    assert (HP : 0 < 2 ^ Zpos k) by (apply Z.pow_pos_nonneg; lia).
    assert (Hprec : 0 < 2 ^ (prec - 1)) by (apply Z.pow_pos_nonneg; lia).
    assert (Hprec2 : 2 ^ prec = 2 * 2 ^ (prec - 1)).
    { replace prec with (Z.succ (prec - 1)) at 1 by lia.
      apply Z.pow_succ_r. lia. }
    assert (Hdk : d - Zpos k <= prec) by (unfold e1, fexp in Hk; lia).
    (* the quotient has at most [prec] bits *)
    assert (Hqlt : q < 2 ^ prec).
    { destruct (Z.le_gt_cases (Zpos k) d) as [Hkd | Hkd].
      - assert (E : 2 ^ d = 2 ^ (d - Zpos k) * 2 ^ Zpos k)
          by (rewrite <- Z.pow_add_r by lia; f_equal; lia).
        assert (2 ^ (d - Zpos k) <= 2 ^ prec)
          by (apply Z.pow_le_mono_r; lia).
        nia.
      - assert (2 ^ d <= 2 ^ Zpos k) by (apply Z.pow_le_mono_r; lia).
        nia. }
    (* ... and exactly [prec] bits above the subnormal range *)
    assert (Hqge : emin prec emax < e1 -> 2 ^ (prec - 1) <= q).
    { intros Hn.
      assert (Ek : Zpos k = d - prec) by (unfold e1, fexp in *; lia).
      assert (E : 2 ^ (d - 1) = 2 ^ (prec - 1) * 2 ^ Zpos k)
        by (rewrite <- Z.pow_add_r by lia; f_equal; lia).
      nia. }
    destruct m1 as [| p | p] eqn:Em1; [| | lia].
    + (* rounded to zero *)
      cbn [Zdigits2 shr_m].
      rewrite shr_no_shift by (unfold fexp in *; lia). cbn [shr_m].
      exists 0, e1. split; [reflexivity |]. split; [lia |].
      split; [lia |]. intros _. split; [lia |].
      split; [| now left].
      replace (e1 - e) with (Zpos k) by lia. exact Herr.
    + destruct (Z.eq_dec (Zpos p) (2 ^ prec)) as [Hcarry | Hnocarry].
      * (* the rounding carried into a new bit *)
        assert (Hdp : Zpos (digits2_pos p) = prec + 1).
        { apply digits2_pos_unique. rewrite Hcarry.
          replace (prec + 1 - 1) with prec by lia.
          replace (prec + 1) with (Z.succ prec) by lia.
          rewrite Z.pow_succ_r by lia. lia. }
        cbn [Zdigits2]. rewrite Hdp.
        assert (Hf : fexp prec emax (prec + 1 + e1) - e1 = 1)
          by (unfold fexp in *; lia).
        rewrite Hf. cbn [shr iter_pos].
        destruct p as [p' | p' |]; [lia | | lia].
        cbn [shr_1 shr_m].
        assert (Hp' : Zpos p' = 2 ^ (prec - 1)) by lia.
        exists (Zpos p'), (e1 + 1). split; [reflexivity |].
        split; [lia |]. split; [lia |]. intros _. split; [lia |]. split.
        -- replace (e1 + 1 - e) with (Z.succ (Zpos k)) by lia.
           rewrite Z.pow_succ_r by lia.
           replace (e1 - e) with (Zpos k) by lia.
           replace (Zpos p' * (2 * 2 ^ Zpos k) - Zpos m)
             with (Zpos p'~0 * 2 ^ Zpos k - Zpos m) by lia.
           exact Herr.
        -- right. cbn [Zdigits2].
           assert (Hdp' : Zpos (digits2_pos p') = prec).
           { apply digits2_pos_unique. rewrite Hp'. lia. }
           rewrite Hdp'. split; [lia |]. unfold fexp in *. lia.
      * (* no carry *)
        assert (Hplt : Zpos p < 2 ^ prec) by lia.
        pose proof (digits2_pos_bounds p) as [Hp1 Hp2].
        set (d1 := Zpos (digits2_pos p)) in *.
        assert (Hd1le : d1 <= prec).
        { destruct (Z.le_gt_cases d1 prec) as [H | H]; [exact H |].
          assert (2 ^ prec <= 2 ^ (d1 - 1))
            by (apply Z.pow_le_mono_r; lia). lia. }
        cbn [Zdigits2]. fold d1.
        rewrite shr_no_shift by (unfold fexp in *; lia). cbn [shr_m].
        exists (Zpos p), e1. split; [reflexivity |]. split; [lia |].
        split; [lia |]. intros _. split; [lia |]. split.
        -- replace (e1 - e) with (Zpos k) by lia. exact Herr.
        -- right. cbn [Zdigits2]. fold d1. split; [exact Hd1le |].
           destruct (Z.eq_dec e1 (emin prec emax)) as [He | He].
           ++ unfold fexp in *. lia.
           ++ assert (Hge : 2 ^ (prec - 1) <= Zpos p)
                by (specialize (Hqge ltac:(lia)); lia).
              assert (Hd1ge : prec <= d1).
              { destruct (Z.le_gt_cases prec d1) as [H | H]; [exact H |].
                assert (2 ^ d1 <= 2 ^ (prec - 1))
                  by (apply Z.pow_le_mono_r; lia). lia. }
              unfold fexp in *. lia.
Qed.

Lemma iter_xO_shift (m k : positive) :
  Zpos (Pos.iter xO m k) = Zpos m * 2 ^ Zpos k.
Proof.
  induction k as [| k IH] using Pos.peano_ind.
  - cbn. lia.
  - rewrite Pos.iter_succ, Pos2Z.inj_xO, IH, Pos2Z.inj_succ,
      Z.pow_succ_r by lia. lia.
Qed.

(** Aligning a mantissa to a lower exponent keeps the number. *)
Lemma shl_align_spec (m : positive) (e e' : Z) :
  snd (shl_align m e e') = Z.min e e' /\
  Zpos (fst (shl_align m e e')) = Zpos m * 2 ^ (e - Z.min e e') /\
  Zpos (digits2_pos (fst (shl_align m e e')))
  = Zpos (digits2_pos m) + (e - Z.min e e').
Proof.
  unfold shl_align. destruct (e' - e) as [| k | k] eqn:Hk; cbn [fst snd].
  - replace (Z.min e e') with e by lia. rewrite Z.sub_diag. cbn. lia.
  - replace (Z.min e e') with e by lia. rewrite Z.sub_diag. cbn. lia.
  - replace (Z.min e e') with e' by lia.
    replace (e - e') with (Zpos k) by lia.
    rewrite digits2_pos_shift, iter_xO_shift. lia.
Qed.

(** [binary_round]: the number returned has a canonical mantissa; it is
    the exact value when that has few enough bits, and within half a
    unit of the last place otherwise. *)
Lemma binary_round_spec (s : bool) (m : positive) (e : Z) :
  let d := Zpos (digits2_pos m) in
  let e1 := fexp prec emax (d + e) in
  exists m2 e2,
    binary_round prec emax s m e = pack prec emax s m2 e2 /\
    0 <= m2 /\
    (m2 = 0 \/
     Zdigits2 m2 <= prec /\ fexp prec emax (Zdigits2 m2 + e2) = e2) /\
    (e1 <= e -> e2 = e1 /\ m2 = Zpos m * 2 ^ (e - e1)) /\
    (e < e1 ->
     e1 <= e2 <= e1 + 1 /\
     2 * Z.abs (m2 * 2 ^ (e2 - e) - Zpos m) <= 2 ^ (e1 - e)).
Proof.
  intros d e1. unfold binary_round. fold d. fold e1.
  destruct (shl_align_spec m e e1) as (Hez & Hmz & Hdz).
  destruct (shl_align m e e1) as [mz ez]. cbn [fst snd] in *. fold d in Hdz.
  destruct (binary_round_aux_spec s mz ez) as (m2 & e2 & HR & Hm2 & Hex & Hrd).
  rewrite Hdz in Hex, Hrd.
  replace (d + (e - Z.min e e1) + ez) with (d + e) in Hex, Hrd by lia.
  fold e1 in Hex, Hrd.
  exists m2, e2. split; [exact HR |]. split; [exact Hm2 |].
  destruct (Z.le_gt_cases e1 e) as [Hle | Hgt].
  - (* aligned to [e1]: exact *)
    assert (Ez : ez = e1) by lia.
    destruct (Hex ltac:(lia)) as [-> ->].
    split; [| split; [intros _; split; [lia | rewrite Hmz; f_equal; f_equal; lia] | lia]].
    right. cbn [Zdigits2]. rewrite Hdz. unfold e1, fexp in *. split; [lia |].
    replace (d + (e - Z.min e (Z.max (d + e - prec) (emin prec emax))) + ez)
      with (d + e) by lia.
    lia.
  - assert (Emin : Z.min e e1 = e) by lia. rewrite Emin in *. subst ez.
    assert (Em : mz = m).
    { rewrite Z.sub_diag in Hmz. cbn in Hmz. lia. }
    subst mz.
    destruct (Hrd Hgt) as (He2 & Herr & Hcan).
    split; [exact Hcan |]. split; [lia |]. intros _. split; [exact He2 | exact Herr].
Qed.

(** Rounding returns a number of the format. *)
Lemma pack_valid (s : bool) (m2 e2 : Z) :
  m2 = 0 \/ Zdigits2 m2 <= prec /\ fexp prec emax (Zdigits2 m2 + e2) = e2 ->
  valid_binary prec emax (pack prec emax s m2 e2) = true.
Proof.
  intros H. unfold pack. destruct m2 as [| p | p]; try reflexivity.
  destruct (e2 <=? emax - prec) eqn:He; [| reflexivity].
  destruct H as [H | [_ H]]; [discriminate |].
  cbn [valid_binary]. unfold bounded, canonical_mantissa.
  cbn [Zdigits2] in H. rewrite H, Z.eqb_refl, He. reflexivity.
Qed.

Lemma binary_round_valid (s : bool) (m : positive) (e : Z) :
  valid_binary prec emax (binary_round prec emax s m e) = true.
Proof.
  destruct (binary_round_spec s m e) as (m2 & e2 & -> & _ & Hcan & _).
  now apply pack_valid.
Qed.

Lemma binary_normalize_valid (m e : Z) (szero : bool) :
  valid_binary prec emax (binary_normalize prec emax m e szero) = true.
Proof.
  destruct m; cbn [binary_normalize]; [reflexivity | |];
    apply binary_round_valid.
Qed.

(** ** The relative error of a rounding *)

Lemma emin_le_emax : emin prec emax + 1 <= emax - prec.
Proof. unfold emin. lia. Qed.

(** Above the subnormal range the distance is at most [2^-prec] of the
    exact value. *)
Lemma half_ulp_relative (m : positive) (e A : Z) :
  let d := Zpos (digits2_pos m) in
  0 < d - prec ->
  2 * Z.abs (A - Zpos m) <= 2 ^ (d - prec) ->
  2 ^ prec * Z.abs (A - Zpos m) <= Zpos m.
Proof.
  intros d Hk Herr.
  pose proof (digits2_pos_bounds m) as [Hd1 _]. fold d in Hd1.
  assert (E1 : 2 ^ d = 2 ^ prec * 2 ^ (d - prec))
    by (rewrite <- Z.pow_add_r by lia; f_equal; lia).
  assert (E2 : 2 ^ d = 2 * 2 ^ (d - 1)).
  { replace d with (Z.succ (d - 1)) at 1 by lia. apply Z.pow_succ_r. lia. }
  assert (HP : 0 < 2 ^ prec) by (apply Z.pow_pos_nonneg; lia).
  nia.
Qed.

(** [binary_round] of a number that is neither too small nor too large:
    the result is a finite number, exact or relatively close. *)
Lemma binary_round_rel (m : positive) (e : Z) :
  emin prec emax <= e ->
  Zpos (digits2_pos m) + e <= emax - 1 ->
  exists (m2 : positive) (e2 : Z),
    binary_round prec emax false m e = S754_finite false m2 e2 /\
    ((e2 <= e /\ Zpos m2 = Zpos m * 2 ^ (e - e2)) \/
     (e <= e2 /\
      2 ^ prec * Z.abs (Zpos m2 * 2 ^ (e2 - e) - Zpos m) <= Zpos m)).
Proof.
  intros He Hd.
  destruct (binary_round_spec false m e)
    as (m2 & e2 & HR & Hm2 & _ & Hex & Hrd).
  set (d := Zpos (digits2_pos m)) in *.
  set (e1 := fexp prec emax (d + e)) in *.
  pose proof emin_le_emax as Hemin.
  destruct (Z.le_gt_cases e1 e) as [Hle | Hgt].
  - destruct (Hex Hle) as [-> ->].
    assert (HP : 0 < 2 ^ (e - e1)) by (apply Z.pow_pos_nonneg; lia).
    destruct (Zpos m * 2 ^ (e - e1)) as [| p | p] eqn:Ep; try lia.
    exists p, e1. split.
    + rewrite HR. unfold pack.
      replace (e1 <=? emax - prec) with true; [reflexivity |].
      symmetry. apply Z.leb_le. unfold e1, fexp. lia.
    + left. split; [exact Hle | now rewrite Ep].
  - destruct (Hrd Hgt) as (He2 & Herr).
    assert (E1 : e1 = d + e - prec) by (unfold e1, fexp in *; lia).
    assert (Hrel : 2 ^ prec * Z.abs (m2 * 2 ^ (e2 - e) - Zpos m) <= Zpos m).
    { apply (half_ulp_relative m e); change (Zpos (digits2_pos m)) with d;
        [lia |].
      replace (d - prec) with (e1 - e) by lia. exact Herr. }
    assert (HP : 0 < 2 ^ prec) by (apply Z.pow_pos_nonneg; lia).
    assert (HP1 : 2 ^ 1 <= 2 ^ prec) by (apply Z.pow_le_mono_r; lia).
    destruct m2 as [| p | p]; [| | lia].
    { rewrite Z.mul_0_l, Z.sub_0_l, Z.abs_opp in Hrel.
      cbn [Z.abs] in Hrel. change (2 ^ 1) with 2 in HP1. nia. }
    exists p, e2. split.
    + rewrite HR. unfold pack.
      replace (e2 <=? emax - prec) with true; [reflexivity |].
      symmetry. apply Z.leb_le. lia.
    + right. split; [lia | exact Hrel].
Qed.

(** [binary_round_aux] of a mantissa that is not too short for its
    exponent: the result is zero or finite, and exact, relatively close,
    or in the subnormal range. *)
Lemma binary_round_aux_rel (m : positive) (e : Z) :
  let d := Zpos (digits2_pos m) in
  e <= fexp prec emax (d + e) ->
  d + e <= emax - 1 ->
  exists m2 e2,
    binary_round_aux prec emax false (Zpos m) e loc_Exact
    = pack prec emax false m2 e2 /\
    0 <= m2 /\ e <= e2 <= emax - prec /\
    (2 ^ prec * Z.abs (m2 * 2 ^ (e2 - e) - Zpos m) <= Zpos m \/
     (e < emin prec emax /\ d + e <= emin prec emax + prec /\
      2 * Z.abs (m2 * 2 ^ (e2 - e) - Zpos m) <= 2 ^ (emin prec emax - e))).
Proof.
  intros d He Hd.
  destruct (binary_round_aux_spec false m e)
    as (m2 & e2 & HR & Hm2 & Hex & Hrd).
  fold d in Hex, Hrd.
  set (e1 := fexp prec emax (d + e)) in *.
  pose proof emin_le_emax as Hemin.
  exists m2, e2. split; [exact HR |]. split; [exact Hm2 |].
  destruct (Z.le_gt_cases e1 e) as [Hle | Hgt].
  - destruct (Hex Hle) as [-> ->].
    split; [unfold e1, fexp in *; lia |]. left.
    rewrite Z.sub_diag, Z.mul_1_r, Z.sub_diag. cbn. lia.
  - destruct (Hrd Hgt) as (He2 & Herr & _).
    split; [unfold e1, fexp in *; lia |].
    destruct (Z.eq_dec e1 (emin prec emax)) as [Esub | Enorm].
    + right. split; [lia |]. split; [unfold e1, fexp in *; lia |].
      rewrite <- Esub. exact Herr.
    + left. apply (half_ulp_relative m e);
        change (Zpos (digits2_pos m)) with d;
        [unfold e1, fexp in *; lia |].
      replace (d - prec) with (e1 - e) by (unfold e1, fexp in *; lia).
      exact Herr.
Qed.

(** The product of two canonical mantissas is not too short. *)
Lemma product_exponent (m1 m2 : positive) (e1 e2 : Z) :
  fexp prec emax (Zpos (digits2_pos m1) + e1) = e1 ->
  fexp prec emax (Zpos (digits2_pos m2) + e2) = e2 ->
  e1 + e2 <= fexp prec emax (Zpos (digits2_pos (m1 * m2)) + (e1 + e2)).
Proof.
  intros H1 H2.
  pose proof (digits2_pos_bounds m1) as [A1 A2].
  pose proof (digits2_pos_bounds m2) as [B1 B2].
  pose proof (digits2_pos_bounds (m1 * m2)) as [C1 C2].
  set (d1 := Zpos (digits2_pos m1)) in *.
  set (d2 := Zpos (digits2_pos m2)) in *.
  set (d := Zpos (digits2_pos (m1 * m2))) in *.
  assert (Hd1 : 0 < d1) by (unfold d1; lia).
  assert (Hd2 : 0 < d2) by (unfold d2; lia).
  assert (Hd : d1 + d2 - 1 <= d).
  { destruct (Z.le_gt_cases (d1 + d2 - 1) d) as [H | H]; [exact H |].
    assert (E : 2 ^ (d1 - 1 + (d2 - 1)) = 2 ^ (d1 - 1) * 2 ^ (d2 - 1))
      by (apply Z.pow_add_r; lia).
    assert (2 ^ d <= 2 ^ (d1 - 1 + (d2 - 1)))
      by (apply Z.pow_le_mono_r; lia).
    rewrite Pos2Z.inj_mul in C2. nia. }
  unfold fexp, emin in *. lia.
Qed.

End Spec.

End Rounding.

(** Narrowing returns a [float], promotion a [double]. *)
Lemma static_cast_float_valid (x : double) :
  F32.valid (static_cast_float x) = true.
Proof.
  destruct x as [s | s | | s m e]; try reflexivity.
  apply binary_round_valid; reflexivity.
Qed.

Lemma F32_of_Z_valid (n : Z) : F32.valid (F32.of_Z n) = true.
Proof. apply binary_normalize_valid; reflexivity. Qed.
(** ** Floating-point numbers as rationals *)

Section Values.
Local Open Scope Q_scope.

Lemma pow2_pos (e : Z) : 0 < 2 ^ e.
Proof. apply Qpower_0_lt. reflexivity. Qed.

Lemma pow2_add (a b : Z) : 2 ^ (a + b) == 2 ^ a * 2 ^ b.
Proof. apply Qpower_plus. discriminate. Qed.

Lemma pow2_Z (n : Z) : (0 <= n)%Z -> inject_Z (2 ^ n) == 2 ^ n.
Proof. intros H. exact (Zpower_Qpower 2 n H). Qed.

Lemma pow2_le (a b : Z) : (a <= b)%Z -> 2 ^ a <= 2 ^ b.
Proof. intros H. apply Qpower_le_compat_l; [exact H | discriminate]. Qed.

Lemma pow2_lt_inv (a b : Z) : 2 ^ a < 2 ^ b -> (a < b)%Z.
Proof. intros H. apply (Qpower_lt_compat_l_inv 2); [exact H | reflexivity]. Qed.

(** The same number with a lower exponent. *)
Lemma scaled_value (m e e2 : Z) :
  (e <= e2)%Z ->
  inject_Z m * 2 ^ e2 == inject_Z (m * 2 ^ (e2 - e)) * 2 ^ e.
Proof.
  intros H. rewrite inject_Z_mult, pow2_Z by lia.
  replace e2 with ((e2 - e) + e)%Z at 1 by lia.
  rewrite pow2_add. ring.
Qed.

Lemma F2Q_finite (m : positive) (e : Z) :
  F2Q (S754_finite false m e) = inject_Z (Zpos m) * 2 ^ e.
Proof. reflexivity. Qed.

Lemma F2Q_finite_pos (m : positive) (e : Z) :
  0 < F2Q (S754_finite false m e).
Proof.
  rewrite F2Q_finite. apply Qmult_lt_0_compat; [reflexivity | apply pow2_pos].
Qed.

Lemma F2Q_nonneg (x : spec_float) : nonneg_finite x = true -> 0 <= F2Q x.
Proof.
  destruct x as [s | s | | [] m e]; cbn [nonneg_finite negb]; intros H;
    try discriminate; try apply Qle_refl.
  apply Qlt_le_weak, F2Q_finite_pos.
Qed.

(** The digits of a mantissa bound the number from below. *)
Lemma digits_below (m : positive) (e b : Z) :
  inject_Z (Zpos m) * 2 ^ e < 2 ^ b ->
  (Zpos (digits2_pos m) + e <= b)%Z.
Proof.
  intros H. pose proof (digits2_pos_bounds m) as [H1 _].
  set (d := Zpos (digits2_pos m)) in *.
  assert (Hd : (0 < d)%Z) by (unfold d; lia).
  assert (H2 : 2 ^ (d - 1 + e) <= inject_Z (Zpos m) * 2 ^ e).
  { rewrite pow2_add, <- (pow2_Z (d - 1)) by lia.
    apply Qmult_le_compat_r; [| apply Qlt_le_weak, pow2_pos].
    rewrite <- Zle_Qle. exact H1. }
  assert (H3 : 2 ^ (d - 1 + e) < 2 ^ b) by (eapply Qle_lt_trans; eassumption).
  apply pow2_lt_inv in H3. lia.
Qed.

(** ... and from above. *)
Lemma digits_above (m : positive) (e : Z) :
  inject_Z (Zpos m) * 2 ^ e < 2 ^ (Zpos (digits2_pos m) + e).
Proof.
  pose proof (digits2_pos_bounds m) as [_ H1].
  rewrite pow2_add, <- (pow2_Z (Zpos (digits2_pos m))) by lia.
  apply Qmult_lt_compat_r; [apply pow2_pos |].
  rewrite <- Zlt_Qlt. exact H1.
Qed.

(** ** Relative closeness *)

Lemma near_refl (eps x : Q) : 0 <= eps -> 0 <= x -> near eps x x.
Proof. intros He Hx. unfold near. split; nra. Qed.

Lemma near_eq (eps a b x y : Q) :
  a == b -> x == y -> near eps b y -> near eps a x.
Proof. intros Ha Hx [H1 H2]. unfold near. rewrite Ha, Hx. now split. Qed.

Lemma near_zero (eps a : Q) : a == 0 -> near eps a 0.
Proof. intros Ha. unfold near. rewrite Ha. split; lra. Qed.

Lemma near_nonneg (eps a x : Q) :
  eps <= 1 -> 0 <= x -> near eps a x -> 0 <= a.
Proof. intros He Hx [H1 _]. nra. Qed.

Lemma near_weaken (eps eps' a x : Q) :
  eps <= eps' -> 0 <= x -> near eps a x -> near eps' a x.
Proof. intros He Hx [H1 H2]. unfold near. split; nra. Qed.

Lemma near_add (eps a b x y : Q) :
  near eps a x -> near eps b y -> near eps (a + b) (x + y).
Proof. intros [H1 H2] [H3 H4]. unfold near. split; lra. Qed.

Lemma near_mul (eps del a b x y : Q) :
  0 <= eps <= 1 -> 0 <= del <= 1 -> 0 <= x -> 0 <= y ->
  near eps a x -> near del b y ->
  near (eps + del + eps * del) (a * b) (x * y).
Proof.
  intros He Hd Hx Hy [H1 H2] [H3 H4]. unfold near.
  assert (Ha : 0 <= a) by nra.
  assert (Hb : 0 <= b) by nra.
  assert (L1 : x * (1 - eps) * (y * (1 - del)) <= a * b).
  { apply Qle_trans with (a * (y * (1 - del))).
    - apply Qmult_le_compat_r; [exact H1 | nra].
    - rewrite (Qmult_comm a), (Qmult_comm a b).
      apply Qmult_le_compat_r; [exact H3 | exact Ha]. }
  assert (L2 : a * b <= x * (1 + eps) * (y * (1 + del))).
  { apply Qle_trans with (a * (y * (1 + del))).
    - rewrite (Qmult_comm a), (Qmult_comm a (y * _)).
      apply Qmult_le_compat_r; [exact H4 | exact Ha].
    - apply Qmult_le_compat_r; [exact H2 | nra]. }
  assert (Hxy : 0 <= x * y) by (apply Qmult_le_0_compat; assumption).
  assert (Hed : 0 <= eps * del) by (apply Qmult_le_0_compat; tauto).
  split.
  - eapply Qle_trans; [| exact L1].
    assert (E : x * (1 - eps) * (y * (1 - del))
                == x * y * (1 - eps - del + eps * del)) by ring.
    rewrite E. nra.
  - eapply Qle_trans; [exact L2 |].
    assert (E : x * (1 + eps) * (y * (1 + del))
                == x * y * (1 + (eps + del + eps * del))) by ring.
    rewrite E. apply Qle_refl.
Qed.

Lemma near_trans (eps del a z x : Q) :
  0 <= eps <= 1 -> 0 <= del <= 1 -> 0 <= x ->
  near eps a z -> near del z x ->
  near (eps + del + eps * del) a x.
Proof.
  intros He Hd Hx Ha Hz.
  assert (H1 : near eps a (z * 1)) by (eapply near_eq; [reflexivity | apply Qmult_1_r | exact Ha]).
  assert (Hz0 : 0 <= z) by (eapply near_nonneg; [| exact Hx | exact Hz]; tauto).
  destruct Ha as [A1 A2], Hz as [Z1 Z2]. unfold near.
  assert (Hxe : 0 <= x * eps) by (apply Qmult_le_0_compat; tauto).
  assert (Hxd : 0 <= x * del) by (apply Qmult_le_0_compat; tauto).
  assert (L1 : x * (1 - del) * (1 - eps) <= z * (1 - eps)).
  { apply Qmult_le_compat_r; [exact Z1 | lra]. }
  assert (L2 : z * (1 + eps) <= x * (1 + del) * (1 + eps)).
  { apply Qmult_le_compat_r; [exact Z2 | lra]. }
  assert (Hed : 0 <= x * (eps * del)).
  { apply Qmult_le_0_compat; [exact Hx |].
    apply Qmult_le_0_compat; tauto. }
  split.
  - apply Qle_trans with (z * (1 - eps)); [| exact A1].
    eapply Qle_trans; [| exact L1].
    assert (E : x * (1 - del) * (1 - eps)
                == x - x * eps - x * del + x * (eps * del)) by ring.
    rewrite E.
    assert (E2 : x * (1 - (eps + del + eps * del))
                 == x - x * eps - x * del - x * (eps * del)) by ring.
    rewrite E2. lra.
  - apply Qle_trans with (z * (1 + eps)); [exact A2 |].
    eapply Qle_trans; [exact L2 |].
    assert (E : x * (1 + del) * (1 + eps)
                == x * (1 + (eps + del + eps * del))) by ring.
    rewrite E. apply Qle_refl.
Qed.

(** ** The operations on [float] *)

Lemma float_eps_range : 0 <= float_eps <= 1.
Proof. unfold float_eps. split; discriminate. Qed.

(** An integer statement of relative closeness, as a rational one. *)
Lemma near_of_relative (A m : Z) (t : Q) :
  0 < t -> (0 < m)%Z ->
  (2 ^ 24 * Z.abs (A - m) <= m)%Z ->
  near float_eps (inject_Z A * t) (inject_Z m * t).
Proof.
  intros Ht Hm H.
  assert (H1 : (16777216 * (m - A) <= m)%Z) by lia.
  assert (H2 : (16777216 * (A - m) <= m)%Z) by lia.
  rewrite Zle_Qle, inject_Z_mult in H1, H2.
  unfold Zminus in H1, H2. rewrite inject_Z_plus, inject_Z_opp in H1, H2.
  change (inject_Z 16777216) with (16777216 # 1) in H1, H2.
  set (a := inject_Z A) in *. set (x := inject_Z m) in *.
  unfold near, float_eps. split.
  - assert (E : x * t * (1 - (1 # 16777216))
                == (x * (1 - (1 # 16777216))) * t) by ring.
    rewrite E. apply Qmult_le_compat_r; [lra | lra].
  - assert (E : x * t * (1 + (1 # 16777216))
                == (x * (1 + (1 # 16777216))) * t) by ring.
    rewrite E. apply Qmult_le_compat_r; [lra | lra].
Qed.

(** Rounding a positive number that is not in the subnormal range and
    does not overflow. *)
Lemma F32_round_near (m : positive) (e : Z) :
  (-149 <= e)%Z ->
  inject_Z (Zpos m) * 2 ^ e < 2 ^ 127 ->
  nonneg_finite (binary_round 24 128 false m e) = true /\
  near float_eps (F2Q (binary_round 24 128 false m e))
    (inject_Z (Zpos m) * 2 ^ e).
Proof.
  intros He Hx.
  pose proof (digits_below m e 127 Hx) as Hd.
  destruct (binary_round_rel 24 128 ltac:(lia) ltac:(lia) m e)
    as (m2 & e2 & -> & Hv); [exact He | lia |].
  split; [reflexivity |]. rewrite F2Q_finite.
  destruct Hv as [[He2 Hm2] | [He2 Hrel]].
  - eapply near_eq; [| reflexivity | apply near_refl].
    + rewrite Hm2. symmetry. apply scaled_value. exact He2.
    + apply float_eps_range.
    + apply Qlt_le_weak, (F2Q_finite_pos m e).
  - eapply near_eq; [apply (scaled_value _ e e2 He2) | reflexivity |].
    apply near_of_relative; [apply pow2_pos | lia | exact Hrel].
Qed.

Lemma below_overflow (x : Q) : x <= inject_Z (2 ^ 70) -> x < 2 ^ 127.
Proof.
  intros H. rewrite <- (pow2_Z 127) by lia.
  eapply Qle_lt_trans; [exact H |]. rewrite <- Zlt_Qlt. reflexivity.
Qed.

(** [float(n)] for an integer that is not negative. *)
Lemma F32_of_Z_near (n : Z) :
  (0 <= n <= 2 ^ 70)%Z ->
  nonneg_finite (F32.of_Z n) = true /\
  near float_eps (F2Q (F32.of_Z n)) (inject_Z n).
Proof.
  intros Hn. unfold F32.of_Z, binary_normalize, F32.prec, F32.emax.
  destruct n as [| p | p]; [| | lia].
  - split; [reflexivity |]. apply near_zero. reflexivity.
  - assert (E : inject_Z (Zpos p) == inject_Z (Zpos p) * 2 ^ 0)
      by (change (2 ^ 0) with 1; ring).
    destruct (F32_round_near p 0) as [H1 H2]; [lia | |].
    + rewrite <- E. apply below_overflow. rewrite <- Zle_Qle. lia.
    + split; [exact H1 |]. eapply near_eq; [reflexivity | exact E | exact H2].
Qed.

(** The aligned mantissas of two numbers. *)
Lemma aligned_value (m : positive) (e e' : Z) :
  (e' <= e)%Z ->
  inject_Z (Zpos (fst (shl_align m e e'))) * 2 ^ e'
  == F2Q (S754_finite false m e).
Proof.
  intros H. destruct (shl_align_spec m e e') as (_ & Hm & _).
  rewrite Hm. replace (Z.min e e') with e' by lia.
  rewrite F2Q_finite. symmetry. apply scaled_value. exact H.
Qed.

Lemma nonneg_finite_cases (x : spec_float) :
  nonneg_finite x = true ->
  (exists s, x = S754_zero s) \/ (exists m e, x = S754_finite false m e).
Proof.
  destruct x as [s | s | | [] m e]; cbn; intros H; try discriminate.
  - left. now exists s.
  - right. now exists m, e.
Qed.

(** [x - y] for numbers that are not negative, [y] at most [x]. *)
Lemma F32_sub_near (x y : float) :
  F32.valid x = true -> F32.valid y = true ->
  nonneg_finite x = true -> nonneg_finite y = true ->
  F2Q y <= F2Q x -> F2Q x <= inject_Z (2 ^ 70) ->
  nonneg_finite (F32.sub x y) = true /\
  near float_eps (F2Q (F32.sub x y)) (F2Q x - F2Q y).
Proof.
  intros Vx Vy Nx Ny Hle Hx.
  destruct (nonneg_finite_cases x Nx) as [[sx ->] | (mx & ex & ->)];
    destruct (nonneg_finite_cases y Ny) as [[sy ->] | (my & ey & ->)].
  - split; [now destruct sx, sy |].
    apply near_zero. now destruct sx, sy.
  - pose proof (F2Q_finite_pos my ey) as Hp.
    change (F2Q (S754_zero sx)) with 0 in Hle. lra.
  - split; [reflexivity |].
    apply (near_eq _ _ (F2Q (S754_finite false mx ex)) _
             (F2Q (S754_finite false mx ex))).
    + reflexivity.
    + change (F2Q (S754_zero sy)) with 0. ring.
    + apply near_refl; [apply float_eps_range |].
      apply Qlt_le_weak, F2Q_finite_pos.
  - apply F32_valid_finite in Vx as (_ & Hex & _).
    apply F32_valid_finite in Vy as (_ & Hey & _).
    unfold F32.sub, SFsub, F32.prec, F32.emax. cbn [cond_Zopp].
    set (ez := Z.min ex ey).
    pose proof (aligned_value mx ex ez ltac:(lia)) as Ax.
    pose proof (aligned_value my ey ez ltac:(lia)) as Ay.
    set (ax := Zpos (fst (shl_align mx ex ez))) in *.
    set (ay := Zpos (fst (shl_align my ey ez))) in *.
    assert (E : inject_Z (ax - ay) * 2 ^ ez
                == F2Q (S754_finite false mx ex) - F2Q (S754_finite false my ey)).
    { rewrite <- Ax, <- Ay. unfold Zminus.
      rewrite inject_Z_plus, inject_Z_opp. ring. }
    assert (Hd : (0 <= ax - ay)%Z).
    { rewrite Zle_Qle.
      assert (H0 : 0 <= inject_Z (ax - ay) * 2 ^ ez) by (rewrite E; lra).
      pose proof (pow2_pos ez) as Hp.
      destruct (Qlt_le_dec (inject_Z (ax - ay)) 0) as [Hneg | Hpos];
        [| exact Hpos].
      assert (inject_Z (ax - ay) * 2 ^ ez < 0 * 2 ^ ez)
        by (apply Qmult_lt_compat_r; assumption).
      lra. }
    destruct (ax - ay)%Z as [| p | p] eqn:Ep; [| | lia].
    + split; [reflexivity |].
      apply (near_eq _ _ 0 _ 0);
        [reflexivity | | apply near_zero; reflexivity].
      rewrite <- E. change (inject_Z 0) with 0. ring.
    + cbn [binary_normalize].
      destruct (F32_round_near p ez) as [H1 H2]; [lia | |].
      * rewrite E. apply below_overflow.
        pose proof (F2Q_finite_pos my ey). lra.
      * split; [exact H1 |].
        eapply near_eq; [reflexivity | symmetry; exact E | exact H2].
Qed.

(** [x + y] for numbers that are not negative. *)
Lemma F32_add_near (x y : float) :
  F32.valid x = true -> F32.valid y = true ->
  nonneg_finite x = true -> nonneg_finite y = true ->
  F2Q x + F2Q y <= inject_Z (2 ^ 70) ->
  nonneg_finite (F32.add x y) = true /\
  near float_eps (F2Q (F32.add x y)) (F2Q x + F2Q y).
Proof.
  intros Vx Vy Nx Ny Hx.
  destruct (nonneg_finite_cases x Nx) as [[sx ->] | (mx & ex & ->)];
    destruct (nonneg_finite_cases y Ny) as [[sy ->] | (my & ey & ->)].
  - split; [now destruct sx, sy |].
    apply near_zero. now destruct sx, sy.
  - split; [reflexivity |].
    apply (near_eq _ _ (F2Q (S754_finite false my ey)) _
             (F2Q (S754_finite false my ey))).
    + reflexivity.
    + change (F2Q (S754_zero sx)) with 0. ring.
    + apply near_refl; [apply float_eps_range |].
      apply Qlt_le_weak, F2Q_finite_pos.
  - split; [reflexivity |].
    apply (near_eq _ _ (F2Q (S754_finite false mx ex)) _
             (F2Q (S754_finite false mx ex))).
    + reflexivity.
    + change (F2Q (S754_zero sy)) with 0. ring.
    + apply near_refl; [apply float_eps_range |].
      apply Qlt_le_weak, F2Q_finite_pos.
  - apply F32_valid_finite in Vx as (_ & Hex & _).
    apply F32_valid_finite in Vy as (_ & Hey & _).
    unfold F32.add, SFadd, F32.prec, F32.emax. cbn [cond_Zopp].
    set (ez := Z.min ex ey).
    pose proof (aligned_value mx ex ez ltac:(lia)) as Ax.
    pose proof (aligned_value my ey ez ltac:(lia)) as Ay.
    set (ax := fst (shl_align mx ex ez)) in *.
    set (ay := fst (shl_align my ey ez)) in *.
    change (Zpos ax + Zpos ay)%Z with (Zpos (ax + ay)).
    cbn [binary_normalize].
    assert (E : inject_Z (Zpos (ax + ay)) * 2 ^ ez
                == F2Q (S754_finite false mx ex) + F2Q (S754_finite false my ey)).
    { rewrite <- Ax, <- Ay, Pos2Z.inj_add, inject_Z_plus. ring. }
    destruct (F32_round_near (ax + ay) ez) as [H1 H2]; [lia | |].
    + rewrite E. apply below_overflow. exact Hx.
    + split; [exact H1 |].
      eapply near_eq; [reflexivity | symmetry; exact E | exact H2].
Qed.

(** The value of what a rounding packs. *)
Lemma F2Q_pack (m2 e2 : Z) :
  (0 <= m2)%Z -> (e2 <= 104)%Z ->
  nonneg_finite (pack 24 128 false m2 e2) = true /\
  F2Q (pack 24 128 false m2 e2) == inject_Z m2 * 2 ^ e2.
Proof.
  intros Hm He. unfold pack. destruct m2 as [| p | p]; [| | lia].
  - split; [reflexivity |]. cbn [F2Q]. change (inject_Z 0) with 0. ring.
  - replace (e2 <=? 128 - 24)%Z with true
      by (symmetry; apply Z.leb_le; lia).
    split; reflexivity.
Qed.

(** [x * y] for numbers that are not negative: relatively close to the
    product, unless that is so small that the result is subnormal. *)
Lemma F32_mul_near (x y : float) :
  F32.valid x = true -> F32.valid y = true ->
  nonneg_finite x = true -> nonneg_finite y = true ->
  F2Q x * F2Q y <= inject_Z (2 ^ 70) ->
  nonneg_finite (F32.mul x y) = true /\
  (near float_eps (F2Q (F32.mul x y)) (F2Q x * F2Q y) \/
   (F2Q x * F2Q y < 1 # 4 /\ F2Q (F32.mul x y) < 1)).
Proof.
  intros Vx Vy Nx Ny Hx.
  destruct (nonneg_finite_cases x Nx) as [[sx ->] | (mx & ex & ->)];
    destruct (nonneg_finite_cases y Ny) as [[sy ->] | (my & ey & ->)];
    try (split; [reflexivity |]; left;
         apply (near_eq _ _ 0 _ 0);
         [reflexivity
         | try change (F2Q (S754_zero sx)) with 0;
           try change (F2Q (S754_zero sy)) with 0; ring
         | apply near_zero; reflexivity]).
  apply F32_valid_finite in Vx as (_ & _ & Cx).
  apply F32_valid_finite in Vy as (_ & _ & Cy).
  unfold F32.mul, SFmul, F32.prec, F32.emax. cbn [xorb].
  assert (E : inject_Z (Zpos (mx * my)) * 2 ^ (ex + ey)
              == F2Q (S754_finite false mx ex) * F2Q (S754_finite false my ey)).
  { rewrite !F2Q_finite, Pos2Z.inj_mul, inject_Z_mult, pow2_add. ring. }
  set (m := (mx * my)%positive) in *. set (e := (ex + ey)%Z) in *.
  assert (Hd : (Zpos (digits2_pos m) + e <= 127)%Z).
  { apply digits_below. rewrite E. apply below_overflow. exact Hx. }
  destruct (binary_round_aux_rel 24 128 ltac:(lia) ltac:(lia) m e)
    as (m2 & e2 & -> & Hm2 & He2 & Herr).
  { apply product_exponent; try lia; assumption. }
  { lia. }
  destruct (F2Q_pack m2 e2 Hm2 ltac:(lia)) as [HN HV].
  split; [exact HN |].
  assert (HA : inject_Z m2 * 2 ^ e2 == inject_Z (m2 * 2 ^ (e2 - e)) * 2 ^ e)
    by (apply scaled_value; lia).
  destruct Herr as [Hrel | (Hsub & Hde & Habs)].
  - left. eapply near_eq; [rewrite HV; exact HA | symmetry; exact E |].
    apply near_of_relative; [apply pow2_pos | lia | exact Hrel].
  - right.
    assert (Hxy : inject_Z (Zpos m) * 2 ^ e < 2 ^ (-125)).
    { eapply Qlt_le_trans; [apply digits_above |].
      apply pow2_le. unfold emin in Hde. lia. }
    assert (H125 : 2 ^ (-125) <= 1 # 4)
      by (change (1 # 4) with (2 ^ (-2)); apply pow2_le; lia).
    split; [rewrite <- E; lra |].
    rewrite HV, HA.
    set (A := (m2 * 2 ^ (e2 - e))%Z) in *.
    assert (HZ : (2 * A <= 2 * Zpos m + 2 ^ (emin 24 128 - e))%Z) by lia.
    rewrite Zle_Qle, inject_Z_plus, !inject_Z_mult, pow2_Z in HZ
      by (unfold emin in *; lia).
    change (inject_Z 2) with 2 in HZ.
    assert (HT : 2 ^ (emin 24 128 - e) * 2 ^ e == 2 ^ (-149)).
    { rewrite <- pow2_add. unfold emin.
      replace (3 - 128 - 24 - e + e)%Z with (-149)%Z by lia. reflexivity. }
    assert (H149 : 2 ^ (-149) <= 1)
      by (change 1 with (2 ^ 0); apply pow2_le; lia).
    pose proof (pow2_pos e) as Hpe.
    assert (HM : 2 * inject_Z A * 2 ^ e
                 <= (2 * inject_Z (Zpos m) + 2 ^ (emin 24 128 - e)) * 2 ^ e)
      by (apply Qmult_le_compat_r; [exact HZ | lra]).
    assert (HM2 : (2 * inject_Z (Zpos m) + 2 ^ (emin 24 128 - e)) * 2 ^ e
                 == 2 * (inject_Z (Zpos m) * 2 ^ e)
                    + 2 ^ (emin 24 128 - e) * 2 ^ e) by ring.
    rewrite HM2, HT in HM.
    assert (HM3 : 2 * inject_Z A * 2 ^ e == 2 * (inject_Z A * 2 ^ e)) by ring.
    rewrite HM3 in HM. lra.
Qed.

(** [duration_cast] of a number that is not negative: the integer
    below. *)
Lemma duration_cast_floor (r : float) :
  nonneg_finite r = true -> F2Q r < inject_Z (2 ^ 63) ->
  (0 <= duration_cast r)%Z /\
  inject_Z (duration_cast r) <= F2Q r /\
  F2Q r < inject_Z (duration_cast r) + 1.
Proof.
  intros Nr Hr.
  destruct (nonneg_finite_cases r Nr) as [[s ->] | (m & e & ->)].
  - cbn. split; [lia |]. split; [apply Qle_refl | reflexivity].
  - unfold duration_cast. cbn [cond_Zopp].
    rewrite F2Q_finite in *.
    pose proof (pow2_pos e) as Hpe.
    assert (Hfloor : (0 <= Z.shiftl (Zpos m) e)%Z /\
                     inject_Z (Z.shiftl (Zpos m) e)
                     <= inject_Z (Zpos m) * 2 ^ e /\
                     inject_Z (Zpos m) * 2 ^ e
                     < inject_Z (Z.shiftl (Zpos m) e) + 1).
    { destruct (Z.le_gt_cases 0 e) as [He | He].
      - rewrite Z.shiftl_mul_pow2 by exact He.
        rewrite inject_Z_mult, pow2_Z by exact He.
        split; [| split; lra].
        apply Z.mul_nonneg_nonneg; [lia |]. apply Z.pow_nonneg. lia.
      - rewrite Z.shiftl_div_pow2 by lia.
        set (k := (- e)%Z).
        assert (HT : (0 < 2 ^ k)%Z) by (apply Z.pow_pos_nonneg; lia).
        pose proof (Z.div_mod (Zpos m) (2 ^ k) ltac:(lia)) as Hdiv.
        pose proof (Z.mod_pos_bound (Zpos m) (2 ^ k) HT) as Hmod.
        set (q := (Zpos m / 2 ^ k)%Z) in *.
        set (r0 := (Zpos m mod 2 ^ k)%Z) in *.
        assert (Hq : (0 <= q)%Z) by (apply Z.div_pos; lia).
        split; [exact Hq |].
        assert (E1 : 2 ^ k * 2 ^ e == 1).
        { rewrite <- pow2_add. unfold k.
          replace (- e + e)%Z with 0%Z by lia. reflexivity. }
        assert (E2 : inject_Z (Zpos m) * 2 ^ e
                     == inject_Z q + inject_Z r0 * 2 ^ e).
        { rewrite Hdiv at 1.
          rewrite inject_Z_plus, inject_Z_mult, pow2_Z by (unfold k; lia).
          assert (E3 : (2 ^ k * inject_Z q + inject_Z r0) * 2 ^ e
                       == inject_Z q * (2 ^ k * 2 ^ e) + inject_Z r0 * 2 ^ e)
            by ring.
          rewrite E3, E1. ring. }
        assert (B1 : 0 <= inject_Z r0 * 2 ^ e).
        { apply Qmult_le_0_compat; [| lra].
          change 0 with (inject_Z 0). rewrite <- Zle_Qle. lia. }
        assert (B2 : inject_Z r0 * 2 ^ e < 1).
        { rewrite <- E1. apply Qmult_lt_compat_r; [exact Hpe |].
          rewrite <- pow2_Z by (unfold k; lia). rewrite <- Zlt_Qlt. lia. }
        rewrite E2. split; lra. }
    destruct Hfloor as (F0 & F1 & F2).
    set (n := Z.shiftl (Zpos m) e) in *.
    assert (Hn : (n < 2 ^ 63)%Z).
    { rewrite Zlt_Qlt. eapply Qle_lt_trans; [exact F1 | exact Hr]. }
    replace ((- 2 ^ 63 <=? n) && (n <? 2 ^ 63))%Z with true.
    + split; [exact F0 |]. split; [exact F1 | exact F2].
    + symmetry. apply andb_true_iff. split;
        [apply Z.leb_le; lia | apply Z.ltb_lt; exact Hn].
Qed.

(** ** Comparisons *)

(** Of two numbers of the format, the one with the smaller exponent is
    the smaller. *)
Lemma canonical_lt (m1 m2 : positive) (e1 e2 : Z) :
  F32.valid (S754_finite false m1 e1) = true ->
  F32.valid (S754_finite false m2 e2) = true ->
  (e1 < e2)%Z ->
  F2Q (S754_finite false m1 e1) < F2Q (S754_finite false m2 e2).
Proof.
  intros V1 V2 He.
  apply F32_valid_finite in V1 as (D1 & E1 & _).
  apply F32_valid_finite in V2 as (D2 & E2 & C2).
  pose proof (digits2_pos_bounds m1) as [_ B1].
  pose proof (digits2_pos_bounds m2) as [B2 _].
  assert (Hd2 : Zpos (digits2_pos m2) = 24%Z)
    by (unfold fexp, emin in C2; lia).
  rewrite Hd2 in B2. change (2 ^ (24 - 1))%Z with 8388608%Z in B2.
  assert (H24 : (2 ^ Zpos (digits2_pos m1) <= 2 ^ 24)%Z)
    by (apply Z.pow_le_mono_r; lia).
  change (2 ^ 24)%Z with 16777216%Z in H24.
  assert (Hp : (2 ^ 1 <= 2 ^ (e2 - e1))%Z) by (apply Z.pow_le_mono_r; lia).
  change (2 ^ 1)%Z with 2%Z in Hp.
  assert (HZ : (Zpos m1 < Zpos m2 * 2 ^ (e2 - e1))%Z) by nia.
  rewrite !F2Q_finite, (scaled_value (Zpos m2) e1 e2) by lia.
  apply Qmult_lt_compat_r; [apply pow2_pos |].
  rewrite <- Zlt_Qlt. exact HZ.
Qed.

Lemma SFcompare_F2Q (x y : float) :
  F32.valid x = true -> F32.valid y = true ->
  nonneg_finite x = true -> nonneg_finite y = true ->
  SFcompare x y = Some (F2Q x ?= F2Q y).
Proof.
  intros Vx Vy Nx Ny.
  destruct (nonneg_finite_cases x Nx) as [[sx ->] | (mx & ex & ->)];
    destruct (nonneg_finite_cases y Ny) as [[sy ->] | (my & ey & ->)].
  - reflexivity.
  - cbn [SFcompare]. f_equal. symmetry. apply Qlt_alt.
    change (F2Q (S754_zero sx)) with 0. apply F2Q_finite_pos.
  - cbn [SFcompare]. f_equal. symmetry. apply Qgt_alt.
    change (F2Q (S754_zero sy)) with 0. apply F2Q_finite_pos.
  - cbn [SFcompare]. f_equal.
    destruct (Z.compare_spec ex ey) as [He | He | He].
    + subst ey. change (Pos.compare_cont Eq mx my) with (Pos.compare mx my).
      rewrite !F2Q_finite.
      destruct (Pos.compare_spec mx my) as [Hm | Hm | Hm]; symmetry.
      * subst my. apply Qeq_alt. reflexivity.
      * apply Qlt_alt. apply Qmult_lt_compat_r; [apply pow2_pos |].
        rewrite <- Zlt_Qlt. lia.
      * apply Qgt_alt. apply Qmult_lt_compat_r; [apply pow2_pos |].
        rewrite <- Zlt_Qlt. lia.
    + symmetry. apply Qlt_alt. now apply canonical_lt.
    + symmetry. apply Qgt_alt. now apply canonical_lt.
Qed.

Lemma SFltb_F2Q (x y : float) :
  F32.valid x = true -> F32.valid y = true ->
  nonneg_finite x = true -> nonneg_finite y = true ->
  SFltb x y = true <-> F2Q x < F2Q y.
Proof.
  intros Vx Vy Nx Ny. unfold SFltb.
  rewrite (SFcompare_F2Q x y Vx Vy Nx Ny), Qlt_alt.
  destruct (F2Q x ?= F2Q y); split; congruence.
Qed.

Lemma SFleb_F2Q (x y : float) :
  F32.valid x = true -> F32.valid y = true ->
  nonneg_finite x = true -> nonneg_finite y = true ->
  SFleb x y = true <-> F2Q x <= F2Q y.
Proof.
  intros Vx Vy Nx Ny. unfold SFleb.
  rewrite (SFcompare_F2Q x y Vx Vy Nx Ny), Qle_alt.
  destruct (F2Q x ?= F2Q y); split; congruence.
Qed.

Lemma F2Q_one : F2Q F32.one == 1.
Proof. reflexivity. Qed.

(** A [float] in [0,1] is a rational in [0,1]. *)
Lemma in_unit_range_F2Q (x : float) :
  F32.valid x = true -> in_unit_range x = true ->
  nonneg_finite x = true /\ 0 <= F2Q x /\ F2Q x <= 1.
Proof.
  intros Vx H. unfold in_unit_range in H.
  apply andb_true_iff in H as [H0 H1].
  assert (Nx : nonneg_finite x = true).
  { destruct x as [s | [] | | [] m e]; try reflexivity;
      try discriminate H0; discriminate H1. }
  split; [exact Nx |]. split; [now apply F2Q_nonneg |].
  rewrite <- F2Q_one. apply SFleb_F2Q; try assumption; reflexivity.
Qed.

(** The results of [+] and [-] are numbers of the format. *)
Lemma F32_sub_valid (x y : float) :
  F32.valid x = true -> F32.valid y = true -> F32.valid (F32.sub x y) = true.
Proof.
  intros Vx Vy. unfold F32.sub, SFsub.
  destruct x as [sx | sx | | sx mx ex], y as [sy | sy | | sy my ey];
    try reflexivity; try assumption;
    try (now destruct sx, sy).
  apply binary_normalize_valid; reflexivity.
Qed.

Lemma F32_add_valid (x y : float) :
  F32.valid x = true -> F32.valid y = true -> F32.valid (F32.add x y) = true.
Proof.
  intros Vx Vy. unfold F32.add, SFadd.
  destruct x as [sx | sx | | sx mx ex], y as [sy | sy | | sy my ey];
    try reflexivity; try assumption;
    try (now destruct sx, sy).
  apply binary_normalize_valid; reflexivity.
Qed.

End Values.
(** ** Frame properties: what no operation changes *)

Lemma same_request_refl (p : AnimationPlay) : same_request p p.
Proof. now repeat split. Qed.

Lemma same_request_trans (p q r : AnimationPlay) :
  same_request p q -> same_request q r -> same_request p r.
Proof.
  intros (A1 & A2 & A3 & A4) (B1 & B2 & B3 & B4).
  repeat split; congruence.
Qed.

Lemma extends_refl (s : AnimatedVisualPlayer) : extends s s.
Proof.
  constructor; auto. intros id p Hp. exists p.
  split; [assumption | split; [apply same_request_refl | auto]].
Qed.

Lemma extends_trans (s1 s2 s3 : AnimatedVisualPlayer) :
  extends s1 s2 -> extends s2 s3 -> extends s1 s3.
Proof.
  intros [A1 A2 A3 A4] [B1 B2 B3 B4]. constructor; try congruence.
  - lia.
  - intros id p Hp.
    destruct (A4 id p Hp) as (q & Hq & Hr & Hc).
    destruct (B4 id q Hq) as (r & Hr' & Hr'' & Hc').
    exists r. split; [assumption |].
    split; [eapply same_request_trans; eassumption | auto].
Qed.

Lemma evolves_refl (s : AnimatedVisualPlayer) : evolves s s.
Proof. split; [apply extends_refl | auto]. Qed.

Lemma evolves_trans (s1 s2 s3 : AnimatedVisualPlayer) :
  evolves s1 s2 -> evolves s2 s3 -> evolves s1 s3.
Proof.
  intros [A HA] [B HB]. split; [eapply extends_trans; eassumption |].
  intros Hv.
  pose proof (ext_version _ _ A). pose proof (ext_version _ _ B).
  assert (H12 : m_playAsyncVersion s2 = m_playAsyncVersion s1) by lia.
  assert (H23 : m_playAsyncVersion s3 = m_playAsyncVersion s2) by lia.
  destruct (HB H23) as [-> | ->]; [now left |].
  exact (HA H12).
Qed.


Lemma on_play_evolves (this : nat) (f : AnimationPlay -> AnimationPlay)
    (s : AnimatedVisualPlayer) :
  steady f -> evolves s (on_play this f s).
Proof.
  intros Hf. split; [| now right].
  constructor; try reflexivity. intros id p Hp. simpl.
  destruct (decide (this = id)) as [-> | Hne].
  - rewrite list_lookup_alter_eq, Hp. simpl.
    exists (f p). split; [reflexivity | apply Hf].
  - rewrite list_lookup_alter_ne by assumption.
    exists p. split; [assumption | split; [apply same_request_refl | auto]].
Qed.

Lemma steady_id : steady (fun p => p).
Proof. intros p. split; [apply same_request_refl | auto]. Qed.

Lemma steady_compose (f g : AnimationPlay -> AnimationPlay) :
  steady f -> steady g -> steady (fun p => g (f p)).
Proof.
  intros Hf Hg p. destruct (Hf p) as [F1 F2], (Hg (f p)) as [G1 G2].
  split; [eapply same_request_trans; eassumption | auto].
Qed.

Lemma steady_set_m_controller v : steady (set_m_controller v).
Proof. intros p. now repeat split. Qed.
Lemma steady_set_m_isPaused v : steady (set_m_isPaused v).
Proof. intros p. now repeat split. Qed.
Lemma steady_set_m_isPausedBecauseHidden v :
  steady (set_m_isPausedBecauseHidden v).
Proof. intros p. now repeat split. Qed.
Lemma steady_set_m_batch v : steady (set_m_batch v).
Proof. intros p. now repeat split. Qed.
Lemma steady_set_m_batchCompletedToken v :
  steady (set_m_batchCompletedToken v).
Proof. intros p. now repeat split. Qed.
Lemma steady_set_awaits_completed : steady (set_awaits_completed true).
Proof. intros p. now repeat split. Qed.

Lemma steady_cond (f : AnimationPlay -> AnimationPlay)
    (c : AnimationPlay -> bool) :
  steady f -> steady (fun p => if c p then f p else p).
Proof.
  intros Hf p. destruct (c p); [apply Hf | apply steady_id].
Qed.

Lemma steady_controller_Pause : steady controller_Pause.
Proof. intros p. now repeat split. Qed.
Lemma steady_controller_Resume : steady controller_Resume.
Proof. intros p. now repeat split. Qed.

Lemma steady_controller_PlaybackRate v : steady (controller_PlaybackRate v).
Proof. intros p. now repeat split. Qed.
Lemma steady_controller_Progress v : steady (controller_Progress v).
Proof. intros p. now repeat split. Qed.

Lemma steady_SetPlaybackRate v : steady (Play.SetPlaybackRate v).
Proof.
  intros p. unfold Play.SetPlaybackRate.
  destruct (m_controller p); now repeat split.
Qed.

Lemma steady_Pause : steady Play.Pause.
Proof.
  intros [f t l d up hp [c|] b tk aw]; unfold Play.Pause; simpl;
    destruct hp; now repeat split.
Qed.
Lemma steady_Resume : steady Play.Resume.
Proof.
  intros [f t l d up hp [c|] b tk aw]; unfold Play.Resume; simpl;
    destruct hp; now repeat split.
Qed.
Lemma steady_OnHiding : steady Play.OnHiding.
Proof.
  intros [f t l d up hp [c|] b tk aw]; unfold Play.OnHiding; simpl;
    destruct hp, up; now repeat split.
Qed.
Lemma steady_OnUnhiding : steady Play.OnUnhiding.
Proof.
  intros [f t l d up hp [c|] b tk aw]; unfold Play.OnUnhiding; simpl;
    destruct hp, up; now repeat split.
Qed.

Create HintDb player.
#[local] Hint Resolve evolves_refl on_play_evolves steady_id
  steady_set_m_controller steady_set_m_isPaused
  steady_set_m_isPausedBecauseHidden steady_set_m_batch
  steady_set_m_batchCompletedToken steady_set_awaits_completed
  steady_controller_Pause steady_controller_Resume steady_SetPlaybackRate
  steady_controller_PlaybackRate steady_controller_Progress
  steady_Pause steady_Resume steady_OnHiding steady_OnUnhiding : player.

(** Updates of the player's own fields other than the version counter
    and the play pointer. *)
Lemma emit_evolves e s : evolves s (emit e s).
Proof. split; [constructor; try reflexivity | now right].
  intros id p Hp. exists p. simpl. split; [assumption |].
  split; [apply same_request_refl | auto]. Qed.

Lemma set_m_progressPropertySet_evolves v s :
  evolves s (set_m_progressPropertySet v s).
Proof. split; [constructor; try reflexivity | now right].
  intros id p Hp. exists p. simpl. split; [assumption |].
  split; [apply same_request_refl | auto]. Qed.

Lemma set_IsPlaying_evolves v s : evolves s (set_IsPlaying v s).
Proof. split; [constructor; try reflexivity | now right].
  intros id p Hp. exists p. simpl. split; [assumption |].
  split; [apply same_request_refl | auto]. Qed.

Lemma reset_m_nowPlaying_evolves s : evolves s (set_m_nowPlaying None s).
Proof. split; [constructor; try reflexivity | now left].
  intros id p Hp. exists p. simpl. split; [assumption |].
  split; [apply same_request_refl | auto]. Qed.

#[local] Hint Resolve emit_evolves set_m_progressPropertySet_evolves
  set_IsPlaying_evolves reset_m_nowPlaying_evolves : player.

Lemma MUX_ASSERT_evolves c s : evolves s (MUX_ASSERT c s).
Proof. unfold MUX_ASSERT. destruct c; auto with player. Qed.

(** Peel the field updates off the later state. *)
Ltac evolve :=
  lazymatch goal with
  | |- evolves ?s ?s => apply evolves_refl
  | |- evolves ?s (emit ?e ?x) =>
      apply (evolves_trans s x); [evolve | apply emit_evolves]
  | |- evolves ?s (set_IsPlaying ?v ?x) =>
      apply (evolves_trans s x); [evolve | apply set_IsPlaying_evolves]
  | |- evolves ?s (set_m_progressPropertySet ?v ?x) =>
      apply (evolves_trans s x);
      [evolve | apply set_m_progressPropertySet_evolves]
  | |- evolves ?s (set_m_nowPlaying None ?x) =>
      apply (evolves_trans s x); [evolve | apply reset_m_nowPlaying_evolves]
  | |- evolves ?s (MUX_ASSERT ?c ?x) =>
      apply (evolves_trans s x); [evolve | apply MUX_ASSERT_evolves]
  | |- evolves ?s (on_play ?i ?f ?x) =>
      apply (evolves_trans s x);
      [evolve | apply on_play_evolves; auto with player]
  | |- evolves ?s (if ?c then ?x else ?y) => destruct c; evolve
  | _ => auto with player
  end.

Section Frames.

Variable h : Handler.
Hypothesis h_frames : frames h.

Lemma put_IsPlaying_evolves v s : evolves s (put_IsPlaying h v s).
Proof.
  unfold put_IsPlaying.
  eapply evolves_trans; [| apply h_frames]. evolve.
Qed.

Lemma CompleteAwaits_evolves this s : evolves s (CompleteAwaits this s).
Proof. unfold CompleteAwaits. evolve. Qed.

Lemma steady_unsubscribe :
  steady (fun p => if m_batch p then set_m_batchCompletedToken false p else p).
Proof.
  intros p. destruct (m_batch p);
    [apply steady_set_m_batchCompletedToken | apply steady_id].
Qed.

Lemma Complete_evolves this s : evolves s (Complete h this s).
Proof.
  unfold Complete.
  eapply evolves_trans; [| apply CompleteAwaits_evolves].
  destruct (IsCurrentPlay this _).
  - eapply evolves_trans; [| apply put_IsPlaying_evolves].
    evolve. apply steady_unsubscribe.
  - evolve. apply steady_unsubscribe.
Qed.

Lemma SetProgress_evolves v s : evolves s (SetProgress h v s).
Proof.
  unfold SetProgress. destruct (IsRS5OrHigher s); simpl; [| evolve].
  destruct (m_nowPlaying s); [| evolve].
  eapply evolves_trans; [| apply Complete_evolves]. evolve.
Qed.

Lemma Stop_evolves s : evolves s (Stop h s).
Proof.
  unfold Stop. destruct (IsRS5OrHigher s); simpl; [| evolve].
  destruct (non_null _); [apply SetProgress_evolves | evolve].
Qed.

Lemma CompleteCurrentPlay_evolves s : evolves s (CompleteCurrentPlay h s).
Proof.
  unfold CompleteCurrentPlay.
  eapply evolves_trans; [| apply MUX_ASSERT_evolves].
  destruct (m_nowPlaying s); [apply Complete_evolves | evolve].
Qed.

Lemma Start_evolves this s : evolves s (Start h this s).
Proof.
  unfold Start. destruct (plays s !! this) as [p |]; [| evolve].
  destruct (m_playDuration p <? ms20)%Z.
  - eapply evolves_trans; [| apply SetProgress_evolves]. evolve.
  - eapply evolves_trans; [| apply put_IsPlaying_evolves].
    evolve.
Qed.

Lemma Pause_evolves s : evolves s (Pause s).
Proof.
  unfold Pause. destruct (IsRS5OrHigher s); simpl; [| evolve].
  destruct (m_nowPlaying s); evolve.
Qed.

Lemma Resume_evolves s : evolves s (Resume s).
Proof.
  unfold Resume. destruct (IsRS5OrHigher s); simpl; [| evolve].
  destruct (m_nowPlaying s); evolve.
Qed.

Lemma OnHiding_evolves s : evolves s (OnHiding s).
Proof. unfold OnHiding. destruct (m_nowPlaying s); evolve. Qed.

Lemma OnUnhiding_evolves s : evolves s (OnUnhiding s).
Proof. unfold OnUnhiding. destruct (m_nowPlaying s); evolve. Qed.

Lemma set_PlaybackRate_evolves v s : evolves s (set_PlaybackRate v s).
Proof.
  split; [constructor; try reflexivity | now right].
  intros id p Hp. exists p. simpl. split; [assumption |].
  split; [apply same_request_refl | auto].
Qed.

Lemma put_PlaybackRate_evolves v s : evolves s (put_PlaybackRate v s).
Proof.
  unfold put_PlaybackRate, OnPlaybackRatePropertyChanged.
  eapply evolves_trans; [apply (set_PlaybackRate_evolves v) |].
  destruct (m_nowPlaying _); evolve.
Qed.

Lemma BatchCompleted_evolves play s : evolves s (BatchCompleted h play s).
Proof.
  unfold BatchCompleted. destruct (plays s !! play) as [p |]; [| evolve].
  destruct (m_batchCompletedToken p); [apply Complete_evolves | evolve].
Qed.

Lemma bump_version_evolves s :
  evolves s (set_m_playAsyncVersion (S (m_playAsyncVersion s)) s).
Proof.
  split; [constructor; simpl; try reflexivity; try lia |].
  - intros id p Hp. exists p. split; [assumption |].
    split; [apply same_request_refl | auto].
  - simpl. lia.
Qed.

Lemma install_extends p s :
  extends s (emit (EvNowPlaying (length (plays s)))
               (set_m_nowPlaying (Some (length (plays s)))
                  (set_plays (plays s ++ [p]) s))).
Proof.
  constructor; simpl; try reflexivity; try lia.
  intros id q Hq. exists q. split; [now apply lookup_app_l_Some |].
  split; [apply same_request_refl | auto].
Qed.

Lemma PlayAsync_extends f t l s :
  extends s (fst (PlayAsync h f t l s)) /\
  (IsRS5OrHigher s = true ->
   (m_playAsyncVersion s < m_playAsyncVersion (fst (PlayAsync h f t l s)))%nat).
Proof.
  unfold PlayAsync. destruct (IsRS5OrHigher s) eqn:Hrs; cbn [negb];
    [| split; [apply extends_refl | discriminate]].
  set (s1 := set_m_playAsyncVersion _ s).
  assert (E1 : evolves s s1) by apply bump_version_evolves.
  assert (E2 : evolves s1 (Stop h s1)) by apply Stop_evolves.
  assert (V1 : m_playAsyncVersion s1 = S (m_playAsyncVersion s)) by reflexivity.
  pose proof (ext_version _ _ (proj1 E2)) as V2.
  destruct (Nat.eqb _ _) eqn:Hv; cbn [negb].
  - set (s3 := CompleteCurrentPlay h (Stop h s1)).
    assert (E3 : evolves (Stop h s1) s3) by apply CompleteCurrentPlay_evolves.
    pose proof (ext_version _ _ (proj1 E3)) as V3.
    destruct (adjust_range f t) as [f' t'].
    match goal with
    | |- context [emit ?e (set_m_nowPlaying ?n (set_plays (_ ++ [?p]) s3))] =>
      set (s4 := emit e (set_m_nowPlaying n (set_plays (plays s3 ++ [p]) s3)));
      assert (E4 : extends s3 s4) by apply install_extends
    end.
    pose proof (ext_version _ _ E4) as V4.
    assert (E5 : evolves s4 (if IsAnimatedVisualLoaded s4
                             then Start h (length (plays s3)) s4 else s4))
      by (destruct (IsAnimatedVisualLoaded s4);
          [apply Start_evolves | apply evolves_refl]).
    pose proof (ext_version _ _ (proj1 E5)) as V5.
    cbn [fst]. split; [| intros _; lia].
    eapply extends_trans; [| exact (proj1 E5)].
    eapply extends_trans; [| exact E4].
    eapply extends_trans; [| exact (proj1 E3)].
    eapply extends_trans; [exact (proj1 E1) | exact (proj1 E2)].
  - cbn [fst]. split; [| intros _; lia].
    eapply extends_trans; [exact (proj1 E1) | exact (proj1 E2)].
Qed.

Lemma PlayAsync_evolves f t l s : evolves s (fst (PlayAsync h f t l s)).
Proof.
  destruct (PlayAsync_extends f t l s) as [E V]. split; [exact E |].
  intros Hv. destruct (IsRS5OrHigher s) eqn:Hrs.
  - specialize (V eq_refl). lia.
  - right. unfold PlayAsync. now rewrite Hrs.
Qed.

Lemma invoke_evolves c s : evolves s (invoke h c s).
Proof.
  destruct c; simpl.
  - apply PlayAsync_evolves.
  - apply Pause_evolves.
  - apply Resume_evolves.
  - apply SetProgress_evolves.
  - apply Stop_evolves.
  - apply OnHiding_evolves.
  - apply OnUnhiding_evolves.
  - apply put_PlaybackRate_evolves.
  - apply BatchCompleted_evolves.
Qed.

Lemma run_evolves caller s : evolves s (run h caller s).
Proof.
  revert s. induction caller as [| c next IH]; intros s; simpl.
  - apply evolves_refl.
  - eapply evolves_trans; [apply invoke_evolves | apply IH].
Qed.

End Frames.

Lemma no_subscriber_frames : frames no_subscriber.
Proof. intros old new s. apply evolves_refl. Qed.

Lemma reentrant_frames (react : Reaction) (depth : nat) :
  frames (reentrant react depth).
Proof.
  induction depth as [| d IH]; simpl.
  - apply no_subscriber_frames.
  - intros old new s. now apply run_evolves.
Qed.

(** ** The single-play invariant is kept *)


Lemma on_play_lookup this f s id p :
  plays (on_play this f s) !! id = Some p ->
  exists q, plays s !! id = Some q /\ (p = q \/ (id = this /\ p = f q)).
Proof.
  simpl. destruct (decide (this = id)) as [-> | Hne].
  - rewrite list_lookup_alter_eq. destruct (plays s !! id) as [q |]; simpl;
      [| discriminate].
    intros [= <-]. exists q. auto.
  - rewrite list_lookup_alter_ne by assumption. intros Hp. exists p. auto.
Qed.

Lemma on_play_lookup_inv this f s id q :
  plays s !! id = Some q ->
  exists p, plays (on_play this f s) !! id = Some p /\
            (p = q \/ (id = this /\ p = f q)).
Proof.
  intros Hq. simpl. destruct (decide (this = id)) as [-> | Hne].
  - rewrite list_lookup_alter_eq, Hq. simpl. exists (f q). auto.
  - rewrite list_lookup_alter_ne by assumption. exists q. auto.
Qed.

Lemma on_play_invariant pending this f s :
  quiet f -> invariant pending s -> invariant pending (on_play this f s).
Proof.
  intros Hf [I1 I2 I3 I4 I5]. constructor.
  - intros cur Hcur. destruct (I1 cur Hcur) as (Hn & q & Hq & Ha).
    split; [assumption |].
    destruct (on_play_lookup_inv this f s cur q Hq) as (p & Hp & Hpq).
    exists p. split; [assumption |].
    destruct Hpq as [-> | [_ ->]]; [assumption | now rewrite Hf].
  - intros id p Hp Ha.
    destruct (on_play_lookup this f s id p Hp) as (q & Hq & Hpq).
    apply (I2 id q Hq).
    destruct Hpq as [-> | [_ ->]]; [assumption | now rewrite Hf in Ha].
  - intros id Hid. simpl. rewrite length_alter. now apply I3.
  - exact I4.
  - exact I5.
Qed.

Lemma emit_invariant pending e s :
  e <> EvAssertFailed -> invariant pending s -> invariant pending (emit e s).
Proof.
  intros He [I1 I2 I3 I4 I5]. constructor; try assumption.
  simpl. rewrite not_elem_of_cons. split; [congruence | assumption].
Qed.

Lemma set_m_progressPropertySet_invariant pending v s :
  invariant pending s -> invariant pending (set_m_progressPropertySet v s).
Proof. intros [I1 I2 I3 I4 I5]. now constructor. Qed.

Lemma MUX_ASSERT_invariant pending c s :
  c = true -> invariant pending s -> invariant pending (MUX_ASSERT c s).
Proof. now intros ->. Qed.

Lemma quiet_unsubscribe :
  quiet (fun p => if m_batch p then set_m_batchCompletedToken false p else p).
Proof. intros p. now destruct (m_batch p). Qed.

Lemma quiet_Pause : quiet Play.Pause.
Proof.
  intros [f t l d up hp [c|] b tk aw]; unfold Play.Pause; simpl;
    now destruct hp.
Qed.
Lemma quiet_Resume : quiet Play.Resume.
Proof.
  intros [f t l d up hp [c|] b tk aw]; unfold Play.Resume; simpl;
    now destruct hp.
Qed.
Lemma quiet_OnHiding : quiet Play.OnHiding.
Proof.
  intros [f t l d up hp [c|] b tk aw]; unfold Play.OnHiding; simpl;
    now destruct hp, up.
Qed.
Lemma quiet_OnUnhiding : quiet Play.OnUnhiding.
Proof.
  intros [f t l d up hp [c|] b tk aw]; unfold Play.OnUnhiding; simpl;
    now destruct hp, up.
Qed.
Lemma quiet_SetPlaybackRate v : quiet (Play.SetPlaybackRate v).
Proof.
  intros p. unfold Play.SetPlaybackRate. now destruct (m_controller p).
Qed.

(** Releasing the awaiters of a play that is not current lets it leave
    the completing set. *)
Lemma CompleteAwaits_invariant (pending pending' : nat -> Prop) this s :
  invariant pending' s ->
  m_nowPlaying s <> Some this ->
  (forall id, pending' id -> pending id \/ id = this) ->
  (forall id, pending id -> pending' id) ->
  invariant pending (CompleteAwaits this s).
Proof.
  intros [I1 I2 I3 I4 I5] Hthis Hsub Hsup. unfold CompleteAwaits.
  apply emit_invariant; [discriminate |]. constructor.
  - intros cur Hcur. simpl in Hcur.
    destruct (I1 cur Hcur) as (Hn & q & Hq & Ha).
    split; [intros Hc; apply Hn; now apply Hsup |].
    exists q. split; [| assumption]. simpl.
    rewrite list_lookup_alter_ne; [assumption |]. congruence.
  - intros id p Hp Ha.
    destruct (on_play_lookup _ _ _ _ _ Hp) as (q & Hq & [E | [E1 E2]]);
      [| rewrite E2 in Ha; discriminate].
    rewrite E in Ha.
    destruct (decide (id = this)) as [Heq | Hne].
    + simpl in Hp. rewrite Heq, list_lookup_alter_eq, <- Heq, Hq in Hp.
      simpl in Hp. injection Hp as Hp. rewrite <- Hp in E.
      rewrite <- E in Ha. discriminate.
    + destruct (I2 id q Hq Ha) as [Hc | Hc]; [now left |].
      destruct (Hsub id Hc); [now right | contradiction].
  - intros id Hid. simpl. rewrite length_alter. apply I3. now apply Hsup.
  - exact I4.
  - exact I5.
Qed.

Section Invariant.

Variable h : Handler.
Hypothesis h_frames : frames h.
Hypothesis h_keeps : keeps h.

Lemma IsCurrentPlay_true this s :
  IsCurrentPlay this s = true <-> m_nowPlaying s = Some this.
Proof.
  unfold IsCurrentPlay. destruct (m_nowPlaying s) as [cur |].
  - rewrite Nat.eqb_eq. split; congruence.
  - split; discriminate.
Qed.

(** Disconnecting the current play makes it a completing one. *)
Lemma disconnect_invariant pending this s :
  invariant pending s -> m_nowPlaying s = Some this ->
  invariant (fun id => pending id \/ id = this)
    (emit (EvIsPlaying false) (set_IsPlaying false (set_m_nowPlaying None s))).
Proof.
  intros [I1 I2 I3 I4 I5] Hcur.
  destruct (I1 this Hcur) as (Hn & q & Hq & Ha).
  constructor; simpl.
  - discriminate.
  - intros id p Hp Hp'. right.
    destruct (I2 id p Hp Hp') as [Hd | Hd]; [right; congruence | now left].
  - intros id [Hid | ->]; [now apply I3 | now apply lookup_lt_Some in Hq].
  - discriminate.
  - rewrite not_elem_of_cons. split; [discriminate | assumption].
Qed.

Lemma Complete_invariant pending this s :
  invariant pending s -> invariant pending (Complete h this s).
Proof.
  intros Hinv. unfold Complete.
  set (s0 := on_play this _ s).
  assert (H0 : invariant pending s0)
    by (apply on_play_invariant; [apply quiet_unsubscribe | assumption]).
  destruct (IsCurrentPlay this s0) eqn:Hcur.
  - apply IsCurrentPlay_true in Hcur.
    assert (K : invariant (fun id => pending id \/ id = this)
                  (put_IsPlaying h false (set_m_nowPlaying None s0)))
      by (apply h_keeps; now apply disconnect_invariant).
    apply (CompleteAwaits_invariant pending
             (fun id => pending id \/ id = this)); auto.
    intros Hc. destruct (inv_current _ _ K this Hc) as [Hno _].
    apply Hno. now right.
  - apply (CompleteAwaits_invariant pending pending); auto.
    intros Hc. apply IsCurrentPlay_true in Hc. congruence.
Qed.

(** If the version counter did not move while the current play was being
    completed, no play is current afterwards. *)
Lemma Complete_detaches cur s :
  m_nowPlaying s = Some cur ->
  m_playAsyncVersion (Complete h cur s) = m_playAsyncVersion s ->
  m_nowPlaying (Complete h cur s) = None.
Proof.
  intros Hcur. unfold Complete.
  set (s0 := on_play cur _ s).
  assert (Hc0 : IsCurrentPlay cur s0 = true) by now apply IsCurrentPlay_true.
  rewrite Hc0. unfold put_IsPlaying.
  match goal with |- context [h ?o ?n ?x] =>
    destruct (h_frames o n x) as [_ Hh]; revert Hh;
    generalize (h o n x) end.
  intros s' Hh Hv. simpl in *. destruct (Hh Hv); assumption.
Qed.

Lemma SetProgress_invariant pending v s :
  invariant pending s -> invariant pending (SetProgress h v s).
Proof.
  intros Hinv. unfold SetProgress.
  destruct (IsRS5OrHigher s); simpl; [| assumption].
  match goal with |- context [emit ?e ?x] =>
    assert (H1 : invariant pending (emit e x)) end.
  { apply emit_invariant; [discriminate |].
    now apply set_m_progressPropertySet_invariant. }
  destruct (m_nowPlaying s); [now apply Complete_invariant | assumption].
Qed.

Lemma SetProgress_detaches v s :
  IsRS5OrHigher s = true ->
  m_playAsyncVersion (SetProgress h v s) = m_playAsyncVersion s ->
  m_nowPlaying (SetProgress h v s) = None.
Proof.
  intros Hrs. unfold SetProgress. rewrite Hrs. simpl.
  destruct (m_nowPlaying s) as [cur |] eqn:Hcur; [| intros _; exact Hcur].
  intros Hv. apply Complete_detaches; [assumption |]. exact Hv.
Qed.

Lemma Stop_invariant pending s :
  invariant pending s -> invariant pending (Stop h s).
Proof.
  intros Hinv. unfold Stop. destruct (IsRS5OrHigher s); simpl; [| assumption].
  destruct (non_null _); [now apply SetProgress_invariant | assumption].
Qed.

Lemma Stop_detaches s :
  IsRS5OrHigher s = true ->
  m_playAsyncVersion (Stop h s) = m_playAsyncVersion s ->
  m_nowPlaying (Stop h s) = None.
Proof.
  intros Hrs. unfold Stop. rewrite Hrs. simpl.
  destruct (m_nowPlaying s) eqn:Hcur; simpl; [| now rewrite Hcur].
  now apply SetProgress_detaches.
Qed.

Lemma put_IsPlaying_false_invariant pending s :
  invariant pending s -> invariant pending (put_IsPlaying h false s).
Proof.
  intros [I1 I2 I3 I4 I5]. apply h_keeps.
  apply emit_invariant; [discriminate |]. constructor; try assumption.
  discriminate.
Qed.

Lemma put_IsPlaying_true_invariant pending s :
  invariant pending s -> m_nowPlaying s <> None ->
  invariant pending (put_IsPlaying h true s).
Proof.
  intros [I1 I2 I3 I4 I5] Hcur. apply h_keeps.
  apply emit_invariant; [discriminate |]. now constructor.
Qed.


Ltac maintain :=
  lazymatch goal with
  | |- invariant _ (emit _ _) =>
      apply emit_invariant; [discriminate | maintain]
  | |- invariant _ (set_m_progressPropertySet _ _) =>
      apply set_m_progressPropertySet_invariant; maintain
  | |- invariant _ (on_play _ _ _) =>
      apply on_play_invariant;
      [first [ now intros ? | apply quiet_SetPlaybackRate ]
      | maintain]
  | |- invariant _ (if ?c then _ else _) => destruct c; maintain
  | _ => try assumption
  end.

Lemma Start_invariant pending this s :
  invariant pending s ->
  m_nowPlaying s = Some this ->
  (forall p, plays s !! this = Some p -> m_controller p = None) ->
  invariant pending (Start h this s).
Proof.
  intros Hinv Hcur Hfresh. unfold Start.
  destruct (plays s !! this) as [p |] eqn:Hp; [| assumption].
  rewrite (Hfresh p eq_refl). simpl.
  destruct (m_playDuration p <? ms20)%Z.
  - now apply SetProgress_invariant.
  - apply put_IsPlaying_true_invariant.
    + maintain.
    + repeat match goal with |- context [if ?c then _ else _] => destruct c end;
        simpl; congruence.
Qed.

Lemma CompleteCurrentPlay_idle s :
  m_nowPlaying s = None -> CompleteCurrentPlay h s = s.
Proof.
  intros Hcur. unfold CompleteCurrentPlay. rewrite Hcur. cbv beta iota.
  now rewrite Hcur.
Qed.

Lemma install_invariant pending p s :
  invariant pending s -> m_nowPlaying s = None ->
  awaits_completed p = false ->
  invariant pending
    (emit (EvNowPlaying (length (plays s)))
       (set_m_nowPlaying (Some (length (plays s)))
          (set_plays (plays s ++ [p]) s))).
Proof.
  intros [I1 I2 I3 I4 I5] Hcur Hp.
  apply emit_invariant; [discriminate |]. constructor; simpl.
  - intros cur [= <-]. split.
    + intros Hc. apply I3 in Hc. lia.
    + exists p. split; [apply list_lookup_middle; reflexivity | assumption].
  - intros id q Hq Ha.
    destruct (decide (id < length (plays s))%nat) as [Hlt | Hge].
    + rewrite lookup_app_l in Hq by assumption.
      destruct (I2 id q Hq Ha) as [Hc | Hc]; [congruence | now right].
    + left. f_equal. apply lookup_lt_Some in Hq.
      rewrite length_app in Hq. simpl in Hq. lia.
  - intros id Hid. rewrite length_app. apply I3 in Hid. lia.
  - discriminate.
  - assumption.
Qed.

Lemma bump_version_invariant pending v s :
  invariant pending s -> invariant pending (set_m_playAsyncVersion v s).
Proof. intros [I1 I2 I3 I4 I5]. now constructor. Qed.

Lemma PlayAsync_invariant pending f t l s :
  invariant pending s -> invariant pending (fst (PlayAsync h f t l s)).
Proof.
  intros Hinv. unfold PlayAsync.
  destruct (IsRS5OrHigher s) eqn:Hrs; cbn [negb]; [| assumption].
  set (s1 := set_m_playAsyncVersion _ s).
  assert (H1 : invariant pending s1) by now apply bump_version_invariant.
  assert (H2 : invariant pending (Stop h s1)) by now apply Stop_invariant.
  destruct (Nat.eqb _ _) eqn:Hv; cbn [negb]; [| assumption].
  apply Nat.eqb_eq in Hv.
  assert (Hnone : m_nowPlaying (Stop h s1) = None)
    by (apply Stop_detaches; [exact Hrs | now rewrite <- Hv]).
  rewrite (CompleteCurrentPlay_idle _ Hnone).
  destruct (adjust_range f t) as [f' t']. cbn [fst].
  match goal with
  | |- context [emit ?e (set_m_nowPlaying ?n (set_plays (_ ++ [?p]) ?x))] =>
    set (s4 := emit e (set_m_nowPlaying n (set_plays (plays x ++ [p]) x)));
    assert (H4 : invariant pending s4)
      by (apply install_invariant; [assumption | assumption | reflexivity])
  end.
  destruct (IsAnimatedVisualLoaded s4); [| assumption].
  apply Start_invariant; [assumption | reflexivity |].
  intros p. unfold s4. simpl. rewrite list_lookup_middle by reflexivity.
  now intros [= <-].
Qed.

Lemma Pause_invariant pending s :
  invariant pending s -> invariant pending (Pause s).
Proof.
  intros Hinv. unfold Pause. destruct (IsRS5OrHigher s); simpl; [| assumption].
  destruct (m_nowPlaying s); [| assumption].
  apply on_play_invariant; [apply quiet_Pause | assumption].
Qed.

Lemma Resume_invariant pending s :
  invariant pending s -> invariant pending (Resume s).
Proof.
  intros Hinv. unfold Resume. destruct (IsRS5OrHigher s); simpl; [| assumption].
  destruct (m_nowPlaying s); [| assumption].
  apply on_play_invariant; [apply quiet_Resume | assumption].
Qed.

Lemma OnHiding_invariant pending s :
  invariant pending s -> invariant pending (OnHiding s).
Proof.
  intros Hinv. unfold OnHiding. destruct (m_nowPlaying s); [| assumption].
  apply on_play_invariant; [apply quiet_OnHiding | assumption].
Qed.

Lemma OnUnhiding_invariant pending s :
  invariant pending s -> invariant pending (OnUnhiding s).
Proof.
  intros Hinv. unfold OnUnhiding. destruct (m_nowPlaying s); [| assumption].
  apply on_play_invariant; [apply quiet_OnUnhiding | assumption].
Qed.

Lemma put_PlaybackRate_invariant pending v s :
  invariant pending s -> invariant pending (put_PlaybackRate v s).
Proof.
  intros [I1 I2 I3 I4 I5].
  unfold put_PlaybackRate, OnPlaybackRatePropertyChanged.
  assert (H1 : invariant pending (set_PlaybackRate v s)) by now constructor.
  destruct (m_nowPlaying _); [| assumption].
  apply on_play_invariant; [apply quiet_SetPlaybackRate | assumption].
Qed.

Lemma BatchCompleted_invariant pending play s :
  invariant pending s -> invariant pending (BatchCompleted h play s).
Proof.
  intros Hinv. unfold BatchCompleted.
  destruct (plays s !! play) as [p |]; [| assumption].
  destruct (m_batchCompletedToken p);
    [now apply Complete_invariant | assumption].
Qed.

Lemma invoke_invariant pending c s :
  invariant pending s -> invariant pending (invoke h c s).
Proof.
  intros Hinv. destruct c; simpl.
  - now apply PlayAsync_invariant.
  - now apply Pause_invariant.
  - now apply Resume_invariant.
  - now apply SetProgress_invariant.
  - now apply Stop_invariant.
  - now apply OnHiding_invariant.
  - now apply OnUnhiding_invariant.
  - now apply put_PlaybackRate_invariant.
  - now apply BatchCompleted_invariant.
Qed.

Lemma run_invariant pending caller s :
  invariant pending s -> invariant pending (run h caller s).
Proof.
  revert s. induction caller as [| c next IH]; intros s Hinv; simpl.
  - assumption.
  - apply IH. now apply invoke_invariant.
Qed.

End Invariant.

Lemma no_subscriber_keeps : keeps no_subscriber.
Proof. intros old new pending s Hinv. exact Hinv. Qed.

Lemma reentrant_keeps (react : Reaction) (depth : nat) :
  keeps (reentrant react depth).
Proof.
  induction depth as [| d IH]; simpl.
  - apply no_subscriber_keeps.
  - intros old new pending s Hinv.
    apply run_invariant;
      [apply reentrant_frames | exact IH | exact Hinv].
Qed.

(** ** At most one play *)

Lemma loaded_player_invariant d c :
  invariant nothing_pending (loaded_player d c).
Proof.
  constructor; simpl; try discriminate.
  - intros id []. 
  - apply not_elem_of_nil.
Qed.

Lemma PlayAsync_overtaken h f t l s :
  IsRS5OrHigher s = true -> overtaken h s ->
  PlayAsync h f t l s = (after_Stop h s, Returned).
Proof.
  intros Hrs Hov. unfold PlayAsync. rewrite Hrs. cbn [negb].
  fold (after_Stop h s).
  destruct (Nat.eqb_spec (S (m_playAsyncVersion s))
              (m_playAsyncVersion (after_Stop h s))) as [E | E];
    [| reflexivity].
  exfalso. apply Hov. now symmetry.
Qed.

Lemma before_install_idle h pending s :
  frames h -> keeps h -> invariant pending s ->
  IsRS5OrHigher s = true -> ~ overtaken h s ->
  before_install h s = after_Stop h s /\
  m_nowPlaying (before_install h s) = None /\
  invariant pending (before_install h s).
Proof.
  intros Hf Hk Hinv Hrs Hov.
  assert (Hv : m_playAsyncVersion (after_Stop h s) = S (m_playAsyncVersion s)).
  { destruct (decide (m_playAsyncVersion (after_Stop h s)
                      = S (m_playAsyncVersion s))); [assumption |].
    now elim Hov. }
  assert (Hnone : m_nowPlaying (after_Stop h s) = None)
    by (apply Stop_detaches; [assumption | exact Hrs | exact Hv]).
  unfold before_install. rewrite (CompleteCurrentPlay_idle h _ Hnone).
  split; [reflexivity |]. split; [assumption |].
  apply Stop_invariant; [assumption .. |].
  now apply bump_version_invariant.
Qed.

(** C3. At most one play is current. Whatever the calls made from
    outside and, to any nesting depth, from the [IsPlaying] subscriber:
    no assertion fails (so [m_nowPlaying] is only assigned when it is
    null); every play other than the current one has completed; a call of
    [PlayAsync] overtaken during its [Stop] returns at once with the
    player as [Stop] left it, constructing no play; and a call that is not
    overtaken reaches the assignment with no play current and every
    existing play completed. *)
Theorem one_current_play (react : Reaction) (depth : nat) (caller : Script)
    (s : AnimatedVisualPlayer) :
  invariant nothing_pending s ->
  let h := reentrant react depth in
  let s' := run h caller s in
  (EvAssertFailed ∉ trace s') /\
  (forall id p, plays s' !! id = Some p -> m_nowPlaying s' <> Some id ->
                awaits_completed p = true) /\
  (forall f t l, IsRS5OrHigher s' = true -> overtaken h s' ->
     PlayAsync h f t l s' = (after_Stop h s', Returned)) /\
  (forall id p, IsRS5OrHigher s' = true -> ~ overtaken h s' ->
     m_nowPlaying (before_install h s') = None /\
     (plays (before_install h s') !! id = Some p ->
      awaits_completed p = true)).
Proof.
  intros Hinv h s'.
  assert (Hf : frames h) by apply reentrant_frames.
  assert (Hk : keeps h) by apply reentrant_keeps.
  assert (Hinv' : invariant nothing_pending s')
    by now apply run_invariant.
  assert (Hall : forall x, invariant nothing_pending x ->
            forall id p, plays x !! id = Some p -> m_nowPlaying x <> Some id ->
                         awaits_completed p = true).
  { intros x Hx id p Hp Hcur.
    destruct (awaits_completed p) eqn:Ha; [reflexivity |].
    destruct (inv_single _ _ Hx id p Hp Ha) as [Hc | []]. contradiction. }
  split; [exact (inv_asserts _ _ Hinv') |].
  split; [exact (Hall s' Hinv') |].
  split; [intros f t l; now apply PlayAsync_overtaken |].
  intros id p Hrs Hov.
  destruct (before_install_idle h _ s' Hf Hk Hinv' Hrs Hov) as (_ & Hnone & Hb).
  split; [assumption |]. intros Hp.
  apply (Hall _ Hb id p Hp). rewrite Hnone. discriminate.
Qed.

Lemma one_current_play_witness :
  invariant nothing_pending (loaded_player second F64.zero) /\
  (EvAssertFailed ∉
     trace (run (reentrant restart_when_stopped 2)
              (calls [CallPlayAsync (F64.ratio 1 10) (F64.ratio 9 10) false;
                      CallPlayAsync (F64.ratio 2 10) (F64.ratio 8 10) false])
              (loaded_player second F64.zero))).
Proof.
  split.
  - apply loaded_player_invariant.
  - exact (proj1 (one_current_play restart_when_stopped 2
                    (calls [CallPlayAsync (F64.ratio 1 10) (F64.ratio 9 10) false;
                            CallPlayAsync (F64.ratio 2 10) (F64.ratio 8 10) false])
                    (loaded_player second F64.zero)
                    (loaded_player_invariant second F64.zero))).
Defined.

(** A request is overtaken: while it stops the play in progress, the
    subscriber requests a play of its own, and the outer call returns
    without constructing one. *)
Example request_overtaken :
  overtaken (reentrant restart_when_stopped 2) playing_from_fifth /\
  PlayAsync (reentrant restart_when_stopped 2) (F64.ratio 1 10) (F64.ratio 9 10) false
    playing_from_fifth
  = (after_Stop (reentrant restart_when_stopped 2) playing_from_fifth,
     Returned) /\
  m_nowPlaying (after_Stop (reentrant restart_when_stopped 2)
                  playing_from_fifth) = Some 1%nat /\
  (m_looped <$> plays (after_Stop (reentrant restart_when_stopped 2)
                         playing_from_fifth)) = [false; true] /\
  (awaits_completed <$> plays (after_Stop (reentrant restart_when_stopped 2)
                                 playing_from_fifth)) = [true; false].
Proof.
  split; [unfold overtaken; vm_compute; discriminate |].
  now vm_compute.
Qed.

(** ** Below RS5 *)

(** C10. On an OS release below RS5 every public playback operation
    leaves the whole player state unchanged: [PlayAsync] returns an action
    that has already run to completion, without constructing or installing
    a play, and [Pause], [Resume], [SetProgress] and [Stop] return at
    once. *)
Theorem below_RS5_nothing_happens (h : Handler) (s : AnimatedVisualPlayer) :
  IsRS5OrHigher s = false ->
  (forall f t l, PlayAsync h f t l s = (s, Returned)) /\
  Pause s = s /\
  Resume s = s /\
  (forall p, SetProgress h p s = s) /\
  Stop h s = s.
Proof.
  intros Hrs. unfold PlayAsync, Pause, Resume, SetProgress, Stop.
  rewrite Hrs. simpl. auto.
Qed.

(** ** The boundary adjustments *)

Lemma adjust_range_to_zero (x : double) :
  SFltb F64.zero x = true ->
  adjust_range x F64.zero = adjust_range x F64.one.
Proof.
  intros Hx. unfold adjust_range. rewrite Hx. reflexivity.
Qed.

Lemma adjust_range_from_one (y : double) :
  SFltb F64.zero y = true ->
  adjust_range F64.one y = adjust_range F64.zero y.
Proof.
  intros Hy. unfold adjust_range.
  destruct (SFltb_not_eqb _ _ Hy) as [_ Hne].
  rewrite !Hne. cbn [andb]. rewrite !Hy. reflexivity.
Qed.

(** C5. For every [x > 0] a request [x -> 0] behaves identically to the
    request [x -> 1], and for every [y > 0] a request [1 -> y] behaves
    identically to the request [0 -> y]: the same player state and the
    same action result, whatever the state and the subscriber. *)
Theorem boundary_requests_coincide (h : Handler) (l : bool)
    (s : AnimatedVisualPlayer) (x y : double) :
  SFltb F64.zero x = true -> SFltb F64.zero y = true ->
  PlayAsync h x F64.zero l s = PlayAsync h x F64.one l s /\
  PlayAsync h F64.one y l s = PlayAsync h F64.zero y l s.
Proof.
  intros Hx Hy. unfold PlayAsync.
  rewrite (adjust_range_to_zero x Hx), (adjust_range_from_one y Hy).
  split; reflexivity.
Qed.

Lemma boundary_requests_coincide_witness :
  SFltb F64.zero (F64.ratio 4 10) = true /\
  SFltb F64.zero (F64.ratio 3 10) = true /\
  PlayAsync no_subscriber (F64.ratio 4 10) F64.zero false
    (loaded_player second F64.zero)
  = PlayAsync no_subscriber (F64.ratio 4 10) F64.one false
      (loaded_player second F64.zero) /\
  PlayAsync no_subscriber F64.one (F64.ratio 3 10) false
    (loaded_player second F64.zero)
  = PlayAsync no_subscriber F64.zero (F64.ratio 3 10) false
      (loaded_player second F64.zero).
Proof.
  assert (Hx : SFltb F64.zero (F64.ratio 4 10) = true) by reflexivity.
  assert (Hy : SFltb F64.zero (F64.ratio 3 10) = true) by reflexivity.
  split; [exact Hx |]. split; [exact Hy |].
  exact (boundary_requests_coincide no_subscriber false
           (loaded_player second F64.zero) (F64.ratio 4 10) (F64.ratio 3 10) Hx Hy).
Defined.

Lemma below_RS5_nothing_happens_witness :
  IsRS5OrHigher unsupported_player = false /\
  PlayAsync no_subscriber F64.zero F64.one true unsupported_player
  = (unsupported_player, Returned) /\
  SetProgress no_subscriber (F64.ratio 1 4) unsupported_player = unsupported_player /\
  Stop no_subscriber unsupported_player = unsupported_player.
Proof.
  assert (Hrs : IsRS5OrHigher unsupported_player = false) by reflexivity.
  destruct (below_RS5_nothing_happens no_subscriber unsupported_player Hrs)
    as (HP & _ & _ & HS & HT).
  split; [exact Hrs |]. split; [apply HP |]. split; [apply HS | exact HT].
Defined.

(** ** The arguments of the constructed play *)

(** For every input pair, the play constructed by [PlayAsync] receives
    the values obtained by applying the two boundary adjustments to the
    inputs as given and then narrowing and clamping both. *)
Lemma constructed_play_arguments (react : Reaction) (depth : nat)
    (f t : double) (l : bool) (s s' : AnimatedVisualPlayer) (thisPlay : nat) :
  PlayAsync (reentrant react depth) f t l s = (s', AwaitingPlay thisPlay) ->
  exists p, plays s' !! thisPlay = Some p /\
    (m_fromProgress p, m_toProgress p) = adjust_then_clamp f t /\
    m_looped p = l.
Proof.
  set (h := reentrant react depth).
  assert (Hf : frames h) by apply reentrant_frames.
  unfold PlayAsync, adjust_then_clamp.
  destruct (IsRS5OrHigher s); cbn [negb]; [| discriminate].
  destruct (Nat.eqb _ _); cbn [negb]; [| discriminate].
  set (s3 := CompleteCurrentPlay h _).
  destruct (adjust_range f t) as [f' t'].
  match goal with
  | |- context [emit ?e (set_m_nowPlaying ?n (set_plays (_ ++ [?p]) s3))] =>
    set (p0 := p);
    set (s4 := emit e (set_m_nowPlaying n (set_plays (plays s3 ++ [p0]) s3)))
  end.
  assert (H4 : plays s4 !! length (plays s3) = Some p0)
    by (apply list_lookup_middle; reflexivity).
  assert (E5 : evolves s4 (if IsAnimatedVisualLoaded s4
                           then Start h (length (plays s3)) s4 else s4))
    by (destruct (IsAnimatedVisualLoaded s4);
        [now apply Start_evolves | apply evolves_refl]).
  intros [= <- <-].
  destruct (ext_plays _ _ (proj1 E5) _ _ H4)
    as (p & Hp & (R1 & R2 & R3 & _) & _).
  exists p. split; [exact Hp |].
  split; [rewrite R1, R2; reflexivity | rewrite R3; reflexivity].
Qed.

(** C6. The claim fails on the code. [PlayAsync] applies the two boundary
    adjustments to the inputs as given and clamps afterwards, so a
    [toProgress] that only becomes 0 by the clamping or by the narrowing
    to [float] is not adjusted. For the request [0.4 -> -0.5] the play
    is constructed with [toProgress = 0], where clamping first and
    adjusting afterwards gives 1, and the same happens for the in-range
    request [0.4 -> 2^-200]. The play [0.4 -> 0] is the wrapping segment
    [fromProgress..0] the adjustment is there to avoid: once started it
    gets the extra key frames, the jump to the beginning lying at
    [1 + FLT_EPSILON], behind the last key frame. *)
Theorem clamped_zero_is_not_adjusted :
  adjust_then_clamp (F64.ratio 4 10) (F64.opp (F64.ratio 1 2))
    = (static_cast_float (F64.ratio 4 10), F32.zero) /\
  clamp_then_adjust (F64.ratio 4 10) (F64.opp (F64.ratio 1 2))
    = (static_cast_float (F64.ratio 4 10), F32.one) /\
  adjust_then_clamp (F64.ratio 4 10) tiny_double
    = (static_cast_float (F64.ratio 4 10), F32.zero) /\
  clamp_then_adjust (F64.ratio 4 10) tiny_double
    = (static_cast_float (F64.ratio 4 10), F32.one) /\
  snd (request_below_range no_subscriber false) = AwaitingPlay 0 /\
  exists p,
    plays (fst (request_below_range no_subscriber false)) !! 0%nat = Some p /\
    m_fromProgress p = static_cast_float (F64.ratio 4 10) /\
    m_toProgress p = F32.zero /\
    non_null (m_controller p) = true /\
    key_frames p =
      [(F32.zero, static_cast_float (F64.ratio 4 10));
       (F32.one, F32.one);
       (F32.add F32.one FLT_EPSILON, F32.zero);
       (F32.one, F32.zero)] /\
    ps_Animation
      (m_progressPropertySet (fst (request_below_range no_subscriber false)))
    = Some (mkAnimation (m_playDuration p) (key_frames p) (Count 1)).
Proof.
  split; [vm_compute; reflexivity |].
  split; [vm_compute; reflexivity |].
  split; [vm_compute; reflexivity |].
  split; [vm_compute; reflexivity |].
  split; [vm_compute; reflexivity |].
  eexists.
  split; [vm_compute; reflexivity |].
  repeat split; vm_compute; reflexivity.
Qed.

(** ** SetProgress *)

Lemma Complete_current_no_subscriber cur s :
  m_nowPlaying s = Some cur ->
  Complete no_subscriber cur s
  = emit (EvCompleteAwaits cur)
      (on_play cur (set_awaits_completed true)
         (emit (EvIsPlaying false)
            (set_IsPlaying false
               (set_m_nowPlaying None
                  (on_play cur
                     (fun p => if m_batch p
                               then set_m_batchCompletedToken false p else p)
                     s))))).
Proof.
  intros Hcur. unfold Complete, IsCurrentPlay. simpl.
  rewrite Hcur, Nat.eqb_refl. reflexivity.
Qed.

Lemma SetProgress_supported h p s :
  IsRS5OrHigher s = true ->
  SetProgress h p s
  = let v := clamp (static_cast_float p) F32.zero F32.one in
    let s1 := emit (EvInsertScalar v)
                (set_m_progressPropertySet
                   (InsertScalar v (m_progressPropertySet s)) s) in
    match m_nowPlaying s with
    | Some cur => Complete h cur s1
    | None => s1
    end.
Proof. intros Hrs. unfold SetProgress. now rewrite Hrs. Qed.

Lemma Complete_releases h this p s :
  frames h -> plays s !! this = Some p ->
  exists q, plays (Complete h this s) !! this = Some q /\
            awaits_completed q = true.
Proof.
  intros Hf Hp. unfold Complete.
  match goal with |- context [CompleteAwaits this ?x] =>
    assert (E : evolves s x); [| generalize dependent x] end.
  { destruct (IsCurrentPlay this _).
    - eapply evolves_trans; [| now apply put_IsPlaying_evolves].
      evolve. apply steady_unsubscribe.
    - evolve. apply steady_unsubscribe. }
  intros x [E _].
  destruct (ext_plays _ _ E this p Hp) as (q & Hq & _).
  unfold CompleteAwaits. simpl. rewrite list_lookup_alter_eq, Hq. simpl.
  eexists. split; reflexivity.
Qed.

(** [SetProgress] with nobody subscribed to [IsPlaying]. *)
Lemma SetProgress_no_subscriber (p : double) (s : AnimatedVisualPlayer) :
  IsRS5OrHigher s = true ->
  invariant nothing_pending s ->
  m_progressPropertySet (SetProgress no_subscriber p s)
    = mkPropertySet (clamp (static_cast_float p) F32.zero F32.one) None /\
  IsPlaying (SetProgress no_subscriber p s) = false /\
  m_nowPlaying (SetProgress no_subscriber p s) = None.
Proof.
  intros Hrs Hinv. rewrite SetProgress_supported by exact Hrs.
  cbv zeta. destruct (m_nowPlaying s) as [cur |] eqn:Hcur.
  - rewrite Complete_current_no_subscriber by exact Hcur.
    cbn -[clamp]. repeat split.
  - cbn -[clamp]. split; [reflexivity |]. split; [| exact Hcur].
    destruct (IsPlaying s) eqn:Hp; [| reflexivity].
    now destruct (inv_playing _ _ Hinv Hp).
Qed.

(** [SetProgress] of a NaN: [std::clamp] lets it through, and [Progress]
    is then a NaN. *)
Lemma SetProgress_NaN (s : AnimatedVisualPlayer) :
  IsRS5OrHigher s = true ->
  invariant nothing_pending s ->
  Progress (SetProgress no_subscriber NaN s) = NaN.
Proof.
  intros Hrs Hinv.
  destruct (SetProgress_no_subscriber NaN s Hrs Hinv) as (H & _).
  unfold Progress. now rewrite H.
Qed.

Lemma looping_player_invariant : invariant nothing_pending looping_player.
Proof.
  apply (PlayAsync_invariant no_subscriber no_subscriber_frames
           no_subscriber_keeps).
  apply loaded_player_invariant.
Qed.

(** C2, as stated, fails: when the subscriber to [IsPlaying] answers the
    end of a play by requesting a new one, [SetProgress] returns with
    that play in progress and [IsPlaying] true. *)
Lemma SetProgress_restarted_counterexample :
  IsPlaying looping_player = true /\
  m_nowPlaying looping_player = Some 0%nat /\
  IsPlaying
    (SetProgress (reentrant restart_when_stopped 1) (F64.ratio 1 2)
       looping_player) = true /\
  m_nowPlaying
    (SetProgress (reentrant restart_when_stopped 1) (F64.ratio 1 2)
       looping_player) = Some 1%nat /\
  ps_Animation
    (m_progressPropertySet
       (SetProgress (reentrant restart_when_stopped 1) (F64.ratio 1 2)
          looping_player)) <> None.
Proof.
  split; [reflexivity |]. split; [reflexivity |].
  split; [vm_compute; reflexivity |]. split; [vm_compute; reflexivity |].
  vm_compute. discriminate.
Qed.

(** C2, amended. [SetProgress(p)] narrows [p] to [float], clamps it and
    writes the result to [Progress] (stopping the animation that drove
    it), and synchronously completes the play in progress, looping or
    not: that play has released its awaiters when the call returns,
    whatever the subscriber to [IsPlaying] does. When no subscriber calls
    back in, [Progress] is the clamped [p], which lies in [0,1] for every
    [p] that is not a NaN, [IsPlaying] is false and no play is current. *)
Theorem SetProgress_completes_play (react : Reaction) (depth : nat)
    (p : double) (s : AnimatedVisualPlayer) :
  IsRS5OrHigher s = true ->
  invariant nothing_pending s ->
  (forall cur, m_nowPlaying s = Some cur ->
     exists q, plays (SetProgress (reentrant react depth) p s) !! cur = Some q
               /\ awaits_completed q = true) /\
  Progress (SetProgress no_subscriber p s)
    = clamp (static_cast_float p) F32.zero F32.one /\
  (p <> NaN ->
   in_unit_range (Progress (SetProgress no_subscriber p s)) = true) /\
  ps_Animation (m_progressPropertySet (SetProgress no_subscriber p s)) = None /\
  IsPlaying (SetProgress no_subscriber p s) = false /\
  m_nowPlaying (SetProgress no_subscriber p s) = None.
Proof.
  intros Hrs Hinv. split.
  - intros cur Hcur. rewrite SetProgress_supported by exact Hrs.
    cbv zeta. rewrite Hcur.
    destruct (inv_current _ _ Hinv cur Hcur) as (_ & q & Hq & _).
    apply (Complete_releases _ cur q); [apply reentrant_frames | exact Hq].
  - destruct (SetProgress_no_subscriber p s Hrs Hinv) as (HP & HI & HN).
    unfold Progress. rewrite HP. cbn [ps_Progress ps_Animation].
    split; [reflexivity |]. split; [| now repeat split].
    intros Hp. apply clamp_range. intros E.
    now apply static_cast_float_NaN in E.
Qed.

Lemma SetProgress_completes_play_witness :
  IsRS5OrHigher looping_player = true /\
  (m_looped <$> plays looping_player) = [true] /\
  IsPlaying looping_player = true /\
  Progress (SetProgress no_subscriber (F64.ratio 3 2) looping_player)
    = F32.one /\
  in_unit_range
    (Progress (SetProgress no_subscriber (F64.ratio 3 2) looping_player))
    = true /\
  IsPlaying (SetProgress no_subscriber (F64.ratio 3 2) looping_player) = false.
Proof.
  assert (Hrs : IsRS5OrHigher looping_player = true) by reflexivity.
  destruct (SetProgress_completes_play restart_when_stopped 0 (F64.ratio 3 2)
              looping_player Hrs looping_player_invariant)
    as (_ & HP & HR & _ & HI & _).
  split; [exact Hrs |]. split; [reflexivity |]. split; [reflexivity |].
  split; [rewrite HP; reflexivity |].
  split; [apply HR; discriminate | exact HI].
Defined.

(** ** A play too short to animate *)

(** C8. When the duration computed for a play is below the 20ms
    threshold, starting it writes its [fromProgress] to [Progress] and
    completes it at once: the play never gets an animation controller,
    no animation is started, and [IsPlaying] is never set to true. The
    [fromProgress] of the play is a [float] in [0,1], as the constructor
    is given. *)
Theorem short_play_never_starts (this : nat) (p : AnimationPlay)
    (s : AnimatedVisualPlayer) :
  IsRS5OrHigher s = true ->
  m_nowPlaying s = Some this ->
  plays s !! this = Some p ->
  m_controller p = None ->
  (m_playDuration p < ms20)%Z ->
  F32.valid (m_fromProgress p) = true ->
  in_unit_range (m_fromProgress p) = true ->
  let s' := Start no_subscriber this s in
  Progress s' = m_fromProgress p /\
  ps_Animation (m_progressPropertySet s') = None /\
  m_nowPlaying s' = None /\
  IsPlaying s' = false /\
  (exists p', plays s' !! this = Some p' /\
              awaits_completed p' = true /\ m_controller p' = None) /\
  trace s' = [EvCompleteAwaits this; EvIsPlaying false;
              EvInsertScalar (m_fromProgress p)] ++ trace s.
Proof.
  intros Hrs Hcur Hp Hc Hd Hv Hr s'. subst s'. unfold Start.
  rewrite Hp, Hc. simpl non_null. cbn [negb MUX_ASSERT].
  apply Z.ltb_lt in Hd. rewrite Hd.
  rewrite SetProgress_supported by exact Hrs. cbv zeta. rewrite Hcur.
  rewrite Complete_current_no_subscriber by exact Hcur.
  rewrite (static_cast_float_promote _ Hv), (clamp_in_range _ Hr).
  cbn. rewrite !list_lookup_alter_eq, Hp. cbn.
  repeat split.
  eexists. split; [reflexivity |]. destruct (m_batch p); cbn; auto.
Qed.

Lemma short_play_never_starts_witness :
  m_playDuration short_play = 9999%Z /\
  Progress (Start no_subscriber 0 short_play_player)
    = static_cast_float (F64.ratio 1 2) /\
  IsPlaying (Start no_subscriber 0 short_play_player) = false /\
  m_nowPlaying (Start no_subscriber 0 short_play_player) = None /\
  (EvIsPlaying true ∉ trace (Start no_subscriber 0 short_play_player)).
Proof.
  assert (Hv : F32.valid (m_fromProgress short_play) = true) by reflexivity.
  assert (Hr : in_unit_range (m_fromProgress short_play) = true)
    by reflexivity.
  assert (Hd : (m_playDuration short_play < ms20)%Z) by reflexivity.
  destruct (short_play_never_starts 0 short_play short_play_player
              eq_refl eq_refl eq_refl eq_refl Hd Hv Hr)
    as (HP & _ & HN & HI & _ & HT).
  split; [reflexivity |]. split; [exact HP |]. split; [exact HI |].
  split; [exact HN |].
  rewrite HT. generalize (m_fromProgress short_play). intros f.
  assert (E : trace short_play_player = [EvNowPlaying 0]) by reflexivity.
  rewrite E. cbn [app]. clear.
  rewrite !not_elem_of_cons. repeat split; try discriminate.
  apply not_elem_of_nil.
Defined.

Example short_request_completes_at_once :
  PlayAsync no_subscriber (F64.ratio 1 2) (F64.ratio 501 1000) false
    (loaded_player second F64.zero)
  = (mkPlayer true 1 None F64.zero
       (mkPropertySet (static_cast_float (F64.ratio 1 2)) None)
       false second F64.one true
       [mkPlay (static_cast_float (F64.ratio 1 2))
          (static_cast_float (F64.ratio 501 1000)) false 9999%Z
          false false None false false true]
       [EvCompleteAwaits 0; EvIsPlaying false;
        EvInsertScalar (static_cast_float (F64.ratio 1 2));
        EvNowPlaying 0],
     AwaitingPlay 0).
Proof. vm_compute. reflexivity. Qed.

(** ** Stop *)

(** No operation assigns [m_currentPlayFromProgress]. *)
Lemma m_currentPlayFromProgress_never_assigned (react : Reaction)
    (depth : nat) (caller : Script) (s : AnimatedVisualPlayer) :
  m_currentPlayFromProgress (run (reentrant react depth) caller s)
  = m_currentPlayFromProgress s.
Proof.
  apply ext_from0. apply run_evolves. apply reentrant_frames.
Qed.

(** [Stop] writes the clamped [m_currentPlayFromProgress], whatever the
    current play was requested with. *)
Lemma Stop_progress (s : AnimatedVisualPlayer) :
  IsRS5OrHigher s = true -> m_nowPlaying s <> None ->
  Progress (Stop no_subscriber s)
  = clamp (static_cast_float (m_currentPlayFromProgress s)) F32.zero F32.one.
Proof.
  intros Hrs Hcur. unfold Stop. rewrite Hrs. cbn [negb].
  destruct (m_nowPlaying s) as [cur |] eqn:Hc; [| contradiction].
  cbn [non_null]. rewrite SetProgress_supported by exact Hrs.
  cbv zeta. rewrite Hc.
  rewrite Complete_current_no_subscriber by exact Hc. reflexivity.
Qed.

(** C1, at an input where the code departs from it. A play requested with [fromProgress = 0.2] is
    in progress; [Stop] completes it and leaves [IsPlaying] false, but
    [Progress] is the initial [m_currentPlayFromProgress], 0, and not the
    0.2 the play reports as its [FromProgress]. *)
Theorem Stop_does_not_restore_fromProgress :
  exists cur p,
    m_nowPlaying playing_from_fifth = Some cur /\
    plays playing_from_fifth !! cur = Some p /\
    IsPlaying playing_from_fifth = true /\
    FromProgress p = static_cast_float (F64.ratio 2 10) /\
    Progress (Stop no_subscriber playing_from_fifth) = F32.zero /\
    SFeqb (Progress (Stop no_subscriber playing_from_fifth)) (FromProgress p)
      = false /\
    IsPlaying (Stop no_subscriber playing_from_fifth) = false /\
    m_nowPlaying (Stop no_subscriber playing_from_fifth) = None.
Proof.
  eexists. eexists.
  split; [vm_compute; reflexivity |].
  split; [vm_compute; reflexivity |].
  split; [reflexivity |]. split; [vm_compute; reflexivity |].
  split; [vm_compute; reflexivity |].
  split; [vm_compute; reflexivity |]. split; vm_compute; reflexivity.
Qed.

(** The value written does not depend on the play at all: with any
    initial value [c] of the field, stopping a play from 0.2 and stopping
    a play from 0.5 leave the same [Progress]. *)
Lemma Stop_progress_independent_of_play (c : double) :
  Progress
    (Stop no_subscriber
       (fst (PlayAsync no_subscriber (F64.ratio 2 10) (F64.ratio 8 10) false
               (loaded_player second c))))
  = clamp (static_cast_float c) F32.zero F32.one /\
  Progress
    (Stop no_subscriber
       (fst (PlayAsync no_subscriber (F64.ratio 5 10) (F64.ratio 8 10) false
               (loaded_player second c))))
  = clamp (static_cast_float c) F32.zero F32.one.
Proof.
  split.
  - rewrite Stop_progress; [reflexivity | reflexivity |].
    vm_compute. discriminate.
  - rewrite Stop_progress; [reflexivity | reflexivity |].
    vm_compute. discriminate.
Qed.

(** ** The two pause sources *)

Lemma pause_rule_Pause p : pause_rule p -> pause_rule (Play.Pause p).
Proof.
  destruct p as [f t l d up hp [c |] b tk aw]; unfold pause_rule, Play.Pause;
    simpl; [| discriminate].
  intros H c'. specialize (H c eq_refl). destruct hp; simpl.
  - intros [= <-]. rewrite H. now destruct up.
  - intros [= <-]. reflexivity.
Qed.

Lemma pause_rule_Resume p : pause_rule p -> pause_rule (Play.Resume p).
Proof.
  destruct p as [f t l d up hp [c |] b tk aw]; unfold pause_rule, Play.Resume;
    simpl; [| discriminate].
  intros H c'. specialize (H c eq_refl). destruct hp; simpl.
  - intros [= <-]. rewrite H. now destruct up.
  - intros [= <-]. reflexivity.
Qed.

Lemma pause_rule_OnHiding p : pause_rule p -> pause_rule (Play.OnHiding p).
Proof.
  destruct p as [f t l d up hp [c |] b tk aw]; unfold pause_rule, Play.OnHiding;
    simpl; [| destruct hp; discriminate].
  intros H c'. specialize (H c eq_refl). destruct hp, up; simpl;
    intros [= <-]; simpl in *; auto.
Qed.

Lemma pause_rule_OnUnhiding p : pause_rule p -> pause_rule (Play.OnUnhiding p).
Proof.
  destruct p as [f t l d up hp [c |] b tk aw];
    unfold pause_rule, Play.OnUnhiding;
    simpl; [| destruct hp; discriminate].
  intros H c'. specialize (H c eq_refl). destruct hp, up; simpl;
    intros [= <-]; simpl in *; auto.
Qed.

Lemma pause_call_flags c p :
  m_isPaused (pause_call c p) = user_pause_after [c] (m_isPaused p) /\
  m_isPausedBecauseHidden (pause_call c p)
  = hidden_after [c] (m_isPausedBecauseHidden p) /\
  non_null (m_controller (pause_call c p)) = non_null (m_controller p).
Proof.
  destruct p as [f t l d up hp [k |] b tk aw], c;
    unfold pause_call, Play.Pause, Play.Resume, Play.OnHiding,
      Play.OnUnhiding; simpl; destruct hp, up; simpl; auto.
Qed.

(** C7. For every play and every sequence of [Pause], [Resume],
    [OnHiding] and [OnUnhiding] calls, the animation controller is paused
    exactly when user-pause or visibility-pause is set, user-pause being
    what the last [Pause]/[Resume] asked for and visibility-pause what the
    last [OnHiding]/[OnUnhiding] asked for: a resume from one source does
    not resume a play the other source holds paused, and clearing both
    resumes it. *)
Theorem paused_iff_either_source (cs : list PauseCall) (p : AnimationPlay) :
  pause_rule p ->
  let p' := pause_calls cs p in
  m_isPaused p' = user_pause_after cs (m_isPaused p) /\
  m_isPausedBecauseHidden p'
  = hidden_after cs (m_isPausedBecauseHidden p) /\
  non_null (m_controller p') = non_null (m_controller p) /\
  (forall c, m_controller p' = Some c ->
     ac_IsPaused c
     = user_pause_after cs (m_isPaused p)
       || hidden_after cs (m_isPausedBecauseHidden p)).
Proof.
  revert p. induction cs as [| c cs IH]; intros p Hp; cbv zeta.
  - simpl. repeat split. exact Hp.
  - assert (Hp' : pause_rule (pause_call c p))
      by (destruct c; simpl;
          [ now apply pause_rule_Pause | now apply pause_rule_Resume
          | now apply pause_rule_OnHiding | now apply pause_rule_OnUnhiding ]).
    destruct (pause_call_flags c p) as (F1 & F2 & F3).
    destruct (IH (pause_call c p) Hp') as (I1 & I2 & I3 & I4).
    unfold pause_calls, user_pause_after, hidden_after in *. simpl in *.
    rewrite <- F1, <- F2, <- F3. auto.
Qed.


Lemma running_play_rule : pause_rule running_play.
Proof. intros c [= <-]. reflexivity. Qed.

Lemma paused_iff_either_source_witness :
  pause_rule running_play /\
  (forall c,
     m_controller (pause_calls [DoPause; DoOnHiding; DoResume] running_play)
     = Some c -> ac_IsPaused c = true) /\
  (forall c,
     m_controller
       (pause_calls [DoPause; DoOnHiding; DoOnUnhiding] running_play)
     = Some c -> ac_IsPaused c = true) /\
  (forall c,
     m_controller
       (pause_calls [DoPause; DoOnHiding; DoResume; DoOnUnhiding] running_play)
     = Some c -> ac_IsPaused c = false).
Proof.
  split; [exact running_play_rule |].
  pose proof (paused_iff_either_source [DoPause; DoOnHiding; DoResume]
                running_play running_play_rule) as (_ & _ & _ & H1).
  pose proof (paused_iff_either_source [DoPause; DoOnHiding; DoOnUnhiding]
                running_play running_play_rule) as (_ & _ & _ & H2).
  pose proof (paused_iff_either_source
                [DoPause; DoOnHiding; DoResume; DoOnUnhiding]
                running_play running_play_rule) as (_ & _ & _ & H3).
  split; [intros c Hc; rewrite (H1 c Hc); reflexivity |].
  split; [intros c Hc; rewrite (H2 c Hc); reflexivity |].
  intros c Hc; rewrite (H3 c Hc); reflexivity.
Defined.

(** [Start] creates the controller in accordance with the pause sources
    set before the play was started. *)
Lemma Start_pause_rule (this : nat) (p : AnimationPlay)
    (s : AnimatedVisualPlayer) :
  plays s !! this = Some p ->
  m_controller p = None ->
  (ms20 <= m_playDuration p)%Z ->
  exists p', plays (Start no_subscriber this s) !! this = Some p' /\
    pause_rule p' /\
    non_null (m_controller p') = true /\
    m_isPaused p' = m_isPaused p /\
    m_isPausedBecauseHidden p' = m_isPausedBecauseHidden p.
Proof.
  intros Hp Hc Hd. unfold Start. rewrite Hp, Hc.
  cbn [non_null negb MUX_ASSERT].
  apply Z.ltb_ge in Hd. rewrite Hd.
  unfold put_IsPlaying, no_subscriber.
  destruct p as [f t l d up hp k b tk aw]. simpl in Hc. subst k.
  cbn [m_isPaused m_isPausedBecauseHidden m_looped].
  destruct (SFltb _ F32.zero), l, up, hp; cbn;
    rewrite ?list_lookup_alter_eq, Hp; cbn;
    (eexists; split; [reflexivity |]); repeat split;
    intros c [= <-]; reflexivity.
Qed.

(** ** Every play obeys the pause rule *)

Lemma on_play_ruled this f s :
  ruled s ->
  (forall q, plays s !! this = Some q -> pause_rule (f q)) ->
  ruled (on_play this f s).
Proof.
  intros Hs Hf id p Hp.
  destruct (on_play_lookup _ _ _ _ _ Hp) as (q & Hq & [-> | [-> ->]]).
  - exact (Hs id q Hq).
  - now apply Hf.
Qed.

Lemma pause_rule_same_controller_state (p q : AnimationPlay) :
  ac_IsPaused <$> m_controller q = ac_IsPaused <$> m_controller p ->
  m_isPaused q = m_isPaused p ->
  m_isPausedBecauseHidden q = m_isPausedBecauseHidden p ->
  pause_rule p -> pause_rule q.
Proof.
  unfold pause_rule. intros Hc -> ->. intros Hp c Hq. rewrite Hq in Hc.
  destruct (m_controller p) as [c' |]; [| discriminate].
  injection Hc as ->. now apply Hp.
Qed.

Lemma pause_rule_same_controller (p q : AnimationPlay) :
  m_controller q = m_controller p -> m_isPaused q = m_isPaused p ->
  m_isPausedBecauseHidden q = m_isPausedBecauseHidden p ->
  pause_rule p -> pause_rule q.
Proof. unfold pause_rule. intros -> -> ->. auto. Qed.

Section Ruled.

Variable h : Handler.
Hypothesis h_ruled : forall old new s, ruled s -> ruled (h old new s).

Lemma put_IsPlaying_ruled v s : ruled s -> ruled (put_IsPlaying h v s).
Proof. intros Hs. unfold put_IsPlaying. apply h_ruled. exact Hs. Qed.

Lemma Complete_ruled this s : ruled s -> ruled (Complete h this s).
Proof.
  intros Hs. unfold Complete, CompleteAwaits.
  match goal with |- ruled (emit _ (on_play _ _ ?x)) =>
    assert (Hx : ruled x) end.
  { assert (H0 : ruled (on_play this
                          (fun p => if m_batch p
                                    then set_m_batchCompletedToken false p
                                    else p) s)).
    { apply on_play_ruled; [exact Hs |]. intros q Hq.
      apply (pause_rule_same_controller q); try (now destruct (m_batch q)).
      exact (Hs this q Hq). }
    destruct (IsCurrentPlay this _); [| exact H0].
    apply put_IsPlaying_ruled. exact H0. }
  intros id p Hp. simpl in Hp.
  destruct (on_play_lookup this (set_awaits_completed true) _ id p Hp)
    as (q & Hq & [-> | [-> ->]]).
  - exact (Hx id q Hq).
  - apply (pause_rule_same_controller q); try reflexivity. exact (Hx _ q Hq).
Qed.

Lemma SetProgress_ruled v s : ruled s -> ruled (SetProgress h v s).
Proof.
  intros Hs. unfold SetProgress. destruct (IsRS5OrHigher s); [| exact Hs].
  cbn [negb]. cbv zeta.
  match goal with |- context [emit ?e ?x] =>
    assert (H1 : ruled (emit e x)) by exact Hs end.
  destruct (m_nowPlaying _); [now apply Complete_ruled | exact H1].
Qed.

Lemma Stop_ruled s : ruled s -> ruled (Stop h s).
Proof.
  intros Hs. unfold Stop. destruct (IsRS5OrHigher s); [| exact Hs].
  cbn [negb]. destruct (non_null _); [now apply SetProgress_ruled | exact Hs].
Qed.

Lemma CompleteCurrentPlay_ruled s : ruled s -> ruled (CompleteCurrentPlay h s).
Proof.
  intros Hs. unfold CompleteCurrentPlay, MUX_ASSERT.
  assert (H1 : ruled (match m_nowPlaying s with
                      | Some cur => Complete h cur s
                      | None => s
                      end))
    by (destruct (m_nowPlaying s); [now apply Complete_ruled | exact Hs]).
  destruct (negb _); exact H1.
Qed.

Lemma ruled_except this s s' :
  ruled s ->
  (forall id, id <> this -> plays s' !! id = plays s !! id) ->
  (forall q, plays s' !! this = Some q -> pause_rule q) ->
  ruled s'.
Proof.
  intros Hs Hother Hthis id p Hp. destruct (decide (id = this)) as [-> | Hne].
  - now apply Hthis.
  - rewrite (Hother id Hne) in Hp. exact (Hs id p Hp).
Qed.

Lemma Start_ruled this s : ruled s -> ruled (Start h this s).
Proof.
  intros Hs. unfold Start.
  destruct (plays s !! this) as [p |] eqn:Hp; [| exact Hs].
  assert (Hs' : ruled (MUX_ASSERT (negb (non_null (m_controller p))) s))
    by (unfold MUX_ASSERT; destruct (negb _); exact Hs).
  destruct (m_playDuration p <? ms20)%Z; [now apply SetProgress_ruled |].
  apply put_IsPlaying_ruled. apply (ruled_except this s); [exact Hs | |].
  - intros id Hne. unfold MUX_ASSERT.
    destruct (negb (non_null _)), (m_isPaused p || m_isPausedBecauseHidden p),
      (SFltb _ F32.zero), (negb (m_looped p)); simpl;
      rewrite ?list_lookup_alter_ne by congruence; reflexivity.
  - intros q. unfold MUX_ASSERT.
    destruct p as [f t l d up hp k b tk aw].
    cbn [m_isPaused m_isPausedBecauseHidden m_looped m_controller].
    destruct (negb (non_null k)), (SFltb _ F32.zero), l, up, hp; cbn;
      rewrite ?list_lookup_alter_eq, Hp; cbn;
      intros [= <-] c [= <-]; reflexivity.
Qed.

Lemma PlayAsync_ruled f t l s : ruled s -> ruled (fst (PlayAsync h f t l s)).
Proof.
  intros Hs. unfold PlayAsync.
  destruct (IsRS5OrHigher s); cbn [negb]; [| exact Hs].
  match goal with |- context [Stop h ?x] =>
    assert (H2 : ruled (Stop h x)) by (apply Stop_ruled; exact Hs) end.
  destruct (Nat.eqb _ _); cbn [negb]; [| exact H2].
  apply CompleteCurrentPlay_ruled in H2.
  destruct (adjust_range f t) as [f' t']. cbn [fst].
  match goal with
  | |- context [emit ?e (set_m_nowPlaying ?n (set_plays (?l ++ [?p]) ?x))] =>
    assert (H4 : ruled (emit e (set_m_nowPlaying n (set_plays (l ++ [p]) x))))
  end.
  { intros id p. simpl. intros Hp.
    apply lookup_app_Some in Hp as [Hp | [_ Hp]]; [exact (H2 id p Hp) |].
    apply list_lookup_singleton_Some in Hp as [_ <-]. intros c. discriminate. }
  destruct (IsAnimatedVisualLoaded _); [now apply Start_ruled | exact H4].
Qed.

Lemma invoke_ruled c s : ruled s -> ruled (invoke h c s).
Proof.
  intros Hs. destruct c; simpl.
  - now apply PlayAsync_ruled.
  - unfold Pause. destruct (IsRS5OrHigher s); [| exact Hs]. cbn [negb].
    destruct (m_nowPlaying s) as [cur |]; [| exact Hs].
    apply on_play_ruled; [exact Hs |]. intros q Hq.
    apply pause_rule_Pause. exact (Hs cur q Hq).
  - unfold Resume. destruct (IsRS5OrHigher s); [| exact Hs]. cbn [negb].
    destruct (m_nowPlaying s) as [cur |]; [| exact Hs].
    apply on_play_ruled; [exact Hs |]. intros q Hq.
    apply pause_rule_Resume. exact (Hs cur q Hq).
  - now apply SetProgress_ruled.
  - now apply Stop_ruled.
  - unfold OnHiding. destruct (m_nowPlaying s) as [cur |]; [| exact Hs].
    apply on_play_ruled; [exact Hs |]. intros q Hq.
    apply pause_rule_OnHiding. exact (Hs cur q Hq).
  - unfold OnUnhiding. destruct (m_nowPlaying s) as [cur |]; [| exact Hs].
    apply on_play_ruled; [exact Hs |]. intros q Hq.
    apply pause_rule_OnUnhiding. exact (Hs cur q Hq).
  - unfold put_PlaybackRate, OnPlaybackRatePropertyChanged.
    assert (H1 : ruled (set_PlaybackRate value s)) by exact Hs.
    destruct (m_nowPlaying _) as [cur |]; [| exact H1].
    apply on_play_ruled; [exact H1 |]. intros q Hq.
    apply (pause_rule_same_controller_state q);
      [destruct q as [f t l d up hp [k |] b tk aw]; reflexivity ..
      | exact (Hs cur q Hq)].
  - unfold BatchCompleted. destruct (plays s !! play) as [p |]; [| exact Hs].
    destruct (m_batchCompletedToken p); [now apply Complete_ruled | exact Hs].
Qed.

Lemma run_ruled caller s : ruled s -> ruled (run h caller s).
Proof.
  revert s. induction caller as [| c next IH]; intros s Hs; simpl.
  - exact Hs.
  - apply IH. now apply invoke_ruled.
Qed.

End Ruled.

Lemma reentrant_ruled (react : Reaction) (depth : nat) :
  forall old new s, ruled s -> ruled (reentrant react depth old new s).
Proof.
  induction depth as [| d IH]; simpl; intros old new s Hs.
  - exact Hs.
  - now apply run_ruled.
Qed.

(** In every state the player reaches, from outside calls and from the
    subscriber, every play obeys the rule. *)
Lemma reachable_plays_ruled (react : Reaction) (depth : nat)
    (caller : Script) (d : TimeSpan) (c : double) :
  ruled (run (reentrant react depth) caller (loaded_player d c)).
Proof.
  apply run_ruled; [apply reentrant_ruled |].
  intros id p Hp. discriminate.
Qed.

(** * The duration of a play *)

Section Duration.
Local Open Scope Q_scope.

Lemma Qmult_le_both (a b A B : Q) :
  0 <= a -> a <= A -> 0 <= b -> b <= B -> a * b <= A * B.
Proof.
  intros Ha HA Hb HB.
  apply Qle_trans with (A * b).
  - apply Qmult_le_compat_r; assumption.
  - rewrite (Qmult_comm A b), (Qmult_comm A B).
    apply Qmult_le_compat_r; [assumption | lra].
Qed.

(** [Duration * span] in ticks, for a span the constructor has computed
    up to the relative error [eps]: within one tick and [2^-21] of the
    exact product. *)
Lemma scaled_duration_close (D : Z) (span : float) (S eps : Q) :
  (0 <= D <= 2 ^ 62)%Z ->
  F32.valid span = true -> nonneg_finite span = true ->
  0 <= S <= 1 -> 0 <= eps <= 3 # 16777216 ->
  near eps (F2Q span) S ->
  S * inject_Z D * (1 - (1 # 2097152)) - 1
  < inject_Z (duration_cast (TimeSpan_mul D span)) /\
  inject_Z (duration_cast (TimeSpan_mul D span))
  <= S * inject_Z D * (1 + (1 # 2097152)).
Proof.
  intros HD Vs Ns HS He Hnear. unfold TimeSpan_mul.
  destruct (F32_of_Z_near D) as [Na Ha]; [lia |].
  pose proof (F32_of_Z_valid D) as Va.
  set (a := F32.of_Z D) in *.
  assert (HD0 : 0 <= inject_Z D)
    by (change 0 with (inject_Z 0); rewrite <- Zle_Qle; lia).
  assert (HD1 : inject_Z D <= 4611686018427387904 # 1)
    by (change (4611686018427387904 # 1) with (inject_Z (2 ^ 62));
        rewrite <- Zle_Qle; lia).
  set (d := inject_Z D) in *.
  pose proof (F2Q_nonneg a Na) as Ha0.
  pose proof (F2Q_nonneg span Ns) as Hs0.
  pose proof float_eps_range as Hu.
  assert (Ha1 : F2Q a <= 9223372036854775808 # 1).
  { destruct Ha as [_ Ha]. unfold float_eps in *. nra. }
  assert (Hs1 : F2Q span <= 2).
  { destruct Hnear as [_ Hn]. nra. }
  assert (Hab : F2Q a * F2Q span <= inject_Z (2 ^ 70)).
  { apply Qle_trans with ((9223372036854775808 # 1) * 2).
    - apply Qmult_le_both; assumption.
    - discriminate. }
  destruct (F32_mul_near a span Va Vs Na Ns Hab) as [Nc Hc].
  set (c := F32.mul a span) in *.
  assert (HX : 0 <= d * S) by (apply Qmult_le_0_compat; tauto).
  assert (HX1 : d * S <= 4611686018427387904 # 1).
  { apply Qle_trans with ((4611686018427387904 # 1) * 1).
    - apply Qmult_le_both; tauto.
    - discriminate. }
  assert (Hmul : near (float_eps + eps + float_eps * eps)
                   (F2Q a * F2Q span) (d * S)).
  { apply near_mul; try tauto. split; [tauto |]. lra. }
  assert (E : S * d == d * S) by ring.
  rewrite E.
  set (X := d * S) in *. set (ab := F2Q a * F2Q span) in *.
  assert (He2 : 0 <= float_eps + eps + float_eps * eps <= 5 # 16777216).
  { unfold float_eps in *. split; nra. }
  destruct Hc as [Hc | [Hsmall Hc]].
  - assert (Hc3 : near (float_eps + (float_eps + eps + float_eps * eps)
                        + float_eps * (float_eps + eps + float_eps * eps))
                    (F2Q c) X).
    { apply (near_trans _ _ _ ab); try assumption.
      split; [tauto | lra]. }
    assert (Hc8 : near (1 # 2097152) (F2Q c) X).
    { eapply near_weaken; [| exact HX | exact Hc3].
      unfold float_eps in *. nra. }
    destruct Hc8 as [L U].
    destruct (duration_cast_floor c Nc) as (_ & F1 & F2).
    { apply Qle_lt_trans with (X * (1 + (1 # 2097152))); [exact U |].
      change (inject_Z (2 ^ 63)) with (9223372036854775808 # 1). lra. }
    split; lra.
  - destruct (duration_cast_floor c Nc) as (F0 & F1 & F2).
    { eapply Qlt_trans; [exact Hc | reflexivity]. }
    set (n := duration_cast c) in *.
    assert (Hn : (n < 1)%Z).
    { rewrite Zlt_Qlt. eapply Qle_lt_trans; [exact F1 | exact Hc]. }
    assert (En : n = 0%Z) by lia. rewrite En.
    change (inject_Z 0) with 0.
    destruct Hmul as [L _].
    assert (HX2 : X <= 1) by nra.
    split; lra.
Qed.

(** The comparison in the constructor is the comparison of the numbers. *)
Lemma wraps_iff (f t : float) :
  F32.valid f = true -> F32.valid t = true ->
  in_unit_range f = true -> in_unit_range t = true ->
  SFltb t f = true <-> F2Q t < F2Q f.
Proof.
  intros Vf Vt Rf Rt.
  destruct (in_unit_range_F2Q f Vf Rf) as (Nf & _).
  destruct (in_unit_range_F2Q t Vt Rt) as (Nt & _).
  now apply SFltb_F2Q.
Qed.

Lemma play_duration_bounds (D : Z) (f t : float) (looped : bool) :
  (0 <= D <= 2 ^ 62)%Z ->
  F32.valid f = true -> F32.valid t = true ->
  in_unit_range f = true -> in_unit_range t = true ->
  let duration :=
    inject_Z (m_playDuration (AnimationPlay_new D f t looped)) in
  let span := if SFltb t f then (1 - F2Q f) + F2Q t else F2Q t - F2Q f in
  span * inject_Z D * (1 - (1 # 2097152)) - 1 < duration /\
  duration <= span * inject_Z D * (1 + (1 # 2097152)).
Proof.
  intros HD Vf Vt Rf Rt. cbv zeta.
  destruct (in_unit_range_F2Q f Vf Rf) as (Nf & F0 & F1).
  destruct (in_unit_range_F2Q t Vt Rt) as (Nt & T0 & T1).
  pose proof (wraps_iff f t Vf Vt Rf Rt) as Hw.
  pose proof float_eps_range as Hu.
  unfold AnimationPlay_new. cbn [m_playDuration]. unfold durationAsProgress.
  destruct (SFltb t f) eqn:Hlt.
  - (* the play wraps *)
    assert (Hlt' : F2Q t < F2Q f) by (now apply Hw).
    assert (V1 : F32.valid F32.one = true) by reflexivity.
    assert (N1 : nonneg_finite F32.one = true) by reflexivity.
    destruct (F32_sub_near F32.one f V1 Vf N1 Nf) as [Ns Hs].
    { rewrite F2Q_one. exact F1. }
    { rewrite F2Q_one. discriminate. }
    pose proof (F32_sub_valid F32.one f V1 Vf) as Vs.
    set (s1 := F32.sub F32.one f) in *.
    assert (Hs' : near float_eps (F2Q s1) (1 - F2Q f))
      by (eapply near_eq; [reflexivity | | exact Hs]; rewrite F2Q_one; reflexivity).
    assert (Hs1 : F2Q s1 <= 2) by (destruct Hs' as [_ U]; unfold float_eps in *; nra).
    destruct (F32_add_near s1 t Vs Vt Ns Nt) as [Na Ha].
    { apply Qle_trans with 3; [lra | discriminate]. }
    pose proof (F32_add_valid s1 t Vs Vt) as Va.
    set (s2 := F32.add s1 t) in *.
    assert (Hsum : near float_eps (F2Q s1 + F2Q t) ((1 - F2Q f) + F2Q t)).
    { apply near_add; [exact Hs' |]. apply near_refl; tauto. }
    assert (Hs2 : near (float_eps + float_eps + float_eps * float_eps)
                    (F2Q s2) ((1 - F2Q f) + F2Q t)).
    { apply (near_trans _ _ _ (F2Q s1 + F2Q t)); try assumption; lra. }
    apply (scaled_duration_close D s2 _
             (float_eps + float_eps + float_eps * float_eps));
      first [assumption | split; lra
            | unfold float_eps; split; discriminate].
  - (* it does not *)
    assert (Hle : F2Q f <= F2Q t).
    { destruct (Qlt_le_dec (F2Q t) (F2Q f)) as [H | H]; [| exact H].
      apply Hw in H. congruence. }
    destruct (F32_sub_near t f Vt Vf Nt Nf Hle) as [Ns Hs].
    { apply Qle_trans with 1; [exact T1 | discriminate]. }
    pose proof (F32_sub_valid t f Vt Vf) as Vs.
    apply (scaled_duration_close D (F32.sub t f) _ float_eps);
      first [assumption | split; lra
            | unfold float_eps; split; discriminate].
Qed.

(** The duration of a play over a visual of one hour, from 0 to 1, is
    not the hour: the product is computed in [float], which has 24 bits
    for the 36000000000 ticks. *)
Lemma play_duration_not_exact :
  in_unit_range F32.zero = true /\ in_unit_range F32.one = true /\
  F2Q F32.zero <= F2Q F32.one /\
  m_playDuration (AnimationPlay_new 36000000000%Z F32.zero F32.one false)
  = 35999997952%Z /\
  ~ inject_Z
      (m_playDuration (AnimationPlay_new 36000000000%Z F32.zero F32.one false))
    == (F2Q F32.one - F2Q F32.zero) * inject_Z 36000000000.
Proof.
  split; [reflexivity |]. split; [reflexivity |].
  split; [discriminate |].
  assert (E : m_playDuration
                (AnimationPlay_new 36000000000%Z F32.zero F32.one false)
              = 35999997952%Z) by (vm_compute; reflexivity).
  split; [exact E |]. rewrite E. intros H. vm_compute in H. discriminate H.
Qed.

(** C4. For [fromProgress] and [toProgress] in [0,1], the duration the
    constructor computes is [(to - from) * Duration] when [from <= to]
    and [((1 - from) + to) * Duration] when [from > to], up to the
    rounding of the [float] arithmetic it is computed in and the
    truncation to whole ticks: it differs from the exact product by less
    than one tick plus [2^-21] of the product. [Duration] is a time span
    that is not negative, of at most [2^62] ticks. *)
Theorem play_duration (ownerDuration : TimeSpan) (f t : float)
    (looped : bool) :
  (0 <= ownerDuration <= 2 ^ 62)%Z ->
  F32.valid f = true -> F32.valid t = true ->
  in_unit_range f = true -> in_unit_range t = true ->
  let duration :=
    inject_Z (m_playDuration (AnimationPlay_new ownerDuration f t looped)) in
  (F2Q f <= F2Q t ->
   Qabs (duration - (F2Q t - F2Q f) * inject_Z ownerDuration)
   < (F2Q t - F2Q f) * inject_Z ownerDuration * (1 # 2097152) + 1) /\
  (F2Q t < F2Q f ->
   Qabs (duration - ((1 - F2Q f) + F2Q t) * inject_Z ownerDuration)
   < ((1 - F2Q f) + F2Q t) * inject_Z ownerDuration * (1 # 2097152) + 1).
Proof.
  intros HD Vf Vt Rf Rt duration.
  pose proof (play_duration_bounds ownerDuration f t looped HD Vf Vt Rf Rt)
    as H.
  cbv zeta in H. fold duration in H.
  pose proof (wraps_iff f t Vf Vt Rf Rt) as Hw.
  split; intros Hc.
  - assert (E : SFltb t f = false).
    { destruct (SFltb t f); [| reflexivity].
      assert (F2Q t < F2Q f) by (now apply Hw). lra. }
    rewrite E in H. destruct H as [L U].
    apply Qabs_Qlt_condition. split; lra.
  - assert (E : SFltb t f = true) by (now apply Hw).
    rewrite E in H. destruct H as [L U].
    apply Qabs_Qlt_condition. split; lra.
Qed.

(** From 0.2 to 0.8 of a one-second visual: 6000000 ticks, while the
    [float]s nearest to 0.2 and 0.8 are 0.60000002 apart; from 0.8 around
    to 0.2: 3999999 ticks. *)
Lemma play_duration_witness :
  Qabs (inject_Z
          (m_playDuration
             (AnimationPlay_new second
                (static_cast_float (F64.ratio 2 10))
                (static_cast_float (F64.ratio 8 10)) false))
        - (F2Q (static_cast_float (F64.ratio 8 10))
           - F2Q (static_cast_float (F64.ratio 2 10))) * inject_Z second)
  < (F2Q (static_cast_float (F64.ratio 8 10))
     - F2Q (static_cast_float (F64.ratio 2 10))) * inject_Z second
    * (1 # 2097152) + 1 /\
  m_playDuration
    (AnimationPlay_new second
       (static_cast_float (F64.ratio 2 10))
       (static_cast_float (F64.ratio 8 10)) false) = 6000000%Z /\
  m_playDuration
    (AnimationPlay_new second
       (static_cast_float (F64.ratio 8 10))
       (static_cast_float (F64.ratio 2 10)) false) = 3999999%Z.
Proof.
  assert (HD : (0 <= second <= 2 ^ 62)%Z) by (vm_compute; split; discriminate).
  assert (Hle : F2Q (static_cast_float (F64.ratio 2 10))
                <= F2Q (static_cast_float (F64.ratio 8 10)))
    by (vm_compute; discriminate).
  split; [| split; vm_compute; reflexivity].
  exact (proj1 (play_duration second
                  (static_cast_float (F64.ratio 2 10))
                  (static_cast_float (F64.ratio 8 10)) false
                  HD eq_refl eq_refl eq_refl eq_refl) Hle).
Defined.

(** X27. The duration of a play is never negative and never longer
    than the visual, up to the rounding of [float]: for [fromProgress]
    and [toProgress] in [0,1] it is at most [Duration * (1 + 2^-21)]
    ticks. *)
Theorem play_duration_range (ownerDuration : TimeSpan) (f t : float)
    (looped : bool) :
  (0 <= ownerDuration <= 2 ^ 62)%Z ->
  F32.valid f = true -> F32.valid t = true ->
  in_unit_range f = true -> in_unit_range t = true ->
  (0 <= m_playDuration (AnimationPlay_new ownerDuration f t looped))%Z /\
  inject_Z (m_playDuration (AnimationPlay_new ownerDuration f t looped))
  <= inject_Z ownerDuration * (1 + (1 # 2097152)).
Proof.
  intros HD Vf Vt Rf Rt.
  pose proof (play_duration_bounds ownerDuration f t looped HD Vf Vt Rf Rt)
    as H.
  cbv zeta in H.
  destruct (in_unit_range_F2Q f Vf Rf) as (_ & F0 & F1).
  destruct (in_unit_range_F2Q t Vt Rt) as (_ & T0 & T1).
  pose proof (wraps_iff f t Vf Vt Rf Rt) as Hw.
  assert (HD0 : 0 <= inject_Z ownerDuration)
    by (change 0 with (inject_Z 0); rewrite <- Zle_Qle; lia).
  set (n := m_playDuration (AnimationPlay_new ownerDuration f t looped)) in *.
  set (d := inject_Z ownerDuration) in *.
  assert (Hspan : exists span, 0 <= span <= 1 /\
            span * d * (1 - (1 # 2097152)) - 1 < inject_Z n /\
            inject_Z n <= span * d * (1 + (1 # 2097152))).
  { destruct (SFltb t f) eqn:E.
    - assert (F2Q t < F2Q f) by (now apply Hw).
      exists (1 - F2Q f + F2Q t). split; [split; lra | exact H].
    - assert (F2Q f <= F2Q t).
      { destruct (Qlt_le_dec (F2Q t) (F2Q f)) as [Hlt | Hle]; [| exact Hle].
        apply Hw in Hlt. congruence. }
      exists (F2Q t - F2Q f). split; [split; lra | exact H]. }
  destruct Hspan as (span & [S0 S1] & L & U).
  assert (Hsd : 0 <= span * d) by (apply Qmult_le_0_compat; assumption).
  assert (Hsd1 : span * d <= d).
  { rewrite <- (Qmult_1_l d) at 2.
    apply Qmult_le_compat_r; assumption. }
  split.
  - assert (Hn : inject_Z (-1) < inject_Z n).
    { change (inject_Z (-1)) with (-1 # 1). nra. }
    rewrite <- Zlt_Qlt in Hn. lia.
  - eapply Qle_trans; [exact U |].
    apply Qmult_le_compat_r; [exact Hsd1 | discriminate].
Qed.

Lemma play_duration_range_witness :
  (0 <= m_playDuration
          (AnimationPlay_new 36000000000%Z
             (static_cast_float (F64.ratio 8 10))
             (static_cast_float (F64.ratio 2 10)) true))%Z /\
  inject_Z
    (m_playDuration
       (AnimationPlay_new 36000000000%Z
          (static_cast_float (F64.ratio 8 10))
          (static_cast_float (F64.ratio 2 10)) true))
  <= inject_Z 36000000000 * (1 + (1 # 2097152)).
Proof.
  assert (HD : (0 <= 36000000000 <= 2 ^ 62)%Z)
    by (vm_compute; split; discriminate).
  exact (play_duration_range 36000000000%Z
           (static_cast_float (F64.ratio 8 10))
           (static_cast_float (F64.ratio 2 10)) true
           HD eq_refl eq_refl eq_refl eq_refl).
Defined.

End Duration.

(** * The rest of the player: properties *)

(** ** Starting a play *)

Lemma Start_long h this p s :
  plays s !! this = Some p ->
  (ms20 <= m_playDuration p)%Z ->
  Start h this s
  = put_IsPlaying h true
      (started this p (MUX_ASSERT (negb (non_null (m_controller p))) s)).
Proof.
  intros Hp Hd. unfold Start. rewrite Hp.
  apply Z.ltb_ge in Hd. rewrite Hd. reflexivity.
Qed.

Lemma Start_short h this p s :
  plays s !! this = Some p ->
  (m_playDuration p < ms20)%Z ->
  Start h this s
  = SetProgress h (promote_double (m_fromProgress p))
      (MUX_ASSERT (negb (non_null (m_controller p))) s).
Proof.
  intros Hp Hd. unfold Start. rewrite Hp.
  apply Z.ltb_lt in Hd. rewrite Hd. reflexivity.
Qed.

Lemma started_plays_other this p s id :
  id <> this -> plays (started this p s) !! id = plays s !! id.
Proof.
  intros Hne. unfold started.
  destruct (m_isPaused p || m_isPausedBecauseHidden p), (SFltb _ F32.zero),
    (negb (m_looped p)); simpl;
    rewrite ?list_lookup_alter_ne by congruence; reflexivity.
Qed.

Lemma started_plays_this this p s :
  plays s !! this = Some p -> m_controller p = None ->
  plays (started this p s) !! this = Some (started_play (PlaybackRate s) p).
Proof.
  intros Hp Hc. unfold started, started_play.
  destruct p as [f t l d up hp k b tk aw]. simpl in Hc. subst k.
  cbn [m_isPaused m_isPausedBecauseHidden m_looped].
  destruct l, up, hp; cbn -[SFltb F32.zero F32.one static_cast_float];
    generalize (static_cast_float (PlaybackRate s)); intros r;
    destruct (SFltb r F32.zero) eqn:Hr;
    cbn -[SFltb F32.zero F32.one]; rewrite ?list_lookup_alter_eq, Hp;
    cbn -[SFltb F32.zero F32.one];
    rewrite ?Hr; reflexivity.
Qed.

Lemma started_fields this p s :
  m_nowPlaying (started this p s) = m_nowPlaying s /\
  IsPlaying (started this p s) = IsPlaying s /\
  m_playAsyncVersion (started this p s) = m_playAsyncVersion s /\
  length (plays (started this p s)) = length (plays s) /\
  trace (started this p s) = EvStartAnimation this :: trace s /\
  m_progressPropertySet (started this p s)
  = StartAnimation (animation_of p) (m_progressPropertySet s).
Proof.
  unfold started.
  destruct (m_isPaused p || m_isPausedBecauseHidden p), (SFltb _ F32.zero),
    (negb (m_looped p)); simpl; rewrite ?length_alter; repeat split.
Qed.

(** ** The flags of the plays stay coherent *)

Lemma neutral_quiet f : neutral f -> quiet f.
Proof. intros Hf p. apply Hf. Qed.

Lemma animation_of_same_request p q :
  same_request p q -> animation_of q = animation_of p.
Proof.
  intros (H1 & H2 & H3 & H4). unfold animation_of, key_frames.
  now rewrite H1, H2, H3, H4.
Qed.

Lemma current_started_on_play this f s :
  (forall p, non_null (m_controller (f p)) = non_null (m_controller p)) ->
  current_started (on_play this f s) = current_started s.
Proof.
  intros Hf. unfold current_started. simpl.
  destruct (m_nowPlaying s) as [cur |]; [| reflexivity].
  destruct (decide (this = cur)) as [-> | Hne].
  - rewrite list_lookup_alter_eq. destruct (plays s !! cur); simpl; auto.
  - now rewrite list_lookup_alter_ne.
Qed.

Lemma on_play_coherent pending this f s :
  neutral f -> coherent pending s -> coherent pending (on_play this f s).
Proof.
  intros Hf [C1 C2 C3]. constructor.
  - rewrite current_started_on_play; [exact C1 | intros p; apply Hf].
  - intros id p Hp Ht.
    destruct (on_play_lookup _ _ _ _ _ Hp) as (q & Hq & [E | [_ E]]); subst p.
    + exact (C2 id q Hq Ht).
    + destruct (Hf q) as (_ & Ha & _ & Hb & Hk).
      rewrite Ha, Hb. rewrite Hk in Ht. exact (C2 id q Hq Ht).
  - intros id p Hp Hb.
    destruct (on_play_lookup _ _ _ _ _ Hp) as (q & Hq & [E | [_ E]]); subst p.
    + exact (C3 id q Hq Hb).
    + destruct (Hf q) as ((_ & _ & Hl & _) & _ & Hc & Hb' & _).
      rewrite Hl, Hc. rewrite Hb' in Hb. exact (C3 id q Hq Hb).
Qed.

Lemma on_play_animated this f s :
  neutral f -> animated s -> animated (on_play this f s).
Proof.
  intros Hf Ha cur p Hcur Hp Hc. simpl in Hcur.
  destruct (on_play_lookup _ _ _ _ _ Hp) as (q & Hq & [E | [_ E]]); subst p.
  - exact (Ha cur q Hcur Hq Hc).
  - destruct (Hf q) as (Hr & _ & Hn & _).
    rewrite (animation_of_same_request _ _ Hr). rewrite Hn in Hc.
    exact (Ha cur q Hcur Hq Hc).
Qed.

Lemma on_play_sound pending this f s :
  neutral f -> sound pending s -> sound pending (on_play this f s).
Proof.
  intros Hf (I & C & A). split; [| split].
  - apply on_play_invariant; [now apply neutral_quiet | exact I].
  - now apply on_play_coherent.
  - now apply on_play_animated.
Qed.

Lemma neutral_Pause : neutral Play.Pause.
Proof.
  intros [f t l d up hp [c |] b tk aw]; unfold Play.Pause; simpl;
    destruct hp; now repeat split.
Qed.
Lemma neutral_Resume : neutral Play.Resume.
Proof.
  intros [f t l d up hp [c |] b tk aw]; unfold Play.Resume; simpl;
    destruct hp; now repeat split.
Qed.
Lemma neutral_OnHiding : neutral Play.OnHiding.
Proof.
  intros [f t l d up hp [c |] b tk aw]; unfold Play.OnHiding; simpl;
    destruct hp, up; now repeat split.
Qed.
Lemma neutral_OnUnhiding : neutral Play.OnUnhiding.
Proof.
  intros [f t l d up hp [c |] b tk aw]; unfold Play.OnUnhiding; simpl;
    destruct hp, up; now repeat split.
Qed.
Lemma neutral_SetPlaybackRate v : neutral (Play.SetPlaybackRate v).
Proof.
  intros [f t l d up hp [c |] b tk aw]; unfold Play.SetPlaybackRate; simpl;
    now repeat split.
Qed.

Lemma emit_sound pending e s :
  e <> EvAssertFailed -> sound pending s -> sound pending (emit e s).
Proof.
  intros He (I & [C1 C2 C3] & A). split; [| split].
  - now apply emit_invariant.
  - now constructor.
  - exact A.
Qed.

(** Releasing the awaiters of a play that is not current and not
    subscribed. *)
Lemma CompleteAwaits_sound (pending pending' : nat -> Prop) this s :
  sound pending' s ->
  m_nowPlaying s <> Some this ->
  (forall p, plays s !! this = Some p -> m_batchCompletedToken p = false) ->
  (forall id, pending' id -> pending id \/ id = this) ->
  (forall id, pending id -> pending' id) ->
  sound pending (CompleteAwaits this s).
Proof.
  intros (I & [C1 C2 C3] & A) Hthis Htok Hsub Hsup. split; [| split].
  - now apply (CompleteAwaits_invariant pending pending').
  - unfold CompleteAwaits. constructor.
    + simpl. change (IsPlaying s
                     = current_started
                         (on_play this (set_awaits_completed true) s)).
      rewrite current_started_on_play; [exact C1 | reflexivity].
    + intros id p Hp Ht. simpl in Hp.
      destruct (on_play_lookup this (set_awaits_completed true) s id p Hp)
        as (q & Hq & [E | [E1 E]]); subst p.
      * destruct (decide (id = this)) as [-> | Hne].
        { rewrite (Htok q Hq) in Ht. discriminate. }
        destruct (C2 id q Hq Ht) as (Hb & Ha & Hn).
        split; [exact Hb |]. split; [exact Ha |].
        intros Hc. apply Hn. now apply Hsup.
      * subst id. simpl in Ht. rewrite (Htok q Hq) in Ht. discriminate.
    + intros id p Hp Hb. simpl in Hp.
      destruct (on_play_lookup this (set_awaits_completed true) s id p Hp)
        as (q & Hq & [E | [E1 E]]); subst p.
      * exact (C3 id q Hq Hb).
      * exact (C3 id q Hq Hb).
  - unfold CompleteAwaits. intros cur p Hcur Hp Hc. simpl in Hcur, Hp.
    destruct (on_play_lookup this (set_awaits_completed true) s cur p Hp)
      as (q & Hq & [E | [E1 E]]); subst p.
    + exact (A cur q Hcur Hq Hc).
    + exact (A cur q Hcur Hq Hc).
Qed.

Section Sound.

Variable h : Handler.
Hypothesis h_frames : frames h.
Hypothesis h_sound : keeps_sound h.

Lemma unsubscribe_coherent pending this s :
  coherent pending s ->
  coherent pending
    (on_play this
       (fun p => if m_batch p then set_m_batchCompletedToken false p else p) s)
  /\ (forall p,
        plays (on_play this
                 (fun p => if m_batch p
                           then set_m_batchCompletedToken false p else p) s)
          !! this = Some p ->
        m_batchCompletedToken p = false).
Proof.
  intros [C1 C2 C3]. split; [constructor |].
  - rewrite current_started_on_play; [exact C1 |].
    intros p. now destruct (m_batch p).
  - intros id p Hp Ht.
    destruct (on_play_lookup _ _ _ _ _ Hp) as (q & Hq & [E | [_ E]]); subst p.
    + exact (C2 id q Hq Ht).
    + destruct (m_batch q) eqn:Hb; [discriminate |].
      destruct (C2 id q Hq Ht) as (Hb' & _). congruence.
  - intros id p Hp Hb.
    destruct (on_play_lookup _ _ _ _ _ Hp) as (q & Hq & [E | [_ E]]); subst p.
    + exact (C3 id q Hq Hb).
    + destruct (m_batch q) eqn:Hb'; [| congruence].
      exact (C3 id q Hq Hb').
  - intros p Hp.
    destruct (on_play_lookup _ _ _ _ _ Hp) as (q & Hq & [E | [_ E]]); subst p.
    + simpl in Hp. rewrite list_lookup_alter_eq, Hq in Hp. simpl in Hp.
      injection Hp as Hp. destruct (m_batch q) eqn:Hb.
      * rewrite <- Hp. reflexivity.
      * destruct (m_batchCompletedToken q) eqn:Ht; [| reflexivity].
        destruct (C2 this q Hq Ht) as (Hb' & _). congruence.
    + destruct (m_batch q) eqn:Hb; [reflexivity |].
      destruct (m_batchCompletedToken q) eqn:Ht; [| reflexivity].
      destruct (C2 this q Hq Ht) as (Hb' & _). congruence.
Qed.

Lemma unsubscribe_animated this s :
  animated s ->
  animated
    (on_play this
       (fun p => if m_batch p then set_m_batchCompletedToken false p else p) s).
Proof.
  intros A cur p Hcur Hp Hc. simpl in Hcur.
  destruct (on_play_lookup _ _ _ _ _ Hp) as (q & Hq & [E | [_ E]]); subst p.
  - exact (A cur q Hcur Hq Hc).
  - destruct (m_batch q); exact (A cur q Hcur Hq Hc).
Qed.

Lemma Complete_sound pending this s :
  invariant pending s -> coherent pending s ->
  animated s \/ m_nowPlaying s = Some this ->
  sound pending (Complete h this s).
Proof.
  intros I C A. unfold Complete.
  set (s0 := on_play this _ s).
  assert (I0 : invariant pending s0)
    by (apply on_play_invariant; [apply quiet_unsubscribe | exact I]).
  destruct (unsubscribe_coherent pending this s C) as [C0 T0].
  fold s0 in C0, T0.
  destruct (IsCurrentPlay this s0) eqn:Hcur.
  - apply IsCurrentPlay_true in Hcur.
    assert (K : sound (fun id => pending id \/ id = this)
                  (put_IsPlaying h false (set_m_nowPlaying None s0))).
    { apply h_sound. split; [now apply disconnect_invariant |].
      destruct C0 as [C1 C2 C3]. split; [constructor |].
      - reflexivity.
      - intros id p Hp Ht. simpl in Hp.
        destruct (C2 id p Hp Ht) as (Hb & Ha & Hn).
        split; [exact Hb |]. split; [exact Ha |].
        intros [Hc | ->]; [contradiction |].
        rewrite (T0 p Hp) in Ht. discriminate.
      - exact C3.
      - intros cur p Hc. discriminate. }
    apply (CompleteAwaits_sound pending (fun id => pending id \/ id = this));
      auto.
    + intros Hc. destruct K as (K & _).
      destruct (inv_current _ _ K this Hc) as [Hno _]. apply Hno. now right.
    + intros p Hp. destruct K as (_ & [_ K2 _] & _).
      destruct (m_batchCompletedToken p) eqn:Ht; [| reflexivity].
      destruct (K2 this p Hp Ht) as (_ & _ & Hn). exfalso. apply Hn. now right.
  - assert (Hne : m_nowPlaying s0 <> Some this).
    { intros Hc. apply IsCurrentPlay_true in Hc. congruence. }
    apply (CompleteAwaits_sound pending pending); auto.
    split; [exact I0 |]. split; [exact C0 |].
    apply unsubscribe_animated. destruct A as [A | A]; [exact A |].
    now elim Hne.
Qed.

Lemma SetProgress_sound pending v s :
  sound pending s -> sound pending (SetProgress h v s).
Proof.
  intros (I & C & A). unfold SetProgress.
  destruct (IsRS5OrHigher s); cbn [negb]; [| exact (conj I (conj C A))].
  cbv zeta.
  match goal with |- context [emit ?e ?x] =>
    assert (I1 : invariant pending (emit e x));
    [| assert (C1 : coherent pending (emit e x))] end.
  { apply emit_invariant; [discriminate |].
    now apply set_m_progressPropertySet_invariant. }
  { destruct C as [C1 C2 C3]. now constructor. }
  destruct (m_nowPlaying _) as [cur |] eqn:Hcur.
  - apply Complete_sound; [exact I1 | exact C1 | right; exact Hcur].
  - split; [exact I1 |]. split; [exact C1 |].
    intros cur p Hc. simpl in Hc, Hcur. congruence.
Qed.

Lemma Stop_sound pending s : sound pending s -> sound pending (Stop h s).
Proof.
  intros Hs. unfold Stop. destruct (IsRS5OrHigher s); cbn [negb]; [| exact Hs].
  destruct (non_null _); [now apply SetProgress_sound | exact Hs].
Qed.

Lemma BatchCompleted_sound pending play s :
  sound pending s -> sound pending (BatchCompleted h play s).
Proof.
  intros (I & C & A). unfold BatchCompleted.
  destruct (plays s !! play) as [p |]; [| exact (conj I (conj C A))].
  destruct (m_batchCompletedToken p); [| exact (conj I (conj C A))].
  apply Complete_sound; auto.
Qed.

Lemma fresh_play_flags pending this p s :
  coherent pending s -> plays s !! this = Some p -> m_controller p = None ->
  m_batch p = false /\ m_batchCompletedToken p = false.
Proof.
  intros [C1 C2 C3] Hp Hc.
  assert (Hb : m_batch p = false).
  { destruct (m_batch p) eqn:Hb; [| reflexivity].
    destruct (C3 this p Hp Hb) as (_ & Hn). rewrite Hc in Hn. discriminate. }
  split; [exact Hb |].
  destruct (m_batchCompletedToken p) eqn:Ht; [| reflexivity].
  destruct (C2 this p Hp Ht) as (Hb' & _). congruence.
Qed.

Lemma started_sound pending this p s :
  sound pending s -> m_nowPlaying s = Some this ->
  plays s !! this = Some p -> m_controller p = None ->
  sound pending
    (emit (EvIsPlaying true) (set_IsPlaying true (started this p s))).
Proof.
  intros (I & C & A) Hcur Hp Hc.
  destruct (fresh_play_flags pending this p s C Hp Hc) as (Hb & Ht).
  destruct (started_fields this p s) as (F1 & F2 & F3 & F4 & F5 & F6).
  pose proof (started_plays_this this p s Hp Hc) as Hthis.
  destruct (inv_current _ _ I this Hcur) as (Hn & q & Hq & Ha).
  rewrite Hp in Hq. injection Hq as <-.
  destruct I as [I1 I2 I3 I4 I5]. destruct C as [C1 C2 C3].
  split; [| split].
  - constructor; simpl.
    + rewrite F1. intros cur Hc'. rewrite Hcur in Hc'. injection Hc' as <-.
      split; [exact Hn |]. eexists. split; [exact Hthis | exact Ha].
    + rewrite F1. intros id q Hq Hq'.
      destruct (decide (id = this)) as [-> | Hne]; [now left |].
      rewrite started_plays_other in Hq by exact Hne. exact (I2 id q Hq Hq').
    + intros id Hid. rewrite F4. now apply I3.
    + rewrite F1, Hcur. discriminate.
    + rewrite F5, !not_elem_of_cons.
      split; [discriminate |]. split; [discriminate | exact I5].
  - constructor; simpl.
    + unfold current_started. simpl. rewrite F1, Hcur, Hthis. reflexivity.
    + intros id q Hq Hq'. destruct (decide (id = this)) as [-> | Hne].
      * rewrite Hthis in Hq. injection Hq as <-. simpl in *.
        rewrite Ht, orb_false_r in Hq'. now rewrite Hq'.
      * rewrite started_plays_other in Hq by exact Hne. exact (C2 id q Hq Hq').
    + intros id q Hq Hq'. destruct (decide (id = this)) as [-> | Hne].
      * rewrite Hthis in Hq. injection Hq as <-. simpl in *.
        split; [| reflexivity]. now destruct (m_looped p).
      * rewrite started_plays_other in Hq by exact Hne. exact (C3 id q Hq Hq').
  - intros cur q Hc' Hq _. simpl in Hc', Hq. rewrite F1, Hcur in Hc'.
    injection Hc' as <-. rewrite Hthis in Hq. injection Hq as <-.
    simpl. rewrite F6. reflexivity.
Qed.

Lemma Start_sound pending this s :
  sound pending s ->
  m_nowPlaying s = Some this ->
  (forall p, plays s !! this = Some p -> m_controller p = None) ->
  sound pending (Start h this s).
Proof.
  intros Hs Hcur Hfresh.
  destruct (plays s !! this) as [p |] eqn:Hp;
    [| unfold Start; now rewrite Hp].
  pose proof (Hfresh p eq_refl) as Hc.
  destruct (Z.lt_ge_cases (m_playDuration p) ms20) as [Hd | Hd].
  - rewrite (Start_short h this p s Hp Hd), Hc. now apply SetProgress_sound.
  - rewrite (Start_long h this p s Hp Hd), Hc. unfold put_IsPlaying.
    apply h_sound. now apply started_sound.
Qed.

Lemma install_sound pending p s :
  sound pending s -> m_nowPlaying s = None ->
  awaits_completed p = false -> m_controller p = None ->
  m_batch p = false -> m_batchCompletedToken p = false ->
  sound pending
    (emit (EvNowPlaying (length (plays s)))
       (set_m_nowPlaying (Some (length (plays s)))
          (set_plays (plays s ++ [p]) s))).
Proof.
  intros (I & [C1 C2 C3] & A) Hcur Ha Hc Hb Ht. split; [| split].
  - now apply install_invariant.
  - constructor; simpl.
    + unfold current_started. simpl.
      rewrite list_lookup_middle by reflexivity. rewrite Hc. simpl.
      rewrite C1. unfold current_started. now rewrite Hcur.
    + intros id q Hq Hq'.
      apply lookup_app_Some in Hq as [Hq | [_ Hq]]; [exact (C2 id q Hq Hq') |].
      apply list_lookup_singleton_Some in Hq as [_ <-]. congruence.
    + intros id q Hq Hq'.
      apply lookup_app_Some in Hq as [Hq | [_ Hq]]; [exact (C3 id q Hq Hq') |].
      apply list_lookup_singleton_Some in Hq as [_ <-]. congruence.
  - intros cur q Hc' Hq Hn. simpl in Hc', Hq. injection Hc' as <-.
    rewrite list_lookup_middle in Hq by reflexivity. injection Hq as <-.
    rewrite Hc in Hn. discriminate.
Qed.

Lemma bump_version_sound pending v s :
  sound pending s -> sound pending (set_m_playAsyncVersion v s).
Proof.
  intros (I & [C1 C2 C3] & A). split; [| split].
  - now apply bump_version_invariant.
  - now constructor.
  - exact A.
Qed.

Lemma PlayAsync_sound pending f t l s :
  sound pending s -> sound pending (fst (PlayAsync h f t l s)).
Proof.
  intros Hs. unfold PlayAsync.
  destruct (IsRS5OrHigher s) eqn:Hrs; cbn [negb]; [| exact Hs].
  set (s1 := set_m_playAsyncVersion _ s).
  assert (H1 : sound pending s1) by now apply bump_version_sound.
  assert (H2 : sound pending (Stop h s1)) by now apply Stop_sound.
  destruct (Nat.eqb _ _) eqn:Hv; cbn [negb]; [| exact H2].
  apply Nat.eqb_eq in Hv.
  assert (Hnone : m_nowPlaying (Stop h s1) = None)
    by (apply Stop_detaches; [exact h_frames | exact Hrs | now rewrite <- Hv]).
  rewrite (CompleteCurrentPlay_idle h _ Hnone).
  destruct (adjust_range f t) as [f' t']. cbn [fst].
  match goal with
  | |- context [emit ?e (set_m_nowPlaying ?n (set_plays (_ ++ [?p]) ?x))] =>
    set (s4 := emit e (set_m_nowPlaying n (set_plays (plays x ++ [p]) x)));
    assert (H4 : sound pending s4)
      by (apply install_sound; [exact H2 | exact Hnone | reflexivity ..])
  end.
  destruct (IsAnimatedVisualLoaded s4); [| exact H4].
  apply Start_sound; [exact H4 | reflexivity |].
  intros p. unfold s4. simpl. rewrite list_lookup_middle by reflexivity.
  now intros [= <-].
Qed.

Lemma on_current_sound pending f s :
  neutral f -> sound pending s ->
  sound pending
    (match m_nowPlaying s with
     | Some cur => on_play cur f s
     | None => s
     end).
Proof.
  intros Hf Hs. destruct (m_nowPlaying s); [now apply on_play_sound | exact Hs].
Qed.

Lemma put_PlaybackRate_sound pending v s :
  sound pending s -> sound pending (put_PlaybackRate v s).
Proof.
  intros (I & [C1 C2 C3] & A).
  unfold put_PlaybackRate, OnPlaybackRatePropertyChanged.
  assert (H1 : sound pending (set_PlaybackRate v s)).
  { split; [| split; [now constructor | exact A]].
    destruct I as [I1 I2 I3 I4 I5]. now constructor. }
  apply (on_current_sound pending _ _ (neutral_SetPlaybackRate _) H1).
Qed.

Lemma invoke_sound pending c s :
  sound pending s -> sound pending (invoke h c s).
Proof.
  intros Hs. destruct c; simpl.
  - now apply PlayAsync_sound.
  - unfold Pause. destruct (IsRS5OrHigher s); cbn [negb]; [| exact Hs].
    now apply on_current_sound; [apply neutral_Pause |].
  - unfold Resume. destruct (IsRS5OrHigher s); cbn [negb]; [| exact Hs].
    now apply on_current_sound; [apply neutral_Resume |].
  - now apply SetProgress_sound.
  - now apply Stop_sound.
  - now apply on_current_sound; [apply neutral_OnHiding |].
  - now apply on_current_sound; [apply neutral_OnUnhiding |].
  - now apply put_PlaybackRate_sound.
  - now apply BatchCompleted_sound.
Qed.

Lemma run_sound pending caller s :
  sound pending s -> sound pending (run h caller s).
Proof.
  revert s. induction caller as [| c next IH]; intros s Hs; simpl.
  - exact Hs.
  - apply IH. now apply invoke_sound.
Qed.

End Sound.

Lemma reentrant_keeps_sound (react : Reaction) (depth : nat) :
  keeps_sound (reentrant react depth).
Proof.
  induction depth as [| d IH]; simpl.
  - intros old new pending s Hs. exact Hs.
  - intros old new pending s Hs.
    apply run_sound; [apply reentrant_frames | exact IH | exact Hs].
Qed.

Lemma loaded_player_sound d c : sound nothing_pending (loaded_player d c).
Proof.
  split; [apply loaded_player_invariant |]. split.
  - constructor; simpl; [reflexivity | discriminate ..].
  - intros cur p Hc. discriminate.
Qed.

(** ** The rate of the controller and the range of Progress *)

Lemma on_play_tuned this f s :
  same_rate f -> tuned s -> tuned (on_play this f s).
Proof.
  intros Hf [R B]. split; [| exact B].
  intros cur p c Hcur Hp Hc. simpl in Hcur.
  destruct (on_play_lookup _ _ _ _ _ Hp) as (q & Hq & [E | [_ E]]); subst p.
  - exact (R cur q c Hcur Hq Hc).
  - specialize (Hf q). rewrite Hc in Hf. simpl in Hf.
    destruct (m_controller q) as [c' |] eqn:Hc'; [| discriminate].
    injection Hf as Hf. rewrite Hf. exact (R cur q c' Hcur Hq Hc').
Qed.

Lemma same_rate_Pause : same_rate Play.Pause.
Proof.
  intros [f t l d up hp [c |] b tk aw]; unfold Play.Pause; simpl;
    now destruct hp.
Qed.
Lemma same_rate_Resume : same_rate Play.Resume.
Proof.
  intros [f t l d up hp [c |] b tk aw]; unfold Play.Resume; simpl;
    now destruct hp.
Qed.
Lemma same_rate_OnHiding : same_rate Play.OnHiding.
Proof.
  intros [f t l d up hp [c |] b tk aw]; unfold Play.OnHiding; simpl;
    now destruct hp, up.
Qed.
Lemma same_rate_OnUnhiding : same_rate Play.OnUnhiding.
Proof.
  intros [f t l d up hp [c |] b tk aw]; unfold Play.OnUnhiding; simpl;
    now destruct hp, up.
Qed.

Section Tuned.

Variable h : Handler.
Hypothesis h_frames : frames h.
Hypothesis h_tuned : forall old new s, tuned s -> tuned (h old new s).

(** Once the play pointer is reset, whatever the plays are. *)
Lemma Complete_tuned this s :
  tuned s \/ (m_nowPlaying s = Some this /\ ranged s) ->
  tuned (Complete h this s).
Proof.
  intros Hs. unfold Complete, CompleteAwaits.
  set (s0 := on_play this _ s).
  assert (H0 : tuned s0 \/ (m_nowPlaying s0 = Some this /\ ranged s0)).
  { destruct Hs as [Hs | Hs]; [left | right; exact Hs].
    apply on_play_tuned; [| exact Hs]. intros p. now destruct (m_batch p). }
  assert (H1 : tuned (if IsCurrentPlay this s0
                      then put_IsPlaying h false (set_m_nowPlaying None s0)
                      else s0)).
  { destruct (IsCurrentPlay this s0) eqn:Hcur.
    - unfold put_IsPlaying. apply h_tuned. split.
      + intros cur p c Hc. discriminate.
      + destruct H0 as [[_ B] | [_ B]]; exact B.
    - destruct H0 as [H0 | [H0 _]]; [exact H0 |].
      apply IsCurrentPlay_true in H0. congruence. }
  destruct H1 as [R B]. split; [| exact B].
  intros cur p c Hcur Hp Hc. simpl in Hcur, Hp.
  destruct (on_play_lookup this (set_awaits_completed true) _ cur p Hp)
    as (q & Hq & [E | [_ E]]); subst p; exact (R cur q c Hcur Hq Hc).
Qed.

Lemma SetProgress_tuned v s : tuned s -> tuned (SetProgress h v s).
Proof.
  intros [R B]. unfold SetProgress.
  destruct (IsRS5OrHigher s); cbn [negb]; [| exact (conj R B)].
  cbv zeta.
  match goal with |- context [emit ?e ?x] =>
    assert (H1 : tuned (emit e x)) by (split; [exact R | apply clamp_range_or_NaN])
  end.
  destruct (m_nowPlaying _); [| exact H1].
  apply Complete_tuned. now left.
Qed.

Lemma Stop_tuned s : tuned s -> tuned (Stop h s).
Proof.
  intros Hs. unfold Stop. destruct (IsRS5OrHigher s); cbn [negb]; [| exact Hs].
  destruct (non_null _); [now apply SetProgress_tuned | exact Hs].
Qed.

Lemma CompleteCurrentPlay_tuned s : tuned s -> tuned (CompleteCurrentPlay h s).
Proof.
  intros Hs. unfold CompleteCurrentPlay, MUX_ASSERT.
  assert (H1 : tuned (match m_nowPlaying s with
                      | Some cur => Complete h cur s
                      | None => s
                      end))
    by (destruct (m_nowPlaying s); [apply Complete_tuned; now left | exact Hs]).
  destruct (negb _); exact H1.
Qed.

Lemma Start_tuned this s :
  ranged s -> m_nowPlaying s = Some this ->
  (forall p, plays s !! this = Some p -> m_controller p = None) ->
  tuned (Start h this s).
Proof.
  intros HB Hcur Hfresh.
  destruct (plays s !! this) as [p |] eqn:Hp;
    [| unfold Start; rewrite Hp; split; [| exact HB];
       intros cur q c Hc Hq; congruence].
  pose proof (Hfresh p eq_refl) as Hc.
  destruct (Z.lt_ge_cases (m_playDuration p) ms20) as [Hd | Hd].
  - rewrite (Start_short h this p s Hp Hd), Hc. simpl.
    unfold SetProgress. destruct (IsRS5OrHigher s); cbn [negb].
    + cbv zeta. simpl m_nowPlaying. rewrite Hcur.
      apply Complete_tuned. right. split; [exact Hcur | apply clamp_range_or_NaN].
    + split; [| exact HB]. intros cur q c Hc' Hq Hq'.
      rewrite Hcur in Hc'. injection Hc' as <-. congruence.
  - rewrite (Start_long h this p s Hp Hd), Hc. simpl MUX_ASSERT.
    unfold put_IsPlaying. apply h_tuned.
    destruct (started_fields this p s) as (F1 & _ & _ & _ & _ & F6).
    split.
    + intros cur q c Hc' Hq Hq'. simpl in Hc', Hq. rewrite F1, Hcur in Hc'.
      injection Hc' as <-.
      rewrite (started_plays_this this p s Hp Hc) in Hq. injection Hq as <-.
      simpl in Hq'. injection Hq' as <-. simpl.
      unfold started. destruct (_ || _), (SFltb _ F32.zero), (negb _); reflexivity.
    + unfold ranged, Progress in *. simpl. rewrite F6. exact HB.
Qed.

Lemma PlayAsync_tuned f t l s : tuned s -> tuned (fst (PlayAsync h f t l s)).
Proof.
  intros Hs. unfold PlayAsync.
  destruct (IsRS5OrHigher s) eqn:Hrs; cbn [negb]; [| exact Hs].
  set (s1 := set_m_playAsyncVersion _ s).
  assert (H2 : tuned (Stop h s1)) by (apply Stop_tuned; exact Hs).
  destruct (Nat.eqb _ _); cbn [negb]; [| exact H2].
  apply CompleteCurrentPlay_tuned in H2.
  destruct (adjust_range f t) as [f' t']. cbn [fst].
  match goal with
  | |- context [emit ?e (set_m_nowPlaying ?n (set_plays (_ ++ [?p]) ?x))] =>
    set (s4 := emit e (set_m_nowPlaying n (set_plays (plays x ++ [p]) x)))
  end.
  assert (Hnew : forall p, plays s4 !! length (plays (CompleteCurrentPlay h (Stop h s1)))
                           = Some p -> m_controller p = None).
  { intros p. unfold s4. simpl. rewrite list_lookup_middle by reflexivity.
    now intros [= <-]. }
  destruct (IsAnimatedVisualLoaded s4).
  - apply Start_tuned; [exact (proj2 H2) | reflexivity | exact Hnew].
  - split; [| exact (proj2 H2)].
    intros cur p c Hc Hp Hp'. simpl in Hc. injection Hc as <-.
    rewrite (Hnew p Hp) in Hp'. discriminate.
Qed.

Lemma on_current_tuned f s :
  same_rate f -> tuned s ->
  tuned (match m_nowPlaying s with
         | Some cur => on_play cur f s
         | None => s
         end).
Proof.
  intros Hf Hs. destruct (m_nowPlaying s); [now apply on_play_tuned | exact Hs].
Qed.

Lemma put_PlaybackRate_tuned v s : tuned s -> tuned (put_PlaybackRate v s).
Proof.
  intros [R B]. unfold put_PlaybackRate, OnPlaybackRatePropertyChanged.
  simpl m_nowPlaying. destruct (m_nowPlaying s) as [cur |] eqn:Hcur.
  - split; [| exact B]. intros cur' p c Hc Hp Hp'. simpl in Hc.
    rewrite Hcur in Hc. injection Hc as <-. simpl in Hp.
    rewrite list_lookup_alter_eq in Hp.
    destruct (plays s !! cur) as [q |]; [| discriminate].
    simpl in Hp. injection Hp as <-.
    destruct q as [f t l d up hp [c' |] b tk aw];
      cbn in Hp'; [| discriminate].
    injection Hp' as <-. reflexivity.
  - split; [| exact B]. intros cur p c Hc. simpl in Hc. congruence.
Qed.

Lemma invoke_tuned c s : tuned s -> tuned (invoke h c s).
Proof.
  intros Hs. destruct c; simpl.
  - now apply PlayAsync_tuned.
  - unfold Pause. destruct (IsRS5OrHigher s); cbn [negb]; [| exact Hs].
    now apply on_current_tuned; [apply same_rate_Pause |].
  - unfold Resume. destruct (IsRS5OrHigher s); cbn [negb]; [| exact Hs].
    now apply on_current_tuned; [apply same_rate_Resume |].
  - now apply SetProgress_tuned.
  - now apply Stop_tuned.
  - now apply on_current_tuned; [apply same_rate_OnHiding |].
  - now apply on_current_tuned; [apply same_rate_OnUnhiding |].
  - now apply put_PlaybackRate_tuned.
  - unfold BatchCompleted. destruct (plays s !! play) as [p |]; [| exact Hs].
    destruct (m_batchCompletedToken p); [| exact Hs].
    apply Complete_tuned. now left.
Qed.

Lemma run_tuned caller s : tuned s -> tuned (run h caller s).
Proof.
  revert s. induction caller as [| c next IH]; intros s Hs; simpl.
  - exact Hs.
  - apply IH. now apply invoke_tuned.
Qed.

End Tuned.

Lemma reentrant_tuned (react : Reaction) (depth : nat) :
  forall old new s, tuned s -> tuned (reentrant react depth old new s).
Proof.
  induction depth as [| d IH]; simpl; intros old new s Hs.
  - exact Hs.
  - now apply run_tuned.
Qed.

Lemma loaded_player_tuned d c : tuned (loaded_player d c).
Proof.
  split; [intros cur p k Hc; discriminate |]. right. reflexivity.
Qed.

Lemma playing_from_fifth_sound : sound nothing_pending playing_from_fifth.
Proof.
  apply (PlayAsync_sound no_subscriber no_subscriber_frames).
  - intros old new pending s Hs. exact Hs.
  - apply loaded_player_sound.
Qed.

(** ** What IsPlaying tells *)

(** X1. In every state the player reaches, whatever the callers and the
    re-entrant subscriber do, [IsPlaying] is true exactly when the current
    play has been started and has its animation controller, and the
    animation then bound to [Progress] is the one made for that play: its
    duration, its key frames, its iteration behavior. *)
Theorem IsPlaying_tells_animating (react : Reaction) (depth : nat)
    (caller : Script) (s : AnimatedVisualPlayer) :
  sound nothing_pending s ->
  (IsPlaying (run (reentrant react depth) caller s) = true <->
   exists cur p c,
     m_nowPlaying (run (reentrant react depth) caller s) = Some cur /\
     plays (run (reentrant react depth) caller s) !! cur = Some p /\
     m_controller p = Some c) /\
  (forall cur p c,
     m_nowPlaying (run (reentrant react depth) caller s) = Some cur ->
     plays (run (reentrant react depth) caller s) !! cur = Some p ->
     m_controller p = Some c ->
     ps_Animation (m_progressPropertySet (run (reentrant react depth) caller s))
     = Some (animation_of p)).
Proof.
  intros Hs.
  destruct (run_sound _ (reentrant_frames react depth)
              (reentrant_keeps_sound react depth) _ caller s Hs)
    as (_ & [C1 _ _] & A).
  set (s' := run _ caller s) in *. split.
  - rewrite C1. unfold current_started. split.
    + destruct (m_nowPlaying s') as [cur |] eqn:Hcur; [| discriminate].
      destruct (plays s' !! cur) as [p |] eqn:Hp; [| discriminate].
      destruct (m_controller p) as [c |] eqn:Hc; [| discriminate].
      intros _. now exists cur, p, c.
    + intros (cur & p & c & H1 & H2 & H3). now rewrite H1, H2, H3.
  - intros cur p c Hcur Hp Hc. apply (A cur p Hcur Hp). now rewrite Hc.
Qed.

Lemma IsPlaying_tells_animating_witness :
  sound nothing_pending playing_from_fifth /\
  IsPlaying (run (reentrant restart_when_stopped 2) (calls [CallStop])
               playing_from_fifth) = true /\
  exists cur p c,
    m_nowPlaying (run (reentrant restart_when_stopped 2) (calls [CallStop])
                    playing_from_fifth) = Some cur /\
    plays (run (reentrant restart_when_stopped 2) (calls [CallStop])
             playing_from_fifth) !! cur = Some p /\
    m_controller p = Some c.
Proof.
  split; [exact playing_from_fifth_sound |].
  assert (H : IsPlaying (run (reentrant restart_when_stopped 2)
                           (calls [CallStop]) playing_from_fifth) = true)
    by reflexivity.
  split; [exact H |].
  exact (proj1 (proj1 (IsPlaying_tells_animating restart_when_stopped 2
                         (calls [CallStop]) playing_from_fifth
                         playing_from_fifth_sound)) H).
Defined.

(** ** Natural completion *)

(** X2. In every state the player reaches, only the current play can be
    subscribed to its batch, and it is then a started, non-looping play
    that has not completed. So the batch-completed signal does nothing for
    a play that is not current, and nothing for a looping play, which
    never completes by itself. *)
Theorem batch_signal_only_for_current_play (react : Reaction) (depth : nat)
    (caller : Script) (s : AnimatedVisualPlayer) (h' : Handler) (id : nat) :
  sound nothing_pending s ->
  (forall p,
     plays (run (reentrant react depth) caller s) !! id = Some p ->
     m_batchCompletedToken p = true ->
     m_nowPlaying (run (reentrant react depth) caller s) = Some id /\
     m_looped p = false /\ non_null (m_controller p) = true /\
     awaits_completed p = false) /\
  (m_nowPlaying (run (reentrant react depth) caller s) <> Some id ->
   BatchCompleted h' id (run (reentrant react depth) caller s)
   = run (reentrant react depth) caller s) /\
  (forall p,
     plays (run (reentrant react depth) caller s) !! id = Some p ->
     m_looped p = true ->
     BatchCompleted h' id (run (reentrant react depth) caller s)
     = run (reentrant react depth) caller s).
Proof.
  intros Hs.
  destruct (run_sound _ (reentrant_frames react depth)
              (reentrant_keeps_sound react depth) _ caller s Hs)
    as (I & [_ C2 C3] & _).
  set (s' := run _ caller s) in *.
  assert (Htok : forall p, plays s' !! id = Some p ->
            m_batchCompletedToken p = true ->
            m_nowPlaying s' = Some id /\ m_looped p = false /\
            non_null (m_controller p) = true /\ awaits_completed p = false).
  { intros p Hp Ht. destruct (C2 id p Hp Ht) as (Hb & Ha & _).
    destruct (C3 id p Hp Hb) as (Hl & Hc).
    destruct (inv_single _ _ I id p Hp Ha) as [Hcur | []]. auto. }
  split; [exact Htok |]. split.
  - intros Hne. unfold BatchCompleted.
    destruct (plays s' !! id) as [p |] eqn:Hp; [| reflexivity].
    destruct (m_batchCompletedToken p) eqn:Ht; [| reflexivity].
    destruct (Htok p eq_refl Ht) as (Hcur & _). contradiction.
  - intros p Hp Hl. unfold BatchCompleted. rewrite Hp.
    destruct (m_batchCompletedToken p) eqn:Ht; [| reflexivity].
    destruct (Htok p Hp Ht) as (_ & Hl' & _). congruence.
Qed.

Lemma batch_signal_only_for_current_play_witness :
  sound nothing_pending (loaded_player second F64.zero) /\
  BatchCompleted no_subscriber 0
    (run (reentrant restart_when_stopped 1)
       (calls [CallPlayAsync F64.zero F64.one true]) (loaded_player second F64.zero))
  = run (reentrant restart_when_stopped 1)
      (calls [CallPlayAsync F64.zero F64.one true]) (loaded_player second F64.zero).
Proof.
  split; [apply loaded_player_sound |].
  destruct (batch_signal_only_for_current_play restart_when_stopped 1
              (calls [CallPlayAsync F64.zero F64.one true]) (loaded_player second F64.zero)
              no_subscriber 0 (loaded_player_sound second F64.zero))
    as (_ & _ & H).
  eapply H; [vm_compute; reflexivity | reflexivity].
Defined.

Lemma natural_completion_state cur p s :
  m_nowPlaying s = Some cur -> plays s !! cur = Some p ->
  m_batchCompletedToken p = true ->
  BatchCompleted no_subscriber cur s = Complete no_subscriber cur s.
Proof. intros _ Hp Ht. unfold BatchCompleted. now rewrite Hp, Ht. Qed.

(** X3. When the batch of the current play completes, the play is
    completed without [Progress] being written: no play is current,
    [IsPlaying] is false, the awaiters are released, the subscription is
    dropped, so that a second signal for the same play changes nothing. *)
Theorem natural_completion (cur : nat) (p : AnimationPlay)
    (s : AnimatedVisualPlayer) (h' : Handler) :
  m_nowPlaying s = Some cur ->
  plays s !! cur = Some p ->
  m_batchCompletedToken p = true ->
  m_batch p = true ->
  m_nowPlaying (BatchCompleted no_subscriber cur s) = None /\
  IsPlaying (BatchCompleted no_subscriber cur s) = false /\
  m_progressPropertySet (BatchCompleted no_subscriber cur s)
  = m_progressPropertySet s /\
  plays (BatchCompleted no_subscriber cur s) !! cur
  = Some (set_awaits_completed true (set_m_batchCompletedToken false p)) /\
  BatchCompleted h' cur (BatchCompleted no_subscriber cur s)
  = BatchCompleted no_subscriber cur s.
Proof.
  intros Hcur Hp Ht Hb.
  rewrite (natural_completion_state cur p s Hcur Hp Ht).
  rewrite (Complete_current_no_subscriber cur s Hcur).
  assert (Hq : plays
                 (emit (EvCompleteAwaits cur)
                    (on_play cur (set_awaits_completed true)
                       (emit (EvIsPlaying false)
                          (set_IsPlaying false
                             (set_m_nowPlaying None
                                (on_play cur
                                   (fun p => if m_batch p
                                             then set_m_batchCompletedToken
                                                    false p
                                             else p) s)))))) !! cur
               = Some (set_awaits_completed true
                         (set_m_batchCompletedToken false p))).
  { simpl. rewrite !list_lookup_alter_eq, Hp. simpl. now rewrite Hb. }
  repeat split; try exact Hq.
  unfold BatchCompleted at 1. rewrite Hq. reflexivity.
Qed.

Lemma natural_completion_witness :
  m_nowPlaying playing_from_fifth = Some 0%nat /\
  (m_batchCompletedToken <$> plays playing_from_fifth) = [true] /\
  IsPlaying (BatchCompleted no_subscriber 0 playing_from_fifth) = false /\
  BatchCompleted restart_when_stopped_once 0
    (BatchCompleted no_subscriber 0 playing_from_fifth)
  = BatchCompleted no_subscriber 0 playing_from_fifth.
Proof.
  split; [reflexivity |]. split; [reflexivity |].
  destruct (natural_completion 0
              (started_play F64.one
                 (AnimationPlay_new second
                    (static_cast_float (F64.ratio 2 10))
                    (static_cast_float (F64.ratio 8 10)) false))
              playing_from_fifth restart_when_stopped_once
              eq_refl eq_refl eq_refl eq_refl) as (_ & HI & _ & _ & HB).
  split; [exact HI | exact HB].
Defined.

(** ** Completing twice *)

Lemma alter_fixed {A : Type} (f : A -> A) (l : list A) (i : nat) :
  (forall x, l !! i = Some x -> f x = x) -> alter f i l = l.
Proof.
  revert i. induction l as [| a l IH]; intros [| i] Hf; simpl;
    try reflexivity.
  - f_equal. now apply Hf.
  - f_equal. apply IH. exact Hf.
Qed.

Lemma on_play_fixed this f s :
  (forall p, plays s !! this = Some p -> f p = p) -> on_play this f s = s.
Proof.
  intros Hf. unfold on_play. rewrite (alter_fixed f _ _ Hf).
  now destruct s.
Qed.

Lemma Complete_no_subscriber_result this s :
  m_nowPlaying (Complete no_subscriber this s) <> Some this /\
  forall p, plays (Complete no_subscriber this s) !! this = Some p ->
    awaits_completed p = true /\
    (m_batch p = true -> m_batchCompletedToken p = false).
Proof.
  unfold Complete, CompleteAwaits, put_IsPlaying, no_subscriber.
  set (s0 := on_play this _ s). split.
  - destruct (IsCurrentPlay this s0) eqn:Hc; simpl; [discriminate |].
    intros Hcur. apply IsCurrentPlay_true in Hcur.
    change (IsCurrentPlay this s0 = true) in Hcur. congruence.
  - intros p.
    assert (Hpl : plays (if IsCurrentPlay this s0
                         then emit (EvIsPlaying false)
                                (set_IsPlaying false (set_m_nowPlaying None s0))
                         else s0) = plays s0)
      by now destruct (IsCurrentPlay this s0).
    simpl. rewrite Hpl. unfold s0. simpl.
    rewrite !list_lookup_alter_eq.
    destruct (plays s !! this) as [q |]; simpl; [| discriminate].
    intros [= <-]. split; [reflexivity |].
    destruct (m_batch q) eqn:Hb; simpl; [reflexivity |].
    intros Hb'. congruence.
Qed.

(** X4. [Complete] may be called again on a play it has completed: the
    second call only releases the awaiters once more, and leaves the
    player as the first call left it. *)
Theorem Complete_twice (this : nat) (s : AnimatedVisualPlayer) :
  Complete no_subscriber this (Complete no_subscriber this s)
  = emit (EvCompleteAwaits this) (Complete no_subscriber this s).
Proof.
  destruct (Complete_no_subscriber_result this s) as [Hcur Hp].
  set (c1 := Complete no_subscriber this s) in *.
  unfold Complete at 1.
  assert (H0 : on_play this
                 (fun p => if m_batch p
                           then set_m_batchCompletedToken false p else p) c1
               = c1).
  { apply on_play_fixed. intros p Hq. destruct (Hp p Hq) as [_ Ht].
    destruct (m_batch p); [| reflexivity].
    destruct p. simpl in *. now rewrite Ht. }
  rewrite H0.
  assert (Hn : IsCurrentPlay this c1 = false).
  { destruct (IsCurrentPlay this c1) eqn:Hc; [| reflexivity].
    apply IsCurrentPlay_true in Hc. contradiction. }
  rewrite Hn. unfold CompleteAwaits. f_equal.
  apply on_play_fixed. intros p Hq. destruct (Hp p Hq) as [Ha _].
  destruct p. simpl in *. now rewrite Ha.
Qed.

(** ** Requests when nobody calls back *)

Lemma Stop_no_subscriber s :
  m_playAsyncVersion (Stop no_subscriber s) = m_playAsyncVersion s /\
  length (plays (Stop no_subscriber s)) = length (plays s) /\
  Duration (Stop no_subscriber s) = Duration s /\
  PlaybackRate (Stop no_subscriber s) = PlaybackRate s /\
  IsAnimatedVisualLoaded (Stop no_subscriber s) = IsAnimatedVisualLoaded s /\
  IsRS5OrHigher (Stop no_subscriber s) = IsRS5OrHigher s /\
  (IsRS5OrHigher s = true -> m_nowPlaying (Stop no_subscriber s) = None) /\
  (m_nowPlaying s = None -> Stop no_subscriber s = s).
Proof.
  unfold Stop. destruct (IsRS5OrHigher s) eqn:Hrs; cbn [negb].
  - destruct (m_nowPlaying s) as [cur |] eqn:Hcur; cbn [non_null].
    + rewrite SetProgress_supported by exact Hrs. cbv zeta. rewrite Hcur.
      rewrite Complete_current_no_subscriber by exact Hcur.
      simpl. rewrite !length_alter. repeat split; try assumption.
      discriminate.
    + repeat split; auto.
  - repeat split; auto. discriminate.
Qed.

Lemma PlayAsync_no_subscriber f t l s :
  IsRS5OrHigher s = true ->
  PlayAsync no_subscriber f t l s
  = (let s4 := install (requested_play (Duration s) f t l)
                 (after_Stop no_subscriber s) in
     if IsAnimatedVisualLoaded s
     then Start no_subscriber (length (plays s)) s4 else s4,
     AwaitingPlay (length (plays s))).
Proof.
  intros Hrs. unfold PlayAsync. rewrite Hrs. cbn [negb].
  fold (after_Stop no_subscriber s).
  destruct (Stop_no_subscriber
              (set_m_playAsyncVersion (S (m_playAsyncVersion s)) s))
    as (Hv & Hl & Hd & _ & Hld & _ & Hn & _).
  fold (after_Stop no_subscriber s) in Hv, Hl, Hd, Hld, Hn.
  simpl in Hv, Hl, Hd, Hld. specialize (Hn Hrs).
  rewrite Hv, Nat.eqb_refl. cbn [negb].
  rewrite (CompleteCurrentPlay_idle _ _ Hn).
  unfold requested_play, adjust_then_clamp, install.
  destruct (adjust_range f t) as [f' t']. cbv zeta. simpl fst. simpl snd.
  cbn [IsAnimatedVisualLoaded emit set_m_nowPlaying set_plays].
  rewrite Hl, Hd, Hld. reflexivity.
Qed.

Lemma after_Stop_no_subscriber_quiet s :
  invariant nothing_pending s -> IsRS5OrHigher s = true ->
  IsPlaying (after_Stop no_subscriber s) = false /\
  forall cur p, m_nowPlaying s = Some cur -> plays s !! cur = Some p ->
    exists q, plays (after_Stop no_subscriber s) !! cur = Some q /\
              awaits_completed q = true.
Proof.
  intros I Hrs. unfold after_Stop, Stop. simpl IsRS5OrHigher. rewrite Hrs.
  cbn [negb]. simpl m_nowPlaying.
  destruct (m_nowPlaying s) as [cur |] eqn:Hcur; cbn [non_null].
  - rewrite SetProgress_supported by exact Hrs. cbv zeta.
    simpl m_nowPlaying. rewrite Hcur.
    rewrite Complete_current_no_subscriber by exact Hcur.
    split; [reflexivity |]. intros cur' p [= <-] Hp. simpl.
    rewrite !list_lookup_alter_eq, Hp. simpl. eexists. split; reflexivity.
  - split; [| discriminate]. simpl.
    destruct (IsPlaying s) eqn:Hp; [| reflexivity].
    now destruct (inv_playing _ _ I Hp).
Qed.

(** A request on a player with no visual loaded. *)
Lemma PlayAsync_before_content (f t : double) (l : bool)
    (s : AnimatedVisualPlayer) :
  IsRS5OrHigher s = true ->
  IsAnimatedVisualLoaded s = false ->
  invariant nothing_pending s ->
  snd (PlayAsync no_subscriber f t l s) = AwaitingPlay (length (plays s)) /\
  m_nowPlaying (fst (PlayAsync no_subscriber f t l s))
  = Some (length (plays s)) /\
  plays (fst (PlayAsync no_subscriber f t l s)) !! length (plays s)
  = Some (requested_play (Duration s) f t l) /\
  IsPlaying (fst (PlayAsync no_subscriber f t l s)) = false /\
  (forall cur p, m_nowPlaying s = Some cur -> plays s !! cur = Some p ->
     exists q,
       plays (fst (PlayAsync no_subscriber f t l s)) !! cur = Some q /\
       awaits_completed q = true).
Proof.
  intros Hrs Hld I. rewrite (PlayAsync_no_subscriber f t l s Hrs), Hld.
  cbv zeta. cbn [fst snd].
  destruct (Stop_no_subscriber
              (set_m_playAsyncVersion (S (m_playAsyncVersion s)) s))
    as (_ & Hl & _).
  fold (after_Stop no_subscriber s) in Hl. simpl in Hl.
  destruct (after_Stop_no_subscriber_quiet s I Hrs) as (HP & HC).
  unfold install. simpl. rewrite Hl.
  split; [reflexivity |]. split; [reflexivity |].
  split; [apply list_lookup_middle; now rewrite Hl |].
  split; [exact HP |].
  intros cur p Hcur Hp. destruct (HC cur p Hcur Hp) as (q & Hq & Ha).
  exists q. split; [now apply lookup_app_l_Some | exact Ha].
Qed.


(** X5. A play requested while no visual is loaded is installed as the
    current play but not started: it has no controller and has not
    completed, [IsPlaying] is false, and the action returned waits for it.
    Its duration was computed from the [Duration] the player had at the
    request. The play that was current before has been completed. *)
Theorem request_before_content (f t : double) (l : bool)
    (s : AnimatedVisualPlayer) :
  IsRS5OrHigher s = true ->
  IsAnimatedVisualLoaded s = false ->
  invariant nothing_pending s ->
  snd (PlayAsync no_subscriber f t l s) = AwaitingPlay (length (plays s)) /\
  m_nowPlaying (fst (PlayAsync no_subscriber f t l s))
  = Some (length (plays s)) /\
  plays (fst (PlayAsync no_subscriber f t l s)) !! length (plays s)
  = Some (requested_play (Duration s) f t l) /\
  IsPlaying (fst (PlayAsync no_subscriber f t l s)) = false /\
  (forall cur p, m_nowPlaying s = Some cur -> plays s !! cur = Some p ->
     exists q,
       plays (fst (PlayAsync no_subscriber f t l s)) !! cur = Some q /\
       awaits_completed q = true).
Proof. exact (PlayAsync_before_content f t l s). Qed.

Lemma request_before_content_witness :
  IsRS5OrHigher empty_player = true /\
  IsAnimatedVisualLoaded empty_player = false /\
  invariant nothing_pending empty_player /\
  plays (fst (PlayAsync no_subscriber (F64.ratio 2 10) (F64.ratio 8 10) false empty_player))
    !! 0%nat
  = Some (requested_play 0%Z (F64.ratio 2 10) (F64.ratio 8 10) false) /\
  IsPlaying (fst (PlayAsync no_subscriber (F64.ratio 2 10) (F64.ratio 8 10) false empty_player))
  = false.
Proof.
  assert (I : invariant nothing_pending empty_player).
  { constructor; simpl; try discriminate.
    - intros id [].
    - apply not_elem_of_nil. }
  split; [reflexivity |]. split; [reflexivity |]. split; [exact I |].
  destruct (request_before_content (F64.ratio 2 10) (F64.ratio 8 10) false empty_player
              eq_refl eq_refl I) as (_ & _ & HP & HI & _).
  split; [exact HP | exact HI].
Defined.

Lemma paused_and_hidden_flags :
  (m_isPaused <$> plays paused_and_hidden) = [true] /\
  (m_isPausedBecauseHidden <$> plays paused_and_hidden) = [true].
Proof. split; reflexivity. Qed.

(** X6. Pause state belongs to a play, not to the player: whatever the
    state of the player, also when the play in progress is paused by the
    user and by hiding, the play a new request constructs is neither, and
    if it is started its controller runs. *)
Theorem new_play_not_paused (f t : double) (l : bool)
    (s : AnimatedVisualPlayer) :
  IsRS5OrHigher s = true ->
  exists p,
    plays (fst (PlayAsync no_subscriber f t l s)) !! length (plays s) = Some p
    /\ m_isPaused p = false /\ m_isPausedBecauseHidden p = false /\
    (forall c, m_controller p = Some c -> ac_IsPaused c = false).
Proof.
  intros Hrs. rewrite (PlayAsync_no_subscriber f t l s Hrs). cbv zeta. cbn [fst].
  destruct (Stop_no_subscriber
              (set_m_playAsyncVersion (S (m_playAsyncVersion s)) s))
    as (_ & Hl & _ & _ & _ & Hrs' & _).
  fold (after_Stop no_subscriber s) in Hl, Hrs'. simpl in Hl, Hrs'.
  set (p0 := requested_play (Duration s) f t l).
  set (s4 := install p0 (after_Stop no_subscriber s)).
  assert (Hp0 : plays s4 !! length (plays s) = Some p0)
    by (unfold s4, install; simpl; apply list_lookup_middle; now rewrite Hl).
  assert (Hcur : m_nowPlaying s4 = Some (length (plays s)))
    by (unfold s4, install; simpl; now rewrite Hl).
  assert (Hrs4 : IsRS5OrHigher s4 = true)
    by (unfold s4, install; simpl; now rewrite Hrs').
  assert (Hf : m_isPaused p0 = false /\ m_isPausedBecauseHidden p0 = false /\
               m_controller p0 = None) by (repeat split).
  destruct Hf as (Hf1 & Hf2 & Hf3). clearbody s4 p0.
  destruct (IsAnimatedVisualLoaded s).
  - destruct (Z.lt_ge_cases (m_playDuration p0) ms20) as [Hd | Hd].
    + rewrite (Start_short _ _ p0 s4 Hp0 Hd), Hf3. simpl MUX_ASSERT.
      rewrite SetProgress_supported by exact Hrs4. cbv zeta. rewrite Hcur.
      rewrite Complete_current_no_subscriber by exact Hcur.
      simpl. rewrite !list_lookup_alter_eq, Hp0. simpl.
      eexists. split; [reflexivity |].
      destruct (m_batch p0); simpl; rewrite Hf1, Hf2, Hf3;
        (split; [reflexivity |]); (split; [reflexivity |]); discriminate.
    + rewrite (Start_long _ _ p0 s4 Hp0 Hd), Hf3. simpl MUX_ASSERT.
      unfold put_IsPlaying, no_subscriber. simpl plays.
      rewrite (started_plays_this _ p0 s4 Hp0 Hf3).
      eexists. split; [reflexivity |]. simpl. rewrite Hf1, Hf2.
      split; [reflexivity |]. split; [reflexivity |].
      intros c [= <-]. reflexivity.
  - exists p0. split; [exact Hp0 |]. split; [exact Hf1 |].
    split; [exact Hf2 |]. intros c Hc. congruence.
Qed.

Lemma new_play_not_paused_witness :
  IsRS5OrHigher paused_and_hidden = true /\
  (m_isPaused <$> plays paused_and_hidden) = [true] /\
  (m_isPausedBecauseHidden <$> plays paused_and_hidden) = [true] /\
  exists p,
    plays (fst (PlayAsync no_subscriber F64.zero F64.one false
               paused_and_hidden)) !! 1%nat
    = Some p /\
    forall c, m_controller p = Some c -> ac_IsPaused c = false.
Proof.
  split; [reflexivity |]. split; [reflexivity |]. split; [reflexivity |].
  destruct (new_play_not_paused F64.zero F64.one false paused_and_hidden
              eq_refl)
    as (p & Hp & _ & _ & Hc).
  exists p. split; [exact Hp | exact Hc].
Defined.

(** ** The playback rate and the range of Progress *)

(** X7. In every state the player reaches, the controller of the current
    play runs at the player's [PlaybackRate]: [Start] takes the rate from
    the property, and a later change of the property reaches the
    controller. *)
Theorem controller_runs_at_PlaybackRate (react : Reaction) (depth : nat)
    (caller : Script) (s : AnimatedVisualPlayer) (cur : nat)
    (p : AnimationPlay) (c : AnimationController) :
  tuned s ->
  m_nowPlaying (run (reentrant react depth) caller s) = Some cur ->
  plays (run (reentrant react depth) caller s) !! cur = Some p ->
  m_controller p = Some c ->
  ac_PlaybackRate c
  = static_cast_float (PlaybackRate (run (reentrant react depth) caller s)).
Proof.
  intros Hs. apply (run_tuned _ (reentrant_tuned react depth) caller s Hs).
Qed.

Lemma controller_runs_at_PlaybackRate_witness :
  tuned (loaded_player second F64.zero) /\
  PlaybackRate
    (run no_subscriber
       (calls [CallPlayAsync F64.zero F64.one true; CallPlaybackRate (F64.opp (F64.ratio 3 2))])
       (loaded_player second F64.zero)) = F64.opp (F64.ratio 3 2) /\
  forall p c,
    plays (run no_subscriber
             (calls [CallPlayAsync F64.zero F64.one true; CallPlaybackRate (F64.opp (F64.ratio 3 2))])
             (loaded_player second F64.zero)) !! 0%nat = Some p ->
    m_controller p = Some c ->
    ac_PlaybackRate c = static_cast_float (F64.opp (F64.ratio 3 2)).
Proof.
  split; [apply loaded_player_tuned |]. split; [reflexivity |].
  intros p c Hp Hc.
  exact (controller_runs_at_PlaybackRate restart_when_stopped 0
           (calls [CallPlayAsync F64.zero F64.one true; CallPlaybackRate (F64.opp (F64.ratio 3 2))])
           (loaded_player second F64.zero) 0 p c
           (loaded_player_tuned second F64.zero) eq_refl Hp Hc).
Defined.

(** X8. [Progress] holds a clamped value in every state the player
    reaches: a number in [0,1], or the NaN that [std::clamp] passes
    through when a caller hands one to [SetProgress] or [PlayAsync]. *)
Theorem Progress_in_range_or_NaN (react : Reaction) (depth : nat)
    (caller : Script) (s : AnimatedVisualPlayer) :
  tuned s ->
  Progress (run (reentrant react depth) caller s) = NaN \/
  in_unit_range (Progress (run (reentrant react depth) caller s)) = true.
Proof.
  intros Hs.
  exact (proj2 (run_tuned _ (reentrant_tuned react depth) caller s Hs)).
Qed.

Lemma Progress_in_range_or_NaN_witness :
  tuned (loaded_player second F64.zero) /\
  (Progress (run (reentrant restart_when_stopped 2)
               (calls [CallPlayAsync F64.zero F64.one false;
                       CallSetProgress (F64.of_Z 7);
                       CallSetProgress (F64.of_Z (-3))])
               (loaded_player second F64.zero)) = NaN \/
   in_unit_range
     (Progress (run (reentrant restart_when_stopped 2)
                  (calls [CallPlayAsync F64.zero F64.one false;
                          CallSetProgress (F64.of_Z 7);
                          CallSetProgress (F64.of_Z (-3))])
                  (loaded_player second F64.zero))) = true).
Proof.
  split; [apply loaded_player_tuned |].
  exact (Progress_in_range_or_NaN restart_when_stopped 2
           (calls [CallPlayAsync F64.zero F64.one false;
                   CallSetProgress (F64.of_Z 7);
                   CallSetProgress (F64.of_Z (-3))])
           (loaded_player second F64.zero)
           (loaded_player_tuned second F64.zero)).
Defined.

(** ** Writing and reading [Progress] *)

(** X26. A [float] in [0,1] handed to [SetProgress] is read back from
    [Progress] unchanged: the promotion to the [double] parameter, the
    narrowing and the clamping return the value. A [double] is read back
    as the [float] nearest to it: after [SetProgress(0.1)], [Progress] is
    [13421773 * 2^-27]. *)
Theorem SetProgress_reads_back (x : float) (s : AnimatedVisualPlayer) :
  IsRS5OrHigher s = true ->
  invariant nothing_pending s ->
  F32.valid x = true ->
  in_unit_range x = true ->
  Progress (SetProgress no_subscriber (promote_double x) s) = x /\
  Progress (SetProgress no_subscriber (F64.ratio 1 10) s)
  = S754_finite false 13421773 (-27).
Proof.
  intros Hrs Hinv Hv Hr.
  destruct (SetProgress_no_subscriber (promote_double x) s Hrs Hinv)
    as (H1 & _).
  destruct (SetProgress_no_subscriber (F64.ratio 1 10) s Hrs Hinv)
    as (H2 & _).
  unfold Progress. rewrite H1, H2. cbn [ps_Progress].
  rewrite (static_cast_float_promote x Hv), (clamp_in_range x Hr).
  split; [reflexivity | vm_compute; reflexivity].
Qed.

Lemma SetProgress_reads_back_witness :
  Progress
    (SetProgress no_subscriber
       (promote_double (static_cast_float (F64.ratio 1 10))) looping_player)
  = static_cast_float (F64.ratio 1 10).
Proof.
  exact (proj1 (SetProgress_reads_back (static_cast_float (F64.ratio 1 10))
                  looping_player eq_refl looping_player_invariant
                  eq_refl eq_refl)).
Defined.
(** * Layout *)

(** [std::min] returns neither more than its first argument nor more
    than its second. *)
Lemma min_float_not_above_l (a b : float) : SFltb a (min_float a b) = false.
Proof.
  unfold min_float. destruct (SFltb b a) eqn:E.
  - now apply SFltb_asym.
  - apply SFltb_irrefl.
Qed.

Lemma min_float_not_above_r (a b : float) : SFltb b (min_float a b) = false.
Proof.
  unfold min_float. destruct (SFltb b a) eqn:E.
  - apply SFltb_irrefl.
  - exact E.
Qed.

Lemma is_infinity_Infinity : is_infinity Infinity = true.
Proof. reflexivity. Qed.

(** What [MeasureOverride] comes to when a visual is shown. *)
Lemma MeasureOverride_visual c availableSize :
  shows_visual c ->
  MeasureOverride c availableSize =
    let size := m_animatedVisualSize c in
    match Stretch c with
    | Stretch_None =>
        mkSize (min_float (f2_x size) (Width availableSize))
               (min_float (f2_y size) (Height availableSize))
    | Stretch_Fill =>
        if is_finite (Width availableSize)
           && is_finite (Height availableSize)
        then availableSize
        else measure_uniform size availableSize
    | Stretch_UniformToFill =>
        if is_finite (Width availableSize)
           && is_finite (Height availableSize)
        then
          let widthScale := F32.div (Width availableSize) (f2_x size) in
          let heightScale := F32.div (Height availableSize) (f2_y size) in
          let measuredSize :=
            if SFltb heightScale widthScale
            then mkSize (Width availableSize)
                        (F32.mul (f2_y size) widthScale)
            else mkSize (F32.mul (f2_x size) heightScale)
                        (Height availableSize) in
          mkSize (min_float (Width measuredSize) (Width availableSize))
                 (min_float (Height measuredSize) (Height availableSize))
        else measure_uniform size availableSize
    | Stretch_Uniform => measure_uniform size availableSize
    end.
Proof.
  intros (Hfb & Hroot & Hz). unfold MeasureOverride.
  rewrite Hfb, Hroot, Hz. reflexivity.
Qed.

(** The uniform scaling fills one of the two dimensions. *)
Lemma measure_uniform_fills (size : float2) (availableSize : Size) :
  Width (measure_uniform size availableSize) = Width availableSize \/
  Height (measure_uniform size availableSize) = Height availableSize.
Proof.
  unfold measure_uniform. cbv zeta.
  destruct (SFltb _ _); [left | right]; reflexivity.
Qed.

(** ** Measuring *)



(** X11. Measured with no bound on either dimension, a shown visual
    with a stretch other than [None] asks for an infinite size in one
    dimension: the dimension the uniform scaling fills is the infinite
    one it was given. A visual of 0.5 by 0.25 asks for an infinite size
    in both. *)
Theorem measure_unbounded_is_infinite (c : Control) :
  shows_visual c ->
  Stretch c <> Stretch_None ->
  (Width (MeasureOverride c (mkSize Infinity Infinity)) = Infinity \/
   Height (MeasureOverride c (mkSize Infinity Infinity)) = Infinity) /\
  MeasureOverride
    (showing Stretch_Uniform
       (mkFloat2 (F32.div F32.one F32.two) (F32.div F32.one (F32.of_Z 4))))
    (mkSize Infinity Infinity)
  = mkSize Infinity Infinity.
Proof.
  intros Hc Hs. split; [| vm_compute; reflexivity].
  rewrite (MeasureOverride_visual _ _ Hc). cbv zeta.
  cbn [Width Height]. rewrite is_infinity_Infinity || idtac.
  pose proof (measure_uniform_fills (m_animatedVisualSize c)
                (mkSize Infinity Infinity)) as H.
  assert (Hf : is_finite Infinity = false) by reflexivity.
  destruct (Stretch c); [congruence | | |]; rewrite ?Hf; exact H.
Qed.

Lemma measure_unbounded_is_infinite_witness :
  (Width (MeasureOverride
            (showing Stretch_Fill (mkFloat2 (F32.of_Z 200) (F32.of_Z 100)))
            (mkSize Infinity Infinity)) = Infinity \/
   Height (MeasureOverride
             (showing Stretch_Fill (mkFloat2 (F32.of_Z 200) (F32.of_Z 100)))
             (mkSize Infinity Infinity)) = Infinity) /\
  MeasureOverride
    (showing Stretch_Fill (mkFloat2 (F32.of_Z 200) (F32.of_Z 100)))
    (mkSize Infinity Infinity)
  = mkSize Infinity (S754_finite false 8388608 104).
Proof.
  split; [| vm_compute; reflexivity].
  apply (measure_unbounded_is_infinite
           (showing Stretch_Fill (mkFloat2 (F32.of_Z 200) (F32.of_Z 100)))
           (conj eq_refl (conj eq_refl eq_refl))).
  discriminate.
Defined.

(** X13. With [Stretch::None], [Fill] or [UniformToFill] and a finite
    available size, the measured size of a shown visual is in neither
    dimension greater than the available size. [Fill] returns the
    available size itself, and [None] is in neither dimension greater
    than the visual. [UniformToFill] need not return the available size:
    a visual of 97 by 97 measured in 100 by 100 is 99.9999924 wide
    (13107199 * 2^-17). *)
Theorem measure_within_available (c : Control) (availableSize : Size) :
  shows_visual c ->
  Stretch c <> Stretch_Uniform ->
  is_finite (Width availableSize) = true ->
  is_finite (Height availableSize) = true ->
  (SFltb (Width availableSize) (Width (MeasureOverride c availableSize))
   = false /\
   SFltb (Height availableSize) (Height (MeasureOverride c availableSize))
   = false) /\
  (Stretch c = Stretch_Fill ->
   MeasureOverride c availableSize = availableSize) /\
  (Stretch c = Stretch_None ->
   SFltb (f2_x (m_animatedVisualSize c))
     (Width (MeasureOverride c availableSize)) = false /\
   SFltb (f2_y (m_animatedVisualSize c))
     (Height (MeasureOverride c availableSize)) = false) /\
  MeasureOverride
    (showing Stretch_UniformToFill (mkFloat2 (F32.of_Z 97) (F32.of_Z 97)))
    (mkSize (F32.of_Z 100) (F32.of_Z 100))
  = mkSize (S754_finite false 13107199 (-17)) (F32.of_Z 100).
Proof.
  intros Hc Hs Hw Hh.
  rewrite (MeasureOverride_visual _ _ Hc). cbv zeta. rewrite Hw, Hh.
  cbn [andb].
  split; [| split; [| split]].
  - destruct (Stretch c); [| | congruence |]; cbn [Width Height].
    + split; apply min_float_not_above_r.
    + split; apply SFltb_irrefl.
    + split; apply min_float_not_above_r.
  - intros E. rewrite E. reflexivity.
  - intros E. rewrite E. cbn [Width Height].
    split; apply min_float_not_above_l.
  - vm_compute. reflexivity.
Qed.

Lemma measure_within_available_witness :
  MeasureOverride
    (showing Stretch_Fill (mkFloat2 (F32.of_Z 200) (F32.of_Z 100)))
    (mkSize (F32.of_Z 300) (F32.of_Z 300))
  = mkSize (F32.of_Z 300) (F32.of_Z 300).
Proof.
  assert (Hs : Stretch
                 (showing Stretch_Fill
                    (mkFloat2 (F32.of_Z 200) (F32.of_Z 100)))
               <> Stretch_Uniform) by discriminate.
  exact (proj1 (proj2 (measure_within_available
           (showing Stretch_Fill (mkFloat2 (F32.of_Z 200) (F32.of_Z 100)))
           (mkSize (F32.of_Z 300) (F32.of_Z 300))
           (conj eq_refl (conj eq_refl eq_refl)) Hs eq_refl eq_refl))
         eq_refl).
Defined.

(** ** Arranging *)

(** What [ArrangeOverride] comes to when a visual is shown and scaled. *)
Lemma ArrangeOverride_scaled c finalSize :
  shows_visual c ->
  Stretch c <> Stretch_None ->
  let size := m_animatedVisualSize c in
  let scale :=
    arrange_scale (Stretch c)
      (mkFloat2 (F32.div (Width finalSize) (f2_x size))
                (F32.div (Height finalSize) (f2_y size))) in
  snd (ArrangeOverride c finalSize) = finalSize /\
  sv_Scale (m_rootVisual (fst (ArrangeOverride c finalSize))) = scale /\
  sv_ClipOffset (m_rootVisual (fst (ArrangeOverride c finalSize)))
  = match Stretch c with
    | Stretch_UniformToFill =>
        mkFloat2
          (F32.opp
             (F32.div
                (F32.div (F32.sub (Width finalSize)
                            (F32.mul (f2_x size) (f2_x scale))) F32.two)
                (f2_x scale)))
          (F32.opp
             (F32.div
                (F32.div (F32.sub (Height finalSize)
                            (F32.mul (f2_y size) (f2_y scale))) F32.two)
                (f2_y scale)))
    | _ => float2_zero
    end.
Proof.
  intros (Hfb & Hroot & _) Hs. cbv zeta. unfold ArrangeOverride.
  rewrite Hfb, Hroot. cbn [negb].
  destruct (Stretch c); [congruence | | |]; repeat split.
Qed.

(** X14. Arranged with [Stretch::Uniform] or [Stretch::UniformToFill],
    a shown visual gets the same scale in both dimensions, so it keeps
    its aspect ratio. The scale is one of the two ratios of the final
    size to the size of the visual: with [Uniform] neither ratio is
    smaller than the scale, with [UniformToFill] neither is greater. The
    clip is moved for [UniformToFill] only, and [finalSize] is returned. *)
Theorem arrange_keeps_aspect_ratio (c : Control) (finalSize : Size) :
  shows_visual c ->
  Stretch c = Stretch_Uniform \/ Stretch c = Stretch_UniformToFill ->
  let widthRatio := F32.div (Width finalSize) (f2_x (m_animatedVisualSize c)) in
  let heightRatio :=
    F32.div (Height finalSize) (f2_y (m_animatedVisualSize c)) in
  let scale := sv_Scale (m_rootVisual (fst (ArrangeOverride c finalSize))) in
  snd (ArrangeOverride c finalSize) = finalSize /\
  f2_x scale = f2_y scale /\
  (f2_x scale = widthRatio \/ f2_x scale = heightRatio) /\
  (Stretch c = Stretch_Uniform ->
   SFltb widthRatio (f2_x scale) = false /\
   SFltb heightRatio (f2_x scale) = false /\
   sv_ClipOffset (m_rootVisual (fst (ArrangeOverride c finalSize)))
   = float2_zero) /\
  (Stretch c = Stretch_UniformToFill ->
   SFltb (f2_x scale) widthRatio = false /\
   SFltb (f2_x scale) heightRatio = false).
Proof.
  intros Hc Hs. cbv zeta.
  assert (Hn : Stretch c <> Stretch_None) by (destruct Hs; congruence).
  destruct (ArrangeOverride_scaled c finalSize Hc Hn) as (E1 & E2 & E3).
  rewrite E2, E3. clear E2 E3. split; [exact E1 |].
  set (rx := F32.div (Width finalSize) _).
  set (ry := F32.div (Height finalSize) _).
  destruct Hs as [Hs | Hs]; rewrite Hs; unfold arrange_scale;
    cbn [f2_x f2_y].
  - destruct (SFltb rx ry) eqn:E; cbn [f2_x f2_y].
    + split; [reflexivity |]. split; [now left |].
      split; [| discriminate]. intros _.
      split; [apply SFltb_irrefl |]. split; [now apply SFltb_asym |].
      reflexivity.
    + split; [reflexivity |]. split; [now right |].
      split; [| discriminate]. intros _.
      split; [exact E |]. split; [apply SFltb_irrefl | reflexivity].
  - destruct (SFltb ry rx) eqn:E; cbn [f2_x f2_y].
    + split; [reflexivity |]. split; [now left |].
      split; [discriminate |]. intros _.
      split; [apply SFltb_irrefl | now apply SFltb_asym].
    + split; [reflexivity |]. split; [now right |].
      split; [discriminate |]. intros _.
      split; [exact E | apply SFltb_irrefl].
Qed.

Lemma arrange_keeps_aspect_ratio_witness :
  f2_x (sv_Scale
          (m_rootVisual
             (fst (ArrangeOverride
                     (showing Stretch_Uniform
                        (mkFloat2 (F32.of_Z 200) (F32.of_Z 100)))
                     (mkSize (F32.of_Z 300) (F32.of_Z 300))))))
  = f2_y (sv_Scale
            (m_rootVisual
               (fst (ArrangeOverride
                       (showing Stretch_Uniform
                          (mkFloat2 (F32.of_Z 200) (F32.of_Z 100)))
                       (mkSize (F32.of_Z 300) (F32.of_Z 300)))))) /\
  sv_Scale
    (m_rootVisual
       (fst (ArrangeOverride
               (showing Stretch_Uniform
                  (mkFloat2 (F32.of_Z 200) (F32.of_Z 100)))
               (mkSize (F32.of_Z 300) (F32.of_Z 300)))))
  = mkFloat2 (F32.div (F32.of_Z 3) F32.two) (F32.div (F32.of_Z 3) F32.two) /\
  sv_Offset
    (m_rootVisual
       (fst (ArrangeOverride
               (showing Stretch_Uniform
                  (mkFloat2 (F32.of_Z 200) (F32.of_Z 100)))
               (mkSize (F32.of_Z 300) (F32.of_Z 300)))))
  = mkFloat2 F32.zero (F32.of_Z 75).
Proof.
  split; [| split; vm_compute; reflexivity].
  exact (proj1 (proj2 (arrange_keeps_aspect_ratio
                (showing Stretch_Uniform
                   (mkFloat2 (F32.of_Z 200) (F32.of_Z 100)))
                (mkSize (F32.of_Z 300) (F32.of_Z 300))
                (conj eq_refl (conj eq_refl eq_refl)) (or_introl eq_refl)))).
Defined.

(** [ArrangeOverride] only touches the root visual. *)
Lemma ArrangeOverride_frame c finalSize :
  exists r,
    fst (ArrangeOverride c finalSize) = with_m_rootVisual r c /\
    sv_Children r = sv_Children (m_rootVisual c).
Proof.
  unfold ArrangeOverride.
  destruct (if m_isFallenBack c then Children c else []).
  2: { exists (m_rootVisual c). split; [| reflexivity]. now destruct c. }
  destruct (negb (non_null (m_animatedVisualRoot c))).
  - eexists. split; reflexivity.
  - destruct (Stretch c); eexists; split; reflexivity.
Qed.

(** X17. With [Stretch::None] a shown visual is arranged unscaled at
    the smaller of its size and the final size, and is not positioned:
    after an arrangement with whatever stretch, once [Stretch] is set to
    [None] the next arrangement leaves the offset of the visual and the
    offset of its clip where the earlier one put them. *)
Theorem arrange_None_keeps_offsets (c : Control) (before finalSize : Size) :
  shows_visual c ->
  ArrangeOverride
    (put_Stretch Stretch_None (fst (ArrangeOverride c before))) finalSize =
  (with_m_rootVisual
     (mkSpriteVisual
        (sv_Children (m_rootVisual c))
        (sv_Offset (m_rootVisual (fst (ArrangeOverride c before))))
        (sv_ClipOffset (m_rootVisual (fst (ArrangeOverride c before))))
        (mkFloat2
           (min_float (Width finalSize) (f2_x (m_animatedVisualSize c)))
           (min_float (Height finalSize) (f2_y (m_animatedVisualSize c))))
        (mkFloat2 F32.one F32.one))
     (put_Stretch Stretch_None (fst (ArrangeOverride c before))),
   finalSize).
Proof.
  intros (Hfb & Hroot & _).
  destruct (ArrangeOverride_frame c before) as (r & -> & Hr).
  unfold ArrangeOverride at 1. cbn -[F32.one F32.zero min_float].
  rewrite Hfb, Hroot. cbn -[F32.one F32.zero min_float].
  unfold with_sv_Scale, with_sv_Size. cbn -[F32.one F32.zero min_float].
  now rewrite Hr.
Qed.

Lemma arrange_None_keeps_offsets_witness :
  sv_Offset
    (m_rootVisual
       (fst (ArrangeOverride
               (put_Stretch Stretch_None
                  (fst (ArrangeOverride
                          (showing Stretch_Uniform
                             (mkFloat2 (F32.of_Z 200) (F32.of_Z 100)))
                          (mkSize (F32.of_Z 300) (F32.of_Z 300)))))
               (mkSize (F32.of_Z 300) (F32.of_Z 300))))) =
  sv_Offset
    (m_rootVisual
       (fst (ArrangeOverride
               (showing Stretch_Uniform
                  (mkFloat2 (F32.of_Z 200) (F32.of_Z 100)))
               (mkSize (F32.of_Z 300) (F32.of_Z 300))))).
Proof.
  rewrite (arrange_None_keeps_offsets
             (showing Stretch_Uniform
                (mkFloat2 (F32.of_Z 200) (F32.of_Z 100)))
             (mkSize (F32.of_Z 300) (F32.of_Z 300))
             (mkSize (F32.of_Z 300) (F32.of_Z 300))).
  - reflexivity.
  - repeat split.
Defined.

(** * Visibility *)

Lemma Play_OnHiding_twice p : Play.OnHiding (Play.OnHiding p) = Play.OnHiding p.
Proof.
  unfold Play.OnHiding.
  destruct p as [f t l d up [|] [k |] b tk aw]; cbn; try reflexivity;
    destruct up; reflexivity.
Qed.

Lemma Play_OnUnhiding_OnHiding p :
  pause_rule p -> m_isPausedBecauseHidden p = false ->
  Play.OnUnhiding (Play.OnHiding p) = p.
Proof.
  intros Hrule Hh. unfold Play.OnHiding, Play.OnUnhiding.
  destruct p as [f t l d up hp [[paused rate progress] |] b tk aw];
    cbn in Hh; subst hp; cbn; [| reflexivity].
  specialize (Hrule _ eq_refl). cbn in Hrule. subst paused.
  destruct up; reflexivity.
Qed.

Lemma alter_alter {A : Type} (f g : A -> A) (l : list A) (i : nat) :
  alter f i (alter g i l) = alter (fun x => f (g x)) i l.
Proof.
  revert i. induction l as [| x l IH]; intros [| i]; cbn; try reflexivity.
  f_equal. apply IH.
Qed.

Lemma on_play_on_play this f g s :
  on_play this f (on_play this g s) = on_play this (fun p => f (g p)) s.
Proof. unfold on_play. cbn. now rewrite alter_alter. Qed.

(** X19. Hiding and suspending pause the current play and the first
    unhiding undoes them: when the window is hidden, the application
    suspended and then resumed with the window visible, or when the
    window is hidden and shown again, the player is exactly as before,
    provided the play was not hidden to begin with. Resuming while the
    window is still invisible changes nothing. *)
Theorem hidden_then_shown (s : AnimatedVisualPlayer) :
  ruled s ->
  (forall cur p, m_nowPlaying s = Some cur -> plays s !! cur = Some p ->
     m_isPausedBecauseHidden p = false) ->
  VisibilityChanged true (VisibilityChanged false s) = s /\
  Resuming true (Suspending (VisibilityChanged false s)) = s /\
  Resuming false (Suspending (VisibilityChanged false s))
    = VisibilityChanged false s.
Proof.
  intros Hr Hh.
  unfold VisibilityChanged, Resuming, Suspending, OnHiding, OnUnhiding.
  destruct (m_nowPlaying s) as [cur |] eqn:Hcur; cbn; rewrite ?Hcur;
    [| repeat split].
  assert (Hback : on_play cur
                    (fun p => Play.OnUnhiding (Play.OnHiding p)) s = s).
  { apply on_play_fixed. intros p Hp.
    apply Play_OnUnhiding_OnHiding; [exact (Hr _ _ Hp) | exact (Hh _ _ eq_refl Hp)]. }
  assert (Htwice : on_play cur Play.OnHiding (on_play cur Play.OnHiding s)
                   = on_play cur Play.OnHiding s).
  { rewrite on_play_on_play. unfold on_play. f_equal.
    apply list_alter_ext; [| reflexivity ..].
    intros p _. apply Play_OnHiding_twice. }
  assert (Hn : forall f t, m_nowPlaying (on_play cur f t) = m_nowPlaying t)
    by reflexivity.
  rewrite Htwice, Hn, Hcur, on_play_on_play, Hback.
  repeat split.
Qed.

Lemma hidden_then_shown_witness :
  VisibilityChanged true (VisibilityChanged false playing_from_fifth)
    = playing_from_fifth /\
  Resuming true (Suspending (VisibilityChanged false playing_from_fifth))
    = playing_from_fifth /\
  Resuming false (Suspending (VisibilityChanged false playing_from_fifth))
    = VisibilityChanged false playing_from_fifth.
Proof.
  apply (hidden_then_shown playing_from_fifth).
  - intros id p Hp c Hc. vm_compute in Hp.
    destruct id as [| id]; [| discriminate].
    injection Hp as <-. injection Hc as <-. reflexivity.
  - intros cur p Hcur Hp. vm_compute in Hcur. injection Hcur as <-.
    vm_compute in Hp. injection Hp as <-. reflexivity.
Defined.

(** * Content *)

(** ** What the player never does to its environment *)

Lemma calm_refl s : calm s s.
Proof. repeat split. now left. Qed.

Lemma calm_trans s1 s2 s3 : calm s1 s2 -> calm s2 s3 -> calm s1 s3.
Proof.
  intros (R1 & D1 & L1 & P1) (R2 & D2 & L2 & P2).
  repeat split; try congruence.
  intros H3. destruct (P2 H3) as [H2 | H2].
  - exact (P1 H2).
  - right. congruence.
Qed.

Lemma calm_same s s' :
  IsRS5OrHigher s' = IsRS5OrHigher s ->
  Duration s' = Duration s ->
  IsAnimatedVisualLoaded s' = IsAnimatedVisualLoaded s ->
  IsPlaying s' = IsPlaying s ->
  calm s s'.
Proof. intros R D L P. repeat split; try assumption. left. congruence. Qed.

Lemma on_play_calm this f s : calm s (on_play this f s).
Proof. now apply calm_same. Qed.

Lemma Complete_calm this s : calm s (Complete no_subscriber this s).
Proof.
  unfold Complete, CompleteAwaits, put_IsPlaying, no_subscriber.
  destruct (IsCurrentPlay _ _); cbn.
  - repeat split. discriminate.
  - now apply calm_same.
Qed.

Lemma SetProgress_calm v s : calm s (SetProgress no_subscriber v s).
Proof.
  unfold SetProgress. destruct (IsRS5OrHigher s); cbn [negb];
    [| apply calm_refl].
  cbv zeta.
  match goal with |- context [emit ?e ?x] =>
    apply (calm_trans s (emit e x)); [now apply calm_same |] end.
  destruct (m_nowPlaying _); [apply Complete_calm | apply calm_refl].
Qed.

Lemma Stop_calm s : calm s (Stop no_subscriber s).
Proof.
  unfold Stop. destruct (IsRS5OrHigher s); cbn [negb]; [| apply calm_refl].
  destruct (non_null _); [apply SetProgress_calm | apply calm_refl].
Qed.

Lemma MUX_ASSERT_calm b s : calm s (MUX_ASSERT b s).
Proof. unfold MUX_ASSERT. destruct b; now apply calm_same. Qed.

Lemma CompleteCurrentPlay_calm s :
  calm s (CompleteCurrentPlay no_subscriber s).
Proof.
  unfold CompleteCurrentPlay.
  destruct (m_nowPlaying s) as [cur |].
  - eapply calm_trans; [apply Complete_calm | apply MUX_ASSERT_calm].
  - apply MUX_ASSERT_calm.
Qed.

Lemma started_calm this p s : calm s (started this p s).
Proof.
  destruct (started_fields this p s) as (_ & HP & _).
  apply calm_same; try assumption; unfold started;
    destruct (m_isPaused p || m_isPausedBecauseHidden p), (SFltb _ F32.zero),
      (negb (m_looped p)); reflexivity.
Qed.

Lemma Start_calm this s :
  IsAnimatedVisualLoaded s = true -> calm s (Start no_subscriber this s).
Proof.
  intros Hl.
  destruct (plays s !! this) as [p |] eqn:Hp;
    [| unfold Start; rewrite Hp; apply calm_refl].
  destruct (Z.lt_ge_cases (m_playDuration p) ms20) as [Hd | Hd].
  - rewrite (Start_short _ this p s Hp Hd).
    eapply calm_trans; [apply MUX_ASSERT_calm | apply SetProgress_calm].
  - rewrite (Start_long _ this p s Hp Hd).
    unfold put_IsPlaying, no_subscriber.
    eapply calm_trans; [apply MUX_ASSERT_calm |].
    eapply calm_trans; [apply started_calm |].
    repeat split. intros _. right.
    destruct (started_calm this p
                (MUX_ASSERT (negb (non_null (m_controller p))) s))
      as (_ & _ & L & _).
    destruct (MUX_ASSERT_calm (negb (non_null (m_controller p))) s)
      as (_ & _ & L' & _).
    congruence.
Qed.

Lemma PlayAsync_calm f t l s :
  calm s (fst (PlayAsync no_subscriber f t l s)).
Proof.
  destruct (IsRS5OrHigher s) eqn:Hrs.
  2: { unfold PlayAsync. rewrite Hrs. apply calm_refl. }
  rewrite (PlayAsync_no_subscriber f t l s Hrs). cbv zeta. cbn [fst].
  assert (H1 : calm s (after_Stop no_subscriber s)).
  { unfold after_Stop. eapply calm_trans; [| apply Stop_calm].
    now apply calm_same. }
  assert (H2 : calm s (install (requested_play (Duration s) f t l)
                         (after_Stop no_subscriber s))).
  { eapply calm_trans; [exact H1 |]. now apply calm_same. }
  destruct (IsAnimatedVisualLoaded s) eqn:Hl; [| exact H2].
  eapply calm_trans; [exact H2 |]. apply Start_calm.
  destruct H2 as (_ & _ & L & _). congruence.
Qed.

Lemma invoke_calm call s : calm s (invoke no_subscriber call s).
Proof.
  destruct call; cbn [invoke].
  - apply PlayAsync_calm.
  - unfold Pause. destruct (negb _); [apply calm_refl |].
    destruct (m_nowPlaying s); [apply on_play_calm | apply calm_refl].
  - unfold Resume. destruct (negb _); [apply calm_refl |].
    destruct (m_nowPlaying s); [apply on_play_calm | apply calm_refl].
  - apply SetProgress_calm.
  - apply Stop_calm.
  - unfold OnHiding.
    destruct (m_nowPlaying s); [apply on_play_calm | apply calm_refl].
  - unfold OnUnhiding.
    destruct (m_nowPlaying s); [apply on_play_calm | apply calm_refl].
  - unfold put_PlaybackRate, OnPlaybackRatePropertyChanged.
    cbn [m_nowPlaying set_PlaybackRate].
    destruct (m_nowPlaying s); now apply calm_same.
  - unfold BatchCompleted. destruct (plays s !! play) as [p |];
      [| apply calm_refl].
    destruct (m_batchCompletedToken p); [apply Complete_calm | apply calm_refl].
Qed.

Lemma no_subscriber_keeps_sound : keeps_sound no_subscriber.
Proof. intros old new pending s Hs. exact Hs. Qed.

Lemma environment_sound pending s s' :
  plays s' = plays s -> m_nowPlaying s' = m_nowPlaying s ->
  IsPlaying s' = IsPlaying s -> trace s' = trace s ->
  m_progressPropertySet s' = m_progressPropertySet s ->
  sound pending s -> sound pending s'.
Proof.
  intros Hp Hn Hi Ht Hs ([I1 I2 I3 I4 I5] & [C1 C2 C3] & A).
  split; [| split].
  - constructor; rewrite ?Hp, ?Hn, ?Hi, ?Ht; assumption.
  - constructor; rewrite ?Hp; try assumption.
    rewrite Hi, C1. unfold current_started. now rewrite Hp, Hn.
  - unfold animated. rewrite Hp, Hn, Hs. exact A.
Qed.

(** ** Unloading and loading *)

Lemma settled_on_core f c :
  settled c ->
  sound nothing_pending (f (core c)) ->
  calm (core c) (f (core c)) ->
  settled (on_core f c).
Proof.
  intros [S1 S2 S3 S4 S5 S6 S7 S8] Hs (R & D & L & P).
  constructor; cbn; try assumption; try congruence.
  - intros root Hroot. destruct (S4 root Hroot) as (av & H).
    exists av. rewrite D. exact H.
  - intros Hroot. destruct (S5 Hroot) as (H1 & H2 & H3).
    rewrite D. repeat split; try assumption.
    destruct (IsPlaying (f (core c))) eqn:E; [| reflexivity].
    rewrite Hroot in S3. cbn in S3.
    destruct (P eq_refl); congruence.
Qed.

Lemma UnloadContent_nothing h c :
  m_animatedVisualRoot c = None -> UnloadContent h c = c.
Proof.
  intros Hroot. unfold UnloadContent. rewrite Hroot.
  now destruct (negb _).
Qed.

Lemma UnloadContent_loaded h c root animatedVisual :
  IsRS5OrHigher (core c) = true ->
  m_animatedVisualRoot c = Some root ->
  m_animatedVisual c = Some animatedVisual ->
  UnloadContent h c =
    mkControl
      (set_IsAnimatedVisualLoaded false (set_Duration 0%Z (Stop h (core c))))
      (m_isUnloaded c) (m_isFallenBack c) None None (m_animatedVisualSize c)
      (with_sv_Children [] (m_rootVisual c))
      (m_dynamicAnimatedVisualInvalidatedToken c) (Source c) (AutoPlay c)
      (FallbackContent c) (Stretch c) None (Children c)
      (ElementChildVisual c) (Background c) (bound c)
      (animatedVisual :: closed c) (S (measure_invalidations c)).
Proof.
  intros Hrs Hroot Hav. unfold UnloadContent. rewrite Hrs, Hroot. cbn.
  rewrite Hav. reflexivity.
Qed.

Lemma Stop_no_subscriber_sound s :
  sound nothing_pending s -> sound nothing_pending (Stop no_subscriber s).
Proof.
  apply Stop_sound;
    first [apply no_subscriber_frames | apply no_subscriber_keeps_sound].
Qed.

(** [UnloadContent] with nobody subscribed to [IsPlaying]. *)
Lemma UnloadContent_settled c :
  settled c ->
  settled (UnloadContent no_subscriber c) /\
  m_animatedVisualRoot (UnloadContent no_subscriber c) = None /\
  (m_animatedVisualRoot c <> None ->
   m_nowPlaying (core (UnloadContent no_subscriber c)) = None) /\
  Source (UnloadContent no_subscriber c) = Source c /\
  AutoPlay (UnloadContent no_subscriber c) = AutoPlay c /\
  m_isUnloaded (UnloadContent no_subscriber c) = m_isUnloaded c.
Proof.
  intros Hc. pose proof Hc as [S1 S2 S3 S4 S5 S6 S7 S8].
  destruct (m_animatedVisualRoot c) as [root |] eqn:Hroot.
  2: { rewrite (UnloadContent_nothing _ _ Hroot).
       split; [exact Hc |]. split; [exact Hroot |].
       split; [intros H; now destruct H |]. repeat split. }
  destruct (S4 root eq_refl) as (av & Hav & _).
  rewrite (UnloadContent_loaded _ c root av S1 Hroot Hav).
  destruct (Stop_no_subscriber (core c))
    as (_ & _ & _ & _ & _ & Hrs & Hnone & _).
  specialize (Hnone S1).
  pose proof (Stop_no_subscriber_sound _ S2) as Hsound.
  assert (Hplaying : IsPlaying (Stop no_subscriber (core c)) = false).
  { destruct Hsound as (I & _).
    destruct (IsPlaying (Stop no_subscriber (core c))) eqn:E;
      [| reflexivity].
    now destruct (inv_playing _ _ I E). }
  split; [| split; [reflexivity | split; [intros _; exact Hnone |]];
              repeat split].
  constructor; cbn.
  - congruence.
  - eapply environment_sound; [.. | exact Hsound]; reflexivity.
  - reflexivity.
  - discriminate.
  - intros _. split; [reflexivity |]. split; [reflexivity | exact Hplaying].
  - reflexivity.
  - exact S7.
  - exact S8.
Qed.

Lemma UpdateContent_no_source h c :
  Source (UnloadContent h c) = None ->
  UpdateContent h c = UnloadContent h c.
Proof. intros Hs. unfold UpdateContent. now rewrite Hs. Qed.

Lemma UpdateContent_failed h c source diagnostics :
  Source (UnloadContent h c) = Some source ->
  TryCreateAnimatedVisual source = (None, diagnostics) ->
  UpdateContent h c =
    on_core (CompleteCurrentPlay h)
      (if negb (m_isFallenBack (UnloadContent h c))
       then LoadFallbackContent
              (with_m_isFallenBack true
                 (put_Diagnostics diagnostics
                    (with_m_animatedVisual None (UnloadContent h c))))
       else put_Diagnostics diagnostics
              (with_m_animatedVisual None (UnloadContent h c))).
Proof.
  intros Hs Ht. unfold UpdateContent. rewrite Hs, Ht. reflexivity.
Qed.

Lemma UpdateContent_empty h c source animatedVisual diagnostics :
  Source (UnloadContent h c) = Some source ->
  TryCreateAnimatedVisual source = (Some animatedVisual, diagnostics) ->
  negb (non_null (av_RootVisual animatedVisual))
    || float2_eqb (av_Size animatedVisual) float2_zero = true ->
  UpdateContent h c =
    put_Diagnostics diagnostics
      (with_m_animatedVisual (Some animatedVisual) (UnloadContent h c)).
Proof.
  intros Hs Ht He. unfold UpdateContent. rewrite Hs, Ht, He. reflexivity.
Qed.

Lemma UpdateContent_created h c source animatedVisual diagnostics :
  Source (UnloadContent h c) = Some source ->
  TryCreateAnimatedVisual source = (Some animatedVisual, diagnostics) ->
  negb (non_null (av_RootVisual animatedVisual))
    || float2_eqb (av_Size animatedVisual) float2_zero = false ->
  UpdateContent h c =
    match m_nowPlaying (core (UnloadContent h c)) with
    | Some nowPlaying =>
        on_core (Start h nowPlaying)
          (hooked_up animatedVisual
             (put_Diagnostics diagnostics
                (with_m_animatedVisual (Some animatedVisual)
                   (UnloadContent h c))))
    | None =>
        if AutoPlay (UnloadContent h c)
        then play_all_looped h
               (hooked_up animatedVisual
                  (put_Diagnostics diagnostics
                     (with_m_animatedVisual (Some animatedVisual)
                        (UnloadContent h c))))
        else hooked_up animatedVisual
               (put_Diagnostics diagnostics
                  (with_m_animatedVisual (Some animatedVisual)
                     (UnloadContent h c)))
    end.
Proof.
  intros Hs Ht He. unfold UpdateContent. rewrite Hs, Ht, He.
  set (c1 := UnloadContent h c). cbv zeta.
  destruct (m_isFallenBack c1) eqn:Hfb; unfold hooked_up; cbn;
    rewrite Hfb; cbn; destruct (m_nowPlaying (core c1)); reflexivity.
Qed.

Lemma settled_candidate v diagnostics c :
  settled c -> m_animatedVisualRoot c = None ->
  settled (put_Diagnostics diagnostics (with_m_animatedVisual v c)).
Proof.
  intros [S1 S2 S3 S4 S5 S6 S7 S8] Hroot.
  constructor; cbn; try assumption.
  intros root Hr. congruence.
Qed.

Lemma hooked_up_core animatedVisual c :
  core (hooked_up animatedVisual c) =
  set_IsAnimatedVisualLoaded true
    (set_Duration (av_Duration animatedVisual) (core c)).
Proof. unfold hooked_up. destruct (m_isFallenBack c); reflexivity. Qed.

Lemma hooked_up_settled animatedVisual root c :
  settled c -> m_animatedVisualRoot c = None ->
  m_animatedVisual c = Some animatedVisual ->
  av_RootVisual animatedVisual = Some root ->
  float2_eqb (av_Size animatedVisual) float2_zero = false ->
  settled (hooked_up animatedVisual c) /\
  m_animatedVisualRoot (hooked_up animatedVisual c) = Some root /\
  m_isFallenBack (hooked_up animatedVisual c) = false.
Proof.
  intros [S1 S2 S3 S4 S5 S6 S7 S8] Hroot Hav Hr Hne.
  destruct (S5 Hroot) as (_ & Hch & _).
  assert (Hcore : sound nothing_pending
                    (set_IsAnimatedVisualLoaded true
                       (set_Duration (av_Duration animatedVisual) (core c))))
    by (eapply environment_sound; [.. | exact S2]; reflexivity).
  unfold hooked_up.
  destruct (m_isFallenBack c) eqn:Hfb; cbn; rewrite Hr, Hch; cbn;
    (split; [| split; [reflexivity | first [reflexivity | exact Hfb]]]);
    (constructor; cbn; try assumption; try reflexivity;
     try discriminate).
  - intros r [= <-]. exists animatedVisual.
    repeat split; try assumption. apply list_elem_of_here.
  - intros r [= <-]. exists animatedVisual.
    repeat split; try assumption. apply list_elem_of_here.
  - congruence.
Qed.

Lemma CompleteCurrentPlay_no_subscriber s :
  CompleteCurrentPlay no_subscriber s =
  match m_nowPlaying s with
  | Some cur => Complete no_subscriber cur s
  | None => s
  end /\
  m_nowPlaying (CompleteCurrentPlay no_subscriber s) = None.
Proof.
  unfold CompleteCurrentPlay.
  destruct (m_nowPlaying s) as [cur |] eqn:Hcur.
  - rewrite (Complete_current_no_subscriber cur s Hcur). cbn. split; reflexivity.
  - rewrite Hcur. cbn. split; [reflexivity | exact Hcur].
Qed.

Lemma CompleteCurrentPlay_no_subscriber_sound s :
  sound nothing_pending s ->
  sound nothing_pending (CompleteCurrentPlay no_subscriber s).
Proof.
  intros (I & C & A).
  destruct (CompleteCurrentPlay_no_subscriber s) as [-> _].
  destruct (m_nowPlaying s) as [cur |] eqn:Hcur;
    [| exact (conj I (conj C A))].
  apply Complete_sound;
    first [apply no_subscriber_frames | apply no_subscriber_keeps_sound
          | assumption | now right].
Qed.

Lemma not_playing_fresh pending s cur p :
  coherent pending s -> IsPlaying s = false ->
  m_nowPlaying s = Some cur -> plays s !! cur = Some p ->
  m_controller p = None.
Proof.
  intros [C1 _ _] Hp Hcur Hl. rewrite Hp in C1.
  unfold current_started in C1. rewrite Hcur, Hl in C1.
  destruct (m_controller p); [discriminate | reflexivity].
Qed.

Lemma fall_back_settled c :
  settled c -> m_animatedVisualRoot c = None ->
  settled (LoadFallbackContent (with_m_isFallenBack true c)).
Proof.
  intros [S1 S2 S3 S4 S5 S6 S7 S8] Hroot.
  unfold LoadFallbackContent, SetFallbackContent. cbn.
  destruct (FallbackContent c) eqn:Hf; constructor; cbn;
    rewrite ?Hf; try assumption; try reflexivity; intros _; exact Hroot.
Qed.

Lemma non_empty_root animatedVisual :
  negb (non_null (av_RootVisual animatedVisual))
    || float2_eqb (av_Size animatedVisual) float2_zero = false ->
  exists root, av_RootVisual animatedVisual = Some root /\
               float2_eqb (av_Size animatedVisual) float2_zero = false.
Proof.
  intros H. apply orb_false_iff in H as [H1 H2].
  destruct (av_RootVisual animatedVisual) as [root |]; [| discriminate].
  now exists root.
Qed.

Lemma play_all_looped_settled c :
  settled c -> settled (play_all_looped no_subscriber c).
Proof.
  intros Hc. apply settled_on_core; [exact Hc | | apply PlayAsync_calm].
  apply PlayAsync_sound;
    first [apply no_subscriber_frames | apply no_subscriber_keeps_sound
          | apply (st_core _ Hc)].
Qed.

Lemma UpdateContent_settled c :
  settled c -> settled (UpdateContent no_subscriber c).
Proof.
  intros Hc.
  destruct (UnloadContent_settled c Hc) as (H1 & Hroot1 & _).
  set (c1 := UnloadContent no_subscriber c) in *.
  destruct (Source c1) as [source |] eqn:Hsrc;
    [| rewrite (UpdateContent_no_source _ _ Hsrc); exact H1].
  destruct (TryCreateAnimatedVisual source) as [[av |] diag] eqn:Ht.
  - destruct (negb (non_null (av_RootVisual av))
              || float2_eqb (av_Size av) float2_zero) eqn:He.
    + rewrite (UpdateContent_empty _ _ _ _ _ Hsrc Ht He).
      now apply settled_candidate.
    + rewrite (UpdateContent_created _ _ _ _ _ Hsrc Ht He). fold c1.
      destruct (non_empty_root _ He) as (root & Hr & Hne).
      set (c2 := put_Diagnostics diag (with_m_animatedVisual (Some av) c1)).
      assert (H2 : settled c2) by now apply settled_candidate.
      destruct (hooked_up_settled av root c2 H2 Hroot1 eq_refl Hr Hne)
        as (H5 & _ & _).
      destruct (m_nowPlaying (core c1)) as [cur |] eqn:Hcur.
      * apply settled_on_core; [exact H5 | |].
        -- apply Start_sound;
             try first [apply no_subscriber_frames
                       | apply no_subscriber_keeps_sound
                       | apply (st_core _ H5)].
           ++ rewrite hooked_up_core. exact Hcur.
           ++ intros p. rewrite hooked_up_core. cbn. intros Hp.
              destruct (st_core _ H1) as (_ & C & _).
              destruct (st_empty _ H1 Hroot1) as (_ & _ & Hnp).
              exact (not_playing_fresh _ _ _ _ C Hnp Hcur Hp).
        -- apply Start_calm. rewrite hooked_up_core. reflexivity.
      * destruct (AutoPlay c1); [| exact H5].
        now apply play_all_looped_settled.
  - rewrite (UpdateContent_failed _ _ _ _ Hsrc Ht). fold c1.
    apply settled_on_core; [| | apply CompleteCurrentPlay_calm].
    + destruct (m_isFallenBack c1); cbn [negb].
      * now apply settled_candidate.
      * apply fall_back_settled; [now apply settled_candidate | exact Hroot1].
    + apply CompleteCurrentPlay_no_subscriber_sound.
      destruct (m_isFallenBack c1); cbn [negb].
      * apply (st_core _ (settled_candidate None diag c1 H1 Hroot1)).
      * apply (st_core _ (fall_back_settled _
                            (settled_candidate None diag c1 H1 Hroot1)
                            Hroot1)).
Qed.

(** ** The host's calls keep the element settled *)

Lemma settled_frame c c' :
  core c' = core c ->
  m_animatedVisualRoot c' = m_animatedVisualRoot c ->
  m_animatedVisual c' = m_animatedVisual c ->
  m_animatedVisualSize c' = m_animatedVisualSize c ->
  sv_Children (m_rootVisual c') = sv_Children (m_rootVisual c) ->
  bound c' = bound c ->
  m_isFallenBack c' = m_isFallenBack c ->
  Children c' = Children c ->
  FallbackContent c' = FallbackContent c ->
  m_dynamicAnimatedVisualInvalidatedToken c'
    = m_dynamicAnimatedVisualInvalidatedToken c ->
  Source c' = Source c ->
  settled c -> settled c'.
Proof.
  intros E1 E2 E3 E4 E5 E6 E7 E8 E9 E10 E11 [S1 S2 S3 S4 S5 S6 S7 S8].
  constructor; unfold fallback_children;
    rewrite ?E1, ?E2, ?E3, ?E4, ?E5, ?E6, ?E7, ?E8, ?E9, ?E10, ?E11;
    assumption.
Qed.

Ltac framed c H := apply (settled_frame c); [reflexivity .. | exact H].

Lemma source_changed_settled value c :
  settled c -> settled (put_Source no_subscriber value c).
Proof.
  intros Hc.
  set (cA := with_m_dynamicAnimatedVisualInvalidatedToken
               (match value with
                | Some source => is_dynamic source
                | None => false
                end) (with_Source value c)).
  assert (HA : settled cA).
  { destruct Hc as [S1 S2 S3 S4 S5 S6 S7 S8].
    constructor; cbn; assumption || reflexivity. }
  assert (HB : settled (on_core (CompleteCurrentPlay no_subscriber) cA)).
  { apply settled_on_core; [exact HA | | apply CompleteCurrentPlay_calm].
    apply CompleteCurrentPlay_no_subscriber_sound, (st_core _ HA). }
  assert (E : put_Source no_subscriber value c
              = UpdateContent no_subscriber
                  (on_core (CompleteCurrentPlay no_subscriber) cA)).
  { unfold put_Source, OnSourcePropertyChanged. cbn. f_equal.
    pose proof (st_token _ Hc) as Ht. unfold cA.
    destruct (Source c) as [old |]; destruct value as [new |]; cbn;
      try destruct (is_dynamic old) eqn:Eo;
      try destruct (is_dynamic new) eqn:En; cbn;
      unfold on_core, with_core,
        with_m_dynamicAnimatedVisualInvalidatedToken; cbn;
      try rewrite Ht; reflexivity. }
  rewrite E. now apply UpdateContent_settled.
Qed.

Lemma host_invoke_settled call c :
  settled c -> settled (host_invoke no_subscriber call c).
Proof.
  intros Hc. destruct call; cbn [host_invoke].
  - now apply source_changed_settled.
  - unfold put_AutoPlay, OnAutoPlayPropertyChanged.
    destruct (Bool.eqb _ _); [exact Hc |].
    assert (H1 : settled (with_AutoPlay value c)) by framed c Hc.
    destruct (_ && _); [now apply play_all_looped_settled | exact H1].
  - unfold put_FallbackContent, OnFallbackContentPropertyChanged.
    cbn [m_isFallenBack with_FallbackContent].
    destruct (m_isFallenBack c) eqn:Hfb.
    + unfold LoadFallbackContent, SetFallbackContent. cbn. rewrite Hfb. cbn.
      destruct Hc as [S1 S2 S3 S4 S5 S6 S7 S8].
      destruct value; constructor; cbn; rewrite ?Hfb;
        try first [assumption | intros _; now apply S6 | reflexivity];
        unfold fallback_children; cbn; now rewrite Hfb.
    + destruct Hc as [S1 S2 S3 S4 S5 S6 S7 S8].
      constructor; cbn; try assumption.
      unfold fallback_children in *. cbn. now rewrite Hfb in *.
  - framed c Hc.
  - unfold OnLoaded. cbn [m_isUnloaded with_Background with_ElementChildVisual].
    assert (H1 : settled (with_Background true
                            (with_ElementChildVisual true c)))
      by framed c Hc.
    destruct (m_isUnloaded c); [| exact H1].
    apply UpdateContent_settled in H1.
    match type of H1 with settled ?x => framed x H1 end.
  - unfold OnUnloaded.
    assert (H1 : settled (with_m_isUnloaded true c)) by framed c Hc.
    now apply UnloadContent_settled in H1 as [H1 _].
  - unfold AnimatedVisualInvalidated.
    destruct (Source c) as [source |] eqn:Hsrc; [| exact Hc].
    destruct (is_dynamic source && _) eqn:Hd; [| exact Hc].
    apply andb_true_iff in Hd as [_ Htok].
    apply UpdateContent_settled.
    destruct Hc as [S1 S2 S3 S4 S5 S6 S7 S8].
    constructor; cbn; assumption.
  - destruct (ArrangeOverride_frame c finalSize) as (r & -> & Hr).
    eapply settled_frame; [.. | exact Hc]; try reflexivity. exact Hr.
  - apply settled_on_core; [exact Hc | | apply invoke_calm].
    apply invoke_sound;
      first [apply no_subscriber_frames | apply no_subscriber_keeps_sound
            | apply (st_core _ Hc)].
Qed.

Lemma host_run_settled calls c :
  settled c -> settled (host_run no_subscriber calls c).
Proof.
  revert c. induction calls as [| call calls IH]; intros c Hc; [exact Hc |].
  apply IH. now apply host_invoke_settled.
Qed.

Lemma constructed_settled autoPlay stretch playbackRate fromProgress0 :
  settled (constructed true autoPlay stretch playbackRate fromProgress0).
Proof.
  constructor; cbn; try reflexivity; try discriminate.
  - split; [| split].
    + constructor; cbn; try discriminate.
      * intros id [].
      * apply not_elem_of_nil.
    + constructor; cbn; try reflexivity; intros id p Hp; discriminate.
    + intros cur p Hcur. discriminate.
  - intros _. repeat split.
Qed.

(** X20. Whatever the host does to an element whose property changes
    call no user code back (setting [Source], [AutoPlay],
    [FallbackContent] or [Stretch], loading and unloading it,
    invalidating a dynamic source, arranging it, calling the player), the
    element stays settled. Nobody is subscribed to [IsPlaying], and
    subscribers to [Duration], [Diagnostics] and [IsAnimatedVisualLoaded]
    are not part of the model. Settled means:
    a hooked-up visual is the root of the animated visual held and the
    only child of the root visual, with [Duration] its duration;
    [IsAnimatedVisualLoaded] tells whether one is hooked up; fallback
    content is shown exactly while fallen back and never beside a visual.
    In particular no assertion fails, nothing plays while no visual is
    loaded, and [Duration] is zero then. *)
Theorem element_stays_settled (calls : list HostCall) (c : Control) :
  settled c ->
  settled (host_run no_subscriber calls c) /\
  (EvAssertFailed ∉ trace (core (host_run no_subscriber calls c))) /\
  (IsAnimatedVisualLoaded (core (host_run no_subscriber calls c)) = false ->
   IsPlaying (core (host_run no_subscriber calls c)) = false /\
   Duration (core (host_run no_subscriber calls c)) = 0%Z /\
   sv_Children (m_rootVisual (host_run no_subscriber calls c)) = []).
Proof.
  intros Hc. pose proof (host_run_settled calls c Hc) as H.
  split; [exact H |]. split.
  - destruct (st_core _ H) as (I & _). exact (inv_asserts _ _ I).
  - intros Hl. rewrite (st_loaded _ H) in Hl.
    destruct (m_animatedVisualRoot _) eqn:Hroot; [discriminate |].
    destruct (st_empty _ H Hroot) as (H1 & H2 & H3). auto.
Qed.

Lemma element_stays_settled_witness :
  settled
    (host_run no_subscriber
       [HostSource (Some static_source); HostUnloaded;
        HostPlayer (CallPlayAsync F64.zero F64.one false); HostLoaded]
       fresh_element) /\
  (EvAssertFailed ∉
     trace (core (host_run no_subscriber
                    [HostSource (Some static_source); HostUnloaded;
                     HostPlayer (CallPlayAsync F64.zero F64.one false); HostLoaded]
                    fresh_element))).
Proof.
  destruct (element_stays_settled
              [HostSource (Some static_source); HostUnloaded;
               HostPlayer (CallPlayAsync F64.zero F64.one false); HostLoaded]
              fresh_element
              (constructed_settled true Stretch_Uniform F64.one F64.zero))
    as (H1 & H2 & _).
  exact (conj H1 H2).
Defined.

Lemma playing_element_settled : settled playing_element.
Proof. apply host_run_settled, constructed_settled. Qed.

Lemma Stop_no_subscriber_completes s :
  IsRS5OrHigher s = true ->
  m_nowPlaying (Stop no_subscriber s) = None /\
  (forall cur p, m_nowPlaying s = Some cur -> plays s !! cur = Some p ->
     exists q, plays (Stop no_subscriber s) !! cur = Some q /\
               awaits_completed q = true /\ same_request p q) /\
  (m_nowPlaying s <> None ->
   IsPlaying (Stop no_subscriber s) = false /\
   Progress (Stop no_subscriber s)
     = clamp (static_cast_float (m_currentPlayFromProgress s))
         F32.zero F32.one).
Proof.
  intros Hrs. unfold Stop. rewrite Hrs. cbn [negb].
  destruct (m_nowPlaying s) as [cur |] eqn:Hcur; cbn [non_null].
  - rewrite SetProgress_supported by exact Hrs. cbv zeta. rewrite Hcur.
    rewrite Complete_current_no_subscriber by exact Hcur.
    split; [reflexivity |]. split.
    + intros cur' p [= <-] Hp. cbn.
      rewrite !list_lookup_alter_eq, Hp. cbn. eexists.
      split; [reflexivity |]. split; [reflexivity |].
      destruct (m_batch p); repeat split.
    + intros _. split; reflexivity.
  - split; [exact Hcur |]. split; [discriminate |].
    intros H. now destruct H.
Qed.

(** X21. When the element is unloaded while a visual is hooked up and
    no user code is called back (nobody is subscribed to [IsPlaying];
    subscribers to [Duration], [Diagnostics] and [IsAnimatedVisualLoaded]
    are not part of the model), the visual is removed from the
    root visual and closed, [Duration] becomes zero, [Diagnostics] null
    and [IsAnimatedVisualLoaded] false; the current play, if any, is
    completed and no play is left; the element then measures to zero. *)
Theorem unloading_releases_content (c : Control) (root : Visual)
    (animatedVisual : IAnimatedVisual) (availableSize : Size) :
  settled c ->
  m_animatedVisualRoot c = Some root ->
  m_animatedVisual c = Some animatedVisual ->
  m_isUnloaded (OnUnloaded no_subscriber c) = true /\
  m_animatedVisualRoot (OnUnloaded no_subscriber c) = None /\
  m_animatedVisual (OnUnloaded no_subscriber c) = None /\
  closed (OnUnloaded no_subscriber c) = animatedVisual :: closed c /\
  sv_Children (m_rootVisual (OnUnloaded no_subscriber c)) = [] /\
  Duration (core (OnUnloaded no_subscriber c)) = 0%Z /\
  IsAnimatedVisualLoaded (core (OnUnloaded no_subscriber c)) = false /\
  Diagnostics (OnUnloaded no_subscriber c) = None /\
  m_nowPlaying (core (OnUnloaded no_subscriber c)) = None /\
  IsPlaying (core (OnUnloaded no_subscriber c)) = false /\
  (forall cur p,
     m_nowPlaying (core c) = Some cur -> plays (core c) !! cur = Some p ->
     exists q,
       plays (core (OnUnloaded no_subscriber c)) !! cur = Some q /\
       awaits_completed q = true) /\
  MeasureOverride (OnUnloaded no_subscriber c) availableSize
    = mkSize F32.zero F32.zero.
Proof.
  intros Hc Hroot Hav. unfold OnUnloaded.
  rewrite (UnloadContent_loaded _ (with_m_isUnloaded true c) root
             animatedVisual (st_rs5 _ Hc) Hroot Hav).
  cbn.
  destruct (Stop_no_subscriber_completes (core c) (st_rs5 _ Hc))
    as (Hnone & Hdone & _).
  assert (Hplaying : IsPlaying (Stop no_subscriber (core c)) = false).
  { destruct (Stop_no_subscriber_sound _ (st_core _ Hc)) as (I & _).
    destruct (IsPlaying (Stop no_subscriber (core c))) eqn:E;
      [| reflexivity].
    now destruct (inv_playing _ _ I E). }
  assert (Hfb : m_isFallenBack c = false).
  { destruct (m_isFallenBack c) eqn:E; [| reflexivity].
    pose proof (st_fallback _ Hc E). congruence. }
  repeat split; try assumption.
  - intros cur p Hcur Hp. destruct (Hdone cur p Hcur Hp) as (q & Hq & Ha & _).
    now exists q.
  - unfold MeasureOverride. cbn. now rewrite Hfb.
Qed.

Lemma unloading_releases_content_witness :
  m_animatedVisualRoot (OnUnloaded no_subscriber playing_element) = None /\
  closed (OnUnloaded no_subscriber playing_element) = [one_second_visual] /\
  m_nowPlaying (core (OnUnloaded no_subscriber playing_element)) = None /\
  IsPlaying (core playing_element) = true.
Proof.
  destruct (unloading_releases_content playing_element 7%nat
              one_second_visual (mkSize Infinity Infinity)
              playing_element_settled eq_refl eq_refl)
    as (_ & H1 & _ & H2 & _ & _ & _ & _ & H3 & _).
  split; [exact H1 |]. split; [exact H2 |]. split; [exact H3 |].
  reflexivity.
Defined.

(** Whatever the span, a play over a [Duration] of zero is too short to
    animate. *)
Lemma requested_play_without_duration f t l :
  (m_playDuration (requested_play 0%Z f t l) < ms20)%Z.
Proof.
  unfold requested_play, AnimationPlay_new, TimeSpan_mul.
  cbn [m_playDuration].
  destruct (durationAsProgress _ _) as [s | s | | s m e]; reflexivity.
Qed.

Lemma adjust_then_clamp_valid f t :
  F32.valid (fst (adjust_then_clamp f t)) = true.
Proof.
  unfold adjust_then_clamp. destruct (adjust_range f t) as [f' t'].
  apply clamp_valid, static_cast_float_valid.
Qed.

Lemma adjust_then_clamp_clamped f t :
  clamp (fst (adjust_then_clamp f t)) F32.zero F32.one
  = fst (adjust_then_clamp f t).
Proof.
  unfold adjust_then_clamp. destruct (adjust_range f t) as [f' t'].
  apply clamp_idempotent.
Qed.

Lemma core_on_core f c : core (on_core f c) = f (core c).
Proof. reflexivity. Qed.

Lemma root_on_core f c :
  m_animatedVisualRoot (on_core f c) = m_animatedVisualRoot c.
Proof. reflexivity. Qed.

Lemma hooked_up_root animatedVisual c :
  m_animatedVisualRoot (hooked_up animatedVisual c)
  = av_RootVisual animatedVisual.
Proof. unfold hooked_up. destruct (m_isFallenBack c); reflexivity. Qed.

(** [Start] of a current play whose duration is below 20ms. *)
Lemma Start_without_duration n p s :
  IsRS5OrHigher s = true ->
  m_nowPlaying s = Some n ->
  plays s !! n = Some p ->
  m_controller p = None ->
  m_batch p = false ->
  (m_playDuration p < ms20)%Z ->
  F32.valid (m_fromProgress p) = true ->
  clamp (m_fromProgress p) F32.zero F32.one = m_fromProgress p ->
  m_nowPlaying (Start no_subscriber n s) = None /\
  IsPlaying (Start no_subscriber n s) = false /\
  plays (Start no_subscriber n s) !! n = Some (set_awaits_completed true p) /\
  m_progressPropertySet (Start no_subscriber n s)
    = mkPropertySet (m_fromProgress p) None.
Proof.
  intros Hrs Hcur Hp Hc Hb Hshort Hvalid Hrange.
  rewrite (Start_short _ n p s Hp Hshort), Hc.
  unfold MUX_ASSERT. cbn [non_null negb].
  rewrite SetProgress_supported by exact Hrs. cbv zeta. rewrite Hcur.
  rewrite Complete_current_no_subscriber by exact Hcur.
  rewrite (static_cast_float_promote _ Hvalid), Hrange.
  cbn. rewrite !list_lookup_alter_eq, Hp. cbn. rewrite Hb.
  repeat split.
Qed.
(** X22. A play requested while no visual is hooked up does not play
    when the content arrives: [UpdateContent] hooks the visual up and
    starts the waiting play, whose duration was computed from a
    [Duration] of zero, so the play completes at once. Afterwards the
    visual is loaded, [Progress] is the play's start position, nothing is
    animated, no play is current, and [AutoPlay] has not started one. No
    user code is called back: nobody is subscribed to [IsPlaying], and
    subscribers to [Duration], [Diagnostics] and [IsAnimatedVisualLoaded]
    are not part of the model. *)
Theorem play_requested_without_content (f t : double) (l : bool)
    (c : Control) (source : IAnimatedVisualSource)
    (animatedVisual : IAnimatedVisual) (root : Visual) :
  settled c ->
  m_animatedVisualRoot c = None ->
  Source c = Some source ->
  creates source animatedVisual root ->
  m_nowPlaying (core (on_core (invoke no_subscriber (CallPlayAsync f t l)) c))
    = Some (length (plays (core c))) /\
  m_animatedVisualRoot
    (UpdateContent no_subscriber
       (on_core (invoke no_subscriber (CallPlayAsync f t l)) c))
    = Some root /\
  IsAnimatedVisualLoaded
    (core (UpdateContent no_subscriber
             (on_core (invoke no_subscriber (CallPlayAsync f t l)) c)))
    = true /\
  m_nowPlaying
    (core (UpdateContent no_subscriber
             (on_core (invoke no_subscriber (CallPlayAsync f t l)) c)))
    = None /\
  IsPlaying
    (core (UpdateContent no_subscriber
             (on_core (invoke no_subscriber (CallPlayAsync f t l)) c)))
    = false /\
  plays
    (core (UpdateContent no_subscriber
             (on_core (invoke no_subscriber (CallPlayAsync f t l)) c)))
    !! length (plays (core c))
    = Some (set_awaits_completed true (requested_play 0%Z f t l)) /\
  m_progressPropertySet
    (core (UpdateContent no_subscriber
             (on_core (invoke no_subscriber (CallPlayAsync f t l)) c)))
    = mkPropertySet (fst (adjust_then_clamp f t)) None.
Proof.
  intros Hc Hroot Hsrc (Hcreate & Hr & Hne).
  pose proof (st_rs5 _ Hc) as Hrs.
  assert (Hl : IsAnimatedVisualLoaded (core c) = false)
    by (rewrite (st_loaded _ Hc), Hroot; reflexivity).
  destruct (st_empty _ Hc Hroot) as (Hd & _ & _).
  destruct (Stop_no_subscriber
              (set_m_playAsyncVersion (S (m_playAsyncVersion (core c)))
                 (core c)))
    as (_ & Hlen & _ & _ & _ & Hrs3 & _).
  fold (after_Stop no_subscriber (core c)) in Hlen, Hrs3.
  change (length (plays (after_Stop no_subscriber (core c)))
          = length (plays (core c))) in Hlen.
  change (IsRS5OrHigher (after_Stop no_subscriber (core c))
          = IsRS5OrHigher (core c)) in Hrs3.
  assert (E1 : invoke no_subscriber (CallPlayAsync f t l) (core c)
               = install (requested_play 0%Z f t l)
                   (after_Stop no_subscriber (core c))).
  { cbn [invoke]. rewrite (PlayAsync_no_subscriber f t l _ Hrs).
    cbv zeta. cbn [fst]. now rewrite Hl, Hd. }
  rewrite !core_on_core, E1.
  assert (Hun : UnloadContent no_subscriber
                  (on_core (invoke no_subscriber (CallPlayAsync f t l)) c)
                = on_core (invoke no_subscriber (CallPlayAsync f t l)) c)
    by (now apply UnloadContent_nothing).
  destruct (TryCreateAnimatedVisual source) as [a diag] eqn:Ht.
  cbn [fst] in Hcreate. subst a.
  assert (He : negb (non_null (av_RootVisual animatedVisual))
               || float2_eqb (av_Size animatedVisual) float2_zero = false)
    by (now rewrite Hr, Hne).
  rewrite (UpdateContent_created _ _ source animatedVisual diag);
    [| rewrite Hun; exact Hsrc | exact Ht | exact He].
  rewrite Hun, core_on_core, E1.
  generalize dependent (after_Stop no_subscriber (core c)).
  intros s3 Hlen Hrs3 E1.
  set (p := requested_play 0%Z f t l) in *.
  assert (Hn3 : m_nowPlaying (install p s3) = Some (length (plays (core c))))
    by (unfold install; cbn; now rewrite Hlen).
  rewrite Hn3.
  split; [reflexivity |].
  rewrite root_on_core, hooked_up_root, core_on_core, hooked_up_core.
  split; [exact Hr |].
  change (core (put_Diagnostics diag
                  (with_m_animatedVisual (Some animatedVisual)
                     (on_core (invoke no_subscriber (CallPlayAsync f t l))
                        c))))
    with (invoke no_subscriber (CallPlayAsync f t l) (core c)).
  rewrite E1.
  set (n := length (plays (core c))) in *.
  set (s5 := set_IsAnimatedVisualLoaded true
               (set_Duration (av_Duration animatedVisual) (install p s3))).
  assert (Hrs5 : IsRS5OrHigher s5 = true) by (cbn; congruence).
  assert (Hcur5 : m_nowPlaying s5 = Some n) by exact Hn3.
  assert (Hp5 : plays s5 !! n = Some p).
  { cbn. rewrite <- Hlen. apply list_lookup_middle. reflexivity. }
  assert (Hshort : (m_playDuration p < ms20)%Z)
    by (unfold p; apply requested_play_without_duration).
  assert (Hloaded5 : forall x, IsAnimatedVisualLoaded (Start no_subscriber x s5)
                               = true).
  { intros x. now destruct (Start_calm x s5 eq_refl) as (_ & _ & -> & _). }
  destruct (Start_without_duration n p s5 Hrs5 Hcur5 Hp5 eq_refl eq_refl
              Hshort (adjust_then_clamp_valid f t)
              (adjust_then_clamp_clamped f t))
    as (H1 & H2 & H3 & H4).
  clearbody s5.
  split; [apply Hloaded5 |]. split; [exact H1 |]. split; [exact H2 |].
  split; [exact H3 | exact H4].
Qed.

Lemma unloaded_element_settled : settled unloaded_element.
Proof. apply host_run_settled, constructed_settled. Qed.

Lemma play_requested_without_content_witness :
  m_nowPlaying
    (core (UpdateContent no_subscriber
             (on_core (invoke no_subscriber (CallPlayAsync (F64.ratio 1 4) F64.one false))
                unloaded_element)))
    = None /\
  m_progressPropertySet
    (core (UpdateContent no_subscriber
             (on_core (invoke no_subscriber (CallPlayAsync (F64.ratio 1 4) F64.one false))
                unloaded_element)))
    = mkPropertySet (static_cast_float (F64.ratio 1 4)) None.
Proof.
  destruct (play_requested_without_content (F64.ratio 1 4) F64.one false
              unloaded_element
              static_source one_second_visual 7%nat
              unloaded_element_settled eq_refl eq_refl)
    as (_ & _ & _ & H1 & _ & _ & H2).
  - repeat split.
  - exact (conj H1 H2).
Defined.

Lemma requested_play_whole d :
  requested_play d F64.zero F64.one true = whole_animation_looped d.
Proof.
  unfold requested_play, whole_animation_looped.
  assert (E : adjust_then_clamp F64.zero F64.one = (F32.zero, F32.one))
    by (vm_compute; reflexivity).
  rewrite E. reflexivity.
Qed.

(** The animation of the whole visual: two key frames. *)
Lemma animation_of_whole d :
  animation_of (whole_animation_looped d)
  = mkAnimation (m_playDuration (whole_animation_looped d))
      [(F32.zero, F32.zero); (F32.one, F32.one)] Forever.
Proof.
  unfold animation_of, key_frames, whole_animation_looped, AnimationPlay_new.
  cbn [m_fromProgress m_toProgress m_looped m_playDuration].
  assert (E : SFltb F32.one F32.zero = false) by reflexivity.
  rewrite E. reflexivity.
Qed.

(** A visual of 20ms or more is long enough for its whole animation to
    be played: the duration of the play is the duration of the visual up
    to the rounding of [float]. *)
Lemma whole_animation_long (d : TimeSpan) :
  (ms20 <= d <= 2 ^ 62)%Z ->
  (ms20 <= m_playDuration (whole_animation_looped d))%Z /\
  (Qabs (inject_Z (m_playDuration (whole_animation_looped d)) - inject_Z d)
   < inject_Z d * (1 # 2097152) + 1)%Q.
Proof.
  intros Hd. unfold ms20 in Hd.
  assert (HD : (0 <= d <= 2 ^ 62)%Z) by lia.
  pose proof (play_duration_bounds d F32.zero F32.one true HD
                eq_refl eq_refl eq_refl eq_refl) as H.
  cbv zeta in H. fold (whole_animation_looped d) in H.
  assert (E : SFltb F32.one F32.zero = false) by reflexivity.
  rewrite E in H.
  assert (E1 : (F2Q F32.one - F2Q F32.zero == 1)%Q) by reflexivity.
  rewrite E1 in H. destruct H as [L U].
  set (n := m_playDuration (whole_animation_looped d)) in *.
  split.
  - destruct (Z.le_gt_cases 200002 d) as [Hbig | Hsmall].
    + assert (Hq : (200002 # 1 <= inject_Z d)%Q)
        by (change (200002 # 1)%Q with (inject_Z 200002);
            rewrite <- Zle_Qle; exact Hbig).
      assert (Hn : (inject_Z 200000 < inject_Z n)%Q)
        by (change (inject_Z 200000) with (200000 # 1)%Q; lra).
      rewrite <- Zlt_Qlt in Hn. unfold ms20. lia.
    + assert (Hc : d = 200000%Z \/ d = 200001%Z) by lia.
      unfold n. destruct Hc as [-> | ->]; vm_compute; discriminate.
  - apply Qabs_Qlt_condition. split; lra.
Qed.

(** The automatic play on a loaded player with no current play. *)
Lemma PlayAsync_whole_animation s d :
  IsRS5OrHigher s = true ->
  m_nowPlaying s = None ->
  IsAnimatedVisualLoaded s = true ->
  Duration s = d ->
  (ms20 <= m_playDuration (whole_animation_looped d))%Z ->
  m_nowPlaying (fst (PlayAsync no_subscriber F64.zero F64.one true s))
    = Some (length (plays s)) /\
  plays (fst (PlayAsync no_subscriber F64.zero F64.one true s))
    !! length (plays s)
    = Some (started_play (PlaybackRate s) (whole_animation_looped d)) /\
  IsPlaying (fst (PlayAsync no_subscriber F64.zero F64.one true s)) = true /\
  ps_Animation
    (m_progressPropertySet
       (fst (PlayAsync no_subscriber F64.zero F64.one true s)))
    = Some (mkAnimation (m_playDuration (whole_animation_looped d))
              [(F32.zero, F32.zero); (F32.one, F32.one)] Forever) /\
  Duration (fst (PlayAsync no_subscriber F64.zero F64.one true s)) = d.
Proof.
  intros Hrs Hcur Hl Hd Hlong.
  rewrite <- animation_of_whole.
  rewrite (PlayAsync_no_subscriber F64.zero F64.one true s Hrs).
  cbv zeta. cbn [fst].
  rewrite Hl, Hd, requested_play_whole.
  set (p := whole_animation_looped d).
  assert (Estop : after_Stop no_subscriber s
                  = set_m_playAsyncVersion (S (m_playAsyncVersion s)) s).
  { unfold after_Stop.
    now destruct (Stop_no_subscriber
                    (set_m_playAsyncVersion (S (m_playAsyncVersion s)) s))
      as (_ & _ & _ & _ & _ & _ & _ & ->). }
  rewrite Estop.
  set (s6 := install p _).
  set (n := length (plays s)).
  assert (Hp6 : plays s6 !! n = Some p)
    by (apply list_lookup_middle; reflexivity).
  assert (Hd6 : Duration s6 = d) by exact Hd.
  assert (Hr6 : PlaybackRate s6 = PlaybackRate s) by reflexivity.
  assert (Hn6 : m_nowPlaying s6 = Some n) by reflexivity.
  rewrite (Start_long _ n p s6 Hp6 Hlong).
  assert (Hc6 : m_controller p = None) by reflexivity.
  rewrite Hc6. unfold MUX_ASSERT. cbn [non_null negb].
  unfold put_IsPlaying, no_subscriber.
  destruct (started_fields n p s6) as (Hn & _ & _ & _ & _ & Hps).
  destruct (started_calm n p s6) as (_ & HD & _).
  pose proof (started_plays_this n p s6 Hp6 eq_refl) as Hthis.
  clearbody s6. clearbody p.
  cbn [m_nowPlaying plays IsPlaying m_progressPropertySet emit
       set_IsPlaying Duration].
  rewrite Hn, Hn6, Hthis, Hr6, Hps, HD, Hd6.
  repeat split.
Qed.

(** X23. When content of 20ms or more is loaded and no play is waiting,
    [AutoPlay] decides what happens: if it is set, the whole animation is
    played from 0 to 1, looped, and [IsPlaying] is true; the duration of
    the play is the duration of the visual as [float] arithmetic gives
    it, less than a tick plus [2^-21] of it away. If [AutoPlay] is not
    set, nothing plays. A play that was current while the previous visual
    was shown does not survive the reload. No user code is called back:
    nobody is subscribed to [IsPlaying], and subscribers to [Duration],
    [Diagnostics] and [IsAnimatedVisualLoaded] are not part of the
    model. *)
Theorem content_loaded_then_AutoPlay (c : Control)
    (source : IAnimatedVisualSource) (animatedVisual : IAnimatedVisual)
    (root : Visual) :
  settled c ->
  Source c = Some source ->
  creates source animatedVisual root ->
  m_animatedVisualRoot c <> None \/ m_nowPlaying (core c) = None ->
  (ms20 <= av_Duration animatedVisual <= 2 ^ 62)%Z ->
  m_animatedVisualRoot (UpdateContent no_subscriber c) = Some root /\
  Duration (core (UpdateContent no_subscriber c))
    = av_Duration animatedVisual /\
  (Qabs (inject_Z (m_playDuration
                     (whole_animation_looped (av_Duration animatedVisual)))
         - inject_Z (av_Duration animatedVisual))
   < inject_Z (av_Duration animatedVisual) * (1 # 2097152) + 1)%Q /\
  if AutoPlay c then
    exists n,
      m_nowPlaying (core (UpdateContent no_subscriber c)) = Some n /\
      plays (core (UpdateContent no_subscriber c)) !! n
        = Some (started_play (PlaybackRate (core c))
                  (whole_animation_looped (av_Duration animatedVisual))) /\
      IsPlaying (core (UpdateContent no_subscriber c)) = true /\
      ps_Animation (m_progressPropertySet
                      (core (UpdateContent no_subscriber c)))
        = Some (mkAnimation
                  (m_playDuration
                     (whole_animation_looped (av_Duration animatedVisual)))
                  [(F32.zero, F32.zero); (F32.one, F32.one)] Forever)
  else
    m_nowPlaying (core (UpdateContent no_subscriber c)) = None /\
    IsPlaying (core (UpdateContent no_subscriber c)) = false.
Proof.
  intros Hc Hsrc (Hcreate & Hr & Hne) Hidle Hlong.
  apply whole_animation_long in Hlong as [Hlong Hclose].
  destruct (UnloadContent_settled c Hc)
    as (H1 & Hroot1 & Hnone1 & Hsrc1 & Hauto1 & _).
  assert (Hcur1 : m_nowPlaying (core (UnloadContent no_subscriber c)) = None).
  { destruct (m_animatedVisualRoot c) eqn:E.
    - now apply Hnone1.
    - rewrite (UnloadContent_nothing _ _ E).
      destruct Hidle as [Hidle | Hidle]; [now destruct Hidle | exact Hidle]. }
  assert (Hrate1 : PlaybackRate (core (UnloadContent no_subscriber c))
                   = PlaybackRate (core c)).
  { destruct (m_animatedVisualRoot c) as [r0 |] eqn:E.
    - destruct (st_content _ Hc r0 E) as (av0 & Hav0 & _).
      rewrite (UnloadContent_loaded _ c r0 av0 (st_rs5 _ Hc) E Hav0).
      cbn [core PlaybackRate set_IsAnimatedVisualLoaded set_Duration].
      now destruct (Stop_no_subscriber (core c)) as (_ & _ & _ & H & _).
    - now rewrite (UnloadContent_nothing _ _ E). }
  destruct (TryCreateAnimatedVisual source) as [a diag] eqn:Ht.
  cbn [fst] in Hcreate. subst a.
  assert (He : negb (non_null (av_RootVisual animatedVisual))
               || float2_eqb (av_Size animatedVisual) float2_zero = false)
    by (now rewrite Hr, Hne).
  rewrite Hsrc in Hsrc1.
  rewrite (UpdateContent_created _ c _ _ _ Hsrc1 Ht He).
  rewrite Hcur1, Hauto1.
  destruct (st_empty _ H1 Hroot1) as (_ & _ & Hnp1).
  pose proof (st_rs5 _ H1) as Hrs1.
  generalize dependent (UnloadContent no_subscriber c).
  intros c1 H1 Hroot1 _ _ _ Hcur1 Hrate1 Hnp1 Hrs1.
  destruct (AutoPlay c).
  - unfold play_all_looped.
    rewrite root_on_core, hooked_up_root, !core_on_core, hooked_up_core.
    change (core (put_Diagnostics diag
                    (with_m_animatedVisual (Some animatedVisual) c1)))
      with (core c1).
    destruct (PlayAsync_whole_animation
                (set_IsAnimatedVisualLoaded true
                   (set_Duration (av_Duration animatedVisual) (core c1)))
                (av_Duration animatedVisual) Hrs1 Hcur1 eq_refl eq_refl Hlong)
      as (P1 & P2 & P3 & P4 & P5).
    split; [exact Hr |]. split; [exact P5 |]. split; [exact Hclose |].
    eexists. split; [exact P1 |]. split; [| split; [exact P3 | exact P4]].
    rewrite P2. f_equal. f_equal. exact Hrate1.
  - rewrite hooked_up_root, hooked_up_core.
    split; [exact Hr |]. split; [reflexivity |]. split; [exact Hclose |].
    split; [exact Hcur1 | exact Hnp1].
Qed.

Lemma content_loaded_then_AutoPlay_witness :
  m_animatedVisualRoot (UpdateContent no_subscriber unloaded_element)
    = Some 7%nat /\
  IsPlaying (core (UpdateContent no_subscriber unloaded_element)) = true.
Proof.
  destruct (content_loaded_then_AutoPlay unloaded_element static_source
              one_second_visual 7%nat unloaded_element_settled eq_refl)
    as (H1 & _ & _ & H2).
  - repeat split.
  - now right.
  - vm_compute. split; discriminate.
  - split; [exact H1 |].
    change (AutoPlay unloaded_element) with true in H2.
    destruct H2 as (n & _ & _ & H2 & _). exact H2.
Defined.

Lemma UnloadContent_frame h c :
  FallbackContent (UnloadContent h c) = FallbackContent c /\
  m_isFallenBack (UnloadContent h c) = m_isFallenBack c /\
  Children (UnloadContent h c) = Children c.
Proof.
  unfold UnloadContent. destruct (negb _); [repeat split |].
  destruct (non_null _); [| repeat split]. cbn.
  destruct (m_animatedVisual c); repeat split.
Qed.

(** X24. When the source fails to create a visual and no user code is
    called back (nobody is subscribed to [IsPlaying]; subscribers to
    [Duration], [Diagnostics] and [IsAnimatedVisualLoaded] are not part
    of the model), the element falls back: it shows the
    content of the [FallbackContent] template, if there is one, and
    measures to what that content desires (to zero without a template);
    no visual is loaded, the diagnostics of the failed attempt are
    published, and a play that was waiting is completed. *)
Theorem failed_load_falls_back (c : Control)
    (source : IAnimatedVisualSource) (availableSize : Size) :
  settled c ->
  Source c = Some source ->
  fst (TryCreateAnimatedVisual source) = None ->
  m_isFallenBack (UpdateContent no_subscriber c) = true /\
  m_animatedVisualRoot (UpdateContent no_subscriber c) = None /\
  IsAnimatedVisualLoaded (core (UpdateContent no_subscriber c)) = false /\
  Diagnostics (UpdateContent no_subscriber c)
    = snd (TryCreateAnimatedVisual source) /\
  m_nowPlaying (core (UpdateContent no_subscriber c)) = None /\
  IsPlaying (core (UpdateContent no_subscriber c)) = false /\
  Children (UpdateContent no_subscriber c)
    = match FallbackContent c with
      | Some template => [LoadContent template]
      | None => []
      end /\
  MeasureOverride (UpdateContent no_subscriber c) availableSize
    = match FallbackContent c with
      | Some template => DesiredSize (LoadContent template) availableSize
      | None => mkSize F32.zero F32.zero
      end.
Proof.
  intros Hc Hsrc Hfail.
  pose proof (UpdateContent_settled c Hc) as H'.
  destruct (UnloadContent_settled c Hc) as (H1 & Hroot1 & _ & Hsrc1 & _).
  destruct (UnloadContent_frame no_subscriber c) as (Hf1 & Hfb1 & Hch1).
  rewrite Hsrc in Hsrc1.
  destruct (TryCreateAnimatedVisual source) as [a diag] eqn:Ht.
  cbn [fst] in Hfail. subst a. cbn [snd].
  assert (E : UpdateContent no_subscriber c = _)
    by exact (UpdateContent_failed _ c _ _ Hsrc1 Ht).
  pose proof (st_children _ H1) as Hkids. unfold fallback_children in Hkids.
  generalize dependent (UnloadContent no_subscriber c).
  intros c1 H1 Hroot1 Hsrc1 Hf1 Hfb1 Hch1 E Hkids.
  assert (Hfacts :
    m_isFallenBack (UpdateContent no_subscriber c) = true /\
    m_animatedVisualRoot (UpdateContent no_subscriber c) = None /\
    Diagnostics (UpdateContent no_subscriber c) = diag /\
    m_nowPlaying (core (UpdateContent no_subscriber c)) = None /\
    Children (UpdateContent no_subscriber c)
    = match FallbackContent c with
      | Some template => [LoadContent template]
      | None => []
      end).
  { rewrite E.
    rewrite core_on_core.
    destruct (CompleteCurrentPlay_no_subscriber
                (core (if negb (m_isFallenBack c1)
                       then LoadFallbackContent
                              (with_m_isFallenBack true
                                 (put_Diagnostics diag
                                    (with_m_animatedVisual None c1)))
                       else put_Diagnostics diag
                              (with_m_animatedVisual None c1))))
      as (_ & ->).
    destruct (m_isFallenBack c1) eqn:Hfb; cbn [negb].
    - cbn. rewrite Hfb, Hkids, Hf1. repeat split; assumption.
    - unfold LoadFallbackContent, SetFallbackContent. cbn.
      rewrite Hf1. destruct (FallbackContent c); cbn;
        repeat split; assumption. }
  clear E.
  destruct Hfacts as (F1 & F2 & F3 & F4 & F5).
  assert (F6 : IsAnimatedVisualLoaded (core (UpdateContent no_subscriber c))
               = false) by (rewrite (st_loaded _ H'), F2; reflexivity).
  assert (F7 : IsPlaying (core (UpdateContent no_subscriber c)) = false)
    by (now destruct (st_empty _ H' F2) as (_ & _ & ?)).
  repeat (split; [assumption |]).
  unfold MeasureOverride. rewrite F1, F5, F2.
  destruct (FallbackContent c); reflexivity.
Qed.

Lemma failing_element_settled : settled failing_element.
Proof.
  pose proof (host_run_settled
                [HostFallbackContent (Some fallback_template)] fresh_element
                (constructed_settled true Stretch_Uniform F64.one F64.zero))
    as [S1 S2 S3 S4 S5 S6 S7 S8].
  constructor; assumption.
Qed.

Lemma failed_load_falls_back_witness :
  m_isFallenBack (UpdateContent no_subscriber failing_element) = true /\
  MeasureOverride (UpdateContent no_subscriber failing_element)
    (mkSize Infinity Infinity) = mkSize (F32.of_Z 40) (F32.of_Z 30).
Proof.
  destruct (failed_load_falls_back failing_element failing_source
              (mkSize Infinity Infinity) failing_element_settled
              eq_refl eq_refl)
    as (H1 & _ & _ & _ & _ & _ & _ & H2).
  exact (conj H1 H2).
Defined.

Lemma hooked_up_children animatedVisual c :
  sv_Children (m_rootVisual (hooked_up animatedVisual c))
  = match av_RootVisual animatedVisual with
    | Some root => [root]
    | None => []
    end ++ sv_Children (m_rootVisual c).
Proof. unfold hooked_up. destruct (m_isFallenBack c); reflexivity. Qed.

Lemma hooked_up_closed animatedVisual c :
  closed (hooked_up animatedVisual c) = closed c.
Proof. unfold hooked_up. destruct (m_isFallenBack c); reflexivity. Qed.

Lemma PlayAsync_unsupported h f t l s :
  IsRS5OrHigher s = false -> PlayAsync h f t l s = (s, Returned).
Proof. intros Hrs. unfold PlayAsync. now rewrite Hrs. Qed.

(** X25. Below RS5 [UnloadContent] does nothing, but [UpdateContent]
    still hooks up what the source creates: with whatever subscriber to
    [IsPlaying] (subscribers to the other properties are not part of the
    model), each update adds the new visual on top of those already
    in the root visual and closes none, reports the content as loaded,
    and starts no play. *)
Theorem below_RS5_content_piles_up (h : Handler) (c : Control)
    (source : IAnimatedVisualSource) (animatedVisual : IAnimatedVisual)
    (root : Visual) :
  IsRS5OrHigher (core c) = false ->
  m_nowPlaying (core c) = None ->
  Source c = Some source ->
  creates source animatedVisual root ->
  UnloadContent h c = c /\
  sv_Children (m_rootVisual (UpdateContent h c))
    = root :: sv_Children (m_rootVisual c) /\
  closed (UpdateContent h c) = closed c /\
  IsAnimatedVisualLoaded (core (UpdateContent h c)) = true /\
  m_nowPlaying (core (UpdateContent h c)) = None /\
  IsRS5OrHigher (core (UpdateContent h c)) = false /\
  Source (UpdateContent h c) = Some source.
Proof.
  intros Hrs Hcur Hsrc (Hcreate & Hr & Hne).
  assert (Hun : UnloadContent h c = c)
    by (unfold UnloadContent; now rewrite Hrs).
  split; [exact Hun |].
  destruct (TryCreateAnimatedVisual source) as [a diag] eqn:Ht.
  cbn [fst] in Hcreate. subst a.
  assert (He : negb (non_null (av_RootVisual animatedVisual))
               || float2_eqb (av_Size animatedVisual) float2_zero = false)
    by (now rewrite Hr, Hne).
  rewrite (UpdateContent_created h c source animatedVisual diag);
    [| rewrite Hun; exact Hsrc | exact Ht | exact He].
  rewrite Hun, Hcur.
  set (c2 := put_Diagnostics diag
               (with_m_animatedVisual (Some animatedVisual) c)).
  assert (E : (if AutoPlay c
               then play_all_looped h (hooked_up animatedVisual c2)
               else hooked_up animatedVisual c2)
              = hooked_up animatedVisual c2).
  { destruct (AutoPlay c); [| reflexivity].
    unfold play_all_looped, on_core.
    rewrite PlayAsync_unsupported
      by (rewrite hooked_up_core; exact Hrs).
    cbn [fst]. now destruct (hooked_up animatedVisual c2). }
  rewrite E, hooked_up_children, hooked_up_closed, hooked_up_core, Hr.
  repeat split; try assumption.
  unfold hooked_up. destruct (m_isFallenBack c2); exact Hsrc.
Qed.

Lemma below_RS5_content_piles_up_witness :
  sv_Children
    (m_rootVisual
       (UpdateContent no_subscriber
          (UpdateContent no_subscriber old_OS_element)))
  = [7%nat; 7%nat].
Proof.
  destruct (below_RS5_content_piles_up no_subscriber old_OS_element
              static_source one_second_visual 7%nat eq_refl eq_refl eq_refl)
    as (_ & H1 & _ & _ & H2 & H3 & H4); [repeat split |].
  destruct (below_RS5_content_piles_up no_subscriber
              (UpdateContent no_subscriber old_OS_element)
              static_source one_second_visual 7%nat H3 H2 H4)
    as (_ & H5 & _); [repeat split |].
  rewrite H5, H1. reflexivity.
Defined.

(** * Releasing the awaiters at teardown *)

Lemma fresh_element_settled : settled fresh_element.
Proof. apply constructed_settled. Qed.

(** C9. The action [PlayAsync] returns completes when its play does.
    Note 2 of [AnimationPlay::Complete] says that an uncompleted play is
    completed when the element is unloaded, but [UnloadContent] calls
    [Stop] only while a visual is hooked up. A play requested before any
    content was loaded therefore survives [OnUnloaded]: it is still the
    current play, its awaiters have not been released, and the destructor
    of the element fails fast. *)
Theorem unloading_leaves_waiting_play (h : Handler) (f t : double)
    (l : bool) (c : Control) :
  settled c ->
  m_animatedVisualRoot c = None ->
  snd (PlayAsync no_subscriber f t l (core c))
  = AwaitingPlay (length (plays (core c))) /\
  m_nowPlaying
    (core (OnUnloaded h
             (on_core (fun s => fst (PlayAsync no_subscriber f t l s)) c)))
  = Some (length (plays (core c))) /\
  plays
    (core (OnUnloaded h
             (on_core (fun s => fst (PlayAsync no_subscriber f t l s)) c)))
    !! length (plays (core c))
  = Some (requested_play 0%Z f t l) /\
  awaits_completed (requested_play 0%Z f t l) = false /\
  destructor_fails_fast
    (OnUnloaded h
       (on_core (fun s => fst (PlayAsync no_subscriber f t l s)) c))
  = true.
Proof.
  intros Hc Hroot.
  pose proof (st_rs5 _ Hc) as Hrs.
  assert (Hl : IsAnimatedVisualLoaded (core c) = false)
    by (rewrite (st_loaded _ Hc), Hroot; reflexivity).
  destruct (st_empty _ Hc Hroot) as (Hd & _ & _).
  destruct (st_core _ Hc) as (I & _ & _).
  destruct (PlayAsync_before_content f t l (core c) Hrs Hl I)
    as (H1 & H2 & H3 & _).
  assert (E : OnUnloaded h
                (on_core (fun s => fst (PlayAsync no_subscriber f t l s)) c)
              = with_m_isUnloaded true
                  (on_core (fun s => fst (PlayAsync no_subscriber f t l s))
                     c))
    by (unfold OnUnloaded; now apply UnloadContent_nothing).
  rewrite E. unfold destructor_fails_fast.
  change (core (with_m_isUnloaded true
                  (on_core (fun s => fst (PlayAsync no_subscriber f t l s))
                     c)))
    with (fst (PlayAsync no_subscriber f t l (core c))).
  rewrite H2, H3, Hd.
  split; [exact H1 |]. split; [reflexivity |]. split; [reflexivity |].
  split; reflexivity.
Qed.

Lemma unloading_leaves_waiting_play_witness :
  snd (PlayAsync no_subscriber F64.zero F64.one false (core fresh_element))
  = AwaitingPlay 0 /\
  m_nowPlaying
    (core (host_run no_subscriber
             [HostPlayer (CallPlayAsync F64.zero F64.one false);
              HostUnloaded]
             fresh_element))
  = Some 0%nat /\
  (awaits_completed
   <$> plays (core (host_run no_subscriber
                      [HostPlayer (CallPlayAsync F64.zero F64.one false);
                       HostUnloaded]
                      fresh_element)))
  = [false] /\
  destructor_fails_fast
    (host_run no_subscriber
       [HostPlayer (CallPlayAsync F64.zero F64.one false); HostUnloaded]
       fresh_element)
  = true.
Proof.
  destruct (unloading_leaves_waiting_play no_subscriber F64.zero F64.one
              false fresh_element fresh_element_settled eq_refl)
    as (H1 & H2 & _ & _ & H3).
  split; [exact H1 |]. split; [exact H2 |].
  split; [vm_compute; reflexivity | exact H3].
Defined.
